(** * NeoMutt POP3 / TLS / transport core: a shallow embedding

    The development follows three source units:
    - [conn/socket.c]  : the buffered transport ([mutt_socket_readchar],
      [mutt_socket_readln_d]);
    - [pop.c]          : the POP3 mailbox driver ([fetch_uidl],
      [pop_fetch_headers], [pop_fetch_message], [pop_check_mailbox]);
    - [conn/ssl.c]     : the OpenSSL trust engine ([hostname_match],
      [check_certificate_cache], [interactive_check_cert],
      [ssl_verify_callback]).

    Further modules cover the rest of these units: writing, polling and
    opening a raw socket ([SocketOps]); [pop_sync_mailbox] and
    [pop_fetch_mail] ([PopOps]); [check_host], the trust file and what the
    callback saves ([SslOps]); the set-up and tear-down of a TLS session,
    [ssl_load_certificates] and [add_entropy] ([TlsOps]).

    C [char] values are [ascii]; C strings are [string] / [list ascii] that
    hold no NUL character; [int], [size_t] and [time_t] values are [Z].
    A computation that may touch memory outside an array lives in [option],
    where [None] is the out-of-bounds access, or a signed counter leaving
    the range of [int]. *)

From Stdlib Require Import ZArith Lia Ascii String DecimalString.
From stdpp Require Import base option list numbers strings.

Open Scope Z_scope.

(** ** Characters shared by all units *)

Definition NUL : ascii := "000"%char.
Definition LF : ascii := "010"%char.
Definition CR : ascii := "013"%char.

(* ===================================================================== *)
(** * Transport: conn/socket.c *)
(* ===================================================================== *)

Module Socket.

(** What one call of the [conn_read] method observes.  [ReadData bs] with
    [bs] non-empty delivers bytes; [ReadData []] is a return of 0 (the peer
    closed the stream); [ReadFail] is the return -1. *)
Inductive ReadResult :=
  | ReadData (bs : list ascii)
  | ReadFail.

(** [struct Connection], restricted to what the read path touches.  [peer]
    is the environment: the outcomes the following [conn_read] calls will
    see.  An exhausted [peer] reads as end of stream. *)
Record Connection := mkConnection {
  fd : Z;
  inbuf : list ascii;
  bufpos : Z;
  available : Z;
  peer : list ReadResult;
}.

Section Transport.

(** [sizeof(conn->inbuf)]; the array is declared in connection.h, which is
    not part of this tree. *)
Variable inbuf_size : nat.

(** [conn->conn_read(conn, conn->inbuf, sizeof(conn->inbuf))]: the return
    value, the receive window after the call, and the rest of the stream.
    A chunk larger than the window is delivered in pieces. *)
Definition conn_read (c : Connection) : Z * list ascii * list ReadResult :=
  match peer c with
  | [] => (0, inbuf c, [])
  | ReadFail :: rest => (-1, inbuf c, rest)
  | ReadData bs :: rest =>
      let chunk := take inbuf_size bs in
      let more := drop inbuf_size bs in
      (Z.of_nat (length chunk),
       chunk ++ drop (length chunk) (inbuf c),
       match more with [] => rest | _ => ReadData more :: rest end)
  end.

(** [mutt_socket_close]: whatever [conn_close] does, the descriptor is
    invalidated. *)
Definition mutt_socket_close (c : Connection) : Connection :=
  mkConnection (-1) (inbuf c) (bufpos c) (available c) (peer c).

(** [mutt_socket_readchar]: return code, the character stored through the
    out-parameter (if any), and the connection afterwards.  [None] is a read
    outside [inbuf]. *)
Definition mutt_socket_readchar (c : Connection)
  : option (Z * option ascii * Connection) :=
  let fetch (c : Connection) :=
    ch ← inbuf c !! Z.to_nat (bufpos c);
    Some (1, Some ch,
          mkConnection (fd c) (inbuf c) (bufpos c + 1) (available c) (peer c)) in
  if bufpos c >=? available c then
    if fd c >=? 0 then
      let '(n, window, rest) := conn_read c in
      let c1 := mkConnection (fd c) window 0 n rest in
      if n <=? 0 then Some (-1, None, mutt_socket_close c1)
      else fetch c1
    else Some (-1, None, c)
  else fetch c.

(** The caller's line buffer: its cells and, as ghost state, the indices
    stored to so far (most recent first). *)
Record LineBuf := mkLineBuf {
  cells : list ascii;
  stores : list Z;
}.

(** [buf[i] = ch] *)
Definition store (b : LineBuf) (i : Z) (ch : ascii) : option LineBuf :=
  if (0 <=? i) && (i <? Z.of_nat (length (cells b))) then
    Some (mkLineBuf (<[Z.to_nat i := ch]> (cells b)) (i :: stores b))
  else None.

(** [buf[i]] *)
Definition load (b : LineBuf) (i : Z) : option ascii :=
  if 0 <=? i then cells b !! Z.to_nat i else None.

(** How the [for] loop of [mutt_socket_readln_d] is left. *)
Inductive LoopExit :=
  | ReadError (b : LineBuf) (nread : nat) (c : Connection)
  | LoopDone (i : Z) (b : LineBuf) (nread : nat) (c : Connection).

Definition INT_MAX : Z := 2 ^ 31 - 1.
Definition SIZE_MAX : Z := 2 ^ 64 - 1.

(** The loop [for (i = 0; i < buflen - 1; i++)].  [n] is the number of
    iterations its condition still admits, [nread] counts the characters
    obtained from [mutt_socket_readchar] (ghost).  A return of 1 without a
    character stored in [ch] would be a read of an uninitialised variable.
    The counter is an [int]: an [i++] that leaves its range is undefined,
    and the loop has no result ([None]). *)
Fixpoint readln_loop (n : nat) (i : Z) (b : LineBuf) (nread : nat)
    (c : Connection) : option LoopExit :=
  match n with
  | O => Some (LoopDone i b nread c)
  | S n' =>
      '(rc, och, c') ← mutt_socket_readchar c;
      if negb (rc =? 1) then
        b' ← store b i NUL; Some (ReadError b' nread c')
      else
        ch ← och;
        if Ascii.eqb ch LF then Some (LoopDone i b (S nread) c')
        else
          b' ← store b i ch;
          if i + 1 >? INT_MAX then None
          else readln_loop n' (i + 1) b' (S nread) c'
  end.

Record ReadlnResult := mkReadlnResult {
  rl_ret : Z;
  rl_buf : LineBuf;
  rl_nread : nat;
  rl_conn : Connection;
}.

(** [mutt_socket_readln_d(buf, buflen, conn, dbg)].  [buflen - 1] is
    computed in [size_t]; the value returned is the [int] [i + 1], which
    has no defined value ([None]) when it leaves the range of [int]. *)
Definition mutt_socket_readln_d (buf : list ascii) (buflen : Z)
    (c : Connection) : option ReadlnResult :=
  let bound := (buflen - 1) mod (SIZE_MAX + 1) in
  ex ← readln_loop (Z.to_nat bound) 0 (mkLineBuf buf []) 0%nat c;
  match ex with
  | ReadError b nread c' => Some (mkReadlnResult (-1) b nread c')
  | LoopDone i b nread c' =>
      (* strip \r from \r\n termination *)
      i' ← (if i =? 0 then Some i
            else prev ← load b (i - 1);
                 Some (if Ascii.eqb prev CR then i - 1 else i));
      b' ← store b i' NUL;
      (* number of bytes read, not strlen *)
      if i' + 1 >? INT_MAX then None
      else Some (mkReadlnResult (i' + 1) b' nread c')
  end.

(** The C string held in a buffer: the characters before the first NUL. *)
Fixpoint c_string (l : list ascii) : list ascii :=
  match l with
  | [] => []
  | ch :: l' => if Ascii.eqb ch NUL then [] else ch :: c_string l'
  end.

Definition null_terminated (l : list ascii) : Prop := NUL ∈ l.

(** A connection as [socket_new_conn] makes it and [mutt_socket_readchar]
    keeps it: the cursors stay inside the receive window. *)
Definition conn_ok (c : Connection) : Prop :=
  length (inbuf c) = inbuf_size ∧
  0 <= bufpos c ∧ available c <= Z.of_nat inbuf_size.

(** [socket_new_conn]: a zeroed connection with [fd = -1]; opening it sets
    the descriptor. *)
Definition socket_new_conn (p : list ReadResult) : Connection :=
  mkConnection (-1) (replicate inbuf_size NUL) 0 0 p.

Definition opened (fd' : Z) (c : Connection) : Connection :=
  mkConnection fd' (inbuf c) (bufpos c) (available c) (peer c).

(** The bytes a stream delivers before it ends or fails. *)
Fixpoint peer_bytes (p : list ReadResult) : list ascii :=
  match p with
  | ReadData (b :: bs) :: rest => (b :: bs) ++ peer_bytes rest
  | _ => []
  end.

(** The unread part of the receive window. *)
Definition window_rest (c : Connection) : list ascii :=
  take (Z.to_nat (available c - bufpos c))
       (drop (Z.to_nat (bufpos c)) (inbuf c)).

(** Everything [mutt_socket_readchar] can still obtain from a connection:
    the unread part of the window, then the stream if the descriptor is
    open. *)
Definition pending (c : Connection) : list ascii :=
  window_rest c ++ (if fd c >=? 0 then peer_bytes (peer c) else []).

(** A line without the [\r] that may end it. *)
Fixpoint strip_cr (l : list ascii) : list ascii :=
  match l with
  | [] => []
  | [x] => if Ascii.eqb x CR then [] else [x]
  | x :: l' => x :: strip_cr l'
  end.

(** How a scan of the pending bytes ends: at a [\n], at the capacity of
    the buffer, or because the connection has nothing more to give. *)
Inductive LineEnd := AtNewline | AtCapacity | AtFailure.

(** The characters the loop of [mutt_socket_readln_d] stores when [n]
    iterations are allowed and [l] is pending, and the way it stops. *)
Fixpoint scan (n : nat) (l : list ascii) : list ascii * LineEnd :=
  match n with
  | O => ([], AtCapacity)
  | S n' =>
      match l with
      | [] => ([], AtFailure)
      | x :: l' =>
          if Ascii.eqb x LF then ([], AtNewline)
          else let '(s, e) := scan n' l' in (x :: s, e)
      end
  end.

(** The line buffer has [buflen] cells and every store so far went to one
    of them. *)
Definition buf_inv (buflen : Z) (b : LineBuf) : Prop :=
  Z.of_nat (length (cells b)) = buflen ∧
  Forall (fun i => 0 <= i < buflen) (stores b).

End Transport.

End Socket.

(* ===================================================================== *)
(** * TLS trust engine: conn/ssl.c *)
(* ===================================================================== *)

Module Ssl.

(** ** libc string functions used by the unit *)

(** [tolower] in the C locale. *)
Definition tolower (c : ascii) : ascii :=
  let n := nat_of_ascii c in
  if ((65 <=? n) && (n <=? 90))%nat then ascii_of_nat (n + 32) else c.

(** [strcasecmp]: only the sign of the result is specified. *)
Fixpoint strcasecmp (a b : string) : Z :=
  match a, b with
  | EmptyString, EmptyString => 0
  | EmptyString, String _ _ => -1
  | String _ _, EmptyString => 1
  | String ca a', String cb b' =>
      match Ascii.compare (tolower ca) (tolower cb) with
      | Eq => strcasecmp a' b'
      | Lt => -1
      | Gt => 1
      end
  end.

(** [strncmp(a, b, n) == 0] *)
Fixpoint strncmp_eq (a b : string) (n : nat) {struct n} : bool :=
  match n with
  | O => true
  | S n' =>
      match a, b with
      | EmptyString, EmptyString => true
      | String x a', String y b' => Ascii.eqb x y && strncmp_eq a' b' n'
      | _, _ => false
      end
  end.

(** [strchr(s, c)]: the suffix of [s] that starts at the first [c]. *)
Fixpoint strchr (s : string) (c : ascii) : option string :=
  match s with
  | EmptyString => None
  | String x s' => if Ascii.eqb x c then Some s else strchr s' c
  end.

(** Pointer arithmetic [s + n] on a string of at least [n] characters. *)
Fixpoint advance (n : nat) (s : string) : string :=
  match n, s with
  | O, _ => s
  | S n', String _ s' => advance n' s'
  | S _, EmptyString => EmptyString
  end.

(** [*s == 0] *)
Definition at_end (s : string) : bool :=
  match s with EmptyString => true | _ => false end.

(** The C string at the start of a counted byte string: the bytes before
    the first NUL. *)
Fixpoint c_str (s : string) : string :=
  match s with
  | EmptyString => EmptyString
  | String x s' => if Ascii.eqb x NUL then EmptyString else String x (c_str s')
  end.

Definition mutt_str_strlen (s : string) : Z := Z.of_nat (String.length (c_str s)).

(** ** hostname_match *)

Definition hostname_match (hostname certname : string) : bool :=
  let cmp :=
    if strncmp_eq certname "*." 2 then
      match strchr hostname "." with
      | None => None
      | Some dot => Some (advance 2 certname, advance 1 dot)
      end
    else Some (certname, hostname) in
  match cmp with
  | None => false
  | Some (cmp1, cmp2) =>
      if at_end cmp1 || at_end cmp2 then false
      else if negb (strcasecmp cmp1 cmp2 =? 0) then false
      else true
  end.

(** ** Certificates *)

Definition NID_commonName : Z := 13.
Definition GEN_DNS : Z := 2.
Definition MUTT_NO : Z := 0.

(** An [X509_NAME]: its entries as (NID, value) pairs. *)
Definition X509_NAME := list (Z * string).

(** A [GENERAL_NAME] entry of the subjectAltName extension: its type and,
    for the IA5 string, the [length] bytes at [data] (OpenSSL keeps a NUL
    after them). *)
Record GENERAL_NAME := mkGeneralName {
  gn_type : Z;
  ia5 : string;
}.

(** What the unit reads from an [X509] object.  [sha256] is the result of
    [X509_digest(cert, EVP_sha256(), ..)], [None] when the call fails; a
    validity time is [None] when [X509_cmp_current_time] cannot parse it. *)
Record X509 := mkX509 {
  subject_name : option X509_NAME;
  issuer_name : X509_NAME;
  notBefore : option Z;
  notAfter : option Z;
  sha256 : option (list ascii);
  subject_alt_names : option (list GENERAL_NAME);
}.

(** [X509_cmp_current_time(t)]: -1 when [t] is not later than now, 1 when
    it is later, 0 on error. *)
Definition X509_cmp_current_time (t : option Z) (now : Z) : Z :=
  match t with
  | None => 0
  | Some t => if t <=? now then -1 else 1
  end.

(** [X509_subject_name_cmp(a, b) != 0 || X509_issuer_name_cmp(a, b) != 0] *)
Definition names_differ (a b : X509) : bool :=
  negb (bool_decide (subject_name a = subject_name b)) ||
  negb (bool_decide (issuer_name a = issuer_name b)).

(** [memcmp(p, q, n) != 0] on two digests of [n] bytes each. *)
Definition memcmp_differs (p q : list ascii) (n : nat) : bool :=
  negb (bool_decide (take n p = take n q)).

(** [compare_certificates(cert, peercert, peermd, peermdlen)] *)
Definition compare_certificates (cert peercert : X509) (peermd : list ascii)
  : bool :=
  if names_differ cert peercert then false
  else
    match sha256 cert with
    | None => false
    | Some md =>
        if negb (Nat.eqb (length peermd) (length md)) then false
        else if memcmp_differs peermd md (length md) then false
        else true
    end.

(** ** Configuration and state *)

(** The configuration variables and build switches the unit consults. *)
Record Config := mkConfig {
  HAVE_SSL_PARTIAL_CHAIN : bool;
  SslVerifyDates : Z;
  SslVerifyHost : Z;
  SslVerifyPartialChains : bool;
  CertificateFile : option string;
  (** [mutt_idna_to_ascii_lz], [None] when it fails or libidn is absent *)
  idna_to_ascii : string -> option string;
}.

(** The application data attached to one [SSL] object. *)
Record ExData := mkExData {
  host_data : option string;   (** slot [HostExDataIndex] *)
  skip_data : bool;            (** slot [SkipModeExDataIndex] is non-NULL *)
}.

Inductive Event :=
  | EvError (msg : string)
  | EvMessage (msg : string)
  | EvMenu (cert_no chain_len : Z) (prompt : string).

(** The file-scope variables of the unit, the [SSL] object the library is
    verifying for, the trust file on disk and the user interface. *)
Record State := mkState {
  SslSessionCerts : option (list X509);
  last_pos : Z;
  last_cert : option X509;
  ssl : option ExData;
  trust_file : option (list X509);
  ui : list Event;
}.

Definition with_ssl (st : State) (d : ExData) : State :=
  mkState (SslSessionCerts st) (last_pos st) (last_cert st) (Some d)
          (trust_file st) (ui st).

Definition with_ui (st : State) (ev : Event) : State :=
  mkState (SslSessionCerts st) (last_pos st) (last_cert st) (ssl st)
          (trust_file st) (ui st ++ [ev]).

(** [SSL_set_ex_data(ssl, SkipModeExDataIndex, v)] *)
Definition set_skip (st : State) (v : bool) : State :=
  match ssl st with
  | None => st
  | Some d => with_ssl st (mkExData (host_data d) v)
  end.

Definition skip_mode_of (st : State) : bool :=
  match ssl st with
  | None => false
  | Some d => skip_data d
  end.

(** ** Validity dates and the two automatic trust checks *)

(** [check_certificate_expiration(peercert, silent)] at clock value [now]. *)
Definition check_certificate_expiration (cfg : Config) (now : Z)
    (peercert : X509) (silent : bool) (st : State) : bool * State :=
  if negb (SslVerifyDates cfg =? MUTT_NO) then
    if X509_cmp_current_time (notBefore peercert) now >=? 0 then
      (false, if silent then st
              else with_ui st (EvError "Server certificate is not yet valid"))
    else if X509_cmp_current_time (notAfter peercert) now <=? 0 then
      (false, if silent then st
              else with_ui st (EvError "Server certificate has expired"))
    else (true, st)
  else (true, st).

(** [check_certificate_cache(peercert)]: the stack is scanned from its top. *)
Definition check_certificate_cache (peercert : X509) (st : State) : bool :=
  match sha256 peercert, SslSessionCerts st with
  | Some peermd, Some certs =>
      existsb (fun cert => compare_certificates cert peercert peermd)
              (rev certs)
  | _, _ => false
  end.

(** [check_certificate_file(peercert)]; [trust_file] is [None] when the
    file cannot be opened. *)
Definition check_certificate_file (cfg : Config) (now : Z) (peercert : X509)
    (st : State) : Z :=
  match CertificateFile cfg, trust_file st, sha256 peercert with
  | Some _, Some certs, Some peermd =>
      if existsb (fun cert =>
                    compare_certificates cert peercert peermd &&
                    fst (check_certificate_expiration cfg now cert true st))
                 certs
      then 1 else 0
  | _, _, _ => 0
  end.

(** [check_certificate_by_digest(peercert)] *)
Definition check_certificate_by_digest (cfg : Config) (now : Z)
    (peercert : X509) (st : State) : Z * State :=
  let '(valid, st1) := check_certificate_expiration cfg now peercert false st in
  if valid then
    (if negb (check_certificate_file cfg now peercert st1 =? 0) then 1 else 0,
     st1)
  else (0, st1).

(** [ssl_cache_trusted_cert(c)]: push a copy on [SslSessionCerts]. *)
Definition ssl_cache_trusted_cert (c : X509) (st : State) : State :=
  let certs := match SslSessionCerts st with None => [] | Some l => l end in
  mkState (Some (certs ++ [c])) (last_pos st) (last_cert st) (ssl st)
          (trust_file st) (ui st).

(** ** check_host *)

(** [X509_NAME_get_text_by_NID]: the value of the first entry with that
    NID. *)
Fixpoint get_text_by_NID (name : X509_NAME) (nid : Z) : option string :=
  match name with
  | [] => None
  | (n, v) :: rest => if n =? nid then Some v else get_text_by_NID rest nid
  end.

(** [check_host(x509cert, hostname, err, errlen)]: the return code and the
    text left in [err]. *)
Definition check_host (cfg : Config) (x509cert : X509) (hostname : string)
  : Z * string :=
  let hostname_ascii :=
    match idna_to_ascii cfg hostname with
    | Some a => a
    | None => hostname
    end in
  let dns_matches (n : GENERAL_NAME) : bool :=
    (gn_type n =? GEN_DNS) &&
    (0 <=? Z.of_nat (String.length (ia5 n))) &&
    (mutt_str_strlen (ia5 n) =? Z.of_nat (String.length (ia5 n))) &&
    hostname_match hostname_ascii (c_str (ia5 n)) in
  let san_found :=
    match subject_alt_names x509cert with
    | None => false
    | Some names => existsb dns_matches names
    end in
  let no_match :=
    (0, String.app "certificate owner does not match hostname " hostname) in
  if san_found then (1, EmptyString)
  else
    match subject_name x509cert with
    | None => (0, "cannot get certificate subject"%string)
    | Some subject =>
        match get_text_by_NID subject NID_commonName with
        | None => (0, "cannot get certificate common name"%string)
        | Some cn =>
            let bufsize := Z.of_nat (String.length cn) + 1 in
            if mutt_str_strlen cn =? bufsize - 1 then
              if hostname_match hostname_ascii (c_str cn) then (1, EmptyString)
              else no_match
            else no_match
        end
    end.

(** ** The interactive prompt *)

(** What [mutt_menu_loop] returns to [interactive_check_cert]. *)
Inductive MenuOp :=
  | OpAbort          (** -1 *)
  | OpExit           (** OP_EXIT *)
  | OpReject         (** OP_MAX + 1, key r *)
  | OpAcceptOnce     (** OP_MAX + 2, key o *)
  | OpAcceptAlways   (** OP_MAX + 3, key a *)
  | OpSkip           (** OP_MAX + 4, key s *)
  | OpOther.         (** any other operation *)

(** The value of [ALLOW_SKIP] for the certificate at depth [idx]. *)
Definition allow_skip (cfg : Config) (idx : Z) : bool :=
  HAVE_SSL_PARTIAL_CHAIN cfg && (negb (idx =? 0) && SslVerifyPartialChains cfg).

(** [allow_always && CertificateFile && check_certificate_expiration(cert, true)] *)
Definition allow_always_final (cfg : Config) (now : Z) (cert : X509)
    (allow_always : Z) (st : State) : bool :=
  negb (allow_always =? 0) &&
  (bool_decide (CertificateFile cfg <> None) &&
   fst (check_certificate_expiration cfg now cert true st)).

Definition menu_prompt (always skip : bool) : string :=
  if always then
    if skip then "(r)eject, accept (o)nce, (a)ccept always, (s)kip"
    else "(r)eject, accept (o)nce, (a)ccept always"
  else
    if skip then "(r)eject, accept (o)nce, (s)kip"
    else "(r)eject, accept (o)nce".

(** The [accept once] arm: clear the skip marker, cache the certificate. *)
Definition accept_once (cert : X509) (st : State) : State :=
  ssl_cache_trusted_cert cert (set_skip st false).

(** The [accept always] arm before it falls through: append the certificate
    to the trust file; [save_ok] tells whether [fopen] and [PEM_write_X509]
    both succeed. *)
Definition save_certificate (cert : X509) (save_ok : bool) (st : State)
  : State :=
  if save_ok then
    let old := match trust_file st with None => [] | Some l => l end in
    with_ui (mkState (SslSessionCerts st) (last_pos st) (last_cert st)
                     (ssl st) (Some (old ++ [cert])) (ui st))
            (EvMessage "Certificate saved")
  else with_ui st (EvError "Warning: Couldn't save certificate").

(** [while (!done) switch (mutt_menu_loop(menu))]: the value of [done] and
    the state when the loop ends; [None] while the user has not answered. *)
Fixpoint menu_loop (keys : list MenuOp) (always skip : bool) (cert : X509)
    (save_ok : bool) (st : State) : option (Z * State) :=
  match keys with
  | [] => None
  | k :: keys' =>
      match k with
      | OpAbort | OpReject | OpExit => Some (1, st)
      | OpAcceptAlways =>
          if negb always then menu_loop keys' always skip cert save_ok st
          else Some (2, accept_once cert (save_certificate cert save_ok st))
      | OpAcceptOnce => Some (2, accept_once cert st)
      | OpSkip =>
          if negb skip then menu_loop keys' always skip cert save_ok st
          else Some (2, set_skip st true)
      | OpOther => menu_loop keys' always skip cert save_ok st
      end
  end.

(** [interactive_check_cert(cert, idx, len, ssl, allow_always)]; the rows of
    the dialog (names, dates, fingerprints) are display only. *)
Definition interactive_check_cert (cfg : Config) (now : Z)
    (keys : list MenuOp) (save_ok : bool) (cert : X509) (idx len : Z)
    (allow_always : Z) (st : State) : option (Z * State) :=
  let skip := allow_skip cfg idx in
  let always := allow_always_final cfg now cert allow_always st in
  let st1 := with_ui st (EvMenu (len - idx) len (menu_prompt always skip)) in
  '(done, st2) ← menu_loop keys always skip cert save_ok st1;
  Some (if done =? 2 then 1 else 0, st2).

(** ** The verification callback *)

(** One invocation by the library: its arguments, what the store context
    holds, and the environment during the call. *)
Record VerifyInput := mkVerifyInput {
  preverify_ok : Z;
  cert : X509;            (** [X509_STORE_CTX_get_current_cert] *)
  pos : Z;                (** [X509_STORE_CTX_get_error_depth] *)
  len : Z;                (** length of the chain *)
  now : Z;                (** the clock *)
  keys : list MenuOp;     (** the user's answers if a menu is shown *)
  save_ok : bool;         (** whether the trust file can be appended to *)
}.

(** The test that recognises a skipped certificate passed a second time. *)
Definition duplicate_skipped (inp : VerifyInput) (skip_mode : bool)
    (st : State) : bool :=
  skip_mode && negb (preverify_ok inp =? 0) && (pos inp =? last_pos st) &&
  match last_cert st with
  | None => false
  | Some lc =>
      match sha256 lc with
      | None => false
      | Some last_cert_md => compare_certificates (cert inp) lc last_cert_md
      end
  end.

Definition remember_last (inp : VerifyInput) (st : State) : State :=
  mkState (SslSessionCerts st) (pos inp) (Some (cert inp)) (ssl st)
          (trust_file st) (ui st).

(** The part of [ssl_verify_callback] after the duplicate test. *)
Definition verify_tail (cfg : Config) (inp : VerifyInput) (host : string)
    (skip_mode : bool) (st : State) : option (Z * State) :=
  (* check session cache first *)
  if check_certificate_cache (cert inp) st then Some (1, set_skip st false)
  else
    let prompt := interactive_check_cert cfg (now inp) (keys inp) (save_ok inp)
                    (cert inp) (pos inp) (len inp) in
    let host_rc :=
      if (pos inp =? 0) && negb (SslVerifyHost cfg =? MUTT_NO)
      then Some (check_host cfg (cert inp) host) else None in
    match host_rc with
    | Some (0, err) =>
        prompt 0 (with_ui st (EvError
                    (String.app "Certificate host check failed: " err)))
    | _ =>
        if (preverify_ok inp =? 0) || skip_mode then
          let by_digest :=
            match CertificateFile cfg with
            | None => (0, st)
            | Some _ => check_certificate_by_digest cfg (now inp) (cert inp) st
            end in
          if negb (fst by_digest =? 0)
          then Some (1, set_skip (snd by_digest) false)
          else prompt 1 (snd by_digest)
        else Some (1, st)
    end.

(** [ssl_verify_callback(preverify_ok, ctx)] *)
Definition ssl_verify_callback (cfg : Config) (inp : VerifyInput)
    (st : State) : option (Z * State) :=
  match ssl st with
  | None => Some (0, st)
  | Some d =>
      match host_data d with
      | None => Some (0, st)
      | Some host =>
          let skip_mode := skip_data d in
          if HAVE_SSL_PARTIAL_CHAIN cfg && SslVerifyPartialChains cfg then
            if duplicate_skipped inp skip_mode st then Some (1, st)
            else verify_tail cfg inp host skip_mode (remember_last inp st)
          else verify_tail cfg inp host skip_mode st
      end
  end.

(** ** Handshakes *)

(** The application data [ssl_negotiate] attaches to the fresh [SSL] object
    before [SSL_connect]: the host name and a NULL skip marker. *)
Definition ssl_negotiate_setup (hostname : string) (st : State) : State :=
  with_ssl st (mkExData (Some hostname) false).

(** What happens to the trust state of a process: a handshake is set up,
    the library calls back for a certificate of the current handshake, or the
    trust file changes on disk. *)
Inductive Step :=
  | Negotiate (hostname : string)
  | Verify (cfg : Config) (inp : VerifyInput)
  | TrustFileChanged (contents : option (list X509)).

Definition step (st : State) (e : Step) : option State :=
  match e with
  | Negotiate h => Some (ssl_negotiate_setup h st)
  | Verify cfg inp => '(_, st') ← ssl_verify_callback cfg inp st; Some st'
  | TrustFileChanged f =>
      Some (mkState (SslSessionCerts st) (last_pos st) (last_cert st) (ssl st)
                    f (ui st))
  end.

Fixpoint run (st : State) (es : list Step) : option State :=
  match es with
  | [] => Some st
  | e :: es' => st' ← step st e; run st' es'
  end.

(** The state at process start. *)
Definition initial (f : option (list X509)) : State :=
  mkState None 0 None None f [].

(** Two certificates that [compare_certificates] cannot tell apart: same
    subject name, same issuer name, same SHA-256 digest. *)
Definition byte_equal (a b : X509) : Prop :=
  subject_name a = subject_name b ∧ issuer_name a = issuer_name b ∧
  ∃ md, sha256 a = Some md ∧ sha256 b = Some md.

(** The certificate is within its validity dates at [now]. *)
Definition within_validity (c : X509) (now : Z) : Prop :=
  ∃ nb na, notBefore c = Some nb ∧ notAfter c = Some na ∧ nb <= now < na.

(** The certificates of the session trust sequence. *)
Definition session_certs (st : State) : list X509 :=
  match SslSessionCerts st with None => [] | Some l => l end.

(** [s] starts with [p]. *)
Fixpoint starts_with (p s : string) : bool :=
  match p, s with
  | EmptyString, _ => true
  | String x p', String y s' => Ascii.eqb x y && starts_with p' s'
  | String _ _, EmptyString => false
  end.

(** A prompt offers a choice when it shows the choice's text. *)
Fixpoint offers (choice prompt : string) : bool :=
  starts_with choice prompt ||
  match prompt with
  | EmptyString => false
  | String _ rest => offers choice rest
  end.

(** Lower-casing a whole string, and equality up to ASCII case. *)
Fixpoint lower (s : string) : string :=
  match s with
  | EmptyString => EmptyString
  | String c s' => String (tolower c) (lower s')
  end.

Definition case_equal (a b : string) : Prop := lower a = lower b.

(** A string without a dot. *)
Definition no_dot (s : string) : Prop := strchr s "." = None.

(** ** Invariants of the trust state *)

(** Two states whose [SSL] objects agree on presence and host name. *)
Definition ssl_shape (st st' : State) : Prop :=
  match ssl st, ssl st' with
  | None, None => True
  | Some d, Some d' => host_data d' = host_data d
  | _, _ => False
  end.

(** What one piece of the callback may do to the trust state: it appends
    to the session sequence, keeps the remembered certificate, and either
    clears the skip marker or leaves the sequence alone, in which case the
    marker changes only where skipping is allowed. *)
Record eff (allow : bool) (st st' : State) : Prop := mkEff {
  eff_certs : ∃ more, session_certs st' = session_certs st ++ more;
  eff_last : last_cert st' = last_cert st ∧ last_pos st' = last_pos st;
  eff_ssl : ssl_shape st st';
  eff_skip : skip_mode_of st' = false ∨
             (SslSessionCerts st' = SslSessionCerts st ∧
              (skip_mode_of st' = skip_mode_of st ∨ allow = true));
}.

(** Two states that differ at most in the user interface and trust file. *)
Definition same_trust (st st' : State) : Prop :=
  SslSessionCerts st' = SslSessionCerts st ∧ last_cert st' = last_cert st ∧
  last_pos st' = last_pos st ∧ ssl st' = ssl st.

(** What every reachable state satisfies: a handshake has a host name, and
    while the skip marker is set the remembered certificate is not in the
    session sequence. *)
Definition trust_inv (st : State) : Prop :=
  (∀ d, ssl st = Some d -> host_data d <> None) ∧
  (skip_mode_of st = true ->
   ∃ lc, last_cert st = Some lc ∧ check_certificate_cache lc st = false).

End Ssl.

(* ===================================================================== *)
(** * POP3 mailbox driver: pop.c *)
(* ===================================================================== *)

Module Pop.

(** ** libc: strtol in base 10, with a 64-bit [long] *)

Definition LONG_MAX : Z := 2 ^ 63 - 1.
Definition LONG_MIN : Z := - 2 ^ 63.

(** Conversion of a [long] to [int] (wraps modulo 2^32). *)
Definition to_int (z : Z) : Z := (z + 2 ^ 31) mod 2 ^ 32 - 2 ^ 31.

Definition isspace (c : ascii) : bool :=
  let n := nat_of_ascii c in ((n =? 32) || ((9 <=? n) && (n <=? 13)))%nat.

Definition digit_value (c : ascii) : option Z :=
  let n := nat_of_ascii c in
  if ((48 <=? n) && (n <=? 57))%nat then Some (Z.of_nat n - 48) else None.

Fixpoint skip_spaces (p : ascii -> bool) (s : string) : string :=
  match s with
  | String c s' => if p c then skip_spaces p s' else s
  | EmptyString => s
  end.

(** The digits at the start of [s]: their value on top of [acc], and the
    rest of the string. *)
Fixpoint digits (s : string) (acc : Z) : Z * string :=
  match s with
  | String c s' =>
      match digit_value c with
      | Some d => digits s' (10 * acc + d)
      | None => (acc, s)
      end
  | EmptyString => (acc, s)
  end.

(** [strtol(s, &endp, 10)]: the value, [endp], and whether [errno] is set
    (to ERANGE).  Without a digit nothing is converted: the value is 0 and
    [endp] is [s]. *)
Definition strtol (s : string) : Z * string * bool :=
  let t := skip_spaces isspace s in
  let '(negative, u) :=
    match t with
    | String "-" u => (true, u)
    | String "+" u => (false, u)
    | _ => (false, t)
    end in
  match u with
  | String c _ =>
      match digit_value c with
      | None => (0, s, false)
      | Some _ =>
          let '(magnitude, rest) := digits u 0 in
          let v := if negative then - magnitude else magnitude in
          if v >? LONG_MAX then (LONG_MAX, rest, true)
          else if v <? LONG_MIN then (LONG_MIN, rest, true)
          else (v, rest, false)
      end
  | EmptyString => (0, s, false)
  end.

(** Decimal rendering of an [int], as [%d] prints it. *)
Definition fmt_d (n : Z) : string := NilZero.string_of_int (Z.to_int n).

(** ** Data *)

(** [struct Header], restricted to the fields the driver synchronises.
    [data] is the driver's slot and holds the UIDL; [env] stands for the
    parsed envelope (the header lines it was parsed from). *)
Record Header := mkHeader {
  data : option string;
  refno : Z;
  index : Z;
  deleted : bool;
  changed : bool;
  read : bool;
  old : bool;
  env : option (list string);
}.

(** [mutt_new_header]: zeroed storage. *)
Definition mutt_new_header : Header :=
  mkHeader None 0 0 false false false false None.

(** [struct PopCache]: one slot of the fallback ring. *)
Record PopCache := mkPopCache {
  cache_index : Z;
  cache_path : option string;
}.

Inductive PopStatus := POP_NONE | POP_CONNECTED | POP_DISCONNECTED | POP_BYE.

(** [struct PopData] *)
Record PopData := mkPopData {
  status : PopStatus;
  cmd_uidl : Z;          (** 0 absent, 1 present, 2 unknown *)
  cmd_top : Z;
  size : Z;
  check_time : Z;
  err_msg : string;
  clear_cache : bool;
  cache : list PopCache;
}.

(** Commands put on the wire. *)
Inductive Command :=
  | UIDL              (** "UIDL\r\n" *)
  | LIST (n : Z)      (** "LIST %d\r\n" *)
  | TOP (n : Z)       (** "TOP %d 0\r\n" *)
  | RETR (n : Z)      (** "RETR %d\r\n" *)
  | DELE (n : Z)
  | QUIT.

(** What the driver does to the outside: commands sent, messages shown,
    caches written. *)
Inductive Event :=
  | Sent (c : Command)
  | Error (msg : string)            (** [mutt_error], [mutt_perror] *)
  | Message (msg : string)          (** [mutt_message] *)
  | ClearError                      (** [mutt_clear_error] *)
  | Reconnected
  | HcacheStore (uidl : option string)
  | BcacheSweep
  | BcacheCommit (uidl : option string)
  | Unlink (path : string).

(** [struct Context] with the [PopData] behind [ctx->data], and the trace of
    events so far. *)
Record Context := mkContext {
  hdrs : list Header;
  msgcount : nat;
  ctx_size : Z;
  pop_data : PopData;
  trace : list Event;
}.

Definition with_hdrs (ctx : Context) (hs : list Header) : Context :=
  mkContext hs (msgcount ctx) (ctx_size ctx) (pop_data ctx) (trace ctx).

Definition with_msgcount (ctx : Context) (n : nat) : Context :=
  mkContext (hdrs ctx) n (ctx_size ctx) (pop_data ctx) (trace ctx).

Definition with_pop_data (ctx : Context) (pd : PopData) : Context :=
  mkContext (hdrs ctx) (msgcount ctx) (ctx_size ctx) pd (trace ctx).

Definition emit (ctx : Context) (e : Event) : Context :=
  mkContext (hdrs ctx) (msgcount ctx) (ctx_size ctx) (pop_data ctx)
            (trace ctx ++ [e]).

Definition set_cmd_uidl (pd : PopData) (v : Z) : PopData :=
  mkPopData (status pd) v (cmd_top pd) (size pd) (check_time pd) (err_msg pd)
            (clear_cache pd) (cache pd).

Definition set_cmd_top (pd : PopData) (v : Z) : PopData :=
  mkPopData (status pd) (cmd_uidl pd) v (size pd) (check_time pd) (err_msg pd)
            (clear_cache pd) (cache pd).

Definition set_check_time (pd : PopData) (t : Z) : PopData :=
  mkPopData (status pd) (cmd_uidl pd) (cmd_top pd) (size pd) t (err_msg pd)
            (clear_cache pd) (cache pd).

Definition set_err_msg (pd : PopData) (m : string) : PopData :=
  mkPopData (status pd) (cmd_uidl pd) (cmd_top pd) (size pd) (check_time pd) m
            (clear_cache pd) (cache pd).

Definition set_clear_cache (pd : PopData) (b : bool) : PopData :=
  mkPopData (status pd) (cmd_uidl pd) (cmd_top pd) (size pd) (check_time pd)
            (err_msg pd) b (cache pd).

Definition set_cache (pd : PopData) (c : list PopCache) : PopData :=
  mkPopData (status pd) (cmd_uidl pd) (cmd_top pd) (size pd) (check_time pd)
            (err_msg pd) (clear_cache pd) c.

Definition set_status (pd : PopData) (s : PopStatus) : PopData :=
  mkPopData s (cmd_uidl pd) (cmd_top pd) (size pd) (check_time pd)
            (err_msg pd) (clear_cache pd) (cache pd).

Definition set_refno (h : Header) (r : Z) : Header :=
  mkHeader (data h) r (index h) (deleted h) (changed h) (read h) (old h) (env h).

Definition set_index (h : Header) (i : Z) : Header :=
  mkHeader (data h) (refno h) i (deleted h) (changed h) (read h) (old h) (env h).

Definition set_data (h : Header) (d : option string) : Header :=
  mkHeader d (refno h) (index h) (deleted h) (changed h) (read h) (old h) (env h).

Definition set_deleted (h : Header) (b : bool) : Header :=
  mkHeader (data h) (refno h) (index h) b (changed h) (read h) (old h) (env h).

Definition set_read_old (h : Header) (r o : bool) : Header :=
  mkHeader (data h) (refno h) (index h) (deleted h) (changed h) r o (env h).

Definition set_env (h : Header) (e : option (list string)) : Header :=
  mkHeader (data h) (refno h) (index h) (deleted h) (changed h) (read h)
           (old h) e.

(** [NONULL(p)] *)
Definition NONULL (p : option string) : string :=
  match p with Some s => s | None => EmptyString end.

(** [mutt_str_strcmp(a, b) == 0] *)
Definition mutt_str_strcmp_eq (a b : option string) : bool :=
  String.eqb (NONULL a) (NONULL b).

(** [ctx->hdrs[i] = h], growing the array by one slot when [i] is just past
    its end ([mx_alloc_memory] provides the room). *)
Definition put_hdr (hs : list Header) (i : nat) (h : Header) : list Header :=
  if (i <? length hs)%nat then <[i := h]> hs else hs ++ [h].

(** ** fetch_uidl *)

(** The loop [for (i = 0; i < ctx->msgcount; i++) if (strcmp == 0) break;]:
    the value of [i] when it ends. *)
Definition find_uidl (line : string) (ctx : Context) : nat :=
  match list_find (fun h => mutt_str_strcmp_eq (Some line) (data h) = true)
                  (take (msgcount ctx) (hdrs ctx)) with
  | Some (i, _) => i
  | None => msgcount ctx
  end.

(** The number and the UIDL that [fetch_uidl] reads from a line; [None]
    when [strtol] sets [errno]. *)
Definition parse_uidl_line (line : string) : option (Z * string) :=
  let '(value, endp, erange) := strtol line in
  if erange then None
  else Some (to_int value, skip_spaces (fun c => Ascii.eqb c " ") endp).

(** [fetch_uidl(line, ctx)].  [index] is an [int]; [index - 1] is taken
    with the wrap-around of the machine, as the narrowing of [strtol]'s
    [long] is: for [INT_MIN] it is [INT_MAX]. *)
Definition fetch_uidl (line : string) (ctx : Context) : Z * Context :=
  match parse_uidl_line line with
  | None => (-1, ctx)
  | Some (idx, uidl) =>
      let i := find_uidl uidl ctx in
      let ctx1 :=
        if (i =? msgcount ctx)%nat then
          with_msgcount
            (with_hdrs ctx
               (put_hdr (hdrs ctx) i (set_data mutt_new_header (Some uidl))))
            (S (msgcount ctx))
        else
          match hdrs ctx !! i with
          | Some h =>
              if negb (index h =? to_int (idx - 1))
              then with_pop_data ctx (set_clear_cache (pop_data ctx) true)
              else ctx
          | None => ctx
          end in
      let hs :=
        match hdrs ctx1 !! i with
        | Some h =>
            <[i := set_index (set_refno h idx) (to_int (idx - 1))]> (hdrs ctx1)
        | None => hdrs ctx1
        end in
      (0, with_hdrs ctx1 hs)
  end.

(** ** The exchange with the server *)

(** What the server does in answer to one command. *)
Inductive Reply :=
  | ReplyErr (line : string)
      (** a status line [-ERR ...] *)
  | ReplyLost
      (** the transport fails before a status line arrives *)
  | ReplyOk (lines : list string) (complete : bool).
      (** [+OK], then these data lines; [complete] when the terminating
          line [.] arrives, otherwise the transport fails after them *)

(** Modelled from the spec: [pop_query] lives in pop_lib.c, which is not in
    this tree.  It returns 0 on [+OK], -2 on [-ERR] (capturing the server
    error line into [err_msg]) and -1 on transport failure, which marks the
    session disconnected. *)
Definition pop_query (r : Reply) (pd : PopData) : Z * PopData :=
  match r with
  | ReplyOk _ _ => (0, pd)
  | ReplyErr line => (-2, set_err_msg pd line)
  | ReplyLost => (-1, set_status pd POP_DISCONNECTED)
  end.

(** A leading [.] on a data line is dot-unstuffed. *)
Definition unstuff (line : string) : string :=
  match line with
  | String "." rest => rest
  | _ => line
  end.

(** Each data line is handed to the callback; a nonzero return makes the
    result -3. *)
Fixpoint feed_lines {S : Type} (cb : string -> S -> Z * S)
    (lines : list string) (ret : Z) (s : S) : Z * S :=
  match lines with
  | [] => (ret, s)
  | l :: ls =>
      let '(r, s') := cb (unstuff l) s in
      feed_lines cb ls (if negb (r =? 0) then -3 else ret) s'
  end.

(** Modelled from the spec: [pop_fetch_data] lives in pop_lib.c, which is
    not in this tree.  It issues the command, answers a failed status like
    [pop_query], and streams the multi-line body through the callback; a
    transport failure, before the status line or inside the body, is -1
    and marks the session disconnected.  [S] is everything reachable from
    its arguments: [get] and [put] locate the [PopData] in it, which the
    callback's context may share. *)
Definition pop_fetch_data {S : Type} (get : S -> PopData)
    (put : PopData -> S -> S) (r : Reply) (cb : string -> S -> Z * S) (s : S)
  : Z * S :=
  match r with
  | ReplyOk lines complete =>
      let '(ret, s') := feed_lines cb lines 0 s in
      if complete then (ret, s')
      else (-1, put (set_status (get s') POP_DISCONNECTED) s')
  | _ => let '(ret, pd') := pop_query r (get s) in (ret, put pd' s)
  end.

(** ** The environment of one driver call *)

(** Configuration, build switches and the two caches. *)
Record Env := mkEnv {
  USE_HCACHE : bool;
  MarkOld : bool;
  MessageCacheClean : bool;
  PopCheckinterval : Z;
  POP_CACHE_LEN : Z;
  (** [mutt_hcache_fetch] then [mutt_hcache_restore] for a UIDL *)
  hcache_fetch : option string -> option Header;
  (** [mutt_bcache_exists(bcache, uidl) == 0] *)
  bcache_exists : option string -> bool;
  (** [mutt_bcache_get(bcache, uidl)] returns a stream *)
  bcache_get : option string -> bool;
  (** a temporary file can be opened / written *)
  tempfile_ok : bool;
  write_ok : bool;
  (** [fopen(cache->path, "r")] succeeds *)
  ring_open_ok : bool;
}.

(** The server's answers, by command. *)
Record Server := mkServer {
  srv_uidl : Reply;
  srv_list : Z -> Reply;
  srv_top : Z -> Reply;
  srv_retr : Z -> Reply;
}.

(** ** pop_read_header *)

(** [fetch_message(line, file)]: append the line to the file. *)
Definition fetch_message (e : Env) (line : string) (f : list string)
  : Z * list string :=
  if write_ok e then (0, f ++ [line]) else (-1, f).

(** [pop_fetch_data(pop_data, cmd, progress, fetch_message, file)]: the
    state is the context (for [pop_data]) and the file. *)
Definition fetch_to_file (e : Env) (r : Reply) (ctx : Context)
  : Z * (Context * list string) :=
  pop_fetch_data (fun s => pop_data (fst s))
    (fun pd s => (with_pop_data (fst s) pd, snd s)) r
    (fun line s =>
       let '(ret, f') := fetch_message e line (snd s) in (ret, (fst s, f')))
    (ctx, []).

Definition TOP_unsupported : string := "Command TOP is not supported by server.".
Definition UIDL_unsupported : string := "Command UIDL is not supported by server.".

(** [pop_read_header(pop_data, h)]; the envelope parser is an external
    collaborator and the length bookkeeping on [h->content] is left out. *)
Definition pop_read_header (e : Env) (srv : Server) (h : Header)
    (ctx : Context) : Z * Header * Context :=
  if negb (tempfile_ok e) then (-3, h, emit ctx (Error "tempfile"))
  else
    let ctx1 := emit ctx (Sent (LIST (refno h))) in
    let '(rc1, pd1) := pop_query (srv_list srv (refno h)) (pop_data ctx1) in
    let ctx2 := with_pop_data ctx1 pd1 in
    let '(rc, ctx3, f) :=
      if rc1 =? 0 then
        let '(rc2, (ctx', f)) :=
          fetch_to_file e (srv_top srv (refno h))
                        (emit ctx2 (Sent (TOP (refno h)))) in
        let pd := pop_data ctx' in
        let pd' :=
          if cmd_top pd =? 2 then
            let pda := if rc2 =? 0 then set_cmd_top pd 1 else pd in
            if rc2 =? -2 then set_err_msg (set_cmd_top pda 0) TOP_unsupported
            else pda
          else pd in
        (rc2, with_pop_data ctx' pd', f)
      else (rc1, ctx2, []) in
    if rc =? 0 then (rc, set_env h (Some f), ctx3)
    else if rc =? -2 then (rc, h, emit ctx3 (Error (err_msg (pop_data ctx3))))
    else if rc =? -3 then
      (rc, h, emit ctx3 (Error "Can't write header to temporary file!"))
    else (rc, h, ctx3).

(** ** pop_fetch_headers *)

(** [for (i = 0; i < ctx->msgcount; i++) ctx->hdrs[i]->refno = -1;] *)
Definition forget_refnos (n : nat) (hs : list Header) : list Header :=
  ((fun h => set_refno h (-1)) <$> take n hs) ++ drop n hs.

(** The loop that flags the records lost on the server, and its counter
    [deleted]. *)
Definition mark_lost (old_count : nat) (hs : list Header) : list Header * Z :=
  (((fun h => if refno h =? -1 then set_deleted h true else h)
      <$> take old_count hs) ++ drop old_count hs,
   Z.of_nat (length (filter (fun h => refno h = -1) (take old_count hs)))).

Definition lost_message (deleted : Z) : string :=
  String.app (fmt_d deleted)
             " messages have been lost. Try reopening the mailbox.".

(** The loop [for (i = old_count; i < new_count; i++)] over the new
    records: [n] iterations remain, [ret] and [hcached] are the function's
    variables of these names.  The result is [ret] when the loop is left. *)
Fixpoint read_new_headers (e : Env) (srv : Server) (n : nat) (i : nat)
    (ret : Z) (hcached : bool) (ctx : Context) : Z * Context :=
  match n with
  | O => (ret, ctx)
  | S n' =>
      match hdrs ctx !! i with
      | None => (ret, ctx)
      | Some h =>
          let cached := if USE_HCACHE e then hcache_fetch e (data h) else None in
          let '(ret1, h1, ctx1, hcached1) :=
            match cached with
            | Some restored =>
                (0,
                 set_data (set_index (set_refno restored (refno h)) (index h))
                          (data h),
                 ctx, true)
            | None =>
                let '(rc, h', ctx') := pop_read_header e srv h ctx in
                (rc, h',
                 if (0 <=? rc) && USE_HCACHE e
                 then emit ctx' (HcacheStore (data h')) else ctx',
                 hcached)
            end in
          if ret1 <? 0 then (ret1, with_hdrs ctx1 (<[i := h1]> (hdrs ctx1)))
          else
            let bcached := bcache_exists e (data h1) in
            let h2 :=
              if hcached1 then
                if bcached then set_read_old h1 true false
                else if MarkOld e then set_read_old h1 false true
                else set_read_old h1 false false
              else
                if bcached then set_read_old h1 true false
                else set_read_old h1 false false in
            read_new_headers e srv n' (S i) ret1 hcached1
              (with_msgcount (with_hdrs ctx1 (<[i := h2]> (hdrs ctx1)))
                             (S (msgcount ctx1)))
      end
  end.

(** The first part of [pop_fetch_headers], up to and including
    [ret = pop_fetch_data(pop_data, "UIDL\r\n", NULL, fetch_uidl, ctx)]. *)
Definition uidl_listing (srv : Server) (now : Z) (ctx : Context)
  : Z * Context :=
  let pd0 := set_clear_cache (set_check_time (pop_data ctx) now) false in
  let ctx0 :=
    emit (with_hdrs (with_pop_data ctx pd0)
                    (forget_refnos (msgcount ctx) (hdrs ctx)))
         (Sent UIDL) in
  pop_fetch_data pop_data (fun pd c => with_pop_data c pd) (srv_uidl srv)
                 fetch_uidl ctx0.

(** The block [if (pop_data->cmd_uidl == 2) { ... }] of
    [pop_fetch_headers], for the return code [ret] of the listing. *)
Definition note_uidl_capability (ret : Z) (pd : PopData) : PopData :=
  if cmd_uidl pd =? 2 then
    let pda := if ret =? 0 then set_cmd_uidl pd 1 else pd in
    if (ret =? -2) && (cmd_uidl pda =? 2)
    then set_err_msg (set_cmd_uidl pda 0) UIDL_unsupported
    else pda
  else pd.

(** The rest of [pop_fetch_headers], from [if (ret == 0)] on. *)
Definition finish_headers (e : Env) (srv : Server) (old_count new_count : nat)
    (ret : Z) (ctx : Context) : Z * Context :=
  let '(ret', ctx4) :=
    if ret =? 0 then
      let '(hs, deleted) := mark_lost old_count (hdrs ctx) in
      let ctx_a := with_hdrs ctx hs in
      let ctx_b :=
        if deleted >? 0 then emit ctx_a (Error (lost_message deleted))
        else ctx_a in
      read_new_headers e srv (new_count - old_count)%nat old_count ret false
                       ctx_b
    else (ret, ctx) in
  if ret' <? 0 then
    (ret', with_hdrs ctx4 (take (msgcount ctx4) (hdrs ctx4)))
  else
    let ctx5 := if MessageCacheClean e then emit ctx4 BcacheSweep else ctx4 in
    (Z.of_nat new_count - Z.of_nat old_count, emit ctx5 ClearError).

(** [pop_fetch_headers(ctx)] with the clock at [now].  Progress display and
    [mx_update_context] are left out. *)
Definition pop_fetch_headers (e : Env) (srv : Server) (now : Z)
    (ctx : Context) : Z * Context :=
  let old_count := msgcount ctx in
  let '(ret, ctx1) := uidl_listing srv now ctx in
  let new_count := msgcount ctx1 in
  let ctx2 := with_msgcount ctx1 old_count in
  let ctx3 := with_pop_data ctx2 (note_uidl_capability ret (pop_data ctx2)) in
  finish_headers e srv old_count new_count ret ctx3.

(** ** pop_clear_cache *)

(** [pop_clear_cache(pop_data)]: unlink and forget every file of the ring. *)
Definition pop_clear_cache (ctx : Context) : Context :=
  if negb (clear_cache (pop_data ctx)) then ctx
  else
    let paths := omap cache_path (cache (pop_data ctx)) in
    let emptied :=
      (fun c => mkPopCache (cache_index c) None) <$> cache (pop_data ctx) in
    mkContext (hdrs ctx) (msgcount ctx) (ctx_size ctx)
              (set_cache (pop_data ctx) emptied)
              (trace ctx ++ (Unlink <$> paths)).

(** ** Connection set-up (pop_lib.c) *)

(** What [pop_open_connection] finds: its return code and, when it
    succeeds, the size from STAT and the capabilities as probed. *)
Record OpenOutcome := mkOpenOutcome {
  open_ret : Z;
  open_size : Z;
  open_cmd_uidl : Z;
  open_cmd_top : Z;
}.

(** Modelled from the spec: [pop_logout], [mutt_socket_close] and
    [pop_open_connection] are not in this tree.  Together they close the
    current connection, reopen it and re-probe the capabilities. *)
Definition reopen (o : OpenOutcome) (pd : PopData) : Z * PopData :=
  if open_ret o <? 0 then (open_ret o, pd)
  else
    (open_ret o,
     mkPopData POP_CONNECTED (open_cmd_uidl o) (open_cmd_top o) (open_size o)
               (check_time pd) (err_msg pd) (clear_cache pd) (cache pd)).

(** What a reconnect meets: whether reopening and authenticating work, and
    the server's UIDL listing. *)
Record Reconnect := mkReconnect {
  reopen_ok : bool;
  re_uidl : Reply;
}.

(** Refno recovery for one line of the listing. *)
Definition recover_refno (line : string) (ctx : Context) : Z * Context :=
  match parse_uidl_line line with
  | None => (-1, ctx)
  | Some (n, uidl) =>
      (0, with_hdrs ctx
            ((fun h => if mutt_str_strcmp_eq (Some uidl) (data h)
                       then set_refno h n else h) <$> hdrs ctx))
  end.

(** Modelled from the spec: [pop_reconnect] lives in pop_lib.c, which is not
    in this tree.  If already connected, no-op.  If disconnected: reopen,
    re-authenticate, re-enumerate UIDLs (refno recovery), flush the body
    cache if [clear_cache] was set. *)
Definition pop_reconnect (r : Reconnect) (ctx : Context) : Z * Context :=
  match status (pop_data ctx) with
  | POP_CONNECTED => (0, ctx)
  | _ =>
      if negb (reopen_ok r) then (-1, ctx)
      else
        let ctx0 :=
          emit (with_hdrs ctx (forget_refnos (msgcount ctx) (hdrs ctx)))
               (Sent UIDL) in
        let '(ret, ctx1) :=
          pop_fetch_data pop_data (fun pd c => with_pop_data c pd) (re_uidl r)
                         recover_refno ctx0 in
        if ret =? 0 then
          (0, emit (pop_clear_cache
                      (with_pop_data ctx1
                         (set_status (pop_data ctx1) POP_CONNECTED)))
                   Reconnected)
        else (-1, ctx1)
  end.

(** ** pop_fetch_message *)

(** Where the stream in [msg->fp] comes from. *)
Inductive MsgSource :=
  | FromBcache
  | FromRing (path : string)
  | Fetched (lines : list string).

(** How the part of [pop_fetch_message] before its loop ends: the message
    is served (or the call fails) at once, or the server must be asked;
    [slot] is the ring slot chosen for the record. *)
Inductive Probe :=
  | Served (rc : Z) (ctx : Context) (src : option MsgSource)
  | Proceed (slot : nat) (ctx : Context).

Definition set_slot (ctx : Context) (slot : nat) (c : PopCache) : Context :=
  with_pop_data ctx
    (set_cache (pop_data ctx) (<[slot := c]> (cache (pop_data ctx)))).

(** [None] is an access outside the ring. *)
Definition probe_caches (e : Env) (h : Header) (ctx : Context)
  : option Probe :=
  if bcache_get e (data h) then Some (Served 0 ctx (Some FromBcache))
  else
    let r := Z.rem (index h) (POP_CACHE_LEN e) in
    if r <? 0 then None
    else
      c ← cache (pop_data ctx) !! Z.to_nat r;
      match cache_path c with
      | Some path =>
          if cache_index c =? index h then
            if ring_open_ok e then Some (Served 0 ctx (Some (FromRing path)))
            else Some (Served (-1) (emit ctx (Error path)) None)
          else
            (* clear the previous entry *)
            Some (Proceed (Z.to_nat r)
                    (emit (set_slot ctx (Z.to_nat r)
                             (mkPopCache (cache_index c) None))
                          (Unlink path)))
      | None => Some (Proceed (Z.to_nat r) ctx)
      end.

(** What one round of the loop meets. *)
Record Attempt := mkAttempt {
  at_reconnect : Reconnect;
  at_bcache_put : bool;     (** [mutt_bcache_put] returns a stream *)
  at_tempfile : string;     (** the name [mutt_mktemp] picks *)
  at_server : Server;
}.

Definition index_incorrect : string :=
  "The message index is incorrect. Try reopening the mailbox.".

(** The [while (true)] loop and the code after it.  [bcache] and [path] are
    the function's variables of these names; each round consumes one
    [Attempt], and [None] is returned when the rounds described run out
    before the call ends (or on an access outside [ctx->hdrs]). *)
Fixpoint fetch_loop (e : Env) (attempts : list Attempt) (msgno slot : nat)
    (bcache : bool) (path : string) (ctx : Context)
  : option (Z * Context * option MsgSource) :=
  match attempts with
  | [] => None
  | a :: rest =>
      let '(rc, ctx1) := pop_reconnect (at_reconnect a) ctx in
      if rc <? 0 then Some (-1, ctx1, None)
      else
        h ← hdrs ctx1 !! msgno;
        (* verify that massage index is correct *)
        if refno h <? 0 then
          Some (-1, emit ctx1 (Error index_incorrect), None)
        else
          let '(bcache1, path1, opened) :=
            if at_bcache_put a then (bcache, path, true)
            else (false, at_tempfile a, tempfile_ok e) in
          if negb opened then Some (-1, emit ctx1 (Error path1), None)
          else
            let '(ret, (ctx2, f)) :=
              fetch_to_file e (srv_retr (at_server a) (refno h))
                            (emit ctx1 (Sent (RETR (refno h)))) in
            if ret =? 0 then
              let ctx3 :=
                if bcache1 then emit ctx2 (BcacheCommit (data h))
                else set_slot ctx2 slot (mkPopCache (index h) (Some path1)) in
              let ctx4 :=
                with_hdrs ctx3 (<[msgno := set_env h (Some f)]> (hdrs ctx3)) in
              Some (0, emit ctx4 ClearError, Some (Fetched f))
            else
              let ctx3 := if bcache1 then ctx2 else emit ctx2 (Unlink path1) in
              if ret =? -2 then
                Some (-1, emit ctx3 (Error (err_msg (pop_data ctx3))), None)
              else if ret =? -3 then
                Some (-1,
                      emit ctx3 (Error "Can't write message to temporary file!"),
                      None)
              else fetch_loop e rest msgno slot bcache1 path1 ctx3
  end.

(** [pop_fetch_message(ctx, msg, msgno)] *)
Definition pop_fetch_message (e : Env) (attempts : list Attempt)
    (msgno : nat) (ctx : Context) : option (Z * Context * option MsgSource) :=
  h ← hdrs ctx !! msgno;
  p ← probe_caches e h ctx;
  match p with
  | Served rc ctx' src => Some (rc, ctx', src)
  | Proceed slot ctx' => fetch_loop e attempts msgno slot true EmptyString ctx'
  end.

(** ** pop_check_mailbox *)

Definition MUTT_NEW_MAIL : Z := 1.

(** [pop_check_mailbox(ctx, index_hint)] with the clock at [now]. *)
Definition pop_check_mailbox (e : Env) (o : OpenOutcome) (srv : Server)
    (now : Z) (ctx : Context) : Z * Context :=
  if check_time (pop_data ctx) + PopCheckinterval e >? now then (0, ctx)
  else
    let '(rc, pd) := reopen o (pop_data ctx) in
    if rc <? 0 then (-1, with_pop_data ctx pd)
    else
      let ctx1 :=
        emit (mkContext (hdrs ctx) (msgcount ctx) (size pd) pd (trace ctx))
             (Message "Checking for new messages...") in
      let '(ret, ctx2) := pop_fetch_headers e srv now ctx1 in
      let ctx3 := pop_clear_cache ctx2 in
      if ret <? 0 then (-1, ctx3)
      else if ret >? 0 then (MUTT_NEW_MAIL, ctx3)
      else (0, ctx3).

(** ** Vocabulary of the statements *)

(** The records of the mailbox view. *)
Definition view (ctx : Context) : list Header :=
  take (msgcount ctx) (hdrs ctx).

(** The array holds every record the count promises. *)
Definition ctx_ok (ctx : Context) : Prop :=
  (msgcount ctx <= length (hdrs ctx))%nat.


(** Every line of a listing that [fetch_uidl] can read carries a message
    number that is positive as [fetch_uidl] holds it, in its [int]: the
    [long] of [strtol] narrowed.  Numbers from 1 to [2^31 - 1] are; 0 is
    not, and neither is 4294967295, which narrows to -1. *)
Definition positive_numbers (r : Reply) : bool :=
  match r with
  | ReplyOk lines _ =>
      forallb (fun l => match parse_uidl_line (unstuff l) with
                        | Some (n, _) => 0 <? n
                        | None => true
                        end) lines
  | _ => true
  end.

(** A RETR command on the wire. *)
Definition is_retr (ev : Event) : Prop :=
  match ev with Sent (RETR _) => True | _ => False end.

(** Later calls of [pop_fetch_headers], each with its own environment,
    server and clock. *)
Fixpoint fetch_headers_repeatedly (calls : list (Env * Server * Z))
    (ctx : Context) : Context :=
  match calls with
  | [] => ctx
  | (e, srv, now) :: rest =>
      fetch_headers_repeatedly rest (snd (pop_fetch_headers e srv now ctx))
  end.

(** ** Frames and invariants used in the proofs *)

(** Fields of [PopData] that only [pop_fetch_headers] itself writes. *)
Definition stable (ctx ctx' : Context) : Prop :=
  check_time (pop_data ctx') = check_time (pop_data ctx) ∧
  cmd_uidl (pop_data ctx') = cmd_uidl (pop_data ctx).


(** A step that leaves the header array alone and only adds to the trace. *)
Definition frame (ctx ctx' : Context) : Prop :=
  hdrs ctx' = hdrs ctx ∧ msgcount ctx' = msgcount ctx ∧
  ∃ evs, trace ctx' = trace ctx ++ evs.

(** The trace grows by events among which no RETR was sent. *)
Definition quiet_step (ctx ctx' : Context) : Prop :=
  ∃ evs, trace ctx' = trace ctx ++ evs ∧ Forall (fun ev => ¬ is_retr ev) evs.

(** A step that keeps the length of the ring and the [index] of every
    record, and commits nothing to the body cache. *)
Definition frame_step (ctx ctx' : Context) : Prop :=
  length (cache (pop_data ctx')) = length (cache (pop_data ctx)) ∧
  (∀ j h', hdrs ctx' !! j = Some h' ->
     ∃ h, hdrs ctx !! j = Some h ∧ index h' = index h) ∧
  ∃ evs, trace ctx' = trace ctx ++ evs ∧
         Forall (fun ev => ∀ u, ev ≠ BcacheCommit u) evs.

(** What holds of the header array while the listing is read: [oc] records
    were there before the call and [orig] is the array before it.  A record
    has a positive refno, or is an old record still at -1; old records keep
    their [deleted] flag. *)
Definition enum_inv (oc : nat) (orig : list Header) (ctx : Context) : Prop :=
  (oc <= msgcount ctx <= length (hdrs ctx))%nat ∧
  ∀ j h', (j < msgcount ctx)%nat -> hdrs ctx !! j = Some h' ->
    (0 < refno h' ∨ (refno h' = -1 ∧ (j < oc)%nat)) ∧
    ((j < oc)%nat -> ∀ h0, orig !! j = Some h0 -> deleted h' = deleted h0).

(** One step of the loop in [mark_lost]. *)
Definition mark (h : Header) : Header :=
  if refno h =? -1 then set_deleted h true else h.

End Pop.

(* ===================================================================== *)
(** * Concrete situations used by the examples *)
(* ===================================================================== *)

Module Scenario.

(** ** Transport *)

(** A connection on which the peer has sent [a\r\n]. *)
Definition crlf_conn : Socket.Connection :=
  Socket.opened 3
    (Socket.socket_new_conn 16 [Socket.ReadData ["a"%char; CR; LF]]).

(** A connection on which the peer has sent a line longer than the
    caller's buffer, through a receive window of four bytes. *)
Definition long_conn : Socket.Connection :=
  Socket.opened 3
    (Socket.socket_new_conn 4
       [Socket.ReadData ["a"; "b"; "c"; "d"; "e"; "f"; LF]%char]).

(** ** TLS *)

Definition example_name : Ssl.X509_NAME :=
  [(Ssl.NID_commonName, "mail.example.com"%string)].

(** A self-signed leaf, valid from 0 to 1000. *)
Definition leaf : Ssl.X509 :=
  Ssl.mkX509 (Some example_name) example_name (Some 0) (Some 1000)
             (Some ["d"; "i"; "g"]%char) None.

(** The same certificate with a validity that ended at 50. *)
Definition expired_leaf : Ssl.X509 :=
  Ssl.mkX509 (Some example_name) example_name (Some 0) (Some 50)
             (Some ["o"; "l"; "d"]%char) None.

Definition cfg_default : Ssl.Config :=
  Ssl.mkConfig true 1 1 true (Some "certificates"%string) (fun _ => None).

(** [ssl_verify_dates = no] *)
Definition cfg_no_dates : Ssl.Config :=
  Ssl.mkConfig true Ssl.MUTT_NO 1 true (Some "certificates"%string)
               (fun _ => None).

(** The library reports the leaf as not verified; the user answers
    "accept once". *)
Definition first_visit : Ssl.VerifyInput :=
  Ssl.mkVerifyInput 0 leaf 0 1 100 [Ssl.OpAcceptOnce] true.

(** A later invocation for the same certificate; no answer is available. *)
Definition second_visit : Ssl.VerifyInput :=
  Ssl.mkVerifyInput 0 leaf 0 1 200 [] true.

Definition first_connection : list Ssl.Step :=
  [Ssl.Negotiate "mail.example.com"; Ssl.Verify cfg_default first_visit].

Definition second_connection : list Ssl.Step :=
  [Ssl.Negotiate "mail.example.com"].

Definition state_after (es : list Ssl.Step) (st : Ssl.State) : Ssl.State :=
  match Ssl.run st es with Some st' => st' | None => st end.

Definition after_first : Ssl.State :=
  state_after first_connection (Ssl.initial None).

Definition after_second : Ssl.State :=
  state_after second_connection after_first.

(** ** POP *)

Definition env0 : Pop.Env :=
  Pop.mkEnv false false false 60 10 (fun _ => None) (fun _ => false)
            (fun _ => false) true true true.

Definition hdr (uidl : string) (refno index : Z) : Pop.Header :=
  Pop.mkHeader (Some uidl) refno index false false false false None.

Definition pd0 : Pop.PopData :=
  Pop.mkPopData Pop.POP_CONNECTED 2 2 0 0 EmptyString false
                (replicate 10 (Pop.mkPopCache 0 None)).

Definition empty_mailbox : Pop.Context := Pop.mkContext [] 0 0 pd0 [].

(** The mailbox of scenario S3: AAA, BBB and CCC. *)
Definition mailbox3 : Pop.Context :=
  Pop.mkContext [hdr "AAA" 1 0; hdr "BBB" 2 1; hdr "CCC" 3 2] 3 0 pd0 [].

(** A server with the given UIDL listing that answers every other command
    with [+OK] and no data. *)
Definition server (listing : Pop.Reply) : Pop.Server :=
  Pop.mkServer listing (fun _ => Pop.ReplyOk [] true)
               (fun _ => Pop.ReplyOk [] true) (fun _ => Pop.ReplyOk [] true).

Definition server_s3 : Pop.Server :=
  server (Pop.ReplyOk ["1 AAA"; "2 CCC"]%string true).

(** A listing with message number 0. *)
Definition server_zero : Pop.Server :=
  server (Pop.ReplyOk ["0 AAA"]%string true).

(** A listing whose number does not fit a [long], and a listing cut by the
    loss of the connection: both follow a [+OK]. *)
Definition server_erange : Pop.Server :=
  server (Pop.ReplyOk ["99999999999999999999 AAA"]%string true).

Definition server_cut : Pop.Server :=
  server (Pop.ReplyOk ["1 AAA"]%string false).

(** A listing with a message number that narrows to -1 in an [int]. *)
Definition server_narrowed : Pop.Server :=
  server (Pop.ReplyOk ["4294967295 AAA"]%string true).

(** A server without UIDL. *)
Definition server_no_uidl : Pop.Server :=
  server (Pop.ReplyErr "-ERR unknown command").

(** A dropped session whose mailbox holds AAA, and a reconnect after which
    the server lists only BBB. *)
Definition dropped_mailbox : Pop.Context :=
  Pop.mkContext [hdr "AAA" 3 2] 1 0
                (Pop.set_status pd0 Pop.POP_DISCONNECTED) [].

Definition reconnect_without_aaa : Pop.Attempt :=
  Pop.mkAttempt (Pop.mkReconnect true (Pop.ReplyOk ["1 BBB"%string] true))
                true "tmp"%string (server (Pop.ReplyOk [] true)).

Definition open_ok : Pop.OpenOutcome := Pop.mkOpenOutcome 0 512 2 2.

End Scenario.

(* ===================================================================== *)
(** * Transport: writing, polling, closing and opening (conn/socket.c) *)
(* ===================================================================== *)

Module SocketOps.
Import Socket.

Definition INT_MAX : Z := 2 ^ 31 - 1.

(** What the transport does to the outside. *)
Inductive IoEvent :=
  | ConnWrite (chunk : list ascii) (rc : Z)
      (** [conn->conn_write(conn, p, count)] was offered [chunk] and
          returned [rc] *)
  | ConnClose                      (** [conn->conn_close(conn)] *)
  | ConnOpen                       (** [conn->conn_open(conn)] *)
  | SysSocket (fd : Z)             (** [socket()] returned [fd] *)
  | SysConnect (fd : Z)            (** [connect(fd, ..)] *)
  | SysClose (fd : Z)              (** [close(fd)] *)
  | Alarm (secs : Z)               (** [alarm(secs)] *)
  | AllowInterrupt (on : bool)     (** [mutt_sig_allow_interrupt(on)] *)
  | SigBlock                       (** [sigprocmask(SIG_BLOCK, ..)] *)
  | SigUnblock                     (** [sigprocmask(SIG_UNBLOCK, ..)] *)
  | SetCloexec (fd : Z)            (** [fcntl(fd, F_SETFD, FD_CLOEXEC)] *)
  | BadIdn                         (** [mutt_error("Bad IDN ..")] *)
  | HostNotFound                   (** [mutt_error("Could not find the host ..")] *)
  | ConnectFailed (rc : Z).        (** [mutt_error("Could not connect to ..")] *)

(** [mutt_socket_close(conn)]: the return value, the connection afterwards
    and the log.  [close_rc] is what [conn_close] returns if it is
    called. *)
Definition mutt_socket_close (close_rc : Z) (c : Connection)
    (log : list IoEvent) : Z * Connection * list IoEvent :=
  let '(rc, log') :=
    if fd c <? 0 then (-1, log) else (close_rc, log ++ [ConnClose]) in
  (rc, Socket.mutt_socket_close c, log').

(** The loop [while (sent < len)] of [mutt_socket_write_d].  Each round
    takes the return value of one [conn_write] call from [script]; [None]
    when the rounds described run out, or when [sent += rc] leaves the
    range of [int]. *)
Fixpoint write_loop (script : list Z) (close_rc : Z) (buf : list ascii)
    (len sent : Z) (c : Connection) (log : list IoEvent)
  : option (Z * Connection * list IoEvent) :=
  if sent <? len then
    match script with
    | [] => None
    | rc :: script' =>
        let chunk := take (Z.to_nat (len - sent)) (drop (Z.to_nat sent) buf) in
        let log1 := log ++ [ConnWrite chunk rc] in
        if rc <? 0 then
          let '(_, c', log2) := mutt_socket_close close_rc c log1 in
          Some (-1, c', log2)
        else if sent + rc >? INT_MAX then None
        else write_loop script' close_rc buf len (sent + rc) c log1
    end
  else Some (sent, c, log).

(** [mutt_socket_write_d(conn, buf, len, dbg)]; [buf] holds the bytes at
    the pointer, and a negative [len] stands for the length of the C string
    there. *)
Definition mutt_socket_write_d (script : list Z) (close_rc : Z)
    (c : Connection) (buf : list ascii) (len : Z) (log : list IoEvent)
  : option (Z * Connection * list IoEvent) :=
  if fd c <? 0 then Some (-1, c, log)
  else
    let len := if len <? 0 then Z.of_nat (length (c_string buf)) else len in
    write_loop script close_rc buf len 0 c log.

(** [mutt_socket_poll(conn, wait_secs)]; [conn_poll] is [None] when the
    connection has no poll method, else what the method returns. *)
Definition mutt_socket_poll (c : Connection) (conn_poll : option Z) : Z :=
  if bufpos c <? available c then available c - bufpos c
  else
    match conn_poll with
    | Some r => r
    | None => -1
    end.

Section Reading.

Variable inbuf_size : nat.

(** Successive calls of [mutt_socket_readchar]: what each returned. *)
Fixpoint readchars (n : nat) (c : Connection)
  : option (list (Z * option ascii) * Connection) :=
  match n with
  | O => Some ([], c)
  | S n' =>
      '(rc, och, c1) ← mutt_socket_readchar inbuf_size c;
      '(rest, c2) ← readchars n' c1;
      Some ((rc, och) :: rest, c2)
  end.

End Reading.

(** What [conn_write] took: of each chunk offered, the first [rc] bytes. *)
Fixpoint delivered (log : list IoEvent) : list ascii :=
  match log with
  | [] => []
  | ConnWrite chunk rc :: log' => take (Z.to_nat rc) chunk ++ delivered log'
  | _ :: log' => delivered log'
  end.

(** No write reports more bytes than it was offered. *)
Definition honest_writes (log : list IoEvent) : Prop :=
  Forall (fun ev => match ev with
                    | ConnWrite chunk rc => rc <= Z.of_nat (length chunk)
                    | _ => True
                    end) log.

(** ** Opening a raw socket *)

Inductive Family := AF_INET | AF_INET6 | AF_OTHER.

(** One [struct addrinfo] of the list, with what the system will answer
    for it: the descriptor [socket()] returns, and the value of
    [save_errno] after [connect()] (0 when it succeeds, else [errno]). *)
Record AddrInfo := mkAddrInfo {
  ai_family : Family;
  socket_fd : Z;
  connect_errno : Z;
}.

(** [socket_connect(fd, sa)] *)
Definition socket_connect (HAVE_GETADDRINFO : bool) (ConnectTimeout : Z)
    (fd : Z) (a : AddrInfo) (log : list IoEvent) : Z * list IoEvent :=
  let known :=
    match ai_family a with
    | AF_INET => true
    | AF_INET6 => HAVE_GETADDRINFO
    | AF_OTHER => false
    end in
  if negb known then (-1, log)
  else
    let timed := ConnectTimeout >? 0 in
    let log1 := if timed then log ++ [Alarm ConnectTimeout] else log in
    let log2 := log1 ++ [AllowInterrupt true; SigBlock; SysConnect fd] in
    let log3 := if timed then log2 ++ [Alarm 0] else log2 in
    (connect_errno a, log3 ++ [AllowInterrupt false; SigUnblock]).

(** The loop [for (cur = res; cur != NULL; cur = cur->ai_next)] of
    [raw_socket_open]; [rc] is the variable of that name. *)
Fixpoint connect_loop (HAVE_GETADDRINFO : bool) (ConnectTimeout : Z)
    (addrs : list AddrInfo) (rc : Z) (c : Connection) (log : list IoEvent)
  : Z * Connection * list IoEvent :=
  match addrs with
  | [] => (rc, c, log)
  | a :: rest =>
      let fd' := socket_fd a in
      let log1 := log ++ [SysSocket fd'] in
      if fd' >=? 0 then
        let '(rc', log2) :=
          socket_connect HAVE_GETADDRINFO ConnectTimeout fd' a log1 in
        if rc' =? 0 then (rc', opened fd' c, log2 ++ [SetCloexec fd'])
        else connect_loop HAVE_GETADDRINFO ConnectTimeout rest rc' c
                          (log2 ++ [SysClose fd'])
      else connect_loop HAVE_GETADDRINFO ConnectTimeout rest rc c log1
  end.

(** [raw_socket_open(conn)], the [getaddrinfo] variant.  [bad_idn] tells
    that libidn is built in and rejects the host name; [lookup] is the list
    [getaddrinfo] produces, [None] when it fails.  The informational
    messages are left out. *)
Definition raw_socket_open (ConnectTimeout : Z) (bad_idn : bool)
    (lookup : option (list AddrInfo)) (c : Connection) (log : list IoEvent)
  : Z * Connection * list IoEvent :=
  if bad_idn then (-1, c, log ++ [BadIdn])
  else
    match lookup with
    | None => (-1, c, log ++ [HostNotFound])
    | Some addrs =>
        let '(rc, c', log') :=
          connect_loop true ConnectTimeout addrs (-1) c log in
        if negb (rc =? 0) then (-1, c', log' ++ [ConnectFailed rc])
        else (0, c', log')
    end.

(** An address the loop can use. *)
Definition usable (a : AddrInfo) : bool :=
  (socket_fd a >=? 0) &&
  match ai_family a with AF_OTHER => false | _ => connect_errno a =? 0 end.

(** The descriptors a log shows as obtained from [socket()], and those it
    shows as closed. *)
Definition sockets_of (log : list IoEvent) : list Z :=
  omap (fun ev => match ev with
                  | SysSocket fd => if fd >=? 0 then Some fd else None
                  | _ => None
                  end) log.

Definition closes_of (log : list IoEvent) : list Z :=
  omap (fun ev => match ev with SysClose fd => Some fd | _ => None end) log.

(** The results of the [socket()] calls a log shows. *)
Definition socket_calls (log : list IoEvent) : list Z :=
  omap (fun ev => match ev with SysSocket fd => Some fd | _ => None end) log.

(** What a successful [mutt_socket_readchar] call returns for a byte. *)
Definition got (x : ascii) : Z * option ascii := (1, Some x).

End SocketOps.

(* ===================================================================== *)
(** * POP3 mailbox driver: synchronising, draining and sweeping (pop.c) *)
(* ===================================================================== *)

Module PopOps.
Import Pop.

(** ** The UIDLs of the view *)

(** The UIDL of a record, as [mutt_str_strcmp] sees it. *)
Definition uidl_of (h : Header) : string := NONULL (data h).

Definition uidls (ctx : Context) : list string := uidl_of <$> view ctx.

(** ** pop_sync_mailbox *)

(** What the driver does to the two caches while it synchronises. *)
Inductive CacheOp :=
  | BcacheDel (uidl : option string)      (** [mutt_bcache_del] *)
  | HcacheDelete (uidl : option string).  (** [mutt_hcache_delete] *)

(** What one round of the loop of [pop_sync_mailbox] meets. *)
Record SyncAttempt := mkSyncAttempt {
  sy_reconnect : Reconnect;
  sy_dele : Z -> Reply;      (** the answer to [DELE n] *)
  sy_quit : Reply;           (** the answer to [QUIT] *)
}.

(** The record is to be deleted on the server:
    [ctx->hdrs[i]->deleted && ctx->hdrs[i]->refno != -1]. *)
Definition to_delete (h : Header) : bool :=
  deleted h && negb (refno h =? -1).

(** The loop [for (i = 0, j = 0, ret = 0; ret == 0 && i < ctx->msgcount;
    i++)]; [n] iterations remain.  [None] is an access outside
    [ctx->hdrs]. *)
Fixpoint dele_loop (e : Env) (dele : Z -> Reply) (n i : nat) (ret : Z)
    (ctx : Context) (ops : list CacheOp)
  : option (Z * Context * list CacheOp) :=
  match n with
  | O => Some (ret, ctx, ops)
  | S n' =>
      if negb (ret =? 0) then Some (ret, ctx, ops)
      else
        h ← hdrs ctx !! i;
        let '(ret1, ctx1, ops1) :=
          if to_delete h then
            let ctx' := emit ctx (Sent (DELE (refno h))) in
            let '(r, pd) := pop_query (dele (refno h)) (pop_data ctx') in
            (r, with_pop_data ctx' pd,
             if r =? 0 then
               ops ++ BcacheDel (data h) ::
                 (if USE_HCACHE e then [HcacheDelete (data h)] else [])
             else ops)
          else (ret, ctx, ops) in
        let ctx2 :=
          if USE_HCACHE e && changed h
          then emit ctx1 (HcacheStore (data h)) else ctx1 in
        dele_loop e dele n' (S i) ret1 ctx2 ops1
  end.

(** The [while (true)] loop of [pop_sync_mailbox]; each round consumes one
    [SyncAttempt], and [None] is returned when the rounds described run
    out. *)
Fixpoint sync_rounds (e : Env) (attempts : list SyncAttempt) (ctx : Context)
    (ops : list CacheOp) : option (Z * Context * list CacheOp) :=
  match attempts with
  | [] => None
  | a :: rest =>
      let '(rc, ctx1) := pop_reconnect (sy_reconnect a) ctx in
      if rc <? 0 then Some (-1, ctx1, ops)
      else
        '(ret, ctx2, ops2) ←
          dele_loop e (sy_dele a) (msgcount ctx1) 0 0 ctx1 ops;
        let '(ret', ctx3) :=
          if ret =? 0 then
            let c := emit ctx2 (Sent QUIT) in
            let '(r, pd) := pop_query (sy_quit a) (pop_data c) in
            (r, with_pop_data c pd)
          else (ret, ctx2) in
        if ret' =? 0 then
          let ctx4 :=
            pop_clear_cache
              (with_pop_data ctx3 (set_clear_cache (pop_data ctx3) true)) in
          Some (0,
                with_pop_data ctx4 (set_status (pop_data ctx4) POP_DISCONNECTED),
                ops2)
        else if ret' =? -2 then
          Some (-1, emit ctx3 (Error (err_msg (pop_data ctx3))), ops2)
        else sync_rounds e rest ctx3 ops2
  end.

(** [pop_sync_mailbox(ctx, index_hint)]; the progress display is left
    out. *)
Definition pop_sync_mailbox (e : Env) (attempts : list SyncAttempt)
    (ctx : Context) : option (Z * Context * list CacheOp) :=
  sync_rounds e attempts
    (with_pop_data ctx (set_check_time (pop_data ctx) 0)) [].

(** The records the loop is to delete on the server, among [hs]. *)
Definition doomed (hs : list Header) : list Header :=
  List.filter to_delete hs.

(** The commands a trace shows as sent. *)
Definition commands_of (evs : list Event) : list Command :=
  omap (fun ev => match ev with Sent c => Some c | _ => None end) evs.

(** The body-cache deletions among the cache operations. *)
Definition bcache_deletions (ops : list CacheOp) : list (option string) :=
  omap (fun op => match op with BcacheDel u => Some u | _ => None end) ops.

(** The server answers [+OK]. *)
Definition is_ok (r : Reply) : bool :=
  match r with ReplyOk _ _ => true | _ => false end.

(** ** msg_cache_check *)

(** [HC_FNAME "." HC_FEXT] *)
Definition hcache_file : string := "neomutt.hcache".

(** [msg_cache_check(id, bcache, ctx)] for a context with its [PopData]:
    the return value and whether [mutt_bcache_del(bcache, id)] was called,
    which returns [del_rc]. *)
Definition msg_cache_check (e : Env) (del_rc : Z) (id : string)
    (ctx : Context) : Z * bool :=
  if USE_HCACHE e && String.eqb hcache_file id then (0, false)
  else if existsb (fun h => match data h with
                            | Some _ => mutt_str_strcmp_eq (data h) (Some id)
                            | None => false
                            end) (view ctx)
  then (0, false)
  else (del_rc, true).

(** ** pop_fetch_mail *)

Definition MUTT_YES : Z := 1.

(** The commands [pop_fetch_mail] puts on the wire. *)
Inductive MailCommand :=
  | STAT
  | LAST
  | RSET
  | Cmd (c : Command).     (** [RETR n], [DELE n], [QUIT] *)

(** What [pop_fetch_mail] does to the outside. *)
Inductive MailEvent :=
  | Wire (c : MailCommand)
  | MailError (msg : string)       (** [mutt_error] *)
  | MailMessage (msg : string)     (** [mutt_message] *)
  | OpenSpool                      (** [mx_open_mailbox] returned a mailbox *)
  | Committed (i : Z)              (** [mx_commit_message] returned 0 for
                                       message [i] *)
  | CloseSpool                     (** [mx_close_mailbox] *)
  | SocketClose                    (** [mutt_socket_close(conn)] *)
  | SocketFree.                    (** [mutt_socket_free(conn)] *)

(** What one run of [pop_fetch_mail] meets: the configuration, and what
    its collaborators and the server answer. *)
Record MailRun := mkMailRun {
  PopHost : option string;
  path_ok : bool;             (** [pop_parse_path] returns 0 *)
  conn_found : bool;          (** [mutt_conn_find] returns a connection *)
  connection_ret : Z;         (** [pop_open_connection] *)
  stat_reply : Reply;
  stat_msgs : Z;              (** what [sscanf] reads from the STAT line *)
  stat_bytes : Z;
  PopLast : bool;
  last_reply : Reply;
  last_value : Z;             (** what [sscanf] reads from the LAST line *)
  spool_ok : bool;            (** [mx_open_mailbox] returns a mailbox *)
  delanswer : Z;              (** [query_quadoption(PopDelete, ..)] *)
  new_message_ok : Z -> bool; (** [mx_open_new_message] returns a message *)
  retr_reply : Z -> Reply;
  commit_ok : Z -> bool;      (** [mx_commit_message] returns 0 *)
  dele_reply : Z -> Reply;
  rset_reply : Reply;
  quit_reply : Reply;
}.

(** How the [for] loop over the messages is left: by [goto fail], or to
    the code after it, with the variable [rset]. *)
Inductive LoopEnd :=
  | LostConnection
  | LoopOver (rset : bool).

(** [pop_fetch_data(pop_data, "RETR i", NULL, fetch_message, msg->fp)] *)
Definition retr_to_spool (e : Env) (reply : Reply) (pd : PopData)
  : Z * PopData :=
  let '(ret, (pd', _)) :=
    pop_fetch_data (fun s : PopData * list string => fst s)
      (fun pd' s => (pd', snd s)) reply
      (fun line s =>
         let '(r, f') := fetch_message e line (snd s) in (r, (fst s, f')))
      (pd, []) in
  (ret, pd').

Definition write_error : string := "Error while writing mailbox!".

(** The loop [for (int i = last + 1; i <= msgs; i++)]; [n] iterations
    remain. *)
Fixpoint mail_loop (e : Env) (r : MailRun) (n : nat) (i : Z) (rset : bool)
    (pd : PopData) (tr : list MailEvent) : LoopEnd * PopData * list MailEvent :=
  match n with
  | O => (LoopOver rset, pd, tr)
  | S n' =>
      let '(ret1, rset1, pd1, tr1) :=
        if negb (new_message_ok r i) then (-3, rset, pd, tr)
        else
          let '(ret, pd') := retr_to_spool e (retr_reply r i) pd in
          let tr' := tr ++ [Wire (Cmd (RETR i))] in
          let rset' := if ret =? -3 then true else rset in
          if (ret =? 0) && negb (commit_ok r i) then (-3, true, pd', tr')
          else (ret, rset', pd',
                if ret =? 0 then tr' ++ [Committed i] else tr') in
      let '(ret2, pd2, tr2) :=
        if (ret1 =? 0) && (delanswer r =? MUTT_YES) then
          (* delete the message on the server *)
          let '(ret, pd') := pop_query (dele_reply r i) pd1 in
          (ret, pd', tr1 ++ [Wire (Cmd (DELE i))])
        else (ret1, pd1, tr1) in
      if ret2 =? -1 then (LostConnection, pd2, tr2 ++ [CloseSpool])
      else if ret2 =? -2 then
        (LoopOver rset1, pd2, tr2 ++ [MailError (err_msg pd2)])
      else if ret2 =? -3 then
        (LoopOver rset1, pd2, tr2 ++ [MailError write_error])
      else
        mail_loop e r n' (i + 1) rset1 pd2 (tr2 ++ [MailMessage "read"])
  end.

Definition server_closed : string := "Server closed connection!".

(** The label [fail]. *)
Definition mail_fail (tr : list MailEvent) : list MailEvent :=
  tr ++ [MailError server_closed; SocketClose].

(** The label [finish]. *)
Definition mail_finish (r : MailRun) (pd : PopData) (tr : list MailEvent)
  : list MailEvent :=
  let tr1 := tr ++ [Wire (Cmd QUIT)] in
  if fst (pop_query (quit_reply r) pd) =? -1 then mail_fail tr1
  else tr1 ++ [SocketClose].

(** [pop_fetch_mail()]: everything it does, in order.  [pd] is the fresh
    [PopData] the function allocates. *)
Definition pop_fetch_mail (e : Env) (r : MailRun) (pd : PopData)
  : list MailEvent :=
  match PopHost r with
  | None => [MailError "POP host is not defined."]
  | Some host =>
      if negb (path_ok r) then [MailError "invalid POP path"]
      else if negb (conn_found r) then []
      else if connection_ret r <? 0 then [SocketFree]
      else
        let tr0 := [MailMessage "Checking for new messages..."; Wire STAT] in
        let '(ret, pd1) := pop_query (stat_reply r) pd in
        if ret =? -1 then mail_fail tr0
        else if ret =? -2 then
          mail_finish r pd1 (tr0 ++ [MailError (err_msg pd1)])
        else
          let msgs := stat_msgs r in
          (* only get unread messages *)
          let asks_last := (msgs >? 0) && PopLast r in
          let '(ret_last, pd2) :=
            if asks_last then pop_query (last_reply r) pd1 else (ret, pd1) in
          let tr1 := if asks_last then tr0 ++ [Wire LAST] else tr0 in
          if asks_last && (ret_last =? -1) then mail_fail tr1
          else
            let last :=
              if asks_last && (ret_last =? 0) then last_value r else 0 in
            if msgs <=? last then
              mail_finish r pd2 (tr1 ++ [MailMessage "No new mail in POP mailbox."])
            else if negb (spool_ok r) then mail_finish r pd2 tr1
            else
              let tr2 := tr1 ++ [OpenSpool; MailMessage "Reading new messages"] in
              let '(fin, pd3, tr3) :=
                mail_loop e r (Z.to_nat (msgs - last)) (last + 1) false pd2
                          tr2 in
              match fin with
              | LostConnection => mail_fail tr3
              | LoopOver rset =>
                  let tr4 := tr3 ++ [CloseSpool] in
                  if rset then
                    (* make sure no messages get deleted *)
                    let '(rr, pd4) := pop_query (rset_reply r) pd3 in
                    if rr =? -1 then mail_fail (tr4 ++ [Wire RSET])
                    else mail_finish r pd4 (tr4 ++ [Wire RSET])
                  else mail_finish r pd3 tr4
              end
      end.

(** The messages a trace shows as committed to the spool, and those for
    which it shows a DELE on the wire. *)
Definition committed_of (tr : list MailEvent) : list Z :=
  omap (fun ev => match ev with Committed i => Some i | _ => None end) tr.

Definition deles_of (tr : list MailEvent) : list Z :=
  omap (fun ev => match ev with Wire (Cmd (DELE i)) => Some i | _ => None end)
       tr.

Definition retrs_of (tr : list MailEvent) : list Z :=
  omap (fun ev => match ev with Wire (Cmd (RETR i)) => Some i | _ => None end)
       tr.

Definition is_socket_close (ev : MailEvent) : bool :=
  match ev with SocketClose => true | _ => false end.

Definition is_open_spool (ev : MailEvent) : bool :=
  match ev with OpenSpool => true | _ => false end.

Definition is_close_spool (ev : MailEvent) : bool :=
  match ev with CloseSpool => true | _ => false end.

Definition is_wire (ev : MailEvent) : bool :=
  match ev with Wire _ => true | _ => false end.

(** How many events of a trace pass a test. *)
Definition count (p : MailEvent -> bool) (tr : list MailEvent) : nat :=
  length (List.filter p tr).

(** ** Vocabulary of the statements about the driver *)

(** What reading the listing keeps: the array holds the view, the UIDLs of
    the view are pairwise distinct, and the UIDLs of [ctx0]'s view are its
    first ones. *)
Definition keeps_uidls (ctx0 ctx : Context) : Prop :=
  ctx_ok ctx ∧ NoDup (uidls ctx) ∧ uidls ctx0 `prefix_of` uidls ctx.

(** What the loop over the messages adds to the trace. *)
Record loop_adds (r : MailRun) (rset0 : bool) (fin : LoopEnd)
    (evs : list MailEvent) : Prop := mkLoopAdds {
  la_deles : deles_of evs
             = if delanswer r =? MUTT_YES then committed_of evs else [];
  la_retrs : ∃ tl, retrs_of evs = committed_of evs ++ tl ∧
                   (length tl <= 1)%nat ∧
                   (∀ j lines, j ∈ tl -> retr_reply r j = ReplyOk lines true ->
                      fin = LoopOver true);
  la_rset : rset0 = true -> fin = LostConnection ∨ fin = LoopOver true;
  la_socket : count is_socket_close evs = 0%nat;
  la_open : count is_open_spool evs = 0%nat;
  la_close : count is_close_spool evs
             = match fin with LostConnection => 1%nat | _ => 0%nat end;
  la_rset_wire : Wire RSET ∉ evs;
}.

(** What the labels [fail] and [finish] add to the trace. *)
Record ending (evs : list MailEvent) : Prop := mkEnding {
  en_deles : deles_of evs = [];
  en_retrs : retrs_of evs = [];
  en_committed : committed_of evs = [];
  en_socket : count is_socket_close evs = 1%nat;
  en_open : count is_open_spool evs = 0%nat;
  en_close : count is_close_spool evs = 0%nat;
  en_last : last evs = Some SocketClose;
}.

(** A run with one message on the server: it arrives completely and the
    spool refuses the commit. *)
Definition run_commit_fails : MailRun :=
  mkMailRun (Some "pop.example.com"%string) true true 0
            (ReplyOk [] true) 1 120 false ReplyLost 0 true MUTT_YES
            (fun _ => true) (fun _ => ReplyOk ["Subject: x"%string] true)
            (fun _ => false) (fun _ => ReplyOk [] true)
            (ReplyOk [] true) (ReplyOk [] true).

(** A mailbox in which AAA is flagged deleted, and servers that accept or
    refuse deletions. *)
Definition mailbox_to_sync : Context :=
  mkContext [set_deleted (Scenario.hdr "AAA" 1 0) true; Scenario.hdr "BBB" 2 1]
            2 0 Scenario.pd0 [].

Definition accepting : SyncAttempt :=
  mkSyncAttempt (mkReconnect true (ReplyOk [] true))
                (fun _ => ReplyOk [] true) (ReplyOk [] true).

Definition refusing : SyncAttempt :=
  mkSyncAttempt (mkReconnect true (ReplyOk [] true))
                (fun _ => ReplyErr "-ERR no such message") (ReplyOk [] true).

(** A round in which the body cache takes no message and the connection
    drops during RETR, and a retry in which the reconnect finds the three
    messages again and both work. *)
Definition round_dropped : Attempt :=
  mkAttempt (mkReconnect true (ReplyOk [] true)) false "/tmp/neomutt-1"%string
            (mkServer (ReplyOk [] true) (fun _ => ReplyOk [] true)
                      (fun _ => ReplyOk [] true) (fun _ => ReplyLost)).

Definition round_retry : Attempt :=
  mkAttempt (mkReconnect true (ReplyOk ["1 AAA"; "2 BBB"; "3 CCC"]%string true))
            true "/tmp/neomutt-2"%string
            (Scenario.server (ReplyOk [] true)).

(** A server that lists a fourth message, DDD, after the three of the
    scenario. *)
Definition server_new : Server :=
  Scenario.server (ReplyOk ["1 AAA"; "2 BBB"; "3 CCC"; "4 DDD"]%string true).

(** An environment without body cache, and a round in which the body
    cache takes no message. *)
Definition round_without_bcache : Attempt :=
  mkAttempt (mkReconnect true (ReplyOk [] true)) false "/tmp/neomutt-1"%string
            (Scenario.server (ReplyOk [] true)).

End PopOps.

(* ===================================================================== *)
(** * TLS: names, the trust file, set-up and tear-down (conn/ssl.c) *)
(* ===================================================================== *)

Module SslOps.
Import Ssl.

(** ** Vocabulary of the statements about names and the trust file *)

(** A counted string without a NUL byte inside: its C string is all of
    it. *)
Definition nul_free (s : string) : Prop := c_str s = s.

(** The host name [check_host] compares with: the IDNA form when the
    conversion works. *)
Definition ascii_host (cfg : Config) (hostname : string) : string :=
  match idna_to_ascii cfg hostname with
  | Some a => a
  | None => hostname
  end.

(** A subjectAltName entry that vouches for the host: of type DNS, without
    a NUL byte, and matching. *)
Definition san_vouches (cfg : Config) (hostname : string) (n : GENERAL_NAME)
  : Prop :=
  gn_type n = GEN_DNS ∧ nul_free (ia5 n) ∧
  hostname_match (ascii_host cfg hostname) (ia5 n) = true.

(** The common name vouches for the host. *)
Definition cn_vouches (cfg : Config) (hostname : string) (c : X509) : Prop :=
  ∃ subject cn, subject_name c = Some subject ∧
    get_text_by_NID subject NID_commonName = Some cn ∧ nul_free cn ∧
    hostname_match (ascii_host cfg hostname) cn = true.

(** The certificate name is a wildcard pattern: it starts with [*.]. *)
Definition is_wildcard (certname : string) : bool := strncmp_eq certname "*." 2.

(** The dates of a certificate are acceptable under the configuration. *)
Definition dates_accepted (cfg : Config) (c : X509) (now : Z) : Prop :=
  SslVerifyDates cfg = MUTT_NO ∨ within_validity c now.

(** The trust file as a list: empty when it does not exist. *)
Definition trusted (st : State) : list X509 :=
  match trust_file st with None => [] | Some l => l end.

(** ** Scenarios *)

(** A handshake with [imap.example.org]; the trust file exists and is
    empty. *)
Definition wrong_host_state : State :=
  ssl_negotiate_setup "imap.example.org" (initial (Some [])).

(** The server presents the certificate of [mail.example.com]; the user
    presses a, then o. *)
Definition wrong_host_visit : VerifyInput :=
  mkVerifyInput 0 Scenario.leaf 0 1 100 [OpAcceptAlways; OpAcceptOnce] true.

(** What the callback leaves behind in that scenario. *)
Definition wrong_host_after : State :=
  accept_once Scenario.leaf
    (with_ui
       (with_ui (remember_last wrong_host_visit wrong_host_state)
          (EvError "Certificate host check failed: certificate owner does not match hostname imap.example.org"))
       (EvMenu 1 1 "(r)eject, accept (o)nce")).

(** A handshake with [mail.example.com]; the user answers "accept
    always" and the trust file can be written. *)
Definition save_visit : VerifyInput :=
  mkVerifyInput 0 Scenario.leaf 0 1 100 [OpAcceptAlways] true.

Definition save_state : State :=
  ssl_negotiate_setup "mail.example.com" (initial None).

Definition save_after : State :=
  accept_once Scenario.leaf
    (save_certificate Scenario.leaf true
       (with_ui (remember_last save_visit save_state)
          (EvMenu 1 1 "(r)eject, accept (o)nce, (a)ccept always"))).

(** A later process that starts with the certificate in its trust file. *)
Definition later_state : State :=
  ssl_negotiate_setup "mail.example.com" (initial (Some [Scenario.leaf])).

End SslOps.

(* ===================================================================== *)
(** * TLS: set-up and tear-down of a session (conn/ssl.c) *)
(* ===================================================================== *)

Module TlsOps.
Import Ssl.

(** ** Loading the trust file into the library's store *)

(** How the read that ends the loop fails: at the end of the file, where
    nothing is decoded, or on a damaged entry; [left] is then what the
    failed decoding leaves in the object it wrote to, if it got that far. *)
Inductive PemEnd :=
  | AtEof
  | Damaged (left : option X509).

(** What [PEM_read_X509] yields from the trust file: the certificates it
    returns before its first NULL, and how that last read fails. *)
Record PemFile := mkPemFile {
  pem_certs : list X509;
  pem_end : PemEnd;
}.

(** The error left by the last read is [PEM_R_NO_START_LINE]. *)
Definition pem_eof (f : PemFile) : bool :=
  match pem_end f with AtEof => true | Damaged _ => false end.

(** The [X509] objects of the library by address, and the addresses passed
    to [X509_STORE_add_cert] so far, in order: the store keeps a reference
    to the object it is given (its reference count is raised), not a
    copy. *)
Record Library := mkLibrary {
  objects : list X509;
  handed : list nat;
}.

(** [PEM_read_X509(fp, &cert, NULL, NULL)] when it decodes the certificate
    [c]: while [cert] is NULL a new object is made; otherwise the object
    [cert] points to is reused and holds [c] from then on.  The result is
    the new object table and the pointer returned, which is also the new
    value of [cert]. *)
Definition PEM_read_X509 (c : X509) (cert : option nat) (objs : list X509)
  : list X509 * nat :=
  match cert with
  | None => (objs ++ [c], length objs)
  | Some a => (<[a := c]> objs, a)
  end.

(** The test of the [if]: the certificate is filtered out. *)
Definition expired (now : Z) (c : X509) : bool :=
  (X509_cmp_current_time (notBefore c) now >=? 0) ||
  (X509_cmp_current_time (notAfter c) now <=? 0).

(** The loop [while (NULL != PEM_read_X509(fp, &cert, NULL, NULL))] of
    [ssl_load_certificates].  [cert] is the function's variable, which the
    loop never resets; the dates are those of the object just read, which
    holds [c]. *)
Fixpoint load_loop (now : Z) (certs : list X509) (cert : option nat)
    (lib : Library) : option nat * Library :=
  match certs with
  | [] => (cert, lib)
  | c :: rest =>
      let '(objs, a) := PEM_read_X509 c cert (objects lib) in
      if expired now c
      then load_loop now rest (Some a) (mkLibrary objs (handed lib))
      else
        (* X509_STORE_add_cert(store, cert) *)
        load_loop now rest (Some a) (mkLibrary objs (handed lib ++ [a]))
  end.

(** [ssl_load_certificates(ctx)]: the return value and the library
    afterwards; [file] is [None] when [fopen] fails.  [cert] starts as
    NULL.  The final [X509_free(cert)] gives up the function's own
    reference: the object stays for as long as the store refers to it. *)
Definition ssl_load_certificates (now : Z) (file : option PemFile)
    (lib : Library) : Z * Library :=
  match file with
  | None => (0, lib)
  | Some f =>
      let '(cert, lib1) := load_loop now (pem_certs f) None lib in
      let lib2 :=
        match pem_end f, cert with
        | Damaged (Some x), Some a =>
            mkLibrary (<[a := x]> (objects lib1)) (handed lib1)
        | _, _ => lib1
        end in
      (if pem_eof f then 1 else 0, lib2)
  end.

(** What the one object of a call holds when the call ends, if the call
    made one: the last certificate read, or what a failed decoding left. *)
Definition last_read (f : PemFile) : option X509 :=
  match pem_certs f with
  | [] => None
  | _ =>
      match pem_end f with
      | Damaged (Some x) => Some x
      | _ => last (pem_certs f)
      end
  end.

(** The certificates the store reaches through the references it was
    given. *)
Definition store_certs (lib : Library) : list X509 :=
  omap (fun a => objects lib !! a) (handed lib).

(** A trust file with a certificate in its dates followed by an expired
    one, and the same file in the other order; a library with nothing in
    it. *)
Definition file_valid_then_expired : PemFile :=
  mkPemFile [Scenario.leaf; Scenario.expired_leaf] AtEof.

Definition file_expired_then_valid : PemFile :=
  mkPemFile [Scenario.expired_leaf; Scenario.leaf] AtEof.

Definition empty_library : Library := mkLibrary [] [].

(** ** Entropy files *)

Definition S_IRGRP : Z := 32.   (* 040 *)
Definition S_IWGRP : Z := 16.   (* 020 *)
Definition S_IROTH : Z := 4.    (* 04 *)
Definition S_IWOTH : Z := 2.    (* 02 *)

Record Stat := mkStat {
  st_uid : Z;
  st_mode : Z;
}.

(** What [stat(file, &st)] gives: the entry, or -1 with [errno] being
    [ENOENT] or something else. *)
Inductive StatResult :=
  | StatOk (s : Stat)
  | StatFails (enoent : bool).

Inductive EntropyEvent :=
  | Filling (file : string)       (** [mutt_message("Filling entropy pool: ..")] *)
  | Insecure (file : string)      (** [mutt_error(".. has insecure permissions!")] *)
  | RandEgd (file : string)       (** [RAND_egd(file)] *)
  | RandLoadFile (file : string). (** [RAND_load_file(file, -1)] *)

(** [add_entropy(file)] in a build with [HAVE_RAND_STATUS]: the return
    value and what was done.  [uid] is [getuid()]; [egd_rc] and [load_rc]
    are what [RAND_egd] and [RAND_load_file] return if they are called. *)
Definition add_entropy (HAVE_RAND_EGD : bool) (uid : Z) (file : option string)
    (st : StatResult) (egd_rc load_rc : Z) (log : list EntropyEvent)
  : Z * list EntropyEvent :=
  match file with
  | None => (0, log)
  | Some f =>
      match st with
      | StatFails enoent => (if enoent then 0 else -1, log)
      | StatOk s =>
          let log1 := log ++ [Filling f] in
          (* check that the file permissions are secure *)
          if negb (st_uid s =? uid) ||
             negb (Z.land (st_mode s) (Z.lor S_IWGRP S_IRGRP) =? 0) ||
             negb (Z.land (st_mode s) (Z.lor S_IWOTH S_IROTH) =? 0)
          then (-1, log1 ++ [Insecure f])
          else
            let '(n, log2) :=
              if HAVE_RAND_EGD then (egd_rc, log1 ++ [RandEgd f])
              else (-1, log1) in
            if n <=? 0 then (load_rc, log2 ++ [RandLoadFile f])
            else (n, log2)
      end
  end.

(** The file was handed to the random number generator. *)
Definition is_rand_read (ev : EntropyEvent) : bool :=
  match ev with RandEgd _ | RandLoadFile _ => true | _ => false end.

(** A permission bit of a mode. *)
Definition mode_bit (s : Stat) (bit : Z) : bool := Z.testbit (st_mode s) bit.

(** The file belongs to [uid], and neither its group nor the others may
    read or write it: bits 5 (r) and 4 (w) of the group, 2 (r) and 1 (w) of
    the others are clear. *)
Definition private_to (uid : Z) (s : Stat) : Prop :=
  st_uid s = uid ∧
  mode_bit s 5 = false ∧ mode_bit s 4 = false ∧
  mode_bit s 2 = false ∧ mode_bit s 1 = false.

(** ** Connections and their methods *)

(** The functions a connection's method pointers can hold. *)
Inductive Method :=
  | M_raw_socket_open | M_raw_socket_read | M_raw_socket_write
  | M_raw_socket_close | M_raw_socket_poll
  | M_ssl_socket_open | M_ssl_socket_open_err | M_ssl_socket_read
  | M_ssl_socket_write | M_ssl_socket_close | M_tls_close.

(** [struct SslSockData]: whether [ctx] and [ssl] are set, and [isopen]. *)
Record SslSockData := mkSslSockData {
  ctx : bool;
  ssl_obj : bool;
  isopen : bool;
}.

(** [struct Connection], restricted to what this unit touches. *)
Record Conn := mkConn {
  fd : Z;
  ssf : Z;
  sockdata : option SslSockData;
  conn_open : Method;
  conn_read : Method;
  conn_write : Method;
  conn_close : Method;
  conn_poll : Method;
}.

(** The protocol switches of [SSL_CTX_set_options]; the build is one whose
    OpenSSL defines all five. *)
Inductive SslOp :=
  | SSL_OP_NO_SSLv2 | SSL_OP_NO_SSLv3 | SSL_OP_NO_TLSv1
  | SSL_OP_NO_TLSv1_1 | SSL_OP_NO_TLSv1_2.

(** What the unit does to the library and the system. *)
Inductive TlsEvent :=
  | RawOpen                        (** [raw_socket_open(conn)] *)
  | CtxNew                         (** [SSL_CTX_new(SSLv23_client_method())] *)
  | SetOptions (ops : list SslOp)  (** [SSL_CTX_set_options(ctx, ops)], the
                                       switches or-ed together *)
  | SetDefaultVerifyPaths          (** [SSL_CTX_set_default_verify_paths] *)
  | LoadCertificates               (** [ssl_load_certificates(ctx)] *)
  | ClientCert                     (** the body of [ssl_get_client_cert] *)
  | SetCipherList                  (** [SSL_CTX_set_cipher_list] *)
  | SslNew                         (** [SSL_new(ctx)] *)
  | SetFd (fd : Z)                 (** [SSL_set_fd(ssl, fd)] *)
  | SslConnect                     (** [SSL_connect(ssl)] *)
  | SslShutdown                    (** [SSL_shutdown(ssl)] *)
  | SslFree                        (** [SSL_free(ssl)] *)
  | CtxFree                        (** [SSL_CTX_free(ctx)] *)
  | SysClose (fd : Z)              (** [close(fd)] *)
  | MuttError (msg : string).      (** [mutt_error(msg)] *)

(** The value of [SSL_get_error], as far as the unit tells its values
    apart. *)
Inductive SslError :=
  | SSL_ERROR_NONE | SSL_ERROR_ZERO_RETURN | SSL_ERROR_SYSCALL
  | SSL_ERROR_SSL | SSL_ERROR_OTHER.

(** The configuration variables of the set-up. *)
Record TlsConfig := mkTlsConfig {
  SslUseSslv2 : bool;
  SslUseSslv3 : bool;
  SslUseTlsv1 : bool;
  SslUseTlsv11 : bool;
  SslUseTlsv12 : bool;
  SslUsesystemcerts : bool;
  SslCiphers : option string;
  SslClientCert : option string;
}.

(** What the library answers during [ssl_negotiate]. *)
Record Handshake := mkHandshake {
  host_index : Z;          (** first [SSL_get_ex_new_index] *)
  set_host_ok : bool;      (** first [SSL_set_ex_data] *)
  skip_index : Z;          (** second [SSL_get_ex_new_index] *)
  set_skip_ok : bool;      (** second [SSL_set_ex_data] *)
  sni_ok : bool;           (** [SSL_set_tlsext_host_name] *)
  connect_rc : Z;          (** [SSL_connect] *)
  connect_error : SslError;
  error_string : string;   (** [ERR_error_string(ERR_get_error(), NULL)] *)
}.

(** What the library and the system answer during a set-up. *)
Record TlsEnv := mkTlsEnv {
  init_rc : Z;             (** [ssl_init()] *)
  raw_fd : option Z;       (** the descriptor [raw_socket_open] stores when
                               it returns 0; [None] when it fails *)
  ctx_new_ok : bool;       (** [SSL_CTX_new] returns a context *)
  set_options_ok : bool;   (** [SSL_CTX_set_options] returns non-zero *)
  verify_paths_ok : bool;  (** [SSL_CTX_set_default_verify_paths] *)
  cipher_list_ok : bool;   (** [SSL_CTX_set_cipher_list] *)
  param_new_ok : bool;     (** [X509_VERIFY_PARAM_new] *)
  set1_param_ok : bool;    (** [SSL_CTX_set1_param] *)
  ssl_new_ok : bool;       (** [SSL_new] returns an object *)
  set_fd_ok : bool;        (** [SSL_set_fd] returns 1 *)
  handshake : Handshake;
  cipher_bits : Z;         (** [SSL_CIPHER_get_bits] *)
  close_rc : Z;            (** [close(fd)] *)
}.

Definition with_sockdata (c : Conn) (d : option SslSockData) : Conn :=
  mkConn (fd c) (ssf c) d (conn_open c) (conn_read c) (conn_write c)
         (conn_close c) (conn_poll c).

(** ** Reading, writing, closing *)

(** [ssl_err(data, err)]; the debug message is left out. *)
Definition ssl_err (e : SslError) (d : SslSockData) : SslSockData :=
  match e with
  | SSL_ERROR_ZERO_RETURN | SSL_ERROR_SYSCALL =>
      mkSslSockData (ctx d) (ssl_obj d) false
  | _ => d
  end.

(** [ssl_socket_read(conn, buf, len)]: [rc] is what [SSL_read] returns,
    [eintr] tells whether [errno] is [EINTR] after it, [e] is the value of
    [SSL_get_error] if it is asked for.  [None] is a dereference of a NULL
    [sockdata]. *)
Definition ssl_socket_read (rc : Z) (eintr : bool) (e : SslError) (c : Conn)
  : option (Z * Conn) :=
  data ← sockdata c;
  if (rc <=? 0) || eintr then
    let rc' := if eintr then -1 else rc in
    let data1 := mkSslSockData (ctx data) (ssl_obj data) false in
    Some (rc', with_sockdata c (Some (ssl_err e data1)))
  else Some (rc, c).

(** [ssl_socket_write(conn, buf, len)] *)
Definition ssl_socket_write (rc : Z) (eintr : bool) (e : SslError) (c : Conn)
  : option (Z * Conn) :=
  data ← sockdata c;
  if (rc <=? 0) || eintr then
    let rc' := if eintr then -1 else rc in
    Some (rc', with_sockdata c (Some (ssl_err e data)))
  else Some (rc, c).

(** [raw_socket_close(conn)] *)
Definition raw_socket_close (rc : Z) (c : Conn) (log : list TlsEvent)
  : Z * Conn * list TlsEvent :=
  (rc, c, log ++ [SysClose (fd c)]).

(** [ssl_socket_close(conn)] *)
Definition ssl_socket_close (rc : Z) (c : Conn) (log : list TlsEvent)
  : Z * Conn * list TlsEvent :=
  match sockdata c with
  | Some data =>
      let log1 := if isopen data then log ++ [SslShutdown] else log in
      raw_socket_close rc (with_sockdata c None) (log1 ++ [SslFree; CtxFree])
  | None => raw_socket_close rc c log
  end.

(** [tls_close(conn)] *)
Definition tls_close (rc : Z) (c : Conn) (log : list TlsEvent)
  : Z * Conn * list TlsEvent :=
  let '(rc', c', log') := ssl_socket_close rc c log in
  (rc', mkConn (fd c') (ssf c') (sockdata c') (conn_open c')
               M_raw_socket_read M_raw_socket_write M_raw_socket_close
               (conn_poll c'),
   log').

(** [conn->conn_close(conn)]; [None] when the pointer holds no close
    function. *)
Definition call_close (rc : Z) (c : Conn) (log : list TlsEvent)
  : option (Z * Conn * list TlsEvent) :=
  match conn_close c with
  | M_raw_socket_close => Some (raw_socket_close rc c log)
  | M_ssl_socket_close => Some (ssl_socket_close rc c log)
  | M_tls_close => Some (tls_close rc c log)
  | _ => None
  end.

(** [mutt_socket_close(conn)] with the close method carried out. *)
Definition mutt_socket_close (rc : Z) (c : Conn) (log : list TlsEvent)
  : option (Z * Conn * list TlsEvent) :=
  '(rc', c', log') ←
    (if fd c <? 0 then Some (-1, c, log) else call_close rc c log);
  Some (rc', mkConn (-1) 0 (sockdata c') (conn_open c') (conn_read c')
                    (conn_write c') (conn_close c') (conn_poll c'),
        log').

(** ** Set-up *)

(** [ssl_set_verify_partial(ctx)] *)
Definition ssl_set_verify_partial (cfg : Config) (e : TlsEnv) : Z :=
  if HAVE_SSL_PARTIAL_CHAIN cfg then
    if SslVerifyPartialChains cfg then
      if param_new_ok e then (if set1_param_ok e then 0 else -1) else -1
    else 0
  else 0.

(** [ssl_negotiate(conn, ssldata)]; what the verification callback does
    during [SSL_connect] is not part of this model. *)
Definition ssl_negotiate (h : Handshake) (log : list TlsEvent)
  : Z * list TlsEvent :=
  if host_index h =? -1 then (-1, log)
  else if negb (set_host_ok h) then (-1, log)
  else if skip_index h =? -1 then (-1, log)
  else if negb (set_skip_ok h) then (-1, log)
  else
    let log1 :=
      if sni_ok h then log
      else log ++ [MuttError "Warning: unable to set TLS SNI host name"] in
    let log2 := log1 ++ [SslConnect] in
    if negb (connect_rc h =? 1) then
      let errmsg :=
        match connect_error h with
        | SSL_ERROR_SYSCALL => "I/O error"%string
        | SSL_ERROR_SSL => error_string h
        | _ => "unknown error"%string
        end in
      (-1, log2 ++ [MuttError (String.append "SSL failed: " errmsg)])
    else (0, log2).

(** One [if (!SslUseX) SSL_CTX_set_options(ctx, op)] of [ssl_socket_open]. *)
Definition disable_unless (use : bool) (op : SslOp) (log : list TlsEvent)
  : list TlsEvent :=
  if use then log else log ++ [SetOptions [op]].

(** The steps both set-ups take between the verify paths and [SSL_new]:
    trust file, client certificate. *)
Definition load_trust (cfg : Config) (tc : TlsConfig) (log : list TlsEvent)
  : list TlsEvent :=
  let log1 := match CertificateFile cfg with
              | Some _ => log ++ [LoadCertificates]
              | None => log
              end in
  match SslClientCert tc with
  | Some _ => log1 ++ [ClientCert]
  | None => log1
  end.

Definition warn_partial (cfg : Config) (e : TlsEnv) (log : list TlsEvent)
  : list TlsEvent :=
  if negb (ssl_set_verify_partial cfg e =? 0)
  then log ++ [MuttError "Warning: error enabling ssl_verify_partial_chains"]
  else log.

(** [ssl_socket_open(conn)]; [None] when [mutt_socket_close] finds no
    close function in the connection. *)
Definition ssl_socket_open (cfg : Config) (tc : TlsConfig) (e : TlsEnv)
    (c : Conn) (log : list TlsEvent) : option (Z * Conn * list TlsEvent) :=
  let fail (c : Conn) (log : list TlsEvent) :=
    '(_, c', log') ← mutt_socket_close (close_rc e) c log;
    Some (-1, c', log') in
  match raw_fd e with
  | None => Some (-1, c, log ++ [RawOpen])
  | Some fd' =>
      let data := mkSslSockData false false false in
      let c1 := mkConn fd' (ssf c) (Some data) (conn_open c) (conn_read c)
                       (conn_write c) (conn_close c) (conn_poll c) in
      let log1 := log ++ [RawOpen; CtxNew] in
      if negb (ctx_new_ok e) then
        fail c1 (log1 ++ [MuttError "Unable to create SSL context"])
      else
        let data1 := mkSslSockData true false false in
        let c2 := with_sockdata c1 (Some data1) in
        (* disable SSL protocols as needed *)
        let log2 :=
          disable_unless (SslUseSslv3 tc) SSL_OP_NO_SSLv3
            (disable_unless (SslUseSslv2 tc) SSL_OP_NO_SSLv2
               (disable_unless (SslUseTlsv12 tc) SSL_OP_NO_TLSv1_2
                  (disable_unless (SslUseTlsv11 tc) SSL_OP_NO_TLSv1_1
                     (disable_unless (SslUseTlsv1 tc) SSL_OP_NO_TLSv1 log1))))
        in
        let log3 := if SslUsesystemcerts tc
                    then log2 ++ [SetDefaultVerifyPaths] else log2 in
        if SslUsesystemcerts tc && negb (verify_paths_ok e) then fail c2 log3
        else
          let log4 := load_trust cfg tc log3 in
          let log5 := match SslCiphers tc with
                      | Some _ => log4 ++ [SetCipherList]
                      | None => log4
                      end in
          let log6 := warn_partial cfg e log5 ++ [SslNew; SetFd fd'] in
          let c3 := with_sockdata c2
                      (Some (mkSslSockData true (ssl_new_ok e) false)) in
          let '(rc, log7) := ssl_negotiate (handshake e) log6 in
          if negb (rc =? 0) then fail c3 log7
          else
            Some (0,
                  mkConn fd' (cipher_bits e)
                         (Some (mkSslSockData true (ssl_new_ok e) true))
                         (conn_open c) (conn_read c) (conn_write c)
                         (conn_close c) (conn_poll c),
                  log7)
  end.

(** The value of [ssl_options] when [mutt_ssl_starttls] passes it on. *)
Definition starttls_options (tc : TlsConfig) : list SslOp :=
  (if SslUseTlsv12 tc then [] else [SSL_OP_NO_TLSv1_2]) ++
  (if SslUseTlsv11 tc then [] else [SSL_OP_NO_TLSv1_1]) ++
  (if SslUseTlsv1 tc then [] else [SSL_OP_NO_TLSv1]) ++
  (* these are always set *)
  [SSL_OP_NO_SSLv3; SSL_OP_NO_SSLv2].

(** [mutt_ssl_starttls(conn)] *)
Definition mutt_ssl_starttls (cfg : Config) (tc : TlsConfig) (e : TlsEnv)
    (c : Conn) (log : list TlsEvent) : Z * Conn * list TlsEvent :=
  if negb (init_rc e =? 0) then (-1, c, log)
  else
    let log1 := log ++ [CtxNew] in
    if negb (ctx_new_ok e) then (-1, c, log1)
    else
      let log2 := log1 ++ [SetOptions (starttls_options tc)] in
      if negb (set_options_ok e) then (-1, c, log2)
      else
        let log3 := if SslUsesystemcerts tc
                    then log2 ++ [SetDefaultVerifyPaths] else log2 in
        if SslUsesystemcerts tc && negb (verify_paths_ok e) then (-1, c, log3)
        else
          let log4 := load_trust cfg tc log3 in
          let log5 := match SslCiphers tc with
                      | Some _ => log4 ++ [SetCipherList]
                      | None => log4
                      end in
          if match SslCiphers tc with
             | Some _ => negb (cipher_list_ok e)
             | None => false
             end
          then (-1, c, log5)
          else
            let log6 := warn_partial cfg e log5 ++ [SslNew] in
            if negb (ssl_new_ok e) then (-1, c, log6)
            else
              let log7 := log6 ++ [SetFd (fd c)] in
              if negb (set_fd_ok e) then (-1, c, log7)
              else
                let '(rc, log8) := ssl_negotiate (handshake e) log7 in
                if negb (rc =? 0) then (-1, c, log8)
                else
                  (* hmm. watch out if we're starting TLS over any method
                     other than raw. *)
                  (0,
                   mkConn (fd c) (cipher_bits e)
                          (Some (mkSslSockData true true true))
                          (conn_open c) M_ssl_socket_read M_ssl_socket_write
                          M_tls_close (conn_poll c),
                   log8).


(** ** Vocabulary of the statements *)

(** The protocols switched off by the time the first handshake of a log
    starts; [None] when the log shows no handshake. *)
Fixpoint handshake_options (log : list TlsEvent) : option (list SslOp) :=
  match log with
  | [] => None
  | SslConnect :: _ => Some []
  | SetOptions ops :: rest => (ops ++.) <$> handshake_options rest
  | _ :: rest => handshake_options rest
  end.

(** The descriptors a log shows as closed. *)
Definition closed_fds (log : list TlsEvent) : list Z :=
  omap (fun ev => match ev with SysClose fd => Some fd | _ => None end) log.

(** An event that neither closes a descriptor nor shuts the TLS session
    down. *)
Definition calm (ev : TlsEvent) : bool :=
  match ev with SysClose _ | SslShutdown => false | _ => true end.

(** An event that sets no option and starts no handshake. *)
Definition plain (ev : TlsEvent) : bool :=
  match ev with SetOptions _ | SslConnect => false | _ => true end.

(** A log of a set-up under way: nothing closed, no handshake started,
    [ops] switched off. *)
Definition setting_up (ops : list SslOp) (l : list TlsEvent) : Prop :=
  forallb calm l = true ∧
  ∀ l2, handshake_options (l ++ l2) = (ops ++.) <$> handshake_options l2.

(** The switches [ssl_socket_open] has set when it is through with the
    protocol variables. *)
Definition open_options (tc : TlsConfig) : list SslOp :=
  (if SslUseTlsv1 tc then [] else [SSL_OP_NO_TLSv1]) ++
  (if SslUseTlsv11 tc then [] else [SSL_OP_NO_TLSv1_1]) ++
  (if SslUseTlsv12 tc then [] else [SSL_OP_NO_TLSv1_2]) ++
  (if SslUseSslv2 tc then [] else [SSL_OP_NO_SSLv2]) ++
  (if SslUseSslv3 tc then [] else [SSL_OP_NO_SSLv3]).

(** The connection a successful [mutt_ssl_starttls] leaves. *)
Definition secured (e : TlsEnv) (c : Conn) : Conn :=
  mkConn (fd c) (cipher_bits e) (Some (mkSslSockData true true true))
         (conn_open c) M_ssl_socket_read M_ssl_socket_write M_tls_close
         (conn_poll c).

(** The connection after a TLS session has been closed. *)
Definition torn_down (c : Conn) : Conn :=
  mkConn (-1) 0 None (conn_open c) M_raw_socket_read M_raw_socket_write
         M_raw_socket_close (conn_poll c).

(** One use of an open TLS connection: a read or a write, with what the
    library answers. *)
Inductive IoOp :=
  | Read (rc : Z) (eintr : bool) (e : SslError)
  | Write (rc : Z) (eintr : bool) (e : SslError).

(** The operation moved data. *)
Definition succeeded (op : IoOp) : bool :=
  match op with
  | Read rc eintr _ | Write rc eintr _ => (0 <? rc) && negb eintr
  end.

Definition is_read (op : IoOp) : bool :=
  match op with Read _ _ _ => true | Write _ _ _ => false end.

(** A sequence of reads and writes through the TLS methods. *)
Fixpoint run_io (ops : list IoOp) (c : Conn) : option Conn :=
  match ops with
  | [] => Some c
  | Read rc eintr e :: rest =>
      '(_, c') ← ssl_socket_read rc eintr e c; run_io rest c'
  | Write rc eintr e :: rest =>
      '(_, c') ← ssl_socket_write rc eintr e c; run_io rest c'
  end.

(** ** Scenarios *)

Definition plain_conn : Conn :=
  mkConn 5 0 None M_raw_socket_open M_raw_socket_read M_raw_socket_write
         M_raw_socket_close M_raw_socket_poll.

Definition tls_defaults : TlsConfig :=
  mkTlsConfig false false true true true true None None.

Definition good_handshake : Handshake :=
  mkHandshake 0 true 1 true true 1 SSL_ERROR_NONE EmptyString.

Definition good_env : TlsEnv :=
  mkTlsEnv 0 (Some 5) true true true true true true true true
           good_handshake 256 0.

(** The server refuses the handshake. *)
Definition refused_env : TlsEnv :=
  mkTlsEnv 0 (Some 5) true true true true true true true true
           (mkHandshake 0 true 1 true true (-1) SSL_ERROR_SSL "alert")
           256 0.

End TlsOps.

(* ===================================================================== *)
(** * Proof support *)
(* ===================================================================== *)

Ltac case_if :=
  match goal with |- context [if ?b then _ else _] => destruct b end.

(* ===================================================================== *)
(** * The transport: line reading stays inside the buffer *)
(* ===================================================================== *)

Module SocketFacts.
Import Socket.

Section TransportFacts.

Variable inbuf_size : nat.

Local Abbreviation readchar := (mutt_socket_readchar inbuf_size).
Local Abbreviation ok := (conn_ok inbuf_size).

Lemma conn_read_window (c : Connection) n w rest :
  conn_read inbuf_size c = (n, w, rest) ->
  length (inbuf c) = inbuf_size ->
  length w = inbuf_size ∧ n <= Z.of_nat inbuf_size ∧
  (0 < n -> (0 < length w)%nat).
Proof.
  unfold conn_read. intros H Hlen.
  destruct (peer c) as [|[bs|] rest'].
  - injection H as <- <- <-. lia.
  - injection H as <- <- <-.
    rewrite length_app, length_drop, length_take. lia.
  - injection H as <- <- <-. lia.
Qed.

(** [mutt_socket_readchar] never reads outside the receive window, keeps
    the connection well formed, and returns 1 with a character or -1. *)
Lemma readchar_total (c : Connection) :
  ok c ->
  ∃ rc och c', readchar c = Some (rc, och, c') ∧ ok c' ∧
    (rc = 1 ∨ rc = -1) ∧ (rc = 1 -> ∃ ch, och = Some ch).
Proof.
  intros (Hlen & Hpos & Hav). unfold mutt_socket_readchar.
  assert (Hfetch : ∀ d : Connection, ok d -> bufpos d < available d ->
     ∃ rc och c', (inbuf d !! Z.to_nat (bufpos d)) ≫= (λ ch, Some
       (1, Some ch,
        mkConnection (fd d) (inbuf d) (bufpos d + 1) (available d) (peer d)))
       = Some (rc, och, c') ∧ ok c' ∧ (rc = 1 ∨ rc = -1) ∧
       (rc = 1 -> ∃ ch, och = Some ch)).
  { intros d (Hl & Hp & Ha) Hlt.
    destruct (lookup_lt_is_Some_2 (inbuf d) (Z.to_nat (bufpos d)))
      as [ch Hch]; [lia|].
    rewrite Hch. simpl. eexists _, _, _. split; [reflexivity|].
    repeat split; simpl; try lia; eauto. }
  destruct (bufpos c >=? available c) eqn:Hge.
  - destruct (fd c >=? 0) eqn:Hfd.
    + destruct (conn_read inbuf_size c) as [[n w] rest] eqn:Hr.
      destruct (conn_read_window _ _ _ _ Hr Hlen) as (Hw & Hn & Hpos').
      destruct (n <=? 0) eqn:Hn0.
      * eexists _, _, _. split; [reflexivity|].
        repeat split; simpl; try lia; try (intros; discriminate).
      * apply Hfetch; [repeat split; simpl; lia | simpl; lia].
    + eexists _, _, _. split; [reflexivity|].
      repeat split; simpl; try lia; try (intros; discriminate).
  - apply Hfetch; [repeat split; lia | lia].
Qed.

Lemma store_inv buflen b i ch :
  buf_inv buflen b -> 0 <= i < buflen ->
  ∃ b', store b i ch = Some b' ∧ buf_inv buflen b' ∧
    stores b' = i :: stores b ∧
    cells b' !! Z.to_nat i = Some ch.
Proof.
  intros [Hlen Hst] Hi. unfold store.
  replace ((0 <=? i) && (i <? Z.of_nat (length (cells b)))) with true
    by (symmetry; apply andb_true_intro; split;
        [apply Z.leb_le | apply Z.ltb_lt]; lia).
  eexists. split; [reflexivity|]. unfold buf_inv. simpl.
  rewrite length_insert. repeat split; auto.
  apply list_lookup_insert_eq. lia.
Qed.

(** The loop stores at index [i] only, and [i] never exceeds
    [buflen - 1]: the [int] counter of the source stays in range for every
    capacity up to [INT_MAX]. *)
Lemma readln_loop_safe buflen n : ∀ i b nread c,
  buflen <= INT_MAX ->
  ok c -> buf_inv buflen b -> 0 <= i -> i + Z.of_nat n <= buflen - 1 ->
  Z.of_nat (length (stores b)) = i -> Z.of_nat nread = i ->
  ∃ ex, readln_loop inbuf_size n i b nread c = Some ex ∧
    match ex with
    | ReadError b' nread' c' =>
        ok c' ∧ buf_inv buflen b' ∧
        Z.of_nat (length (stores b')) <= buflen - 1 ∧
        Z.of_nat nread' < buflen - 1 ∧ NUL ∈ cells b'
    | LoopDone j b' nread' c' =>
        ok c' ∧ buf_inv buflen b' ∧ 0 <= j <= buflen - 1 ∧
        Z.of_nat (length (stores b')) = j ∧
        j <= Z.of_nat nread' <= buflen - 1
    end.
Proof.
  induction n as [|n IH]; intros i b nread c Hmax Hok Hb Hi Hn Hs Hr.
  - simpl. eexists. split; [reflexivity|].
    destruct Hb. split_and!; auto; try lia; split; auto.
  - simpl.
    destruct (readchar_total c Hok) as (rc & och & c' & -> & Hok' & Hrc & Hch).
    simpl. destruct Hrc as [-> | ->].
    + destruct (Hch eq_refl) as [ch ->]. simpl.
      destruct (Ascii.eqb ch LF) eqn:Hlf.
      * eexists. split; [reflexivity|].
        destruct Hb. split_and!; auto; try lia; split; auto.
      * destruct (store_inv buflen b i ch Hb) as (b' & -> & Hb' & Hst' & _);
          [lia|].
        simpl.
        replace (i + 1 >? INT_MAX) with false
          by (symmetry; rewrite Z.gtb_ltb; apply Z.ltb_ge; lia).
        destruct (IH (i + 1) b' (S nread) c') as (ex & -> & Hex);
          auto; try lia.
        { rewrite Hst'. simpl. lia. }
        eexists. split; [reflexivity|]. exact Hex.
    + destruct (store_inv buflen b i NUL Hb) as (b' & -> & Hb' & Hst' & Hnul);
        [lia|].
      simpl. eexists. split; [reflexivity|].
      destruct Hb'. split_and!; auto; try lia; try (split; auto; fail).
      * rewrite Hst'. simpl. lia.
      * eapply list_elem_of_lookup_2; eauto.
Qed.

(** C10.  For every capacity [buflen] from 1 to [INT_MAX] of the caller's
    buffer and every state of the connection and of its stream (data in any
    chunking, end of stream, read errors, lines of any length),
    [mutt_socket_readln_d] returns without touching memory outside the
    buffer: every store goes to an index in [0, buflen), at most [buflen]
    stores are made, the buffer is null-terminated on return, and at most
    [buflen - 1] characters are taken from the connection, so an over-long
    line is truncated. *)
Theorem readln_within_capacity
    (buf : list ascii) (buflen : Z) (c : Connection) :
  1 <= buflen <= INT_MAX -> Z.of_nat (length buf) = buflen -> ok c ->
  ∃ r, mutt_socket_readln_d inbuf_size buf buflen c = Some r ∧
    length (cells (rl_buf r)) = length buf ∧
    Forall (λ i, 0 <= i < buflen) (stores (rl_buf r)) ∧
    Z.of_nat (length (stores (rl_buf r))) <= buflen ∧
    null_terminated (cells (rl_buf r)) ∧
    Z.of_nat (rl_nread r) <= buflen - 1 ∧
    (rl_ret r = -1 ∨ 1 <= rl_ret r <= buflen).
Proof.
  intros Hlen Hbuf Hok. unfold mutt_socket_readln_d.
  rewrite Z.mod_small by (unfold SIZE_MAX, INT_MAX in *; lia).
  destruct (readln_loop_safe buflen (Z.to_nat (buflen - 1)) 0
              (mkLineBuf buf []) 0%nat c)
    as (ex & -> & Hex); auto; try lia.
  { split; simpl; auto. }
  simpl. destruct ex as [b nread c' | j b nread c'].
  - destruct Hex as (_ & [Hl Hst] & Hs & Hn & Hnul).
    eexists. split; [reflexivity|]. simpl. repeat split; auto; lia.
  - destruct Hex as (_ & Hb & Hj & Hs & Hn).
    assert (Hi' : ∃ i', (if j =? 0 then Some j
              else load b (j - 1) ≫=
                   λ prev, Some (if Ascii.eqb prev CR then j - 1 else j))
              = Some i' ∧ 0 <= i' <= j).
    { destruct (j =? 0) eqn:Hj0; [eexists; split; [reflexivity|lia]|].
      apply Z.eqb_neq in Hj0. unfold load.
      replace (0 <=? j - 1) with true by (symmetry; apply Z.leb_le; lia).
      destruct Hb as [Hl _].
      destruct (lookup_lt_is_Some_2 (cells b) (Z.to_nat (j - 1)))
        as [p ->]; [lia|].
      simpl. destruct (Ascii.eqb p CR); eexists; (split; [reflexivity|lia]). }
    destruct Hi' as (i' & -> & Hi'). simpl.
    destruct (store_inv buflen b i' NUL Hb)
      as (b' & -> & [Hl' Hst'] & Hs' & Hnul); [lia|].
    simpl.
    replace (i' + 1 >? INT_MAX) with false
      by (symmetry; rewrite Z.gtb_ltb; apply Z.ltb_ge; lia).
    eexists. split; [reflexivity|]. simpl.
    repeat split; auto; try lia.
    + rewrite Hs'. simpl. lia.
    + eapply list_elem_of_lookup_2; eauto.
Qed.

End TransportFacts.

(** The theorem at a buffer of three bytes and a line of six characters
    that arrives in two pieces. *)
Lemma readln_within_capacity_witness :
  (1 <= 3 <= INT_MAX) ∧
  Z.of_nat (length (replicate 3 "x"%char)) = 3 ∧
  conn_ok 4 Scenario.long_conn ∧
  ∃ r, mutt_socket_readln_d 4 (replicate 3 "x"%char) 3 Scenario.long_conn
         = Some r ∧
    length (cells (rl_buf r)) = length (replicate 3 "x"%char) ∧
    Forall (λ i, 0 <= i < 3) (stores (rl_buf r)) ∧
    Z.of_nat (length (stores (rl_buf r))) <= 3 ∧
    null_terminated (cells (rl_buf r)) ∧
    Z.of_nat (rl_nread r) <= 3 - 1 ∧
    (rl_ret r = -1 ∨ 1 <= rl_ret r <= 3).
Proof.
  assert (H1 : 1 <= 3 <= INT_MAX) by (unfold INT_MAX; lia).
  assert (H2 : Z.of_nat (length (replicate 3 "x"%char)) = 3) by reflexivity.
  assert (H3 : conn_ok 4 Scenario.long_conn)
    by (unfold conn_ok; simpl; repeat split; lia).
  split; [exact H1|]. split; [exact H2|]. split; [exact H3|].
  exact (readln_within_capacity 4 _ 3 _ H1 H2 H3).
Defined.

(** The over-long line of the scenario: two characters are stored, the
    third cell holds the terminator, two characters have been consumed and
    the rest of the line is still to be read. *)
Example readln_truncates :
  ∃ r, mutt_socket_readln_d 4 (replicate 3 "x"%char) 3 Scenario.long_conn
         = Some r ∧
       cells (rl_buf r) = ["a"; "b"; NUL]%char ∧ rl_ret r = 3 ∧
       rl_nread r = 2%nat.
Proof. eexists. split; [vm_compute; reflexivity|]. repeat split. Qed.

(** C8.  On the stream [a\r\n] and a buffer of ten bytes the call succeeds
    and stores the line [a] with its terminator stripped and a NUL after
    it; three bytes have been read from the connection, the terminator
    included, and the value returned is 2. *)
Theorem readln_crlf_count :
  ∃ r, mutt_socket_readln_d 16 (replicate 10 "x"%char) 10 Scenario.crlf_conn
         = Some r ∧
       c_string (cells (rl_buf r)) = ["a"%char] ∧
       rl_nread r = 3%nat ∧
       rl_ret r = 2.
Proof. eexists. split; [vm_compute; reflexivity|]. repeat split. Qed.

(** With a bare [\n] the value returned agrees with the bytes read. *)
Example readln_lf_count :
  ∃ r, mutt_socket_readln_d 16 (replicate 10 "x"%char) 10
         (opened 3 (socket_new_conn 16 [ReadData ["a"%char; LF]]))
         = Some r ∧
       c_string (cells (rl_buf r)) = ["a"%char] ∧
       rl_nread r = 2%nat ∧ rl_ret r = 2.
Proof. eexists. split; [vm_compute; reflexivity|]. repeat split. Qed.

(** ** The line read as a function of the pending bytes *)

Section LineFacts.
Variable inbuf_size : nat.
(** The receive window has at least one byte. *)
Hypothesis inbuf_nonempty : (0 < inbuf_size)%nat.

Local Abbreviation readchar := (mutt_socket_readchar inbuf_size).
Local Abbreviation ok := (conn_ok inbuf_size).

Lemma peer_bytes_refill (k : nat) (bs : list ascii) rest :
  take k bs ++
  peer_bytes (match drop k bs with
              | [] => rest
              | _ => ReadData (drop k bs) :: rest
              end) = bs ++ peer_bytes rest.
Proof.
  destruct (drop k bs) as [|m more] eqn:Hd.
  - rewrite <- (take_drop k bs) at 2. rewrite Hd, app_nil_r.
    reflexivity.
  - simpl. rewrite <- (take_drop k bs) at 2. rewrite Hd.
    rewrite <- app_assoc. reflexivity.
Qed.

Lemma window_rest_cons (c : Connection) :
  ok c -> bufpos c < available c ->
  ∃ x, inbuf c !! Z.to_nat (bufpos c) = Some x ∧
       window_rest c = x ::
         window_rest (mkConnection (fd c) (inbuf c) (bufpos c + 1)
                                   (available c) (peer c)).
Proof.
  intros (Hl & Hp & Ha) Hlt. unfold window_rest. simpl.
  destruct (lookup_lt_is_Some_2 (inbuf c) (Z.to_nat (bufpos c))) as [x Hx];
    [lia|].
  exists x. split; [exact Hx|].
  replace (Z.to_nat (available c - bufpos c))
    with (S (Z.to_nat (available c - (bufpos c + 1)))) by lia.
  replace (Z.to_nat (bufpos c + 1)) with (S (Z.to_nat (bufpos c))) by lia.
  rewrite (drop_S _ _ _ Hx). reflexivity.
Qed.

Lemma window_rest_empty (c : Connection) :
  available c <= bufpos c -> window_rest c = [].
Proof.
  intros H. unfold window_rest.
  replace (Z.to_nat (available c - bufpos c)) with 0%nat by lia. reflexivity.
Qed.

(** [mutt_socket_readchar] hands out the pending bytes one by one and fails
    when none is left. *)
Lemma readchar_pending (c : Connection) :
  ok c ->
  match pending c with
  | x :: xs => ∃ c', readchar c = Some (1, Some x, c') ∧ pending c' = xs ∧ ok c'
  | [] => ∃ c', readchar c = Some (-1, None, c') ∧ ok c' ∧
                fd c' < 0 ∧ pending c' = []
  end.
Proof.
  intros Hok. pose proof Hok as (Hl & Hp & Ha).
  unfold mutt_socket_readchar, pending.
  destruct (bufpos c >=? available c) eqn:Hge.
  - apply Z.geb_le in Hge. rewrite window_rest_empty by lia. simpl.
    destruct (fd c >=? 0) eqn:Hfd.
    + unfold conn_read.
      destruct (peer c) as [|[[|b bs]|] rest] eqn:Hpeer; simpl.
      * eexists. split; [reflexivity|]. repeat split; simpl; lia.
      * replace (take inbuf_size (@nil ascii)) with (@nil ascii)
          by (destruct inbuf_size; reflexivity).
        simpl. eexists. split; [reflexivity|].
        repeat split; simpl; rewrite ?drop_0; try lia.
        all: destruct (inbuf c); simpl in *; lia.
      * destruct inbuf_size as [|k] eqn:Hk; [lia|]. simpl.
        replace (Z.of_nat (S (length (take k bs))) <=? 0) with false
          by (symmetry; apply Z.leb_gt; lia).
        simpl. eexists. split; [reflexivity|].
        split.
        -- unfold pending, window_rest. simpl. rewrite Hfd.
           replace (Z.to_nat (Z.of_nat (S (length (take k bs))) - (0 + 1)))
             with (length (take k bs)) by lia.
           rewrite drop_0, take_app_length.
           apply peer_bytes_refill.
        -- repeat split; simpl; try lia.
           ++ rewrite length_app, length_drop. rewrite length_take. lia.
           ++ rewrite length_take. lia.
      * eexists. split; [reflexivity|]. repeat split; simpl; lia.
    + eexists. split; [reflexivity|]. split; [exact Hok|].
      rewrite window_rest_empty by lia. rewrite Hfd.
      rewrite Z.geb_leb in Hfd. apply Z.leb_gt in Hfd. split; [lia|easy].
  - rewrite Z.geb_leb in Hge. apply Z.leb_gt in Hge.
    destruct (window_rest_cons c Hok) as (x & Hx & Hw); [lia|].
    rewrite Hw, Hx. simpl. eexists. split; [reflexivity|].
    split; [reflexivity|]. repeat split; simpl; lia.
Qed.


Lemma scan_length n : ∀ l, (length (scan n l).1 <= n)%nat.
Proof.
  induction n as [|n IH]; intros l; simpl; [lia|].
  destruct l as [|x l]; simpl; [lia|].
  destruct (Ascii.eqb x LF); simpl; [lia|].
  specialize (IH l). destruct (scan n l) as [s e]. simpl in *. lia.
Qed.

Lemma store_cells b (k : nat) ch :
  (k < length (cells b))%nat ->
  ∃ b', store b (Z.of_nat k) ch = Some b' ∧
        cells b' = <[k := ch]> (cells b).
Proof.
  intros Hk. unfold store.
  replace ((0 <=? Z.of_nat k) && (Z.of_nat k <? Z.of_nat (length (cells b))))
    with true
    by (symmetry; apply andb_true_intro; split;
        [apply Z.leb_le | apply Z.ltb_lt]; lia).
  eexists. split; [reflexivity|]. simpl. rewrite Nat2Z.id. reflexivity.
Qed.

Lemma readln_loop_scan n : ∀ (k : nat) b nread c,
  ok c -> (k + n <= length (cells b))%nat -> Z.of_nat (k + n) <= INT_MAX ->
  ∃ ex, readln_loop inbuf_size n (Z.of_nat k) b nread c = Some ex ∧
    let s := (scan n (pending c)).1 in
    match (scan n (pending c)).2 with
    | AtFailure =>
        ∃ b' c', ex = ReadError b' (nread + length s) c' ∧
          cells b' = take k (cells b) ++ s ++
                     NUL :: drop (k + length s + 1) (cells b) ∧
          ok c' ∧ fd c' < 0 ∧ pending c' = []
    | AtNewline =>
        ∃ b' c', ex = LoopDone (Z.of_nat (k + length s)) b'
                        (nread + length s + 1) c' ∧
          cells b' = take k (cells b) ++ s ++ drop (k + length s) (cells b) ∧
          pending c' = drop (length s + 1) (pending c) ∧ ok c'
    | AtCapacity =>
        ∃ b' c', ex = LoopDone (Z.of_nat (k + length s)) b'
                        (nread + length s) c' ∧
          cells b' = take k (cells b) ++ s ++ drop (k + length s) (cells b) ∧
          pending c' = drop (length s) (pending c) ∧ ok c' ∧
          length s = n
    end.
Proof.
  induction n as [|n IH]; intros k b nread c Hok Hk Hmax.
  - simpl. eexists. split; [reflexivity|]. exists b, c.
    rewrite !Nat.add_0_r, take_drop. auto.
  - simpl. pose proof (readchar_pending c Hok) as Hrc.
    destruct (pending c) as [|x xs].
    + destruct Hrc as (c' & -> & Hok' & Hfd' & Hp'). simpl.
      destruct (store_cells b k NUL) as (b' & -> & Hb'); [lia|].
      simpl. eexists. split; [reflexivity|]. exists b', c'.
      rewrite !Nat.add_0_r. split; [reflexivity|].
      split; [|auto].
      rewrite Hb', Nat.add_1_r. apply insert_take_drop. lia.
    + destruct Hrc as (c' & -> & Hp' & Hok'). simpl.
      destruct (Ascii.eqb x LF) eqn:Hx.
      * simpl. eexists. split; [reflexivity|]. exists b, c'.
        rewrite !Nat.add_0_r, take_drop, drop_0.
        split_and!; auto. f_equal. lia.
      * destruct (store_cells b k x) as (b' & -> & Hb'); [lia|].
        simpl.
        replace (Z.of_nat k + 1 >? INT_MAX) with false
          by (symmetry; rewrite Z.gtb_ltb; apply Z.ltb_ge; lia).
        replace (Z.of_nat k + 1) with (Z.of_nat (S k)) by lia.
        destruct (IH (S k) b' (S nread) c' Hok') as (ex & -> & Hex).
        { rewrite Hb', length_insert. lia. }
        { lia. }
        eexists. split; [reflexivity|].
        rewrite Hp' in Hex. destruct (scan n xs) as [s e]. simpl in *.
        assert (Ht : take (S k) (cells b') = take k (cells b) ++ [x]).
        { rewrite (take_S_r _ _ x)
            by (rewrite Hb'; apply list_lookup_insert_eq; lia).
          rewrite Hb', take_insert_ge by lia. reflexivity. }
        assert (Hd : ∀ m, (k < m)%nat ->
                     drop m (cells b') = drop m (cells b)).
        { intros m Hm. rewrite Hb'. apply drop_insert_lt. lia. }
        destruct e.
        -- destruct Hex as (b2 & c2 & -> & Hc & Hp & Hok2).
           exists b2, c2. split_and!; auto.
           ++ f_equal; lia.
           ++ rewrite Hc, Ht, Hd by lia. rewrite <- app_assoc. simpl.
              rewrite ?Nat.add_succ_r. reflexivity.
        -- destruct Hex as (b2 & c2 & -> & Hc & Hp & Hok2 & Hl).
           exists b2, c2. split_and!; auto.
           ++ f_equal; lia.
           ++ rewrite Hc, Ht, Hd by lia. rewrite <- app_assoc. simpl.
              rewrite ?Nat.add_succ_r. reflexivity.
        -- destruct Hex as (b2 & c2 & -> & Hc & Hok2 & Hfd2 & Hp2).
           exists b2, c2. split_and!; auto.
           ++ f_equal; lia.
           ++ rewrite Hc, Ht, Hd by lia. rewrite <- app_assoc. simpl.
              rewrite ?Nat.add_succ_r. reflexivity.
Qed.

(** The [int] counter gives out: when the loop is allowed more
    iterations than are left below [INT_MAX] and that many bytes without a
    [\n] are pending, the increment after the store at index [INT_MAX]
    overflows. *)
Lemma readln_loop_overflow n : ∀ (k : nat) b nread c,
  ok c -> (n <= length (pending c))%nat ->
  Forall (λ x, x ≠ LF) (take n (pending c)) ->
  (k + n <= length (cells b))%nat ->
  Z.of_nat k <= INT_MAX -> INT_MAX < Z.of_nat (k + n) ->
  readln_loop inbuf_size n (Z.of_nat k) b nread c = None.
Proof.
  induction n as [|n IH]; intros k b nread c Hok Hlen Hnl Hk Hlow Hhigh;
    [lia|].
  simpl. pose proof (readchar_pending c Hok) as Hrc.
  destruct (pending c) as [|x xs]; [simpl in Hlen; lia|].
  destruct Hrc as (c' & -> & Hp' & Hok'). simpl.
  simpl in Hnl. apply Forall_cons in Hnl as [Hx Hnl].
  destruct (Ascii.eqb_spec x LF) as [->|_]; [congruence|].
  destruct (store_cells b k x) as (b' & -> & Hb'); [lia|].
  simpl. destruct (Z.of_nat k + 1 >? INT_MAX) eqn:Hover; [reflexivity|].
  rewrite Z.gtb_ltb in Hover. apply Z.ltb_ge in Hover.
  replace (Z.of_nat k + 1) with (Z.of_nat (S k)) by lia.
  apply IH; auto.
  - rewrite Hp'. simpl in Hlen. lia.
  - rewrite Hp'. exact Hnl.
  - rewrite Hb', length_insert. lia.
  - lia.
  - lia.
Qed.

Lemma strip_cr_snoc (s : list ascii) (x : ascii) :
  strip_cr (s ++ [x]) = if Ascii.eqb x CR then s else s ++ [x].
Proof.
  induction s as [|y s IH]; [reflexivity|].
  change (strip_cr ((y :: s) ++ [x])) with (strip_cr (y :: s ++ [x])).
  assert (Hne : ∃ z t, s ++ [x] = z :: t)
    by (destruct s; simpl; eauto).
  destruct Hne as (z & t & Hzt).
  change (strip_cr (y :: s ++ [x])) with
    (match s ++ [x] with
     | [] => if Ascii.eqb y CR then [] else [y]
     | _ :: _ => y :: strip_cr (s ++ [x])
     end).
  rewrite Hzt, <- Hzt, IH. destruct (Ascii.eqb x CR); reflexivity.
Qed.

(** The adjustment after the loop: [i] moves back over a final [\r]. *)
Lemma strip_step (b : LineBuf) (s tl : list ascii) :
  cells b = s ++ tl ->
  (if Z.of_nat (length s) =? 0 then Some (Z.of_nat (length s))
   else load b (Z.of_nat (length s) - 1) ≫=
        λ prev, Some (if Ascii.eqb prev CR
                      then Z.of_nat (length s) - 1
                      else Z.of_nat (length s)))
  = Some (Z.of_nat (length (strip_cr s))) ∧
  strip_cr s = take (length (strip_cr s)) s.
Proof.
  intros Hc. destruct s as [|x s _] using rev_ind.
  - simpl. auto.
  - rewrite strip_cr_snoc, length_app. simpl.
    replace (Z.of_nat (length s + 1) =? 0) with false
      by (symmetry; apply Z.eqb_neq; lia).
    unfold load.
    replace (0 <=? Z.of_nat (length s + 1) - 1) with true
      by (symmetry; apply Z.leb_le; lia).
    replace (Z.to_nat (Z.of_nat (length s + 1) - 1)) with (length s) by lia.
    rewrite Hc, <- app_assoc. change ([x] ++ tl) with (x :: tl).
    rewrite list_lookup_middle by reflexivity.
    simpl. destruct (Ascii.eqb x CR).
    + split; [f_equal; lia|]. rewrite take_app_length. reflexivity.
    + rewrite length_app. simpl. split; [reflexivity|].
      rewrite firstn_all2 by (rewrite length_app; simpl; lia). reflexivity.
Qed.

Lemma strip_cr_length (s : list ascii) :
  (length (strip_cr s) <= length s)%nat.
Proof.
  destruct s as [|x s _] using rev_ind; [simpl; lia|].
  rewrite strip_cr_snoc. destruct (Ascii.eqb x CR);
    rewrite ?length_app; simpl; lia.
Qed.

(** [mutt_socket_readln_d] as a function of the pending bytes. *)
Theorem readln_scan (buf : list ascii) (buflen : Z) (c : Connection) :
  1 <= buflen <= INT_MAX -> Z.of_nat (length buf) = buflen -> ok c ->
  let s := (scan (Z.to_nat (buflen - 1)) (pending c)).1 in
  let filled := s ++ drop (length s) buf in
  let line := strip_cr s in
  ∃ r, mutt_socket_readln_d inbuf_size buf buflen c = Some r ∧
    match (scan (Z.to_nat (buflen - 1)) (pending c)).2 with
    | AtFailure =>
        rl_ret r = -1 ∧ rl_nread r = length s ∧
        cells (rl_buf r) = s ++ NUL :: drop (length s + 1) buf ∧
        ok (rl_conn r) ∧ fd (rl_conn r) < 0 ∧ pending (rl_conn r) = []
    | AtNewline =>
        rl_ret r = Z.of_nat (length line) + 1 ∧
        rl_nread r = (length s + 1)%nat ∧
        cells (rl_buf r) = line ++ NUL :: drop (length line + 1) filled ∧
        pending (rl_conn r) = drop (length s + 1) (pending c) ∧
        ok (rl_conn r)
    | AtCapacity =>
        rl_ret r = Z.of_nat (length line) + 1 ∧
        rl_nread r = length s ∧
        cells (rl_buf r) = line ++ NUL :: drop (length line + 1) filled ∧
        pending (rl_conn r) = drop (length s) (pending c) ∧
        ok (rl_conn r) ∧ length s = Z.to_nat (buflen - 1)
    end.
Proof.
  intros Hlen Hbuf Hok. unfold mutt_socket_readln_d.
  rewrite Z.mod_small by (unfold SIZE_MAX, INT_MAX in *; lia).
  destruct (readln_loop_scan (Z.to_nat (buflen - 1)) 0 (mkLineBuf buf [])
              0%nat c Hok) as (ex & Hex & Hsp); [simpl; lia|lia|].
  change (Z.of_nat 0) with 0 in Hex. rewrite Hex. clear Hex.
  pose proof (scan_length (Z.to_nat (buflen - 1)) (pending c)) as Hsl.
  destruct (scan (Z.to_nat (buflen - 1)) (pending c)) as [s e].
  simpl in *.
  assert (Hfin : ∀ b nread c', cells b = s ++ drop (length s) buf ->
    ∃ r, (Some (LoopDone (Z.of_nat (length s)) b nread c') ≫= λ ex,
           match ex with
           | ReadError b nread c' => Some (mkReadlnResult (-1) b nread c')
           | LoopDone i b nread c' =>
               (if i =? 0 then Some i
                else load b (i - 1) ≫=
                     λ prev, Some (if Ascii.eqb prev CR then i - 1 else i))
               ≫= λ i', store b i' NUL ≫= λ b',
                  if i' + 1 >? INT_MAX then None
                  else Some (mkReadlnResult (i' + 1) b' nread c')
           end) = Some r ∧
      rl_ret r = Z.of_nat (length (strip_cr s)) + 1 ∧ rl_nread r = nread ∧
      cells (rl_buf r) = strip_cr s ++
        NUL :: drop (length (strip_cr s) + 1) (s ++ drop (length s) buf) ∧
      rl_conn r = c').
  { intros b nread c' Hc. simpl.
    destruct (strip_step b s _ Hc) as [-> Htk]. simpl.
    pose proof (strip_cr_length s) as Hsc.
    destruct (store_cells b (length (strip_cr s)) NUL) as (b' & -> & Hb').
    { rewrite Hc, length_app, length_drop. lia. }
    simpl.
    replace (Z.of_nat (length (strip_cr s)) + 1 >? INT_MAX) with false
      by (symmetry; rewrite Z.gtb_ltb; apply Z.ltb_ge; lia).
    eexists. split; [reflexivity|]. simpl. split_and!; auto.
    rewrite Hb', Hc. rewrite insert_take_drop
      by (rewrite length_app, length_drop; lia).
    rewrite take_app_le by lia. rewrite <- Htk, Nat.add_1_r. reflexivity. }
  destruct e.
  - destruct Hsp as (b' & c' & -> & Hc & Hp & Hok').
    destruct (Hfin b' (0 + length s + 1)%nat c' Hc)
      as (r & Hr & H1 & H2 & H3 & H4).
    exists r. split; [exact Hr|]. rewrite H4. auto.
  - destruct Hsp as (b' & c' & -> & Hc & Hp & Hok' & Hfull).
    destruct (Hfin b' (0 + length s)%nat c' Hc)
      as (r & Hr & H1 & H2 & H3 & H4).
    exists r. split; [exact Hr|]. rewrite H4. auto 10.
  - destruct Hsp as (b' & c' & -> & Hc & Hok' & Hfd' & Hp'). simpl.
    eexists. split; [reflexivity|]. simpl. auto 10.
Qed.


Lemma scan_line (n : nat) : ∀ line rest,
  LF ∉ line -> (length line < n)%nat ->
  scan n (line ++ LF :: rest) = (line, AtNewline).
Proof.
  induction n as [|n IH]; intros line rest Hlf Hn; [lia|].
  destruct line as [|x line]; [reflexivity|]. simpl in *.
  apply not_elem_of_cons in Hlf as [Hx Hlf].
  destruct (Ascii.eqb_spec x LF) as [->|_]; [congruence|].
  rewrite IH by (auto; lia). reflexivity.
Qed.

Lemma c_string_app (s tl : list ascii) :
  NUL ∉ s -> c_string (s ++ NUL :: tl) = s.
Proof.
  induction s as [|x s IH]; intros Hs; [reflexivity|]. simpl.
  apply not_elem_of_cons in Hs as [Hx Hs].
  destruct (Ascii.eqb_spec x NUL) as [->|_]; [congruence|].
  rewrite IH by auto. reflexivity.
Qed.

(** A line that fits: the characters before the [\n] are stored without a
    final [\r], the [\n] is consumed, and the value returned is the length
    of what was stored plus one. *)
Theorem readln_line (buf : list ascii) (buflen : Z) (c : Connection)
    (line rest : list ascii) :
  1 <= buflen <= INT_MAX -> Z.of_nat (length buf) = buflen -> ok c ->
  pending c = line ++ LF :: rest -> LF ∉ line -> NUL ∉ line ->
  Z.of_nat (length line) + 1 < buflen ->
  ∃ r, mutt_socket_readln_d inbuf_size buf buflen c = Some r ∧
    c_string (cells (rl_buf r)) = strip_cr line ∧
    pending (rl_conn r) = rest ∧ ok (rl_conn r) ∧
    rl_nread r = (length line + 1)%nat ∧
    rl_ret r = Z.of_nat (length (strip_cr line)) + 1.
Proof.
  intros Hlen Hbuf Hok Hp Hlf Hnul Hfit.
  destruct (readln_scan buf buflen c Hlen Hbuf Hok) as (r & Hr & Hsp).
  rewrite Hp, scan_line in Hsp by (auto; lia). simpl in Hsp.
  destruct Hsp as (Hret & Hn & Hc & Hrest & Hok').
  exists r. split_and!; auto.
  - rewrite Hc. apply c_string_app.
    destruct (strip_step (mkLineBuf line []) line [] (eq_sym (app_nil_r _)))
      as [_ ->].
    intros Hin. apply Hnul.
    rewrite <- (take_drop (length (strip_cr line)) line).
    apply elem_of_app. left. exact Hin.
  - rewrite Hrest. rewrite drop_app_add. reflexivity.
Qed.

(** A line terminated by [\r\n]: the value returned is one less than the
    number of bytes taken from the connection. *)
Corollary readln_crlf_line (buf : list ascii) (buflen : Z) (c : Connection)
    (text rest : list ascii) :
  1 <= buflen <= INT_MAX -> Z.of_nat (length buf) = buflen -> ok c ->
  pending c = text ++ CR :: LF :: rest -> LF ∉ text -> NUL ∉ text ->
  Z.of_nat (length text) + 2 < buflen ->
  ∃ r, mutt_socket_readln_d inbuf_size buf buflen c = Some r ∧
    c_string (cells (rl_buf r)) = text ∧
    rl_nread r = (length text + 2)%nat ∧
    rl_ret r = Z.of_nat (rl_nread r) - 1.
Proof.
  intros Hlen Hbuf Hok Hp Hlf Hnul Hfit.
  destruct (readln_line buf buflen c (text ++ [CR]) rest Hlen Hbuf Hok)
    as (r & Hr & Hc & _ & _ & Hn & Hret).
  - rewrite Hp, <- app_assoc. reflexivity.
  - rewrite elem_of_app, list_elem_of_singleton. intros [H|H]; [auto|].
    discriminate H.
  - rewrite elem_of_app, list_elem_of_singleton. intros [H|H]; [auto|].
    discriminate H.
  - rewrite length_app. simpl. lia.
  - rewrite strip_cr_snoc in Hc, Hret. simpl in Hc, Hret.
    rewrite length_app in Hn. simpl in Hn.
    exists r. split_and!; auto; lia.
Qed.

(** A line terminated by a bare [\n]: the value returned is the number of
    bytes taken from the connection. *)
Corollary readln_lf_line (buf : list ascii) (buflen : Z) (c : Connection)
    (text rest : list ascii) :
  1 <= buflen <= INT_MAX -> Z.of_nat (length buf) = buflen -> ok c ->
  pending c = text ++ LF :: rest -> LF ∉ text -> NUL ∉ text ->
  strip_cr text = text ->
  Z.of_nat (length text) + 1 < buflen ->
  ∃ r, mutt_socket_readln_d inbuf_size buf buflen c = Some r ∧
    c_string (cells (rl_buf r)) = text ∧
    rl_ret r = Z.of_nat (rl_nread r).
Proof.
  intros Hlen Hbuf Hok Hp Hlf Hnul Hcr Hfit.
  destruct (readln_line buf buflen c text rest Hlen Hbuf Hok Hp Hlf Hnul Hfit)
    as (r & Hr & Hc & _ & _ & Hn & Hret).
  rewrite Hcr in Hc, Hret. exists r. split_and!; auto; lia.
Qed.

Lemma scan_eof (n : nat) : ∀ pre,
  LF ∉ pre -> (length pre < n)%nat -> scan n pre = (pre, AtFailure).
Proof.
  induction n as [|n IH]; intros pre Hlf Hn; [lia|].
  destruct pre as [|x pre]; [reflexivity|]. simpl in *.
  apply not_elem_of_cons in Hlf as [Hx Hlf].
  destruct (Ascii.eqb_spec x LF) as [->|_]; [congruence|].
  rewrite IH by (auto; lia). reflexivity.
Qed.

Lemma scan_full (n : nat) : ∀ pre more,
  LF ∉ pre -> length pre = n -> scan n (pre ++ more) = (pre, AtCapacity).
Proof.
  induction n as [|n IH]; intros pre more Hlf Hn.
  - destruct pre; [reflexivity|discriminate].
  - destruct pre as [|x pre]; [discriminate|]. simpl in *.
    apply not_elem_of_cons in Hlf as [Hx Hlf].
    destruct (Ascii.eqb_spec x LF) as [->|_]; [congruence|].
    rewrite IH by (auto; lia). reflexivity.
Qed.

Lemma strip_cr_no_nul (s : list ascii) : NUL ∉ s -> NUL ∉ strip_cr s.
Proof.
  intros Hnul Hin. apply Hnul.
  destruct (strip_step (mkLineBuf s []) s [] (eq_sym (app_nil_r _)))
    as [_ Heq].
  rewrite <- (take_drop (length (strip_cr s)) s).
  apply elem_of_app. left. rewrite <- Heq. exact Hin.
Qed.

(** X7.  For a capacity from 1 to [INT_MAX], successive calls of
    [mutt_socket_readln_d] return successive lines: the first call stores the first pending line without its
    terminator and consumes it with its [\n] and nothing more, so the
    second call stores the second line, whatever the chunks in which the
    bytes arrive. *)
Theorem readln_consecutive_lines (buf1 buf2 : list ascii) (buflen : Z)
    (c : Connection) (l1 l2 rest : list ascii) :
  1 <= buflen <= INT_MAX ->
  Z.of_nat (length buf1) = buflen -> Z.of_nat (length buf2) = buflen ->
  ok c -> pending c = l1 ++ LF :: l2 ++ LF :: rest ->
  LF ∉ l1 -> NUL ∉ l1 -> LF ∉ l2 -> NUL ∉ l2 ->
  Z.of_nat (length l1) + 1 < buflen -> Z.of_nat (length l2) + 1 < buflen ->
  ∃ r1 r2,
    mutt_socket_readln_d inbuf_size buf1 buflen c = Some r1 ∧
    mutt_socket_readln_d inbuf_size buf2 buflen (rl_conn r1) = Some r2 ∧
    c_string (cells (rl_buf r1)) = strip_cr l1 ∧
    c_string (cells (rl_buf r2)) = strip_cr l2 ∧
    pending (rl_conn r2) = rest.
Proof.
  intros Hlen Hb1 Hb2 Hok Hp Hlf1 Hn1 Hlf2 Hn2 Hf1 Hf2.
  destruct (readln_line buf1 buflen c l1 (l2 ++ LF :: rest)
              Hlen Hb1 Hok Hp Hlf1 Hn1 Hf1)
    as (r1 & Hr1 & Hc1 & Hp1 & Hok1 & _).
  destruct (readln_line buf2 buflen (rl_conn r1) l2 rest
              Hlen Hb2 Hok1 Hp1 Hlf2 Hn2 Hf2)
    as (r2 & Hr2 & Hc2 & Hp2 & _).
  exists r1, r2. auto.
Qed.

(** A closed connection with nothing buffered is left as it is. *)
Lemma readchar_closed (c : Connection) :
  ok c -> fd c < 0 -> pending c = [] -> readchar c = Some (-1, None, c).
Proof.
  intros Hok Hfd Hp. pose proof Hok as (Hl & Hb & Ha).
  unfold mutt_socket_readchar.
  destruct (bufpos c >=? available c) eqn:Hge.
  - replace (fd c >=? 0) with false
      by (symmetry; rewrite Z.geb_leb; apply Z.leb_gt; lia).
    reflexivity.
  - rewrite Z.geb_leb in Hge. apply Z.leb_gt in Hge.
    destruct (window_rest_cons c Hok Hge) as (x & _ & Hw).
    unfold pending in Hp. rewrite Hw in Hp. discriminate.
Qed.

(** X8.  For a capacity from 1 to [INT_MAX]: when the stream ends or fails
    before a [\n] arrives, [mutt_socket_readln_d] returns -1; the bytes read so far are left in
    the buffer as a C string and the connection is closed, so the next
    call returns -1 at once with an empty string, leaving the connection
    as it is. *)
Theorem readln_end_of_stream (buf buf2 : list ascii) (buflen : Z)
    (c : Connection) (pre : list ascii) :
  1 <= buflen <= INT_MAX ->
  Z.of_nat (length buf) = buflen -> Z.of_nat (length buf2) = buflen ->
  ok c -> pending c = pre -> LF ∉ pre -> NUL ∉ pre ->
  Z.of_nat (length pre) + 1 < buflen ->
  ∃ r r2,
    mutt_socket_readln_d inbuf_size buf buflen c = Some r ∧
    rl_ret r = -1 ∧ c_string (cells (rl_buf r)) = pre ∧
    rl_nread r = length pre ∧ fd (rl_conn r) < 0 ∧
    mutt_socket_readln_d inbuf_size buf2 buflen (rl_conn r) = Some r2 ∧
    rl_ret r2 = -1 ∧ c_string (cells (rl_buf r2)) = [] ∧
    rl_nread r2 = 0%nat ∧ rl_conn r2 = rl_conn r.
Proof.
  intros Hlen Hb Hb2 Hok Hp Hlf Hnul Hfit.
  destruct (readln_scan buf buflen c Hlen Hb Hok) as (r & Hr & Hsp).
  rewrite Hp, scan_eof in Hsp by (auto; lia). simpl in Hsp.
  destruct Hsp as (Hret & Hn & Hc & Hok' & Hfd & Hp').
  assert (Hr2 : ∃ r2,
    mutt_socket_readln_d inbuf_size buf2 buflen (rl_conn r) = Some r2 ∧
    rl_ret r2 = -1 ∧ cells (rl_buf r2) = <[0%nat := NUL]> buf2 ∧
    rl_nread r2 = 0%nat ∧ rl_conn r2 = rl_conn r).
  { unfold mutt_socket_readln_d.
    rewrite Z.mod_small by (unfold SIZE_MAX, INT_MAX in *; lia).
    destruct (Z.to_nat (buflen - 1)) as [|n] eqn:Hn'; [lia|].
    simpl. rewrite (readchar_closed _ Hok' Hfd Hp'). simpl.
    destruct (store_cells (mkLineBuf buf2 []) 0 NUL) as (b' & Hst & Hb');
      [simpl; lia|].
    change (Z.of_nat 0) with 0 in Hst. rewrite Hst. simpl.
    eexists. split; [reflexivity|]. simpl. auto. }
  destruct Hr2 as (r2 & Hr2 & Hret2 & Hc2 & Hn2 & Hconn).
  exists r, r2. split_and!; auto.
  - rewrite Hc. apply c_string_app. exact Hnul.
  - rewrite Hc2. destruct buf2; [simpl in Hb2; lia|]. reflexivity.
Qed.

(** X9.  For a capacity from 1 to [INT_MAX], a line longer than the buffer
    is cut: the first [buflen - 1]
    pending bytes are taken (a [\r] in the last place is dropped), nothing
    after them is consumed, and the value returned is the length of what
    was stored plus one; the rest of the line is what the next call
    reads. *)
Theorem readln_cuts_long_line (buf : list ascii) (buflen : Z)
    (c : Connection) (pre more : list ascii) :
  1 <= buflen <= INT_MAX -> Z.of_nat (length buf) = buflen -> ok c ->
  pending c = pre ++ more -> Z.of_nat (length pre) = buflen - 1 ->
  LF ∉ pre -> NUL ∉ pre ->
  ∃ r,
    mutt_socket_readln_d inbuf_size buf buflen c = Some r ∧
    c_string (cells (rl_buf r)) = strip_cr pre ∧
    rl_ret r = Z.of_nat (length (strip_cr pre)) + 1 ∧
    rl_nread r = length pre ∧
    pending (rl_conn r) = more.
Proof.
  intros Hlen Hb Hok Hp Hfull Hlf Hnul.
  destruct (readln_scan buf buflen c Hlen Hb Hok) as (r & Hr & Hsp).
  rewrite Hp, scan_full in Hsp by (auto; lia). simpl in Hsp.
  destruct Hsp as (Hret & Hn & Hc & Hrest & _).
  exists r. split_and!; auto.
  - rewrite Hc. apply c_string_app, strip_cr_no_nul, Hnul.
  - rewrite Hrest. apply drop_app_length.
Qed.

End LineFacts.

(** C10, beyond the range of [int].  A buffer of [2^31 + 1] bytes and a
    connection on which [2^31] bytes without a [\n] are pending: the loop
    stores at the indices 0 to [INT_MAX], and the [i++] after the last of
    these stores leaves the range of [int].  The call has no defined
    result, so nothing bounds what it writes. *)
Lemma readln_counter_overflows :
  let big := Z.to_nat (2 ^ 31) in
  let c := opened 3 (socket_new_conn 16 [ReadData (replicate big "a"%char)]) in
  let buf := replicate (S big) "x"%char in
  1 <= 2 ^ 31 + 1 <= SIZE_MAX ∧ Z.of_nat (length buf) = 2 ^ 31 + 1 ∧
  conn_ok 16 c ∧
  mutt_socket_readln_d 16 buf (2 ^ 31 + 1) c = None.
Proof.
  intros big.
  assert (Hbig : Z.of_nat big = 2 ^ 31) by (subst big; apply Z2Nat.id; lia).
  clearbody big. intros c buf.
  assert (Hbuf : Z.of_nat (length buf) = 2 ^ 31 + 1)
    by (subst buf; rewrite length_replicate; lia).
  assert (Hok : conn_ok 16 c)
    by (subst c; unfold conn_ok; simpl; repeat split; lia).
  assert (Hp : pending c = replicate big "a"%char).
  { subst c. unfold pending, window_rest. simpl.
    destruct big as [|m]; [simpl in Hbig; lia|].
    simpl. rewrite app_nil_r. reflexivity. }
  split; [unfold SIZE_MAX; lia|]. split; [exact Hbuf|]. split; [exact Hok|].
  unfold mutt_socket_readln_d.
  replace ((2 ^ 31 + 1 - 1) mod (SIZE_MAX + 1)) with (Z.of_nat big)
    by (rewrite Hbig; unfold SIZE_MAX; rewrite Z.mod_small; lia).
  rewrite Nat2Z.id.
  assert (Hnone : readln_loop 16 big 0 (mkLineBuf buf []) 0%nat c = None).
  { apply (readln_loop_overflow 16 ltac:(lia) big 0%nat).
    - exact Hok.
    - rewrite Hp, length_replicate. lia.
    - rewrite Hp, firstn_all2 by (rewrite length_replicate; lia).
      apply Forall_forall. intros x Hx.
      apply elem_of_replicate in Hx as [-> _]. discriminate.
    - change (0 + big <= length buf)%nat. lia.
    - unfold INT_MAX. lia.
    - unfold INT_MAX. lia. }
  rewrite Hnone. reflexivity.
Qed.

Ltac not_member :=
  let H := fresh in
  intros H;
  repeat (apply elem_of_cons in H as [H|H]; [discriminate H|]);
  inversion H.

(** The theorem for the stream [a\r\nb\n], read through a buffer of ten
    bytes. *)
Lemma readln_consecutive_lines_witness :
  let c := opened 3 (socket_new_conn 16
                       [ReadData ["a"; CR; LF; "b"; LF]%char]) in
  let buf := replicate 10 "x"%char in
  (0 < 16)%nat ∧ 1 <= 10 <= INT_MAX ∧
  Z.of_nat (length buf) = 10 ∧ Z.of_nat (length buf) = 10 ∧
  conn_ok 16 c ∧ pending c = ["a"; CR]%char ++ LF :: ["b"%char] ++ LF :: [] ∧
  (LF ∉ ["a"; CR]%char) ∧ (NUL ∉ ["a"; CR]%char) ∧
  (LF ∉ ["b"%char]) ∧ (NUL ∉ ["b"%char]) ∧
  Z.of_nat (length ["a"; CR]%char) + 1 < 10 ∧
  Z.of_nat (length ["b"%char]) + 1 < 10 ∧
  ∃ r1 r2,
    mutt_socket_readln_d 16 buf 10 c = Some r1 ∧
    mutt_socket_readln_d 16 buf 10 (rl_conn r1) = Some r2 ∧
    c_string (cells (rl_buf r1)) = strip_cr ["a"; CR]%char ∧
    c_string (cells (rl_buf r2)) = strip_cr ["b"%char] ∧
    pending (rl_conn r2) = [].
Proof.
  intros c buf.
  assert (H0 : (0 < 16)%nat) by lia.
  assert (H1 : 1 <= 10 <= INT_MAX) by (unfold INT_MAX; lia).
  assert (H2 : Z.of_nat (length buf) = 10) by reflexivity.
  assert (H3 : conn_ok 16 c) by (unfold conn_ok; simpl; lia).
  assert (H4 : pending c = ["a"; CR]%char ++ LF :: ["b"%char] ++ LF :: [])
    by reflexivity.
  assert (H5 : LF ∉ ["a"; CR]%char) by not_member.
  assert (H6 : NUL ∉ ["a"; CR]%char) by not_member.
  assert (H7 : LF ∉ ["b"%char]) by not_member.
  assert (H8 : NUL ∉ ["b"%char]) by not_member.
  assert (H9 : Z.of_nat (length ["a"; CR]%char) + 1 < 10) by (simpl; lia).
  assert (H10 : Z.of_nat (length ["b"%char]) + 1 < 10) by (simpl; lia).
  repeat (split; [assumption|]).
  exact (readln_consecutive_lines 16 H0 buf buf 10 c _ _ _
           H1 H2 H2 H3 H4 H5 H6 H7 H8 H9 H10).
Defined.

(** The theorem for a stream that ends after [ab]. *)
Lemma readln_end_of_stream_witness :
  let c := opened 3 (socket_new_conn 16 [ReadData ["a"; "b"]%char]) in
  let buf := replicate 10 "x"%char in
  (0 < 16)%nat ∧ 1 <= 10 <= INT_MAX ∧
  Z.of_nat (length buf) = 10 ∧ Z.of_nat (length buf) = 10 ∧
  conn_ok 16 c ∧ pending c = ["a"; "b"]%char ∧
  (LF ∉ ["a"; "b"]%char) ∧ (NUL ∉ ["a"; "b"]%char) ∧
  Z.of_nat (length ["a"; "b"]%char) + 1 < 10 ∧
  ∃ r r2,
    mutt_socket_readln_d 16 buf 10 c = Some r ∧
    rl_ret r = -1 ∧ c_string (cells (rl_buf r)) = ["a"; "b"]%char ∧
    rl_nread r = length ["a"; "b"]%char ∧ fd (rl_conn r) < 0 ∧
    mutt_socket_readln_d 16 buf 10 (rl_conn r) = Some r2 ∧
    rl_ret r2 = -1 ∧ c_string (cells (rl_buf r2)) = [] ∧
    rl_nread r2 = 0%nat ∧ rl_conn r2 = rl_conn r.
Proof.
  intros c buf.
  assert (H0 : (0 < 16)%nat) by lia.
  assert (H1 : 1 <= 10 <= INT_MAX) by (unfold INT_MAX; lia).
  assert (H2 : Z.of_nat (length buf) = 10) by reflexivity.
  assert (H3 : conn_ok 16 c) by (unfold conn_ok; simpl; lia).
  assert (H4 : pending c = ["a"; "b"]%char) by reflexivity.
  assert (H5 : LF ∉ ["a"; "b"]%char) by not_member.
  assert (H6 : NUL ∉ ["a"; "b"]%char) by not_member.
  assert (H7 : Z.of_nat (length ["a"; "b"]%char) + 1 < 10) by (simpl; lia).
  repeat (split; [assumption|]).
  exact (readln_end_of_stream 16 H0 buf buf 10 c _ H1 H2 H2 H3 H4 H5 H6 H7).
Defined.

(** The theorem for the over-long line of the scenario. *)
Lemma readln_cuts_long_line_witness :
  let buf := replicate 3 "x"%char in
  (0 < 4)%nat ∧ 1 <= 3 <= INT_MAX ∧ Z.of_nat (length buf) = 3 ∧
  conn_ok 4 Scenario.long_conn ∧
  pending Scenario.long_conn
    = ["a"; "b"]%char ++ ["c"; "d"; "e"; "f"; LF]%char ∧
  Z.of_nat (length ["a"; "b"]%char) = 3 - 1 ∧
  (LF ∉ ["a"; "b"]%char) ∧ (NUL ∉ ["a"; "b"]%char) ∧
  ∃ r,
    mutt_socket_readln_d 4 buf 3 Scenario.long_conn = Some r ∧
    c_string (cells (rl_buf r)) = strip_cr ["a"; "b"]%char ∧
    rl_ret r = Z.of_nat (length (strip_cr ["a"; "b"]%char)) + 1 ∧
    rl_nread r = length ["a"; "b"]%char ∧
    pending (rl_conn r) = ["c"; "d"; "e"; "f"; LF]%char.
Proof.
  intros buf.
  assert (H0 : (0 < 4)%nat) by lia.
  assert (H1 : 1 <= 3 <= INT_MAX) by (unfold INT_MAX; lia).
  assert (H2 : Z.of_nat (length buf) = 3) by reflexivity.
  assert (H3 : conn_ok 4 Scenario.long_conn)
    by (unfold conn_ok; simpl; lia).
  assert (H4 : pending Scenario.long_conn
               = ["a"; "b"]%char ++ ["c"; "d"; "e"; "f"; LF]%char)
    by reflexivity.
  assert (H5 : Z.of_nat (length ["a"; "b"]%char) = 3 - 1) by reflexivity.
  assert (H6 : LF ∉ ["a"; "b"]%char) by not_member.
  assert (H7 : NUL ∉ ["a"; "b"]%char) by not_member.
  repeat (split; [assumption|]).
  exact (readln_cuts_long_line 4 H0 buf 3 _ _ _ H1 H2 H3 H4 H5 H6 H7).
Defined.

End SocketFacts.

(* ===================================================================== *)
(** * The TLS trust engine *)
(* ===================================================================== *)

Module SslFacts.
Import Ssl.

(** ** Host names *)

Lemma ascii_compare_refl (a : ascii) : Ascii.compare a a = Eq.
Proof.
  pose proof (Ascii.compare_antisym a a) as H.
  destruct (Ascii.compare a a); simpl in H; congruence.
Qed.

Lemma strcasecmp_zero (a : string) :
  ∀ b, strcasecmp a b = 0 ↔ case_equal a b.
Proof.
  unfold case_equal.
  induction a as [|ca a IH]; intros [|cb b]; simpl;
    try (split; [lia | discriminate]).
  - split; auto.
  - destruct (Ascii.compare (tolower ca) (tolower cb)) eqn:Hc.
    + apply Ascii.compare_eq_iff in Hc. rewrite Hc, IH.
      split; [intros ->; reflexivity | intros H; injection H; auto].
    + split; [lia|]. intros H. injection H as H1 H2.
      rewrite H1, ascii_compare_refl in Hc. discriminate.
    + split; [lia|]. intros H. injection H as H1 H2.
      rewrite H1, ascii_compare_refl in Hc. discriminate.
Qed.

Lemma strchr_app (c : ascii) (x : string) : ∀ t,
  strchr x c = None ->
  strchr (String.append x (String c t)) c = Some (String c t).
Proof.
  induction x as [|a x IH]; intros t H; simpl in *.
  - rewrite Ascii.eqb_refl. reflexivity.
  - destruct (Ascii.eqb a c); [discriminate|]. auto.
Qed.

Lemma strchr_Some (c : ascii) (s : string) : ∀ p,
  strchr s c = Some p ->
  ∃ x t, s = String.append x (String c t) ∧ p = String c t ∧
         strchr x c = None.
Proof.
  induction s as [|a s IH]; intros p H; simpl in *; [discriminate|].
  destruct (Ascii.eqb a c) eqn:Hac.
  - apply Ascii.eqb_eq in Hac. subst a. injection H as <-.
    exists EmptyString, s. auto.
  - destruct (IH p H) as (x & t & -> & -> & Hx).
    exists (String a x), t. simpl. rewrite Hac. auto.
Qed.

Lemma at_end_false (s : string) : at_end s = false ↔ s ≠ EmptyString.
Proof. destruct s; simpl; split; congruence. Qed.

(** [hostname_match] on a certificate name that starts with [*.]. *)
Lemma hostname_match_wildcard (h rest : string) :
  hostname_match h (String.append "*." rest) =
  match strchr h "." with
  | None => false
  | Some dot =>
      if at_end rest || at_end (advance 1 dot) then false
      else if negb (strcasecmp rest (advance 1 dot) =? 0) then false
      else true
  end.
Proof. unfold hostname_match. destruct (strchr h "."); reflexivity. Qed.

(** C2, as the code has it.  [hostname_match] accepts [h] against [*.A.B]
    (with [A.B] not empty) if and only if [h] is [X.T] where [X] holds no
    dot and [T] equals [A.B] up to ASCII case; [X] is not required to be
    non-empty.  [*.example.com] matches [foo.example.com] and matches
    neither [a.b.example.com] nor [example.com]. *)
Theorem wildcard_matches_one_label :
  (∀ h rest : string,
     hostname_match h (String.append "*." rest) = true ↔
     rest ≠ EmptyString ∧
     ∃ X T, h = String.append X (String "." T) ∧ no_dot X ∧
            case_equal rest T) ∧
  hostname_match "foo.example.com" "*.example.com" = true ∧
  hostname_match "a.b.example.com" "*.example.com" = false ∧
  hostname_match "example.com" "*.example.com" = false.
Proof.
  split; [|repeat split].
  intros h rest. rewrite hostname_match_wildcard. split.
  - destruct (strchr h ".") as [dot|] eqn:Hs; [|intros; discriminate].
    destruct (strchr_Some _ _ _ Hs) as (X & T & -> & -> & HX). simpl.
    destruct (at_end rest) eqn:Hr; [simpl; discriminate|].
    destruct (at_end T) eqn:Ht; [simpl; discriminate|]. simpl.
    destruct (strcasecmp rest T =? 0) eqn:Hc; [|simpl; discriminate].
    intros _. apply Z.eqb_eq, strcasecmp_zero in Hc.
    split; [apply at_end_false; auto|]. eauto.
  - intros (Hr & X & T & -> & HX & Hc).
    rewrite (strchr_app _ _ _ HX). simpl.
    apply at_end_false in Hr. rewrite Hr.
    assert (Ht : at_end T = false).
    { destruct T; [|reflexivity]. destruct rest; [discriminate|].
      unfold case_equal in Hc. discriminate. }
    rewrite Ht. simpl.
    apply strcasecmp_zero, Z.eqb_eq in Hc. rewrite Hc. reflexivity.
Qed.

(** C2 as stated fails: [.example.com] is accepted against
    [*.example.com], and it is not [X.T] for any non-empty [X] without a
    dot. *)
Lemma wildcard_accepts_empty_label :
  hostname_match ".example.com" "*.example.com" = true ∧
  ¬ ∃ X T, ".example.com"%string = String.append X (String "." T) ∧
           X ≠ EmptyString ∧ no_dot X ∧ case_equal "example.com" T.
Proof.
  split; [reflexivity|].
  intros (X & T & Heq & Hne & Hdot & _).
  destruct X as [|a X]; [congruence|].
  simpl in Heq. injection Heq as <- _.
  unfold no_dot in Hdot. simpl in Hdot. discriminate.
Qed.

(** The comparison ignores ASCII case. *)
Example wildcard_ignores_case :
  hostname_match "FOO.Example.COM" "*.eXample.com" = true.
Proof. reflexivity. Qed.

(** ** The interactive prompt *)

Lemma expiration_iff cfg now c silent st :
  fst (check_certificate_expiration cfg now c silent st) = true ↔
  SslVerifyDates cfg = MUTT_NO ∨ within_validity c now.
Proof.
  unfold check_certificate_expiration, within_validity, X509_cmp_current_time.
  destruct (SslVerifyDates cfg =? MUTT_NO) eqn:Hd; simpl.
  - apply Z.eqb_eq in Hd. tauto.
  - apply Z.eqb_neq in Hd.
    destruct (notBefore c) as [nb|], (notAfter c) as [na|]; simpl.
    + destruct (nb <=? now) eqn:H1; simpl.
      * destruct (na <=? now) eqn:H2; simpl.
        -- apply Z.leb_le in H2. split; [discriminate|].
           intros [?|(x & y & Hx & Hy & ?)]; [tauto|]. simplify_eq. lia.
        -- apply Z.leb_le in H1. apply Z.leb_gt in H2.
           split; auto. intros _. right. exists nb, na.
           repeat split; auto; lia.
      * apply Z.leb_gt in H1. split; [discriminate|].
        intros [?|(x & y & Hx & Hy & ?)]; [tauto|]. simplify_eq. lia.
    + destruct (nb <=? now); simpl; (split; [discriminate|]);
        intros [?|(x & y & Hx & Hy & ?)]; try tauto; discriminate.
    + split; [discriminate|].
      intros [?|(x & y & Hx & Hy & ?)]; try tauto; discriminate.
    + split; [discriminate|].
      intros [?|(x & y & Hx & Hy & ?)]; try tauto; discriminate.
Qed.

Lemma allow_always_iff cfg now c allow_always st :
  allow_always_final cfg now c allow_always st = true ↔
  allow_always ≠ 0 ∧ CertificateFile cfg ≠ None ∧
  (SslVerifyDates cfg = MUTT_NO ∨ within_validity c now).
Proof.
  unfold allow_always_final.
  rewrite !andb_true_iff, negb_true_iff, Z.eqb_neq, bool_decide_eq_true.
  rewrite expiration_iff. tauto.
Qed.

Lemma allow_skip_iff cfg idx :
  allow_skip cfg idx = true ↔
  (HAVE_SSL_PARTIAL_CHAIN cfg = true ∧ SslVerifyPartialChains cfg = true) ∧
  idx ≠ 0.
Proof.
  unfold allow_skip.
  rewrite !andb_true_iff, negb_true_iff, Z.eqb_neq. tauto.
Qed.

Lemma menu_prompt_offers (always skip : bool) :
  offers "(a)ccept always" (menu_prompt always skip) = always ∧
  offers "(s)kip" (menu_prompt always skip) = skip.
Proof. destruct always, skip; split; vm_compute; reflexivity. Qed.

Lemma ui_set_skip st b : ui (set_skip st b) = ui st.
Proof. unfold set_skip. destruct (ssl st); reflexivity. Qed.

Lemma menu_loop_ui keys : ∀ always skip c ok st d st',
  menu_loop keys always skip c ok st = Some (d, st') ->
  ∃ more, ui st' = ui st ++ more.
Proof.
  induction keys as [|k keys IH]; intros always skip c ok st d st' H;
    simpl in H; [discriminate|].
  destruct k; try (eapply IH; eassumption);
    try (injection H as <- <-; exists []; rewrite app_nil_r; reflexivity).
  - injection H as <- <-. exists []. unfold accept_once.
    simpl. rewrite ui_set_skip, app_nil_r. reflexivity.
  - destruct always; simpl in H; [|eapply IH; eassumption].
    injection H as <- <-. unfold accept_once, save_certificate. simpl.
    rewrite ui_set_skip. destruct ok; simpl; eauto.
  - destruct skip; simpl in H; [|eapply IH; eassumption].
    injection H as <- <-. rewrite ui_set_skip. exists [].
    rewrite app_nil_r. reflexivity.
Qed.

(** A key whose choice is not offered is ignored. *)
Lemma menu_loop_ignores_unoffered keys c ok st :
  menu_loop (OpAcceptAlways :: keys) false false c ok st =
    menu_loop keys false false c ok st ∧
  menu_loop (OpSkip :: keys) false false c ok st =
    menu_loop keys false false c ok st.
Proof. split; reflexivity. Qed.

(** C3, as the code has it.  Every call of [interactive_check_cert] that
    returns has shown one menu; its prompt offers "(a)ccept always" if and
    only if the caller allowed it, a trust file is configured, and either
    date verification is switched off ([ssl_verify_dates = no]) or the
    certificate is within its validity dates; it offers "(s)kip" if and
    only if partial-chain acceptance is enabled (compiled in and switched
    on) and the certificate is not the leaf. *)
Theorem prompt_offers_choices
    cfg now keys ok c idx len allow_always st r st' :
  interactive_check_cert cfg now keys ok c idx len allow_always st
    = Some (r, st') ->
  ∃ p, ui st' !! length (ui st) = Some (EvMenu (len - idx) len p) ∧
    (offers "(a)ccept always" p = true ↔
       allow_always ≠ 0 ∧ CertificateFile cfg ≠ None ∧
       (SslVerifyDates cfg = MUTT_NO ∨ within_validity c now)) ∧
    (offers "(s)kip" p = true ↔
       (HAVE_SSL_PARTIAL_CHAIN cfg = true ∧
        SslVerifyPartialChains cfg = true) ∧
       idx ≠ 0).
Proof.
  unfold interactive_check_cert. intros H.
  destruct (menu_loop _ _ _ _ _ _) as [[d st2]|] eqn:Hm; [|discriminate].
  simpl in H. injection H as <- <-.
  destruct (menu_loop_ui _ _ _ _ _ _ _ _ Hm) as [more Hui].
  eexists. split.
  - rewrite Hui. simpl. rewrite <- app_assoc. simpl.
    apply list_lookup_middle. reflexivity.
  - destruct (menu_prompt_offers
                (allow_always_final cfg now c allow_always st)
                (allow_skip cfg idx)) as [-> ->].
    split; [apply allow_always_iff | apply allow_skip_iff].
Qed.

(** The theorem at the prompt of scenario S4: a self-signed leaf, the user
    accepts once. *)
Lemma prompt_offers_choices_witness :
  interactive_check_cert Scenario.cfg_default 100 [OpAcceptOnce] true
    Scenario.leaf 0 1 1 (ssl_negotiate_setup "mail.example.com" (initial None))
    = Some (1, accept_once Scenario.leaf
                 (with_ui (ssl_negotiate_setup "mail.example.com"
                                               (initial None))
                          (EvMenu 1 1 "(r)eject, accept (o)nce, (a)ccept always")))
  ∧
  ∃ p, ui (accept_once Scenario.leaf
             (with_ui (ssl_negotiate_setup "mail.example.com" (initial None))
                (EvMenu 1 1 "(r)eject, accept (o)nce, (a)ccept always")))
         !! length (ui (ssl_negotiate_setup "mail.example.com" (initial None)))
       = Some (EvMenu (1 - 0) 1 p) ∧
    (offers "(a)ccept always" p = true ↔
       1 ≠ 0 ∧ CertificateFile Scenario.cfg_default ≠ None ∧
       (SslVerifyDates Scenario.cfg_default = MUTT_NO ∨
        within_validity Scenario.leaf 100)) ∧
    (offers "(s)kip" p = true ↔
       (HAVE_SSL_PARTIAL_CHAIN Scenario.cfg_default = true ∧
        SslVerifyPartialChains Scenario.cfg_default = true) ∧
       0 ≠ 0).
Proof.
  assert (H : interactive_check_cert Scenario.cfg_default 100 [OpAcceptOnce]
                true Scenario.leaf 0 1 1
                (ssl_negotiate_setup "mail.example.com" (initial None))
              = Some (1, accept_once Scenario.leaf
                   (with_ui (ssl_negotiate_setup "mail.example.com"
                                                 (initial None))
                      (EvMenu 1 1 "(r)eject, accept (o)nce, (a)ccept always"))))
    by reflexivity.
  split; [exact H|].
  exact (prompt_offers_choices _ _ _ _ _ _ _ _ _ _ _ H).
Defined.

(** C3 as stated fails: with [ssl_verify_dates = no] the prompt for a
    certificate that expired at 50, shown at time 100, offers "(a)ccept
    always". *)
Lemma always_offered_for_expired_certificate :
  ¬ within_validity Scenario.expired_leaf 100 ∧
  ∃ st', interactive_check_cert Scenario.cfg_no_dates 100 [OpReject] true
           Scenario.expired_leaf 0 1 1
           (ssl_negotiate_setup "mail.example.com" (initial None))
         = Some (0, st') ∧
    ∃ p, ui st' = [EvMenu 1 1 p] ∧ offers "(a)ccept always" p = true.
Proof.
  split.
  - intros (nb & na & Hb & Ha & Hr). simpl in Hb, Ha.
    injection Hb as <-. injection Ha as <-. lia.
  - eexists. split; [reflexivity|]. eexists. split; reflexivity.
Qed.

End SslFacts.

(* ===================================================================== *)
(** * The session trust sequence *)
(* ===================================================================== *)

Module TrustFacts.
Import Ssl.

Lemma compare_certificates_spec (a b : X509) (md : list ascii) :
  compare_certificates a b md = true ↔
  subject_name a = subject_name b ∧ issuer_name a = issuer_name b ∧
  sha256 a = Some md.
Proof.
  unfold compare_certificates, names_differ, memcmp_differs.
  destruct (bool_decide (subject_name a = subject_name b)) eqn:Hs; simpl;
    [apply bool_decide_eq_true in Hs | apply bool_decide_eq_false in Hs; split; [discriminate | tauto]].
  destruct (bool_decide (issuer_name a = issuer_name b)) eqn:Hi; simpl;
    [apply bool_decide_eq_true in Hi | apply bool_decide_eq_false in Hi; split; [discriminate | tauto]].
  destruct (sha256 a) as [m|]; [|split; [discriminate | intros (_ & _ & ?); discriminate]].
  destruct (Nat.eqb (length md) (length m)) eqn:Hl; simpl.
  - apply Nat.eqb_eq in Hl.
    destruct (bool_decide (take (length m) md = take (length m) m)) eqn:Ht; simpl.
    + apply bool_decide_eq_true in Ht.
      rewrite <- Hl in Ht at 1. rewrite !firstn_all in Ht. subst. tauto.
    + apply bool_decide_eq_false in Ht. split; [discriminate|].
      intros (_ & _ & [= ->]). tauto.
  - apply Nat.eqb_neq in Hl. split; [discriminate|].
    intros (_ & _ & [= ->]). tauto.
Qed.

Lemma byte_equal_sym a b : byte_equal a b -> byte_equal b a.
Proof. intros (H1 & H2 & md & H3 & H4). repeat split; eauto. Qed.

Lemma byte_equal_trans a b c : byte_equal a b -> byte_equal b c -> byte_equal a c.
Proof.
  intros (H1 & H2 & md & H3 & H4) (H5 & H6 & md' & H7 & H8).
  repeat split; try congruence. exists md. split; congruence.
Qed.

Lemma cache_hit_iff (p : X509) (st : State) :
  check_certificate_cache p st = true ↔
  ∃ c, c ∈ session_certs st ∧ byte_equal c p.
Proof.
  unfold check_certificate_cache, session_certs, byte_equal.
  destruct (sha256 p) as [md|] eqn:Hp.
  - destruct (SslSessionCerts st) as [certs|].
    + rewrite existsb_exists. split.
      * intros (c & Hin & Hc). apply compare_certificates_spec in Hc.
        exists c. rewrite <- in_rev, <- list_elem_of_In in Hin.
        destruct Hc as (? & ? & ?). eauto 10.
      * intros (c & Hin & H1 & H2 & md' & H3 & H4). exists c.
        rewrite <- in_rev, <- list_elem_of_In. split; auto.
        apply compare_certificates_spec. simplify_eq. auto.
    + split; [discriminate|]. intros (c & Hin & _). inversion Hin.
  - split; [discriminate|]. intros (c & _ & _ & _ & md & _ & ?). discriminate.
Qed.

Lemma ssl_shape_refl st : ssl_shape st st.
Proof. unfold ssl_shape. destruct (ssl st); auto. Qed.

Lemma eff_refl allow st : eff allow st st.
Proof.
  split; auto using ssl_shape_refl.
  exists []. rewrite app_nil_r. reflexivity.
Qed.

Lemma eff_same_trust allow st0 st st' :
  same_trust st0 st -> eff allow st st' -> eff allow st0 st'.
Proof.
  intros (H1 & H2 & H3 & H4) [Hc [Hl Hp] Hs Hk].
  unfold session_certs, ssl_shape, skip_mode_of in *.
  rewrite H1, H4 in *. split; auto. split; congruence.
Qed.

Lemma same_trust_eff allow st st' : same_trust st st' -> eff allow st st'.
Proof.
  intros (H1 & H2 & H3 & H4).
  unfold session_certs, ssl_shape, skip_mode_of in *.
  split; unfold session_certs, ssl_shape, skip_mode_of; rewrite ?H1, ?H4; auto.
  - exists []. rewrite app_nil_r. reflexivity.
  - destruct (ssl st); auto.
Qed.

Lemma same_trust_ui st ev : same_trust st (with_ui st ev).
Proof. repeat split. Qed.

Lemma same_trust_trans a b c : same_trust a b -> same_trust b c -> same_trust a c.
Proof. unfold same_trust. intuition congruence. Qed.

Lemma same_trust_refl a : same_trust a a.
Proof. repeat split. Qed.

Lemma expiration_same_trust cfg now c silent st :
  same_trust st (snd (check_certificate_expiration cfg now c silent st)).
Proof.
  unfold check_certificate_expiration.
  repeat (match goal with |- context [if ?b then _ else _] => destruct b end);
    simpl; auto using same_trust_refl, same_trust_ui.
Qed.

Lemma by_digest_same_trust cfg now c st :
  same_trust st (snd (check_certificate_by_digest cfg now c st)).
Proof.
  unfold check_certificate_by_digest.
  pose proof (expiration_same_trust cfg now c false st) as H.
  destruct (check_certificate_expiration cfg now c false st) as [v st1].
  simpl in H. destruct v; exact H.
Qed.

Ltac eff_crush :=
  split; unfold session_certs, ssl_shape, skip_mode_of, set_skip,
           accept_once, ssl_cache_trusted_cert; simpl;
  try (exists []; rewrite app_nil_r; reflexivity); eauto.

Lemma eff_clear_skip allow st : eff allow st (set_skip st false).
Proof. destruct st as [certs lp lc [[h sk]|] tf u]; eff_crush. Qed.

Lemma eff_accept_once allow c st : eff allow st (accept_once c st).
Proof. destruct st as [[certs|] lp lc [[h sk]|] tf u]; eff_crush. Qed.

Lemma save_same_trust c ok st : same_trust st (save_certificate c ok st).
Proof. unfold save_certificate. destruct ok; repeat split. Qed.

Lemma eff_set_skip st : eff true st (set_skip st true).
Proof. destruct st as [certs lp lc [[h sk]|] tf u]; eff_crush. Qed.

Lemma menu_loop_eff keys : ∀ always skip c ok st d st',
  menu_loop keys always skip c ok st = Some (d, st') -> eff skip st st'.
Proof.
  induction keys as [|k keys IH]; intros always skip c ok st d st' H;
    simpl in H; [discriminate|].
  destruct k; try (eapply IH; eassumption);
    try (injection H as <- <-; apply eff_refl).
  - injection H as <- <-. apply eff_accept_once.
  - destruct always; simpl in H; [|eapply IH; eassumption].
    injection H as <- <-.
    eapply eff_same_trust; [apply save_same_trust | apply eff_accept_once].
  - destruct skip; simpl in H; [|eapply IH; eassumption].
    injection H as <- <-. apply eff_set_skip.
Qed.

Lemma interactive_eff cfg now keys ok c idx len aa st r st' :
  interactive_check_cert cfg now keys ok c idx len aa st = Some (r, st') ->
  eff (allow_skip cfg idx) st st'.
Proof.
  unfold interactive_check_cert. intros H.
  destruct (menu_loop _ _ _ _ _ _) as [[d st2]|] eqn:Hm; [|discriminate].
  simpl in H. injection H as <- <-.
  eapply eff_same_trust; [apply same_trust_ui|].
  eapply menu_loop_eff; eassumption.
Qed.

Lemma verify_tail_eff cfg inp host sm st r st' :
  verify_tail cfg inp host sm st = Some (r, st') ->
  eff (allow_skip cfg (pos inp)) st st' ∧
  (check_certificate_cache (cert inp) st = true ->
   r = 1 ∧ ui st' = ui st ∧ skip_mode_of st' = false).
Proof.
  unfold verify_tail. intros H.
  destruct (check_certificate_cache (cert inp) st) eqn:Hc.
  - injection H as <- <-. split; [apply eff_clear_skip|].
    intros _. destruct st as [certs lp lc [[h sk]|] tf u]; auto.
  - split; [|discriminate].
    assert (Hprompt : ∀ aa st1, same_trust st st1 ->
      interactive_check_cert cfg (now inp) (keys inp) (save_ok inp) (cert inp)
        (pos inp) (len inp) aa st1 = Some (r, st') ->
      eff (allow_skip cfg (pos inp)) st st').
    { intros aa st1 Hs Hi. eapply eff_same_trust; [exact Hs|].
      eapply interactive_eff; eassumption. }
    assert (Hrest :
      (if (preverify_ok inp =? 0) || sm
       then
         let by_digest :=
           match CertificateFile cfg with
           | None => (0, st)
           | Some _ => check_certificate_by_digest cfg (now inp) (cert inp) st
           end in
         if negb (fst by_digest =? 0)
         then Some (1, set_skip (snd by_digest) false)
         else interactive_check_cert cfg (now inp) (keys inp) (save_ok inp)
                (cert inp) (pos inp) (len inp) 1 (snd by_digest)
       else Some (1, st)) = Some (r, st') ->
      eff (allow_skip cfg (pos inp)) st st').
    { clear H. intros H.
      destruct ((preverify_ok inp =? 0) || sm).
      - assert (Hd : same_trust st (snd
            match CertificateFile cfg with
            | None => (0, st)
            | Some _ => check_certificate_by_digest cfg (now inp) (cert inp) st
            end)).
        { destruct (CertificateFile cfg); [apply by_digest_same_trust | apply same_trust_refl]. }
        simpl in H.
        destruct (negb (fst _ =? 0)).
        + injection H as <- <-.
          eapply eff_same_trust; [exact Hd | apply eff_clear_skip].
        + eapply Hprompt; eauto.
      - injection H as <- <-. apply eff_refl. }
    destruct ((pos inp =? 0) && negb (SslVerifyHost cfg =? MUTT_NO)).
    + destruct (check_host cfg (cert inp) host) as [rc err].
      destruct rc; [| apply Hrest; exact H | apply Hrest; exact H].
      eapply Hprompt; [|exact H]. apply same_trust_ui.
    + apply Hrest; exact H.
Qed.

Lemma cache_check_ext c st st' :
  SslSessionCerts st' = SslSessionCerts st ->
  check_certificate_cache c st' = check_certificate_cache c st.
Proof. unfold check_certificate_cache. intros ->. reflexivity. Qed.

Lemma duplicate_skipped_spec inp sm st :
  duplicate_skipped inp sm st = true ->
  sm = true ∧ ∃ lc, last_cert st = Some lc ∧ byte_equal (cert inp) lc.
Proof.
  unfold duplicate_skipped. rewrite !andb_true_iff.
  intros [[[Hsm _] _] H]. split; auto.
  destruct (last_cert st) as [lc|]; [|discriminate].
  destruct (sha256 lc) as [md|] eqn:Hmd; [|discriminate].
  apply compare_certificates_spec in H. destruct H as (H1 & H2 & H3).
  exists lc. split; auto. repeat split; eauto.
Qed.

Lemma allow_skip_off cfg idx :
  HAVE_SSL_PARTIAL_CHAIN cfg && SslVerifyPartialChains cfg = false ->
  allow_skip cfg idx = false.
Proof.
  unfold allow_skip.
  destruct (HAVE_SSL_PARTIAL_CHAIN cfg), (SslVerifyPartialChains cfg),
    (idx =? 0); simpl; auto.
Qed.

Lemma callback_inv cfg inp st r st' :
  trust_inv st -> ssl_verify_callback cfg inp st = Some (r, st') ->
  trust_inv st' ∧ ∃ more, session_certs st' = session_certs st ++ more.
Proof.
  intros [Hhost Hskip] H. unfold ssl_verify_callback in H.
  assert (Hsame : trust_inv st ∧ ∃ more, session_certs st = session_certs st ++ more).
  { split; [split; auto|]. exists []. rewrite app_nil_r. reflexivity. }
  destruct (ssl st) as [d|] eqn:Hssl; [|injection H as <- <-; exact Hsame].
  destruct (host_data d) as [host|] eqn:Hh; [|injection H as <- <-; exact Hsame].
  destruct (HAVE_SSL_PARTIAL_CHAIN cfg && SslVerifyPartialChains cfg) eqn:Hflag.
  - destruct (duplicate_skipped inp (skip_data d) st) eqn:Hdup;
      [injection H as <- <-; exact Hsame|].
    destruct (verify_tail_eff _ _ _ _ _ _ _ H) as [[Hc [Hl Hp] Hs Hk] Hhit].
    split; [|exact Hc]. split.
    + intros d' Hd'. unfold ssl_shape in Hs. simpl in Hs.
      rewrite Hssl, Hd' in Hs. rewrite Hs, Hh. discriminate.
    + intros Hsk. destruct Hk as [Hk | [Hcerts _]]; [congruence|].
      exists (cert inp). split; [rewrite Hl; reflexivity|].
      rewrite (cache_check_ext _ _ _ Hcerts).
      destruct (check_certificate_cache (cert inp) (remember_last inp st)) eqn:Hcc;
        [|reflexivity].
      destruct (Hhit eq_refl) as (_ & _ & ?). congruence.
  - destruct (verify_tail_eff _ _ _ _ _ _ _ H) as [[Hc [Hl Hp] Hs Hk] Hhit].
    split; [|exact Hc]. split.
    + intros d' Hd'. unfold ssl_shape in Hs.
      rewrite Hssl, Hd' in Hs. rewrite Hs, Hh. discriminate.
    + intros Hsk. destruct Hk as [Hk | [Hcerts [Hk | Hk]]]; [congruence| |].
      * rewrite Hk in Hsk. destruct (Hskip Hsk) as (lc & Hlc & Hcc).
        exists lc. split; [congruence|].
        rewrite (cache_check_ext _ _ _ Hcerts). exact Hcc.
      * rewrite allow_skip_off in Hk by exact Hflag. discriminate.
Qed.

Lemma step_inv st e st' :
  trust_inv st -> step st e = Some st' ->
  trust_inv st' ∧ ∃ more, session_certs st' = session_certs st ++ more.
Proof.
  intros Hinv H. destruct e as [h | cfg inp | f]; simpl in H.
  - injection H as <-. split; [|exists []; rewrite app_nil_r; reflexivity].
    split; simpl.
    + intros d [= <-]. discriminate.
    + discriminate.
  - destruct (ssl_verify_callback cfg inp st) as [[r st2]|] eqn:Hcb; [|discriminate].
    simpl in H. injection H as <-. eapply callback_inv; eassumption.
  - injection H as <-. split; [|exists []; rewrite app_nil_r; reflexivity].
    destruct Hinv as [H1 H2]. split; auto.
Qed.

Lemma run_inv es : ∀ st st',
  trust_inv st -> run st es = Some st' ->
  trust_inv st' ∧ ∃ more, session_certs st' = session_certs st ++ more.
Proof.
  induction es as [|e es IH]; intros st st' Hinv H; simpl in H.
  - injection H as <-. split; auto. exists []. rewrite app_nil_r. reflexivity.
  - destruct (step st e) as [st1|] eqn:He; [|discriminate]. simpl in H.
    destruct (step_inv _ _ _ Hinv He) as [Hinv1 [m1 Hm1]].
    destruct (IH _ _ Hinv1 H) as [Hinv' [m2 Hm2]].
    split; auto. exists (m1 ++ m2). rewrite Hm2, Hm1, app_assoc. reflexivity.
Qed.

Lemma initial_inv f : trust_inv (initial f).
Proof. split; simpl; [discriminate | discriminate]. Qed.

(** The session sequence only grows: what "accept once" or "accept always"
    appended stays. *)
Lemma accept_once_caches c st : c ∈ session_certs (accept_once c st).
Proof.
  unfold accept_once, ssl_cache_trusted_cert, session_certs. simpl.
  apply elem_of_app. right. left.
Qed.

(** C1.  Let [c] be in the session trust sequence of a state the process
    has reached (only "accept once" and "accept always" append to it), and
    let the process go on through any further handshakes and callbacks.
    Then an invocation of [ssl_verify_callback] for the current handshake on
    a certificate with the same subject name, issuer name and SHA-256 digest
    as [c] returns 1, shows nothing to the user (no prompt, no message) and
    leaves the skip marker of the connection cleared. *)
Theorem cached_certificate_accepted_silently
    (f : option (list X509)) (es1 es2 : list Step) (st1 st2 : State)
    (cfg : Config) (inp : VerifyInput) (c : X509) :
  run (initial f) es1 = Some st1 ->
  c ∈ session_certs st1 ->
  run st1 es2 = Some st2 ->
  ssl st2 ≠ None ->
  byte_equal c (cert inp) ->
  ∃ st', ssl_verify_callback cfg inp st2 = Some (1, st') ∧
         ui st' = ui st2 ∧ skip_mode_of st' = false.
Proof.
  intros Hr1 Hin Hr2 Hssl Heq.
  destruct (run_inv _ _ _ (initial_inv f) Hr1) as [Hinv1 _].
  destruct (run_inv _ _ _ Hinv1 Hr2) as [[Hhost Hskip] [more Hmore]].
  assert (Hin2 : c ∈ session_certs st2).
  { rewrite Hmore. apply elem_of_app. left. exact Hin. }
  assert (Hhit : ∀ st, SslSessionCerts st = SslSessionCerts st2 ->
                       check_certificate_cache (cert inp) st = true).
  { intros st Hst. rewrite (cache_check_ext _ _ _ Hst).
    apply cache_hit_iff. eauto. }
  unfold ssl_verify_callback.
  destruct (ssl st2) as [d|] eqn:Hd; [|congruence].
  destruct (host_data d) as [host|] eqn:Hh; [|exfalso; eapply Hhost; eauto].
  assert (Htail : ∀ st, SslSessionCerts st = SslSessionCerts st2 ->
            ssl st = ssl st2 -> ui st = ui st2 ->
            ∃ st', verify_tail cfg inp host (skip_data d) st = Some (1, st') ∧
                   ui st' = ui st2 ∧ skip_mode_of st' = false).
  { intros st Hc Hs Hu. unfold verify_tail. rewrite (Hhit st Hc).
    eexists. split; [reflexivity|].
    unfold set_skip, skip_mode_of. rewrite Hs, Hd. simpl. auto. }
  destruct (HAVE_SSL_PARTIAL_CHAIN cfg && SslVerifyPartialChains cfg).
  - destruct (duplicate_skipped inp (skip_data d) st2) eqn:Hdup.
    + exfalso. apply duplicate_skipped_spec in Hdup.
      destruct Hdup as (Hsm & lc & Hlc & Hbl).
      destruct Hskip as (lc' & Hlc' & Hmiss).
      { unfold skip_mode_of. rewrite Hd. exact Hsm. }
      assert (lc' = lc) by congruence. subst lc'.
      assert (check_certificate_cache lc st2 = true); [|congruence].
      apply cache_hit_iff. exists c. split; auto.
      eapply byte_equal_trans; eauto.
    + apply Htail; reflexivity.
  - apply Htail; reflexivity.
Qed.

(** The theorem in scenario S4: the leaf is accepted once on the first
    connection; on a second connection the callback accepts it silently. *)
Lemma cached_certificate_accepted_silently_witness :
  run (initial None) Scenario.first_connection = Some Scenario.after_first ∧
  Scenario.leaf ∈ session_certs Scenario.after_first ∧
  run Scenario.after_first Scenario.second_connection
    = Some Scenario.after_second ∧
  ssl Scenario.after_second ≠ None ∧
  byte_equal Scenario.leaf (cert Scenario.second_visit) ∧
  ∃ st', ssl_verify_callback Scenario.cfg_default Scenario.second_visit
           Scenario.after_second = Some (1, st') ∧
         ui st' = ui Scenario.after_second ∧ skip_mode_of st' = false.
Proof.
  assert (H1 : run (initial None) Scenario.first_connection
               = Some Scenario.after_first) by reflexivity.
  assert (H2 : Scenario.leaf ∈ session_certs Scenario.after_first)
    by (vm_compute; left).
  assert (H3 : run Scenario.after_first Scenario.second_connection
               = Some Scenario.after_second) by reflexivity.
  assert (H4 : ssl Scenario.after_second ≠ None) by (vm_compute; discriminate).
  assert (H5 : byte_equal Scenario.leaf (cert Scenario.second_visit))
    by (repeat split; eexists; split; reflexivity).
  repeat (split; [assumption|]).
  exact (cached_certificate_accepted_silently None _ _ _ _
           Scenario.cfg_default Scenario.second_visit _ H1 H2 H3 H4 H5).
Defined.

(** In the scenario the first invocation does prompt. *)
Example first_visit_prompts :
  ui Scenario.after_first =
    [EvMenu 1 1 "(r)eject, accept (o)nce, (a)ccept always"].
Proof. reflexivity. Qed.

End TrustFacts.

(* ===================================================================== *)
(** * The POP3 driver *)
(* ===================================================================== *)

Module PopFacts.
Import Pop.

(** ** Fields that only fetch-headers writes: check_time and cmd_uidl *)

Ltac stable_by_computation := split; reflexivity.

Lemma stable_trans a b c : stable a b -> stable b c -> stable a c.
Proof. unfold stable. intuition congruence. Qed.

Lemma fetch_uidl_stable line ctx :
  stable ctx (snd (fetch_uidl line ctx)).
Proof.
  unfold fetch_uidl.
  destruct (parse_uidl_line line) as [[idx uidl]|]; [|stable_by_computation].
  simpl. destruct (_ =? _)%nat; simpl; [stable_by_computation|].
  destruct (hdrs ctx !! _) as [h|]; [|stable_by_computation].
  destruct (negb _); stable_by_computation.
Qed.

Lemma feed_lines_stable {S} (get : S -> Context) (cb : string -> S -> Z * S) :
  (∀ l s, stable (get s) (get (snd (cb l s)))) ->
  ∀ lines ret s, stable (get s) (get (snd (feed_lines cb lines ret s))).
Proof.
  intros Hcb lines. induction lines as [|l ls IH]; intros ret s; simpl.
  - stable_by_computation.
  - specialize (Hcb (unstuff l) s). destruct (cb (unstuff l) s) as [r s'].
    eapply stable_trans; [exact Hcb | apply IH].
Qed.

Lemma pop_fetch_data_stable {S} (get : S -> Context) (getpd : S -> PopData)
    (put : PopData -> S -> S) (cb : string -> S -> Z * S) r s :
  (∀ l s, stable (get s) (get (snd (cb l s)))) ->
  (∀ s, getpd s = pop_data (get s)) ->
  (∀ pd s, get (put pd s) = with_pop_data (get s) pd) ->
  stable (get s) (get (snd (pop_fetch_data getpd put r cb s))).
Proof.
  intros Hcb Hget Hput. unfold pop_fetch_data.
  destruct r as [line| |lines complete]; simpl.
  - rewrite Hput. split; simpl; rewrite Hget; reflexivity.
  - rewrite Hput. split; simpl; rewrite Hget; reflexivity.
  - pose proof (feed_lines_stable get cb Hcb lines 0 s) as Hf.
    destruct (feed_lines cb lines 0 s) as [ret s'].
    destruct complete; [exact Hf|]. simpl in *. rewrite Hput.
    destruct Hf as [Hf1 Hf2]. split; simpl; rewrite Hget; assumption.
Qed.

Lemma fetch_to_file_stable e r ctx :
  stable ctx (fst (snd (fetch_to_file e r ctx))).
Proof.
  unfold fetch_to_file.
  apply (pop_fetch_data_stable (S := Context * list string) fst); auto.
  intros l s. simpl. destruct (fetch_message e l (snd s)). stable_by_computation.
Qed.

Lemma uidl_listing_stamp srv now ctx :
  check_time (pop_data (snd (uidl_listing srv now ctx))) = now ∧
  cmd_uidl (pop_data (snd (uidl_listing srv now ctx))) = cmd_uidl (pop_data ctx).
Proof.
  unfold uidl_listing.
  match goal with |- context [pop_fetch_data _ _ _ _ ?c0] =>
    pose proof (pop_fetch_data_stable (S := Context) id pop_data
      (fun pd x => with_pop_data x pd) fetch_uidl (srv_uidl srv) c0
      (fun l s => fetch_uidl_stable l s) (fun _ => eq_refl) (fun _ _ => eq_refl))
      as [H1 H2]
  end.
  unfold id in *. simpl in H1, H2. rewrite H1, H2. split; reflexivity.
Qed.

Lemma pop_read_header_stable e srv h ctx :
  stable ctx (snd (pop_read_header e srv h ctx)).
Proof.
  unfold pop_read_header.
  destruct (negb (tempfile_ok e)); [stable_by_computation|].
  destruct (pop_query (srv_list srv (refno h)) _) as [rc1 pd1] eqn:Hq.
  assert (Hpd : check_time pd1 = check_time (pop_data ctx) ∧
                cmd_uidl pd1 = cmd_uidl (pop_data ctx)).
  { destruct (srv_list srv (refno h)); injection Hq as <- <-;
      split; reflexivity. }
  destruct Hpd as [Hq1 Hq2].
  destruct (rc1 =? 0).
  - pose proof (fetch_to_file_stable e (srv_top srv (refno h))
        (emit (with_pop_data (emit ctx (Sent (LIST (refno h)))) pd1)
              (Sent (TOP (refno h))))) as [Hf1 Hf2].
    destruct (fetch_to_file _ _ _) as [rc2 [ctx' f]]. simpl in Hf1, Hf2.
    repeat case_if; split; simpl; congruence.
  - repeat case_if; split; simpl; congruence.
Qed.

Lemma read_new_headers_stable e srv n : ∀ i ret hc ctx,
  stable ctx (snd (read_new_headers e srv n i ret hc ctx)).
Proof.
  induction n as [|n IH]; intros i ret hc ctx; simpl; [stable_by_computation|].
  destruct (hdrs ctx !! i) as [h|]; [|stable_by_computation].
  destruct (if USE_HCACHE e then hcache_fetch e (data h) else None) as [restored|].
  - simpl. eapply stable_trans; [|apply IH]. stable_by_computation.
  - pose proof (pop_read_header_stable e srv h ctx) as Hs.
    destruct (pop_read_header e srv h ctx) as [[rc h'] ctx']. simpl in Hs.
    destruct (rc <? 0).
    + destruct ((0 <=? rc) && USE_HCACHE e); exact Hs.
    + eapply stable_trans; [|apply IH].
      destruct ((0 <=? rc) && USE_HCACHE e); exact Hs.
Qed.

Lemma finish_headers_stable e srv oc nc ret ctx :
  stable ctx (snd (finish_headers e srv oc nc ret ctx)).
Proof.
  unfold finish_headers.
  destruct (ret =? 0).
  - destruct (mark_lost oc (hdrs ctx)) as [hs deleted].
    match goal with |- context [read_new_headers ?e ?s ?n ?i ?r ?h ?c] =>
      pose proof (read_new_headers_stable e s n i r h c) as Hs;
      destruct (read_new_headers e s n i r h c) as [ret' ctx4]
    end.
    simpl in Hs.
    eapply stable_trans; [eapply stable_trans; [|exact Hs]|].
    + destruct (deleted >? 0); stable_by_computation.
    + repeat case_if; stable_by_computation.
  - repeat case_if; stable_by_computation.
Qed.

Lemma finish_headers_err_msg e srv oc nc ret ctx :
  ret = -2 ->
  err_msg (pop_data (snd (finish_headers e srv oc nc ret ctx))) =
  err_msg (pop_data ctx).
Proof.
  intros ->. unfold finish_headers. simpl. reflexivity.
Qed.

Lemma note_uidl_capability_spec ret pd :
  let pd' := note_uidl_capability ret pd in
  (cmd_uidl pd ≠ 2 -> cmd_uidl pd' = cmd_uidl pd) ∧
  (cmd_uidl pd = 2 -> ret = 0 -> cmd_uidl pd' = 1) ∧
  (cmd_uidl pd = 2 -> ret = -2 ->
     cmd_uidl pd' = 0 ∧ err_msg pd' = UIDL_unsupported) ∧
  (cmd_uidl pd = 2 -> ret ≠ 0 -> ret ≠ -2 -> cmd_uidl pd' = 2).
Proof.
  unfold note_uidl_capability. simpl. split_and!.
  - intros H. apply Z.eqb_neq in H. rewrite H. reflexivity.
  - intros H ->. rewrite H. reflexivity.
  - intros H ->. rewrite H. simpl. rewrite H. split; reflexivity.
  - intros H H0 H2. rewrite H. simpl.
    apply Z.eqb_neq in H0, H2. rewrite H0, H2. simpl. exact H.
Qed.

Lemma fetch_headers_check_time e srv now ctx :
  check_time (pop_data (snd (pop_fetch_headers e srv now ctx))) = now.
Proof.
  unfold pop_fetch_headers.
  pose proof (uidl_listing_stamp srv now ctx) as [Ht _].
  destruct (uidl_listing srv now ctx) as [ret ctx1]. simpl in Ht.
  match goal with |- context [finish_headers ?e ?s ?o ?n ?r ?c] =>
    destruct (finish_headers_stable e s o n r c) as [-> _]
  end.
  simpl. unfold note_uidl_capability. repeat case_if; exact Ht.
Qed.

(** C9, as the code has it.  [check_time] holds the time of the last call
    of fetch-headers, successful or not: [pop_fetch_headers] stores the
    current time first and nothing later in the call changes it.  So after
    any call, a failed one included, [pop_check_mailbox] does nothing until
    the check interval has passed. *)
Theorem fetch_headers_stamps_check_time e srv now ctx :
  let ctx' := snd (pop_fetch_headers e srv now ctx) in
  check_time (pop_data ctx') = now ∧
  ∀ e' o srv' now', now' < now + PopCheckinterval e' ->
    pop_check_mailbox e' o srv' now' ctx' = (0, ctx').
Proof.
  simpl. split; [apply fetch_headers_check_time|].
  intros e' o srv' now' Hlt. unfold pop_check_mailbox.
  rewrite fetch_headers_check_time.
  replace (now + PopCheckinterval e' >? now') with true
    by (symmetry; apply Z.gtb_lt; lia).
  reflexivity.
Qed.

(** C9 as stated fails: a fetch-headers call at time 100 that the server
    answers with [-ERR] returns an error and moves [check_time] from 0 to
    100; a check at time 130, inside the interval of 60, then does
    nothing. *)
Lemma failed_fetch_advances_check_time :
  let '(rc, ctx') :=
    pop_fetch_headers Scenario.env0 Scenario.server_no_uidl 100
                      Scenario.mailbox3 in
  rc < 0 ∧
  check_time (pop_data Scenario.mailbox3) = 0 ∧
  check_time (pop_data ctx') = 100 ∧
  pop_check_mailbox Scenario.env0 Scenario.open_ok Scenario.server_s3 130 ctx'
    = (0, ctx').
Proof. vm_compute. repeat split; congruence. Qed.

(** A check that fails before fetch-headers runs (the connection cannot be
    reopened) leaves [check_time] alone. *)
Lemma check_mailbox_open_failure e o srv now ctx :
  open_ret o < 0 ->
  check_time (pop_data (snd (pop_check_mailbox e o srv now ctx))) =
  check_time (pop_data ctx).
Proof.
  intros Hneg. unfold pop_check_mailbox, reopen.
  destruct (_ >? now); [reflexivity|].
  apply Z.ltb_lt in Hneg. rewrite Hneg. simpl. rewrite Hneg. reflexivity.
Qed.

Lemma fetch_headers_uidl_capability e srv now ctx :
  let before := cmd_uidl (pop_data ctx) in
  let ret := fst (uidl_listing srv now ctx) in
  let after := pop_data (snd (pop_fetch_headers e srv now ctx)) in
  (before ≠ 2 -> cmd_uidl after = before) ∧
  (before = 2 -> ret = 0 -> cmd_uidl after = 1) ∧
  (before = 2 -> ret = -2 ->
     cmd_uidl after = 0 ∧ err_msg after = UIDL_unsupported) ∧
  (before = 2 -> ret ≠ 0 -> ret ≠ -2 -> cmd_uidl after = 2).
Proof.
  unfold pop_fetch_headers. simpl.
  pose proof (uidl_listing_stamp srv now ctx) as [_ Hu].
  destruct (uidl_listing srv now ctx) as [ret ctx1]. simpl in Hu. simpl.
  match goal with |- context [finish_headers ?e ?s ?o ?n ?r ?c] =>
    destruct (finish_headers_stable e s o n r c) as [_ Hs];
    pose proof (finish_headers_err_msg e s o n r c) as He
  end.
  rewrite Hs. simpl. simpl in He.
  destruct (note_uidl_capability_spec ret (pop_data ctx1))
    as (H1 & H2 & H3 & H4).
  simpl in *. rewrite Hu in *.
  split_and!; auto.
  intros Hb Hr. rewrite (He Hr). auto.
Qed.

Lemma fetch_headers_repeatedly_keeps later : ∀ ctx,
  cmd_uidl (pop_data ctx) ≠ 2 ->
  cmd_uidl (pop_data (fetch_headers_repeatedly later ctx)) =
  cmd_uidl (pop_data ctx).
Proof.
  induction later as [|[[e srv] now] later IH]; intros ctx H; simpl;
    [reflexivity|].
  destruct (fetch_headers_uidl_capability e srv now ctx) as (H1 & _).
  simpl in H1. rewrite IH; rewrite (H1 H); auto.
Qed.

Lemma feed_uidl_parseable lines : ∀ ctx,
  Forall (λ l, parse_uidl_line (unstuff l) ≠ None) lines ->
  fst (feed_lines fetch_uidl lines 0 ctx) = 0.
Proof.
  induction lines as [|l ls IH]; intros ctx H; simpl; [reflexivity|].
  inversion H as [|? ? Hl Hls]; subst.
  unfold fetch_uidl at 1.
  destruct (parse_uidl_line (unstuff l)) as [[n u]|]; [|congruence].
  simpl. apply IH. exact Hls.
Qed.

(** The return code of the listing, by what the server answers. *)
Lemma uidl_listing_ret srv now ctx :
  let ret := fst (uidl_listing srv now ctx) in
  (∀ line, srv_uidl srv = ReplyErr line -> ret = -2) ∧
  (∀ lines, srv_uidl srv = ReplyOk lines true ->
     Forall (λ l, parse_uidl_line (unstuff l) ≠ None) lines -> ret = 0).
Proof.
  simpl. unfold uidl_listing, pop_fetch_data. split.
  - intros line ->. reflexivity.
  - intros lines -> Hall.
    match goal with |- context [feed_lines fetch_uidl lines 0 ?c] =>
      pose proof (feed_uidl_parseable lines c Hall) as Hf;
      destruct (feed_lines fetch_uidl lines 0 c) as [ret ctx1]
    end.
    exact Hf.
Qed.

(** C7.  The UIDL capability ([cmd_uidl]: 2 Unknown, 1 Present, 0 Absent)
    leaves Unknown only, and never returns: a fetch-headers call whose
    UIDL exchange succeeds ([+OK] and the listing, return code 0) in state
    Unknown sets it to Present; one whose exchange is refused ([-ERR],
    return code -2) sets it to Absent and records the note "Command UIDL is
    not supported by server."; any other outcome leaves it Unknown; and once
    it is Present or Absent, neither this call nor any later fetch-headers
    call changes it. *)
Theorem uidl_capability_monotone e srv now ctx later :
  let before := cmd_uidl (pop_data ctx) in
  let ret := fst (uidl_listing srv now ctx) in
  let ctx' := snd (pop_fetch_headers e srv now ctx) in
  let after := pop_data ctx' in
  (before ≠ 2 -> cmd_uidl after = before) ∧
  (before = 2 -> ret = 0 -> cmd_uidl after = 1) ∧
  (before = 2 -> ret = -2 ->
     cmd_uidl after = 0 ∧ err_msg after = UIDL_unsupported) ∧
  (before = 2 -> ret ≠ 0 -> ret ≠ -2 -> cmd_uidl after = 2) ∧
  (cmd_uidl after ≠ 2 ->
     cmd_uidl (pop_data (fetch_headers_repeatedly later ctx')) =
     cmd_uidl after) ∧
  (∀ line, srv_uidl srv = ReplyErr line -> ret = -2) ∧
  (∀ lines, srv_uidl srv = ReplyOk lines true ->
     Forall (λ l, parse_uidl_line (unstuff l) ≠ None) lines -> ret = 0).
Proof.
  simpl.
  destruct (fetch_headers_uidl_capability e srv now ctx)
    as (H1 & H2 & H3 & H4).
  destruct (uidl_listing_ret srv now ctx) as (H5 & H6).
  simpl in *. split_and!; auto.
  apply fetch_headers_repeatedly_keeps.
Qed.

(** Two runs from state Unknown: a first listing makes the capability
    Present; a refusal makes it Absent and leaves the note. *)
Example uidl_becomes_present :
  cmd_uidl (pop_data (snd (pop_fetch_headers Scenario.env0 Scenario.server_s3
                             100 Scenario.mailbox3))) = 1.
Proof. reflexivity. Qed.

(** C7, as the claim words it: a [+OK] reply to UIDL does not by itself
    make the capability Present.  From state Unknown, a listing with a
    number [strtol] rejects (the exchange returns -3), and a listing cut by
    the loss of the connection (-1), both leave the capability Unknown. *)
Lemma uidl_ok_leaves_unknown :
  cmd_uidl (pop_data Scenario.mailbox3) = 2 ∧
  srv_uidl Scenario.server_erange
    = ReplyOk ["99999999999999999999 AAA"]%string true ∧
  fst (uidl_listing Scenario.server_erange 100 Scenario.mailbox3) = -3 ∧
  cmd_uidl (pop_data (snd (pop_fetch_headers Scenario.env0
                             Scenario.server_erange 100 Scenario.mailbox3)))
    = 2 ∧
  srv_uidl Scenario.server_cut = ReplyOk ["1 AAA"]%string false ∧
  fst (uidl_listing Scenario.server_cut 100 Scenario.mailbox3) = -1 ∧
  cmd_uidl (pop_data (snd (pop_fetch_headers Scenario.env0
                             Scenario.server_cut 100 Scenario.mailbox3)))
    = 2.
Proof. split_and!; reflexivity. Qed.

Example uidl_becomes_absent :
  let pd := pop_data (snd (pop_fetch_headers Scenario.env0
                             Scenario.server_no_uidl 100 Scenario.mailbox3)) in
  cmd_uidl pd = 0 ∧ err_msg pd = "Command UIDL is not supported by server."%string.
Proof. split; reflexivity. Qed.

(** ** One line of the UIDL listing *)




Lemma put_hdr_view (hs : list Header) (m : nat) (x y : Header) :
  (m <= length hs)%nat ->
  put_hdr hs m x !! m = Some x ∧
  take (S m) (<[m := y]> (put_hdr hs m x)) = take m hs ++ [y].
Proof.
  intros Hm. unfold put_hdr.
  destruct (m <? length hs)%nat eqn:Hlt.
  - apply Nat.ltb_lt in Hlt. split; [apply list_lookup_insert_eq; auto|].
    rewrite list_insert_insert_eq.
    rewrite (take_S_r _ _ y) by (apply list_lookup_insert_eq; auto).
    rewrite take_insert_ge by lia. reflexivity.
  - apply Nat.ltb_ge in Hlt. assert (m = length hs) as -> by lia.
    split; [apply list_lookup_middle; reflexivity|].
    rewrite insert_app_r_alt by lia. rewrite Nat.sub_diag. simpl.
    rewrite firstn_all. rewrite take_ge by (rewrite length_app; simpl; lia).
    reflexivity.
Qed.






(** What the call does there: AAA moves to refno 2 and the cache is marked
    for clearing (scenario S2). *)
Example fetch_uidl_reorders :
  let ctx' := snd (fetch_uidl "2 AAA" Scenario.mailbox3) in
  (refno <$> hdrs ctx') = [2; 2; 3] ∧
  clear_cache (pop_data ctx') = true.
Proof. split; reflexivity. Qed.

(** What [fetch_uidl] reads from a line. *)
Example parse1 : parse_uidl_line "1 AAA" = Some (1, "AAA"%string).
Proof. reflexivity. Qed.
Example parse2 : parse_uidl_line "12   whatever-id" = Some (12, "whatever-id"%string).
Proof. reflexivity. Qed.
Example parse3 : parse_uidl_line "99999999999999999999 X" = None.
Proof. reflexivity. Qed.
Example parse4 : parse_uidl_line "0 AAA" = Some (0, "AAA"%string).
Proof. reflexivity. Qed.
Example parse5 : parse_uidl_line "AAA" = Some (0, "AAA"%string).
Proof. reflexivity. Qed.
Example parse6 : parse_uidl_line "-1 AAA" = Some (-1, "AAA"%string).
Proof. reflexivity. Qed.

(** ** Fetch-headers as a whole *)

Lemma frame_refl ctx : frame ctx ctx.
Proof. repeat split. exists []. rewrite app_nil_r. reflexivity. Qed.

Lemma frame_trans a b c : frame a b -> frame b c -> frame a c.
Proof.
  intros (H1 & H2 & e1 & H3) (H4 & H5 & e2 & H6).
  repeat split; try congruence. exists (e1 ++ e2).
  rewrite H6, H3, app_assoc. reflexivity.
Qed.

Lemma frame_emit ctx ev : frame ctx (emit ctx ev).
Proof. repeat split. simpl. eauto. Qed.

Lemma frame_pop_data ctx pd : frame ctx (with_pop_data ctx pd).
Proof. repeat split. exists []. simpl. rewrite app_nil_r. reflexivity. Qed.

Lemma feed_lines_to_file e lines : ∀ ret ctx f,
  fst (snd (feed_lines
    (fun line (s : Context * list string) =>
       let '(r, f') := fetch_message e line (snd s) in (r, (fst s, f')))
    lines ret (ctx, f))) = ctx.
Proof.
  induction lines as [|l ls IH]; intros ret ctx f; simpl; [reflexivity|].
  destruct (fetch_message e (unstuff l) f) as [r f']. apply IH.
Qed.

Lemma fetch_to_file_frame e r ctx :
  frame ctx (fst (snd (fetch_to_file e r ctx))).
Proof.
  unfold fetch_to_file, pop_fetch_data.
  destruct r as [line| |lines complete]; simpl; try apply frame_pop_data.
  pose proof (feed_lines_to_file e lines 0 ctx []) as H.
  destruct (feed_lines _ lines 0 (ctx, [])) as [ret [ctx' f]].
  simpl in *. subst.
  destruct complete; simpl; [apply frame_refl | apply frame_pop_data].
Qed.

Lemma pop_read_header_frame e srv h ctx :
  let '(rc, h', ctx') := pop_read_header e srv h ctx in
  frame ctx ctx' ∧ refno h' = refno h ∧ deleted h' = deleted h ∧
  data h' = data h ∧ index h' = index h.
Proof.
  unfold pop_read_header.
  destruct (negb (tempfile_ok e)); [split; [apply frame_emit | auto]|].
  destruct (pop_query (srv_list srv (refno h)) _) as [rc1 pd1].
  assert (F1 : frame ctx (with_pop_data (emit ctx (Sent (LIST (refno h)))) pd1)).
  { eapply frame_trans; [apply frame_emit | apply frame_pop_data]. }
  destruct (rc1 =? 0).
  - pose proof (fetch_to_file_frame e (srv_top srv (refno h))
        (emit (with_pop_data (emit ctx (Sent (LIST (refno h)))) pd1)
              (Sent (TOP (refno h))))) as F2.
    destruct (fetch_to_file _ _ _) as [rc2 [ctx' f]]. simpl in F2.
    assert (F3 : ∀ pd, frame ctx (with_pop_data ctx' pd)).
    { intros pd. eapply frame_trans; [exact F1|].
      eapply frame_trans; [apply frame_emit|].
      eapply frame_trans; [exact F2 | apply frame_pop_data]. }
    repeat case_if; (split; [|auto]); auto;
      (eapply frame_trans; [apply F3 | apply frame_emit]).
  - repeat case_if; (split; [|auto]); auto;
      (eapply frame_trans; [apply F1 | apply frame_emit]).
Qed.

Lemma find_uidl_bound uidl ctx :
  find_uidl uidl ctx = msgcount ctx ∨
  ((find_uidl uidl ctx < msgcount ctx)%nat ∧
   ∃ h, hdrs ctx !! find_uidl uidl ctx = Some h).
Proof.
  unfold find_uidl.
  destruct (list_find _ _) as [[i h]|] eqn:Hf; [|left; reflexivity].
  apply list_find_Some in Hf. destruct Hf as (Hi & _ & _).
  apply lookup_take_Some in Hi. right. split; [lia|]. exists h. tauto.
Qed.

Lemma put_hdr_lookup (hs : list Header) (m : nat) (x y : Header) :
  (m <= length hs)%nat ->
  put_hdr hs m x !! m = Some x ∧
  (S m <= length (<[m := y]> (put_hdr hs m x)))%nat ∧
  <[m := y]> (put_hdr hs m x) !! m = Some y ∧
  ∀ j, (j < m)%nat -> <[m := y]> (put_hdr hs m x) !! j = hs !! j.
Proof.
  intros Hm. unfold put_hdr.
  destruct (m <? length hs)%nat eqn:Hlt.
  - apply Nat.ltb_lt in Hlt. rewrite list_insert_insert_eq, length_insert.
    split_and!; auto using list_lookup_insert_eq; try lia.
    intros j Hj. apply list_lookup_insert_ne. lia.
  - apply Nat.ltb_ge in Hlt. assert (m = length hs) as -> by lia.
    rewrite length_insert, length_app. simpl.
    split_and!.
    + apply list_lookup_middle. reflexivity.
    + lia.
    + apply list_lookup_insert_eq. rewrite length_app. simpl. lia.
    + intros j Hj. rewrite list_lookup_insert_ne by lia.
      apply lookup_app_l. lia.
Qed.

Lemma fetch_uidl_effect line ctx :
  ctx_ok ctx ->
  let ctx' := snd (fetch_uidl line ctx) in
  (msgcount ctx <= msgcount ctx' <= length (hdrs ctx'))%nat ∧
  trace ctx' = trace ctx ∧
  ∀ j h', (j < msgcount ctx')%nat -> hdrs ctx' !! j = Some h' ->
    ((j < msgcount ctx)%nat ∧ hdrs ctx !! j = Some h') ∨
    (∃ n u, parse_uidl_line line = Some (n, u) ∧ refno h' = n ∧
       (((j < msgcount ctx)%nat ∧
         ∃ h, hdrs ctx !! j = Some h ∧ deleted h' = deleted h) ∨
        j = msgcount ctx)).
Proof.
  intros Hok. unfold fetch_uidl.
  destruct (parse_uidl_line line) as [[n u]|]; simpl.
  2: { unfold ctx_ok in Hok. split_and!; auto; lia. }
  destruct (find_uidl_bound u ctx) as [Hi | [Hi [h Hh]]].
  - rewrite Hi, Nat.eqb_refl. simpl.
    destruct (put_hdr_lookup (hdrs ctx) (msgcount ctx)
                (set_data mutt_new_header (Some u))
                (set_index (set_refno (set_data mutt_new_header (Some u)) n)
                           (to_int (n - 1)))
                Hok) as (Hl & Hlen & Hm & Hlt).
    rewrite Hl. simpl. split_and!; auto; try lia.
    intros j h' Hj Hh'.
    destruct (decide (j = msgcount ctx)) as [->|Hne].
    + rewrite Hm in Hh'. injection Hh' as <-. right. exists n, u. auto.
    + left. rewrite Hlt in Hh' by lia. split; [lia | auto].
  - replace (find_uidl u ctx =? msgcount ctx)%nat with false
      by (symmetry; apply Nat.eqb_neq; lia).
    rewrite Hh.
    assert (Hgoal :
      (msgcount ctx <= msgcount ctx <=
         length (<[find_uidl u ctx := set_index (set_refno h n) (to_int (n - 1))]> (hdrs ctx)))%nat ∧
      ∀ j h', (j < msgcount ctx)%nat ->
        <[find_uidl u ctx := set_index (set_refno h n) (to_int (n - 1))]> (hdrs ctx) !! j = Some h' ->
        ((j < msgcount ctx)%nat ∧ hdrs ctx !! j = Some h') ∨
        (∃ n0 u0, Some (n, u) = Some (n0, u0) ∧ refno h' = n0 ∧
          (((j < msgcount ctx)%nat ∧
            ∃ h0, hdrs ctx !! j = Some h0 ∧ deleted h' = deleted h0) ∨
           j = msgcount ctx))).
    { rewrite length_insert. split; [unfold ctx_ok in Hok; lia|].
      intros j h' Hj Hh'.
      destruct (decide (j = find_uidl u ctx)) as [->|Hne].
      - rewrite list_lookup_insert_eq in Hh' by (eapply lookup_lt_Some; eauto).
        injection Hh' as <-. right. exists n, u. split_and!; auto.
        left. split; auto. exists h. auto.
      - rewrite list_lookup_insert_ne in Hh' by auto. left. auto. }
    destruct Hgoal as [H1 H2].
    destruct (negb (index h =? to_int (n - 1))); simpl; rewrite Hh; simpl; auto.
Qed.

Lemma fetch_uidl_enum_inv oc orig line ctx :
  (∀ n u, parse_uidl_line line = Some (n, u) -> 0 < n) ->
  enum_inv oc orig ctx ->
  enum_inv oc orig (snd (fetch_uidl line ctx)) ∧
  trace (snd (fetch_uidl line ctx)) = trace ctx.
Proof.
  intros Hpos [Hb Hinv].
  destruct (fetch_uidl_effect line ctx) as (Hb' & Ht & Heff);
    [unfold ctx_ok; lia|].
  split; [|exact Ht]. split; [lia|].
  intros j h' Hj Hh'.
  destruct (Heff j h' Hj Hh') as [[Hlt Hold] | (n & u & Hp & Hr & Hcase)].
  - apply Hinv; auto.
  - specialize (Hpos n u Hp). split; [left; lia|].
    intros Hjo h0 Hh0.
    destruct Hcase as [[Hlt (h & Hh & Hd)] | ->]; [|lia].
    rewrite Hd. eapply Hinv; eauto.
Qed.

Lemma feed_uidl_enum_inv oc orig lines : ∀ ret ctx,
  (∀ l n u, l ∈ lines -> parse_uidl_line (unstuff l) = Some (n, u) -> 0 < n) ->
  enum_inv oc orig ctx ->
  enum_inv oc orig (snd (feed_lines fetch_uidl lines ret ctx)) ∧
  trace (snd (feed_lines fetch_uidl lines ret ctx)) = trace ctx.
Proof.
  induction lines as [|l ls IH]; intros ret ctx Hpos Hinv; simpl; [auto|].
  destruct (fetch_uidl_enum_inv oc orig (unstuff l) ctx) as [Hinv' Ht]; auto.
  { intros n u. apply Hpos. left. }
  destruct (fetch_uidl (unstuff l) ctx) as [r ctx']. simpl in *.
  destruct (IH (if negb (r =? 0) then -3 else ret) ctx') as [H1 H2]; auto.
  { intros l' n u Hin. apply Hpos. right. exact Hin. }
  split; [exact H1 | congruence].
Qed.

Lemma feed_lines_ret {S} (cb : string -> S -> Z * S) lines : ∀ ret s,
  fst (feed_lines cb lines ret s) = ret ∨ fst (feed_lines cb lines ret s) = -3.
Proof.
  induction lines as [|l ls IH]; intros ret s; simpl; [auto|].
  destruct (cb (unstuff l) s) as [r s'].
  destruct (IH (if negb (r =? 0) then -3 else ret) s') as [H|H]; rewrite H;
    destruct (negb (r =? 0)); auto.
Qed.

Lemma forget_refnos_lookup (m : nat) (hs : list Header) (j : nat) (h : Header) :
  forget_refnos m hs !! j = Some h ->
  ((j < m)%nat ∧ ∃ h0, hs !! j = Some h0 ∧ h = set_refno h0 (-1)) ∨
  ((m <= j)%nat ∧ hs !! j = Some h).
Proof.
  unfold forget_refnos. intros H.
  destruct (decide (j < m)%nat) as [Hlt|Hge].
  - left. split; auto.
    destruct (decide (j < length hs)%nat) as [Hl|Hl].
    + rewrite lookup_app_l in H
        by (rewrite length_fmap, length_take; lia).
      rewrite list_lookup_fmap, lookup_take_lt in H by lia.
      destruct (hs !! j) as [h0|]; simpl in H; [|discriminate].
      injection H as <-. eauto.
    + apply lookup_lt_Some in H.
      rewrite length_app, length_fmap, length_take, length_drop in H. lia.
  - right. split; [lia|].
    rewrite <- (take_drop m hs).
    destruct (decide (m <= length hs)%nat) as [Hm|Hm].
    + rewrite lookup_app_r in H by (rewrite length_fmap, length_take; lia).
      rewrite lookup_app_r by (rewrite length_take; lia).
      rewrite length_fmap in H. exact H.
    + apply lookup_lt_Some in H.
      rewrite length_app, length_fmap, length_take, length_drop in H. lia.
Qed.

Lemma length_forget_refnos m hs : length (forget_refnos m hs) = length hs.
Proof.
  unfold forget_refnos.
  rewrite length_app, length_fmap, length_take, length_drop. lia.
Qed.

Lemma positive_numbers_spec lines complete :
  positive_numbers (ReplyOk lines complete) = true ->
  ∀ l n u, l ∈ lines -> parse_uidl_line (unstuff l) = Some (n, u) -> 0 < n.
Proof.
  simpl. intros H l n u Hin Hp.
  rewrite forallb_forall in H. apply list_elem_of_In in Hin.
  specialize (H l Hin). rewrite Hp in H. apply Z.ltb_lt. exact H.
Qed.

Lemma uidl_listing_enum_inv srv now ctx :
  ctx_ok ctx -> positive_numbers (srv_uidl srv) = true ->
  let '(ret, ctx1) := uidl_listing srv now ctx in
  (ret = 0 ∨ ret < 0) ∧
  (ret = 0 -> enum_inv (msgcount ctx) (hdrs ctx) ctx1 ∧
              trace ctx1 = trace ctx ++ [Sent UIDL]).
Proof.
  intros Hok Hpos. unfold uidl_listing, pop_fetch_data.
  destruct (srv_uidl srv) as [line| |lines complete]; simpl.
  - split; [right; lia | intros; lia].
  - split; [right; lia | intros; lia].
  - pose proof (positive_numbers_spec _ _ Hpos) as Hpos'.
    clear Hpos. rename Hpos' into Hpos.
    set (ctx0 := emit _ _).
    assert (H0 : enum_inv (msgcount ctx) (hdrs ctx) ctx0).
    { subst ctx0. split; simpl.
      - rewrite length_forget_refnos. unfold ctx_ok in Hok. lia.
      - intros j h' Hj Hh'.
        apply forget_refnos_lookup in Hh'.
        destruct Hh' as [[_ (h0 & Hh0 & ->)] | [Hge _]]; [|lia].
        simpl. split; [right; auto|]. intros _ h1 Hh1. congruence. }
    destruct (feed_uidl_enum_inv (msgcount ctx) (hdrs ctx) lines 0 ctx0 Hpos H0)
      as [H1 H2].
    pose proof (feed_lines_ret fetch_uidl lines 0 ctx0) as Hret.
    destruct (feed_lines fetch_uidl lines 0 ctx0) as [ret ctx1].
    simpl in *. destruct complete.
    + split; [destruct Hret; [left | right]; lia|]. intros _. auto.
    + split; [right; lia | intros; lia].
Qed.

Lemma mark_refno h : refno (mark h) = refno h.
Proof. unfold mark. destruct (refno h =? -1); reflexivity. Qed.

Lemma mark_lost_eq oc hs :
  mark_lost oc hs =
  ((mark <$> take oc hs) ++ drop oc hs,
   Z.of_nat (length (filter (λ h, refno h = -1) (take oc hs)))).
Proof. reflexivity. Qed.

Lemma filter_none {A} (P : A -> Prop) `{∀ x, Decision (P x)} (l : list A) :
  Forall (λ x, ¬ P x) l -> filter P l = [].
Proof.
  induction 1 as [|x l Hx Hl IH]; [reflexivity|].
  rewrite filter_cons. destruct (decide (P x)); [contradiction | exact IH].
Qed.

Lemma filter_fmap_length {A} (P : A -> Prop) `{∀ x, Decision (P x)}
    (f : A -> A) (l : list A) :
  (∀ x, P (f x) ↔ P x) ->
  length (filter P (f <$> l)) = length (filter P l).
Proof.
  intros Hf. induction l as [|x l IH]; [reflexivity|].
  rewrite fmap_cons, !filter_cons.
  pose proof (Hf x) as Hx.
  destruct (decide (P (f x))) as [Hp|Hp], (decide (P x)) as [Hq|Hq]; simpl;
    try rewrite IH; try reflexivity; tauto.
Qed.

Lemma read_new_headers_effect e srv n : ∀ i ret hc ctx ret' ctx4,
  read_new_headers e srv n i ret hc ctx = (ret', ctx4) ->
  0 <= ret -> 0 <= ret' ->
  (i + n <= length (hdrs ctx))%nat -> msgcount ctx = i ->
  msgcount ctx4 = (i + n)%nat ∧
  (∃ evs, trace ctx4 = trace ctx ++ evs) ∧
  (∀ j, (j < i)%nat -> hdrs ctx4 !! j = hdrs ctx !! j) ∧
  (∀ j h, (i <= j < i + n)%nat -> hdrs ctx !! j = Some h ->
     ∃ h', hdrs ctx4 !! j = Some h' ∧ refno h' = refno h).
Proof.
  induction n as [|n IH]; intros i ret hc ctx ret' ctx4 H Hret Hret' Hlen Hm;
    simpl in H.
  - injection H as <- <-. split_and!; auto; try lia;
      try (exists []; rewrite app_nil_r; reflexivity); intros; lia.
  - destruct (lookup_lt_is_Some_2 (hdrs ctx) i) as [h Hh]; [lia|].
    rewrite Hh in H.
    set (step := match (if USE_HCACHE e then hcache_fetch e (data h) else None) with
                 | Some restored => _ | None => _ end) in H.
    assert (Hstep : let '(ret1, h1, ctx1, hc1) := step in
                    frame ctx ctx1 ∧ refno h1 = refno h).
    { subst step.
      destruct (if USE_HCACHE e then hcache_fetch e (data h) else None).
      - split; [apply frame_refl | reflexivity].
      - pose proof (pop_read_header_frame e srv h ctx) as Hf.
        destruct (pop_read_header e srv h ctx) as [[rc h'] ctx'].
        destruct Hf as (Hf & Hr & _).
        split; [|exact Hr].
        destruct ((0 <=? rc) && USE_HCACHE e); auto.
        eapply frame_trans; [exact Hf | apply frame_emit]. }
    destruct step as [[[ret1 h1] ctx1] hc1].
    destruct Hstep as [(Hhd & Hmc & evs & Htr) Hr1].
    destruct (ret1 <? 0) eqn:Hneg.
    + injection H as <- <-. apply Z.ltb_lt in Hneg. lia.
    + apply Z.ltb_ge in Hneg.
      match type of H with
      | read_new_headers _ _ _ _ _ _ ?c = _ =>
          destruct (IH (S i) ret1 hc1 c ret' ctx4 H) as (Hm4 & [evs' Ht4] & Hlow & Hhigh)
      end; auto.
      { simpl. rewrite length_insert, Hhd. lia. }
      { simpl. rewrite Hmc, Hm. reflexivity. }
      simpl in *. split_and!.
      * lia.
      * exists (evs ++ evs'). rewrite Ht4, Htr, app_assoc. reflexivity.
      * intros j Hj. rewrite Hlow by lia.
        rewrite list_lookup_insert_ne by lia. rewrite Hhd. reflexivity.
      * intros j h0 Hj Hh0.
        destruct (decide (j = i)) as [->|Hne].
        -- rewrite Hlow by lia. rewrite Hhd.
           rewrite list_lookup_insert_eq by lia.
           eexists. split; [reflexivity|].
           assert (h0 = h) by congruence. subst h0.
           rewrite <- Hr1. repeat case_if; reflexivity.
        -- apply Hhigh; [lia|]. rewrite list_lookup_insert_ne by lia.
           rewrite Hhd. exact Hh0.
Qed.

Lemma marked_lookup (oc : nat) (hs : list Header) (j : nat) :
  (oc <= length hs)%nat ->
  ((mark <$> take oc hs) ++ drop oc hs) !! j =
  if decide (j < oc)%nat then mark <$> hs !! j else hs !! j.
Proof.
  intros Hoc. destruct (decide (j < oc)%nat) as [Hlt|Hge].
  - rewrite lookup_app_l by (rewrite length_fmap, length_take; lia).
    rewrite list_lookup_fmap, lookup_take_lt by lia. reflexivity.
  - rewrite lookup_app_r by (rewrite length_fmap, length_take; lia).
    rewrite length_fmap, length_take, lookup_drop.
    f_equal. lia.
Qed.

(** C5, as the code has it.  Whenever fetch-headers succeeds on a listing
    whose message numbers, as [fetch_uidl] holds them in its [int] (the
    [long] of [strtol] narrowed; the code does not check them), are all
    positive, every record of the view has refno > 0 or has its deleted flag set; a
    record whose refno is still -1 was in the mailbox before the call and is
    flagged deleted; the call sets the deleted flag of a record that was
    there before exactly when its refno is still -1; and when at least one
    record is lost, the number of lost records is shown to the user in the
    "messages have been lost" error. *)
Theorem fetch_headers_live_or_deleted e srv now ctx rc ctx' :
  ctx_ok ctx ->
  positive_numbers (srv_uidl srv) = true ->
  pop_fetch_headers e srv now ctx = (rc, ctx') ->
  0 <= rc ->
  (∀ h, h ∈ view ctx' -> 0 < refno h ∨ deleted h = true) ∧
  (∀ i h', view ctx' !! i = Some h' -> refno h' = -1 ->
     (i < msgcount ctx)%nat ∧ deleted h' = true) ∧
  (∀ i h h', (i < msgcount ctx)%nat -> hdrs ctx !! i = Some h ->
     view ctx' !! i = Some h' ->
     deleted h' = deleted h || (refno h' =? -1)) ∧
  let lost := Z.of_nat (length (filter (λ h, refno h = -1) (view ctx'))) in
  (0 < lost -> Error (lost_message lost) ∈ trace ctx').
Proof.
  intros Hok Hpos H Hrc. unfold pop_fetch_headers in H.
  pose proof (uidl_listing_enum_inv srv now ctx Hok Hpos) as Hl.
  destruct (uidl_listing srv now ctx) as [ret ctx1].
  destruct Hl as [Hret Hinv]. unfold finish_headers in H.
  destruct Hret as [-> | Hneg].
  2: { replace (ret =? 0) with false in H by (symmetry; apply Z.eqb_neq; lia).
       replace (ret <? 0) with true in H by (symmetry; apply Z.ltb_lt; lia).
       injection H as <- <-. lia. }
  destruct (Hinv eq_refl) as [[[Hoc Hnc] Hj] Htr1]. clear Hinv.
  rewrite Z.eqb_refl, mark_lost_eq in H. cbv beta iota zeta in H.
  change (hdrs (with_pop_data (with_msgcount ctx1 (msgcount ctx))
                  (note_uidl_capability 0
                     (pop_data (with_msgcount ctx1 (msgcount ctx))))))
    with (hdrs ctx1) in H.
  set (oc := msgcount ctx) in *. set (nc := msgcount ctx1) in *.
  set (hs1 := hdrs ctx1) in *.
  set (d := Z.of_nat (length (filter (λ h, refno h = -1) (take oc hs1)))) in *.
  set (ctx_b := if d >? 0 then _ else _) in H.
  destruct (read_new_headers e srv (nc - oc) oc 0 false ctx_b) as [ret' ctx4] eqn:Hrn.
  destruct (ret' <? 0) eqn:Hneg'.
  { injection H as <- <-. apply Z.ltb_lt in Hneg'. lia. }
  apply Z.ltb_ge in Hneg'.
  assert (Hhb : hdrs ctx_b = (mark <$> take oc hs1) ++ drop oc hs1)
    by (subst ctx_b; destruct (d >? 0); reflexivity).
  assert (Hmb : msgcount ctx_b = oc)
    by (subst ctx_b; destruct (d >? 0); reflexivity).
  assert (Hlb : length (hdrs ctx_b) = length hs1).
  { rewrite Hhb, length_app, length_fmap, length_take, length_drop. lia. }
  destruct (read_new_headers_effect _ _ _ _ _ _ _ _ _ Hrn) as
    (Hm4 & [evs Ht4] & Hlow & Hhigh); auto; try lia.
  replace (oc + (nc - oc))%nat with nc in * by lia.
  assert (Hview : view ctx' = take nc (hdrs ctx4)).
  { injection H as <- <-. unfold view. simpl.
    destruct (MessageCacheClean e); simpl; rewrite Hm4; reflexivity. }
  assert (Htrace : ∃ evs', trace ctx' = trace ctx_b ++ evs').
  { injection H as <- <-.
    destruct (MessageCacheClean e); simpl; rewrite Ht4, <- !app_assoc; eauto. }
  clear H.
  (* what a record of the final view looks like *)
  assert (Hold : ∀ j h', (j < oc)%nat -> hdrs ctx4 !! j = Some h' ->
            ∃ h1, hs1 !! j = Some h1 ∧ h' = mark h1).
  { intros j h' Hlt Hh'. rewrite Hlow, Hhb, marked_lookup in Hh' by lia.
    destruct (decide (j < oc)%nat); [|lia].
    destruct (hs1 !! j) as [h1|]; simpl in Hh'; [|discriminate].
    injection Hh' as <-. eauto. }
  assert (Hnew : ∀ j h', (oc <= j < nc)%nat -> hdrs ctx4 !! j = Some h' ->
            0 < refno h').
  { intros j h' Hr Hh'.
    destruct (lookup_lt_is_Some_2 hs1 j) as [h1 Hh1]; [lia|].
    destruct (Hhigh j h1) as (h'' & Hh'' & Hrf); [lia| |].
    { rewrite Hhb, marked_lookup by lia.
      destruct (decide (j < oc)%nat); [lia | exact Hh1]. }
    assert (h'' = h') by congruence. subst h''.
    destruct (Hj j h1) as [[Hp | [_ Hlt]] _]; auto; lia. }
  assert (Hrec : ∀ j h', view ctx' !! j = Some h' ->
            (0 < refno h' ∧ ((j < oc)%nat -> ∀ h0, hdrs ctx !! j = Some h0 ->
                              deleted h' = deleted h0)) ∨
            (refno h' = -1 ∧ deleted h' = true ∧ (j < oc)%nat)).
  { intros j h' Hv. rewrite Hview in Hv.
    apply lookup_take_Some in Hv. destruct Hv as [Hh' Hlt].
    destruct (decide (j < oc)%nat) as [Hjo|Hjo].
    - destruct (Hold j h' Hjo Hh') as (h1 & Hh1 & ->).
      destruct (Hj j h1) as [Hr Hd]; [lia | auto |].
      unfold mark. destruct (refno h1 =? -1) eqn:Hm.
      + apply Z.eqb_eq in Hm. right. simpl. auto.
      + apply Z.eqb_neq in Hm. left. split; [lia|]. auto.
    - left. split; [|intros; lia]. eapply Hnew; eauto. lia. }
  split_and!.
  - intros h Hin. apply list_elem_of_lookup in Hin. destruct Hin as [j Hv].
    destruct (Hrec j h Hv) as [[? _] | (_ & ? & _)]; auto.
  - intros j h' Hv Hm1.
    destruct (Hrec j h' Hv) as [[? _] | (_ & ? & ?)]; [lia | auto].
  - intros j h h' Hlt Hh Hv.
    destruct (Hrec j h' Hv) as [[Hp Hd] | (Hm1 & Hd & _)].
    + rewrite (Hd Hlt h Hh).
      replace (refno h' =? -1) with false by (symmetry; apply Z.eqb_neq; lia).
      rewrite orb_false_r. reflexivity.
    + rewrite Hd, Hm1. simpl. rewrite orb_true_r. reflexivity.
  - assert (Hcount : Z.of_nat (length (filter (λ h, refno h = -1) (view ctx'))) = d).
    { rewrite Hview. replace nc with (oc + (nc - oc))%nat by lia.
      rewrite <- take_take_drop, filter_app, length_app.
      rewrite (filter_none _ (take (nc - oc) (drop oc (hdrs ctx4)))).
      2: { apply Forall_lookup. intros k x Hx.
           apply lookup_take_Some in Hx. destruct Hx as [Hx Hk].
           rewrite lookup_drop in Hx.
           assert (0 < refno x) by (eapply Hnew; [|exact Hx]; lia). lia. }
      simpl. rewrite Nat.add_0_r.
      assert (take oc (hdrs ctx4) = mark <$> take oc hs1) as ->.
      { apply list_eq. intros k.
        destruct (decide (k < oc)%nat) as [Hk|Hk].
        - rewrite lookup_take_lt by lia. rewrite Hlow, Hhb by lia.
          rewrite lookup_app_l by (rewrite length_fmap, length_take; lia).
          reflexivity.
        - rewrite lookup_take_ge by lia. symmetry.
          apply lookup_ge_None. rewrite length_fmap, length_take. lia. }
      rewrite filter_fmap_length; [reflexivity|].
      intros x. rewrite mark_refno. tauto. }
    simpl. rewrite Hcount. intros Hd.
    destruct Htrace as [evs' ->]. apply elem_of_app. left.
    subst ctx_b. replace (d >? 0) with true by (symmetry; apply Z.gtb_lt; lia).
    simpl. apply elem_of_app. right. left.
Qed.

(** The theorem in scenario S3: AAA, BBB and CCC in the mailbox, the server
    lists AAA and CCC. *)
Lemma fetch_headers_live_or_deleted_witness :
  ctx_ok Scenario.mailbox3 ∧
  positive_numbers (srv_uidl Scenario.server_s3) = true ∧
  pop_fetch_headers Scenario.env0 Scenario.server_s3 100 Scenario.mailbox3 =
    (0, snd (pop_fetch_headers Scenario.env0 Scenario.server_s3 100
                               Scenario.mailbox3)) ∧
  0 <= 0 ∧
  (∀ h, h ∈ view (snd (pop_fetch_headers Scenario.env0 Scenario.server_s3 100
                         Scenario.mailbox3)) ->
        0 < refno h ∨ deleted h = true).
Proof.
  assert (H1 : ctx_ok Scenario.mailbox3) by (unfold ctx_ok; simpl; lia).
  assert (H2 : positive_numbers (srv_uidl Scenario.server_s3) = true)
    by reflexivity.
  assert (H3 : pop_fetch_headers Scenario.env0 Scenario.server_s3 100
                 Scenario.mailbox3 =
               (0, snd (pop_fetch_headers Scenario.env0 Scenario.server_s3 100
                          Scenario.mailbox3))) by reflexivity.
  assert (H4 : 0 <= 0) by lia.
  repeat (split; [assumption|]).
  exact (proj1 (fetch_headers_live_or_deleted _ _ _ _ _ _ H1 H2 H3 H4)).
Defined.

(** Scenario S3 in full: BBB is flagged deleted at refno -1, AAA and CCC
    carry their new numbers, and the user is told that one message was
    lost. *)
Example scenario_s3 :
  let ctx' := snd (pop_fetch_headers Scenario.env0 Scenario.server_s3 100
                                     Scenario.mailbox3) in
  ((λ h, (data h, refno h, deleted h)) <$> view ctx') =
    [(Some "AAA"%string, 1, false); (Some "BBB"%string, -1, true);
     (Some "CCC"%string, 2, false)] ∧
  Error "1 messages have been lost. Try reopening the mailbox." ∈ trace ctx'.
Proof. split; [reflexivity|]. vm_compute. right. left. Qed.

(** C5 as stated fails: when the server lists [0 AAA] for an empty mailbox
    and answers the header requests, fetch-headers succeeds (it reports one
    new message) and the view holds a record with refno 0 that is not
    flagged deleted. *)
Lemma zero_refno_record_survives :
  let '(rc, ctx') :=
    pop_fetch_headers Scenario.env0 Scenario.server_zero 100
                      Scenario.empty_mailbox in
  0 <= rc ∧
  ∃ h, h ∈ view ctx' ∧ ¬ (0 < refno h ∨ deleted h = true).
Proof.
  vm_compute. split; [discriminate|].
  eexists. split; [left|]. simpl. intros [H|H]; discriminate.
Qed.

(** A number that is positive on the wire and not in the [int]: the
    listing [4294967295 AAA] is outside [positive_numbers], and the call
    succeeds with a record at refno -1 that is not flagged deleted. *)
Example narrowed_refno_record_survives :
  positive_numbers (srv_uidl Scenario.server_narrowed) = false ∧
  let '(rc, ctx') :=
    pop_fetch_headers Scenario.env0 Scenario.server_narrowed 100
                      Scenario.empty_mailbox in
  0 <= rc ∧
  ∃ h, h ∈ view ctx' ∧ refno h = -1 ∧ deleted h = false.
Proof.
  split; [reflexivity|]. vm_compute. split; [discriminate|].
  eexists. split; [left|]. split; reflexivity.
Qed.

(** ** Fetching a message whose record is stale *)

Lemma quiet_refl ctx ctx' : trace ctx' = trace ctx -> quiet_step ctx ctx'.
Proof. intros H. exists []. rewrite app_nil_r. auto. Qed.

Lemma quiet_trans a b c : quiet_step a b -> quiet_step b c -> quiet_step a c.
Proof.
  intros (e1 & H1 & F1) (e2 & H2 & F2). exists (e1 ++ e2).
  rewrite H2, H1, app_assoc. split; auto. apply Forall_app; auto.
Qed.

Lemma recover_refno_trace line ctx :
  trace (snd (recover_refno line ctx)) = trace ctx.
Proof.
  unfold recover_refno. destruct (parse_uidl_line line) as [[n u]|]; reflexivity.
Qed.

Lemma feed_recover_trace lines : ∀ ret ctx,
  trace (snd (feed_lines recover_refno lines ret ctx)) = trace ctx.
Proof.
  induction lines as [|l ls IH]; intros ret ctx; simpl; [reflexivity|].
  pose proof (recover_refno_trace (unstuff l) ctx) as H.
  destruct (recover_refno (unstuff l) ctx) as [r ctx']. simpl in H.
  rewrite IH. exact H.
Qed.

Lemma pop_clear_cache_quiet ctx : quiet_step ctx (pop_clear_cache ctx).
Proof.
  unfold pop_clear_cache. destruct (negb _); [apply quiet_refl; reflexivity|].
  eexists. split; [reflexivity|].
  apply Forall_fmap, Forall_forall. intros p _. simpl. auto.
Qed.

Lemma pop_reconnect_quiet r ctx :
  quiet_step ctx (snd (pop_reconnect r ctx)).
Proof.
  unfold pop_reconnect.
  destruct (status (pop_data ctx)); try (apply quiet_refl; reflexivity).
  all: destruct (negb (reopen_ok r)); [apply quiet_refl; reflexivity|].
  all: unfold pop_fetch_data; destruct (re_uidl r) as [line| |lines complete]; simpl;
    try (exists [Sent UIDL]; split; [reflexivity | repeat constructor; simpl; auto]).
  all: match goal with |- context [feed_lines recover_refno ?ls 0 ?c] =>
         pose proof (feed_recover_trace ls 0 c) as Hf;
         destruct (feed_lines recover_refno ls 0 c) as [ret ctx1]
       end; simpl in Hf.
  all: assert (Q1 : quiet_step ctx ctx1)
         by (exists [Sent UIDL]; split; [exact Hf | repeat constructor; simpl; auto]).
  all: destruct complete; simpl;
         [|eapply quiet_trans; [exact Q1 | apply quiet_refl; reflexivity]].
  all: match goal with |- context [?x =? 0] => destruct (x =? 0) end;
         simpl; [|exact Q1].
  all: eapply quiet_trans; [exact Q1|].
  all: eapply (quiet_trans _
         (with_pop_data ctx1 (set_status (pop_data ctx1) POP_CONNECTED)));
         [apply quiet_refl; reflexivity|].
  all: eapply quiet_trans; [apply pop_clear_cache_quiet|].
  all: exists [Reconnected]; split; [reflexivity | repeat constructor; simpl; auto].
Qed.

Lemma frame_step_refl ctx ctx' :
  cache (pop_data ctx') = cache (pop_data ctx) -> hdrs ctx' = hdrs ctx ->
  trace ctx' = trace ctx -> frame_step ctx ctx'.
Proof.
  intros Hpd Hh Ht. unfold frame_step. rewrite Hpd, Hh, Ht.
  split; [reflexivity|]. split; [eauto|].
  exists []. rewrite app_nil_r. auto.
Qed.

Lemma frame_step_trans a b c : frame_step a b -> frame_step b c -> frame_step a c.
Proof.
  intros (L1 & H1 & e1 & T1 & F1) (L2 & H2 & e2 & T2 & F2).
  split; [congruence|]. split.
  - intros j h' Hj. destruct (H2 j h' Hj) as (h1 & Hj1 & E1).
    destruct (H1 j h1 Hj1) as (h0 & Hj0 & E0). exists h0. split; congruence.
  - exists (e1 ++ e2). rewrite T2, T1, app_assoc. split; auto.
    apply Forall_app; auto.
Qed.

Lemma recover_refno_frame line ctx :
  frame_step ctx (snd (recover_refno line ctx)).
Proof.
  unfold recover_refno.
  destruct (parse_uidl_line line) as [[n u]|]; simpl;
    [|apply frame_step_refl; reflexivity].
  split; [reflexivity|]. split.
  - intros j h' Hj. simpl in Hj. rewrite list_lookup_fmap in Hj.
    destruct (hdrs ctx !! j) as [h0|]; simpl in Hj; [|discriminate].
    injection Hj as <-. exists h0. split; [reflexivity|].
    destruct (mutt_str_strcmp_eq _ _); reflexivity.
  - exists []. simpl. rewrite app_nil_r. auto.
Qed.

Lemma feed_recover_frame lines : ∀ ret ctx,
  frame_step ctx (snd (feed_lines recover_refno lines ret ctx)).
Proof.
  induction lines as [|l ls IH]; intros ret ctx; simpl;
    [apply frame_step_refl; reflexivity|].
  pose proof (recover_refno_frame (unstuff l) ctx) as H.
  destruct (recover_refno (unstuff l) ctx) as [r ctx']. simpl in H.
  eapply frame_step_trans; [exact H | apply IH].
Qed.

Lemma pop_clear_cache_frame ctx : frame_step ctx (pop_clear_cache ctx).
Proof.
  unfold pop_clear_cache.
  destruct (negb _); [apply frame_step_refl; reflexivity|].
  split; [simpl; apply length_fmap|]. split; [simpl; eauto|].
  eexists. split; [reflexivity|].
  apply Forall_fmap, Forall_forall. intros p _ u. simpl. discriminate.
Qed.

Lemma forget_refnos_frame ctx :
  frame_step ctx
    (emit (with_hdrs ctx (forget_refnos (msgcount ctx) (hdrs ctx))) (Sent UIDL)).
Proof.
  split; [reflexivity|]. split.
  - intros j h' Hj. simpl in Hj.
    apply forget_refnos_lookup in Hj as [(_ & h0 & Hj & ->)|(_ & Hj)]; eauto.
  - exists [Sent UIDL]. split; [reflexivity|].
    repeat constructor. intros u. discriminate.
Qed.

Lemma pop_reconnect_frame r ctx :
  frame_step ctx (snd (pop_reconnect r ctx)).
Proof.
  unfold pop_reconnect.
  destruct (status (pop_data ctx)); try (apply frame_step_refl; reflexivity).
  all: destruct (negb (reopen_ok r)); [apply frame_step_refl; reflexivity|].
  all: eapply frame_step_trans; [apply forget_refnos_frame|].
  all: unfold pop_fetch_data; destruct (re_uidl r) as [line| |lines complete];
    simpl; try (apply frame_step_refl; reflexivity).
  all: match goal with |- context [feed_lines recover_refno ?ls 0 ?c] =>
         pose proof (feed_recover_frame ls 0 c) as Q1;
         destruct (feed_lines recover_refno ls 0 c) as [ret ctx1]
       end; simpl in Q1.
  all: eapply frame_step_trans; [exact Q1|].
  all: destruct complete; simpl; [|apply frame_step_refl; reflexivity].
  all: match goal with |- context [?x =? 0] => destruct (x =? 0) end;
         simpl; [|apply frame_step_refl; reflexivity].
  all: eapply (frame_step_trans _
         (with_pop_data ctx1 (set_status (pop_data ctx1) POP_CONNECTED)));
         [split; [reflexivity|]; split; [simpl; eauto|];
          exists []; simpl; rewrite app_nil_r; auto|].
  all: eapply frame_step_trans; [apply pop_clear_cache_frame|].
  all: split; [reflexivity|]; split; [simpl; eauto|].
  all: exists [Reconnected]; split; [reflexivity|].
  all: repeat constructor; intros u; discriminate.
Qed.

Lemma probe_quiet e h ctx slot ctx0 :
  probe_caches e h ctx = Some (Proceed slot ctx0) -> quiet_step ctx ctx0.
Proof.
  unfold probe_caches. intros H.
  destruct (bcache_get e (data h)); [discriminate|].
  destruct (Z.rem _ _ <? 0); [discriminate|].
  destruct (cache (pop_data ctx) !! _) as [c|]; simpl in H; [|discriminate].
  destruct (cache_path c) as [path|].
  - destruct (cache_index c =? index h).
    + destruct (ring_open_ok e); discriminate.
    + injection H as <- <-. exists [Unlink path].
      split; [reflexivity | repeat constructor; simpl; auto].
  - injection H as <- <-. apply quiet_refl; reflexivity.
Qed.

(** C4.  Take a message-fetch call that neither cache serves, so that it
    reaches the server: if its first reconnect succeeds and the record's
    refno is -1 afterwards, the call returns -1 at once, whatever further
    rounds would have been possible (no retry); the last thing it does is
    show "The message index is incorrect. Try reopening the mailbox.", and
    among the events of the call no RETR is sent. *)
Theorem stale_record_fetch_aborts
    (e : Env) (a : Attempt) (rest : list Attempt) (msgno : nat)
    (ctx : Context) (h : Header) (slot : nat) (ctx0 ctx1 : Context)
    (rc : Z) (h1 : Header) :
  hdrs ctx !! msgno = Some h ->
  probe_caches e h ctx = Some (Proceed slot ctx0) ->
  pop_reconnect (at_reconnect a) ctx0 = (rc, ctx1) -> 0 <= rc ->
  hdrs ctx1 !! msgno = Some h1 -> refno h1 = -1 ->
  pop_fetch_message e (a :: rest) msgno ctx =
    Some (-1, emit ctx1 (Error index_incorrect), None) ∧
  ∃ evs, trace (emit ctx1 (Error index_incorrect)) =
           trace ctx ++ evs ++ [Error index_incorrect] ∧
         Forall (λ ev, ¬ is_retr ev) evs.
Proof.
  intros Hh Hp Hr Hrc Hh1 Hrefno. split.
  - unfold pop_fetch_message. rewrite Hh. simpl. rewrite Hp. simpl.
    rewrite Hr.
    replace (rc <? 0) with false by (symmetry; apply Z.ltb_ge; lia).
    rewrite Hh1. simpl. rewrite Hrefno. reflexivity.
  - destruct (probe_quiet _ _ _ _ _ Hp) as (e1 & H1 & F1).
    pose proof (pop_reconnect_quiet (at_reconnect a) ctx0) as Q.
    rewrite Hr in Q. destruct Q as (e2 & H2 & F2). simpl in H2.
    exists (e1 ++ e2). simpl. rewrite H2, H1, <- !app_assoc.
    split; [reflexivity | apply Forall_app; auto].
Qed.

(** The theorem for a dropped session: the mailbox holds AAA, the reconnect
    works, and the server's new listing no longer has AAA. *)
Lemma stale_record_fetch_aborts_witness :
  hdrs Scenario.dropped_mailbox !! 0%nat = Some (Scenario.hdr "AAA" 3 2) ∧
  probe_caches Scenario.env0 (Scenario.hdr "AAA" 3 2) Scenario.dropped_mailbox
    = Some (Proceed 2 Scenario.dropped_mailbox) ∧
  pop_reconnect (at_reconnect Scenario.reconnect_without_aaa)
                Scenario.dropped_mailbox
    = (0, snd (pop_reconnect (at_reconnect Scenario.reconnect_without_aaa)
                             Scenario.dropped_mailbox)) ∧
  0 <= 0 ∧
  hdrs (snd (pop_reconnect (at_reconnect Scenario.reconnect_without_aaa)
                           Scenario.dropped_mailbox)) !! 0%nat
    = Some (Scenario.hdr "AAA" (-1) 2) ∧
  refno (Scenario.hdr "AAA" (-1) 2) = -1 ∧
  pop_fetch_message Scenario.env0 [Scenario.reconnect_without_aaa] 0
                    Scenario.dropped_mailbox =
    Some (-1,
          emit (snd (pop_reconnect
                       (at_reconnect Scenario.reconnect_without_aaa)
                       Scenario.dropped_mailbox))
               (Error index_incorrect),
          None).
Proof.
  assert (H1 : hdrs Scenario.dropped_mailbox !! 0%nat
               = Some (Scenario.hdr "AAA" 3 2)) by reflexivity.
  assert (H2 : probe_caches Scenario.env0 (Scenario.hdr "AAA" 3 2)
                 Scenario.dropped_mailbox
               = Some (Proceed 2 Scenario.dropped_mailbox)) by reflexivity.
  assert (H3 : pop_reconnect (at_reconnect Scenario.reconnect_without_aaa)
                 Scenario.dropped_mailbox
               = (0, snd (pop_reconnect
                            (at_reconnect Scenario.reconnect_without_aaa)
                            Scenario.dropped_mailbox))) by reflexivity.
  assert (H4 : 0 <= 0) by lia.
  assert (H5 : hdrs (snd (pop_reconnect
                            (at_reconnect Scenario.reconnect_without_aaa)
                            Scenario.dropped_mailbox)) !! 0%nat
               = Some (Scenario.hdr "AAA" (-1) 2)) by reflexivity.
  assert (H6 : refno (Scenario.hdr "AAA" (-1) 2) = -1) by reflexivity.
  repeat (split; [assumption|]).
  exact (proj1 (stale_record_fetch_aborts Scenario.env0
                  Scenario.reconnect_without_aaa [] 0
                  Scenario.dropped_mailbox _ _ _ _ _ _ H1 H2 H3 H4 H5 H6)).
Defined.

(** The events of that call: the listing is asked for, the session is
    re-established, the error is shown. *)
Example stale_fetch_trace :
  (λ r, trace (snd (fst r))) <$>
    pop_fetch_message Scenario.env0 [Scenario.reconnect_without_aaa] 0
                      Scenario.dropped_mailbox =
  Some [Sent UIDL; Reconnected; Error index_incorrect].
Proof. reflexivity. Qed.

(** A record with a valid refno is fetched with RETR. *)
Example live_fetch_sends_retr :
  (λ r, trace (snd (fst r))) <$>
    pop_fetch_message Scenario.env0 [Scenario.reconnect_without_aaa] 0
                      Scenario.mailbox3 =
  Some [Sent (RETR 1); BcacheCommit (Some "AAA"%string); ClearError].
Proof. reflexivity. Qed.

End PopFacts.

(* ===================================================================== *)
(** * The transport: writing, polling, closing, opening *)
(* ===================================================================== *)

Module SocketOpsFacts.
Import Socket SocketOps.

Lemma delivered_app (l1 l2 : list IoEvent) :
  delivered (l1 ++ l2) = delivered l1 ++ delivered l2.
Proof.
  induction l1 as [|ev l1 IH]; [reflexivity|].
  destruct ev; simpl; rewrite ?IH, ?app_assoc; reflexivity.
Qed.

(** The write loop under a transport that takes at least one byte per
    call. *)
Lemma write_loop_progress (close_rc : Z) (buf : list ascii) (len : Z)
    (c : Connection) (script : list Z) : ∀ sent log,
  0 <= sent -> len <= INT_MAX ->
  Forall (λ rc, 0 < rc <= INT_MAX - len) script ->
  len - sent <= Z.of_nat (length script) ->
  ∃ ret log',
    write_loop script close_rc buf len sent c log
      = Some (ret, c, log ++ log') ∧
    len <= ret ∧ sent <= ret ∧
    Z.of_nat (length log') <= Z.max 0 (len - sent) ∧
    (honest_writes log' -> sent <= len ->
     ret = len ∧
     delivered log' = take (Z.to_nat (len - sent)) (drop (Z.to_nat sent) buf)).
Proof.
  induction script as [|rc script IH]; intros sent log Hs Hmax Hpos Hlen.
  - simpl in *. destruct (sent <? len) eqn:Hlt; [lia|].
    apply Z.ltb_ge in Hlt. exists sent, []. rewrite app_nil_r.
    split_and!; auto; try (simpl; lia). intros _ Hle.
    replace (Z.to_nat (len - sent)) with 0%nat by lia. split; [lia|easy].
  - simpl. destruct (sent <? len) eqn:Hlt.
    + apply Z.ltb_lt in Hlt. apply Forall_cons in Hpos as [Hrc Hpos].
      replace (rc <? 0) with false by (symmetry; apply Z.ltb_ge; lia).
      replace (sent + rc >? INT_MAX) with false
        by (symmetry; rewrite Z.gtb_ltb; apply Z.ltb_ge; lia).
      set (chunk := take (Z.to_nat (len - sent)) (drop (Z.to_nat sent) buf)).
      destruct (IH (sent + rc) (log ++ [ConnWrite chunk rc]))
        as (ret & log' & -> & Hret & Hsr & Hn & Hhon); auto; try lia.
      { simpl in Hlen. lia. }
      exists ret, (ConnWrite chunk rc :: log').
      rewrite <- app_assoc. split_and!; auto; try (simpl; lia).
      intros Hh _. apply Forall_cons in Hh as [Hfit Hh].
      assert (Hcl : (length chunk <= Z.to_nat (len - sent))%nat)
        by (unfold chunk; rewrite length_take; lia).
      destruct (Hhon Hh) as [-> Hd]; [lia|]. split; [reflexivity|].
      simpl. rewrite Hd. unfold chunk.
      rewrite take_take.
      replace (Z.to_nat rc `min` Z.to_nat (len - sent))%nat
        with (Z.to_nat rc) by lia.
      replace (Z.to_nat (sent + rc)) with (Z.to_nat sent + Z.to_nat rc)%nat
        by lia.
      rewrite <- drop_drop, take_take_drop. f_equal. lia.
    + apply Z.ltb_ge in Hlt. exists sent, []. rewrite app_nil_r.
      split_and!; auto; try (simpl; lia). intros _ Hle.
      replace (Z.to_nat (len - sent)) with 0%nat by lia. split; [lia|easy].
Qed.

(** X1.  [mutt_socket_write_d] on an open connection whose transport takes
    at least one byte per call: the call returns after at most [len] writes,
    leaves the connection as it was and returns at least [len]; when no
    write reports more than it was offered, the value returned is [len] and
    the bytes the transport took, in order, are exactly the first [len]
    bytes of the buffer: after a short write the rest is offered again,
    nothing twice. *)
Theorem write_resumes_short_writes (script : list Z) (close_rc : Z)
    (c : Connection) (buf : list ascii) (len : Z) (log : list IoEvent) :
  0 <= fd c -> 0 <= len <= INT_MAX ->
  Forall (λ rc, 0 < rc <= INT_MAX - len) script ->
  len <= Z.of_nat (length script) ->
  ∃ ret log',
    mutt_socket_write_d script close_rc c buf len log
      = Some (ret, c, log ++ log') ∧
    len <= ret ∧ (length log' <= Z.to_nat len)%nat ∧
    (honest_writes log' ->
     ret = len ∧ delivered log' = take (Z.to_nat len) buf).
Proof.
  intros Hfd Hlen Hpos Hn. unfold mutt_socket_write_d.
  replace (fd c <? 0) with false by (symmetry; apply Z.ltb_ge; lia).
  replace (len <? 0) with false by (symmetry; apply Z.ltb_ge; lia).
  destruct (write_loop_progress close_rc buf len c script 0 log)
    as (ret & log' & -> & Hret & _ & Hcnt & Hhon); auto; try lia.
  exists ret, log'. split_and!; auto; try lia.
  intros Hh. destruct (Hhon Hh) as [-> Hd]; [lia|].
  rewrite Z.sub_0_r in Hd. auto.
Qed.

(** The theorem for a write of three bytes that the transport takes in two
    pieces. *)
Lemma write_resumes_short_writes_witness :
  let c := opened 3 (socket_new_conn 16 []) in
  let buf := ["a"; "b"; "c"]%char in
  0 <= fd c ∧ 0 <= 3 <= INT_MAX ∧
  Forall (λ rc, 0 < rc <= INT_MAX - 3) [2; 1; 1] ∧
  3 <= Z.of_nat (length [2; 1; 1]) ∧
  ∃ ret log',
    mutt_socket_write_d [2; 1; 1] 0 c buf 3 [] = Some (ret, c, [] ++ log') ∧
    3 <= ret ∧ (length log' <= Z.to_nat 3)%nat ∧
    (honest_writes log' ->
     ret = 3 ∧ delivered log' = take (Z.to_nat 3) buf).
Proof.
  intros c buf.
  assert (H1 : 0 <= fd c) by (simpl; lia).
  assert (H2 : 0 <= 3 <= INT_MAX) by (unfold INT_MAX; lia).
  assert (H3 : Forall (λ rc, 0 < rc <= INT_MAX - 3) [2; 1; 1])
    by (repeat constructor; unfold INT_MAX; lia).
  assert (H4 : 3 <= Z.of_nat (length [2; 1; 1])) by (simpl; lia).
  split; [exact H1|]. split; [exact H2|]. split; [exact H3|].
  split; [exact H4|].
  exact (write_resumes_short_writes [2; 1; 1] 0 c buf 3 [] H1 H2 H3 H4).
Defined.

Lemma write_loop_error (close_rc : Z) (buf : list ascii) (len : Z)
    (c : Connection) (rc : Z) (rest : list Z) (pre : list Z) :
  ∀ sent log,
  0 <= sent -> len <= INT_MAX -> Forall (λ r, 0 <= r) pre ->
  sent + foldr Z.add 0 pre < len -> rc < 0 ->
  ∃ writes,
    write_loop (pre ++ rc :: rest) close_rc buf len sent c log
      = Some (-1, Socket.mutt_socket_close c,
              log ++ writes ++
              (if fd c <? 0 then [] else [ConnClose])) ∧
    length writes = S (length pre) ∧
    Forall (λ ev, match ev with ConnWrite _ _ => True | _ => False end)
           writes.
Proof.
  induction pre as [|r pre IH]; intros sent log Hs Hmax Hpos Hsum Hrc.
  - simpl in *. replace (sent <? len) with true
      by (symmetry; apply Z.ltb_lt; lia).
    replace (rc <? 0) with true by (symmetry; apply Z.ltb_lt; lia).
    unfold mutt_socket_close. eexists [_]. split.
    + destruct (fd c <? 0); simpl; rewrite <- ?app_assoc; reflexivity.
    + split; [reflexivity|]. repeat constructor.
  - simpl in *. apply Forall_cons in Hpos as [Hr Hpos].
    pose proof (proj1 (Forall_forall _ _) Hpos) as Hall.
    assert (Hge : 0 <= foldr Z.add 0 pre).
    { clear -Hpos. induction Hpos; simpl; lia. }
    replace (sent <? len) with true by (symmetry; apply Z.ltb_lt; lia).
    replace (r <? 0) with false by (symmetry; apply Z.ltb_ge; lia).
    replace (sent + r >? INT_MAX) with false
      by (symmetry; rewrite Z.gtb_ltb; apply Z.ltb_ge; lia).
    destruct (IH (sent + r) (log ++ [ConnWrite
                (take (Z.to_nat (len - sent)) (drop (Z.to_nat sent) buf)) r]))
      as (writes & -> & Hlen & Hw); auto; try lia.
    eexists (_ :: writes). split.
    + rewrite <- app_assoc. reflexivity.
    + split; [simpl; lia|]. constructor; auto.
Qed.

(** X2.  A [conn_write] error ends [mutt_socket_write_d] at once: the
    earlier writes and the failing one are the only ones made, the
    connection's close method is called, the descriptor is invalidated and
    -1 is returned; every later write on that connection returns -1 without
    reaching the transport. *)
Theorem write_error_closes (pre rest later : list Z) (rc close_rc : Z)
    (c : Connection) (buf buf' : list ascii) (len len' : Z)
    (log : list IoEvent) :
  0 <= fd c -> 0 <= len <= INT_MAX -> Forall (λ r, 0 <= r) pre ->
  foldr Z.add 0 pre < len -> rc < 0 ->
  ∃ c' writes,
    mutt_socket_write_d (pre ++ rc :: rest) close_rc c buf len log
      = Some (-1, c', log ++ writes ++ [ConnClose]) ∧
    fd c' = -1 ∧ length writes = S (length pre) ∧
    Forall (λ ev, match ev with ConnWrite _ _ => True | _ => False end)
           writes ∧
    ∀ log2, mutt_socket_write_d later close_rc c' buf' len' log2
              = Some (-1, c', log2).
Proof.
  intros Hfd Hlen Hpos Hsum Hrc. unfold mutt_socket_write_d at 1.
  assert (Hopen : (fd c <? 0) = false) by (apply Z.ltb_ge; lia).
  rewrite Hopen.
  replace (len <? 0) with false by (symmetry; apply Z.ltb_ge; lia).
  destruct (write_loop_error close_rc buf len c rc rest pre 0 log)
    as (writes & -> & Hn & Hw); auto; try lia.
  rewrite Hopen. exists (Socket.mutt_socket_close c), writes.
  split_and!; auto.
Qed.

Lemma write_error_closes_witness :
  let c := opened 3 (socket_new_conn 16 []) in
  0 <= fd c ∧ 0 <= 3 <= INT_MAX ∧ Forall (λ r, 0 <= r) [2] ∧
  foldr Z.add 0 [2] < 3 ∧ -1 < 0 ∧
  ∃ c' writes,
    mutt_socket_write_d ([2] ++ -1 :: []) 0 c ["a"; "b"; "c"]%char 3 []
      = Some (-1, c', [] ++ writes ++ [ConnClose]) ∧
    fd c' = -1 ∧ length writes = S (length [2]) ∧
    Forall (λ ev, match ev with ConnWrite _ _ => True | _ => False end)
           writes ∧
    ∀ log2, mutt_socket_write_d [1] 0 c' ["z"]%char 1 log2
              = Some (-1, c', log2).
Proof.
  intros c.
  assert (H1 : 0 <= fd c) by (simpl; lia).
  assert (H2 : 0 <= 3 <= INT_MAX) by (unfold INT_MAX; lia).
  assert (H3 : Forall (λ r, 0 <= r) [2]) by (repeat constructor; lia).
  assert (H4 : foldr Z.add 0 [2] < 3) by (simpl; lia).
  assert (H5 : -1 < 0) by lia.
  split; [exact H1|]. split; [exact H2|]. split; [exact H3|].
  split; [exact H4|]. split; [exact H5|].
  exact (write_error_closes [2] [] [1] (-1) 0 c _ ["z"]%char 3 1 []
           H1 H2 H3 H4 H5).
Defined.

Section ReadingFacts.

Variable inbuf_size : nat.

Local Abbreviation ok := (conn_ok inbuf_size).

Lemma window_rest_length (c : Connection) :
  ok c -> Z.of_nat (length (window_rest c)) = Z.max 0 (available c - bufpos c).
Proof.
  intros (Hl & Hp & Ha). unfold window_rest.
  rewrite length_take, length_drop. lia.
Qed.

(** Reading inside the receive window: the bytes come out in order and the
    transport is not touched. *)
Lemma readchars_window (n : nat) : ∀ c,
  ok c -> (n <= length (window_rest c))%nat ->
  ∃ c', readchars inbuf_size n c
          = Some (got <$> take n (window_rest c), c') ∧
        ok c' ∧ peer c' = peer c ∧ fd c' = fd c ∧
        window_rest c' = drop n (window_rest c).
Proof.
  induction n as [|n IH]; intros c Hok Hn.
  - simpl. exists c. rewrite drop_0. auto.
  - pose proof (window_rest_length c Hok) as Hlen.
    assert (Hlt : bufpos c < available c) by lia.
    assert (Hsz : (0 < inbuf_size)%nat) by (destruct Hok as (? & ? & ?); lia).
    destruct (SocketFacts.window_rest_cons inbuf_size Hsz c Hok Hlt)
      as (x & Hx & Hw).
    simpl. unfold mutt_socket_readchar.
    replace (bufpos c >=? available c) with false
      by (symmetry; rewrite Z.geb_leb; apply Z.leb_gt; lia).
    rewrite Hx. simpl.
    set (c1 := mkConnection (fd c) (inbuf c) (bufpos c + 1) (available c)
                            (peer c)) in *.
    assert (Hok1 : ok c1) by (destruct Hok as (? & ? & ?);
                              repeat split; simpl; lia).
    destruct (IH c1 Hok1) as (c' & -> & Hok' & Hp & Hf & Hw').
    { rewrite Hw in Hn. simpl in Hn. lia. }
    simpl. exists c'. rewrite Hw. simpl. split_and!; auto.
Qed.

(** X3.  When [mutt_socket_poll] finds unread bytes in the receive window
    it answers without asking the transport, and its answer is exact: that
    many calls of [mutt_socket_readchar] succeed, hand out the buffered
    bytes in order and do not read from the transport. *)
Theorem poll_counts_buffered_bytes (c : Connection) (conn_poll : option Z) :
  ok c -> bufpos c < available c ->
  let n := mutt_socket_poll c conn_poll in
  0 < n ∧ n = Z.of_nat (length (window_rest c)) ∧
  ∃ c', readchars inbuf_size (Z.to_nat n) c
          = Some (got <$> window_rest c, c') ∧
        peer c' = peer c ∧ fd c' = fd c ∧
        mutt_socket_poll c' None = -1.
Proof.
  intros Hok Hlt. pose proof (window_rest_length c Hok) as Hlen.
  assert (Hpoll : mutt_socket_poll c conn_poll = available c - bufpos c).
  { unfold mutt_socket_poll.
    replace (bufpos c <? available c) with true
      by (symmetry; apply Z.ltb_lt; lia).
    reflexivity. }
  cbv zeta. rewrite Hpoll.
  split; [lia|]. split; [lia|].
  destruct (readchars_window (Z.to_nat (available c - bufpos c)) c Hok)
    as (c' & Hr & Hok' & Hp & Hf & Hw); [lia|].
  exists c'. rewrite Hr.
  rewrite firstn_all2 by lia. split_and!; auto.
  pose proof (window_rest_length c' Hok') as Hlen'.
  rewrite Hw, length_drop in Hlen'. unfold mutt_socket_poll.
  replace (bufpos c' <? available c') with false
    by (symmetry; apply Z.ltb_ge; lia).
  reflexivity.
Qed.

(** X4.  [mutt_socket_close] invalidates the descriptor but keeps the
    receive window: a second close returns -1 without calling the close
    method, and [mutt_socket_readchar] still hands out the bytes that were
    buffered before it fails, never reading from the transport. *)
Theorem close_keeps_buffered_bytes (c : Connection) (close_rc close_rc' : Z)
    (log : list IoEvent) :
  ok c -> 0 <= fd c ->
  ∃ c1, mutt_socket_close close_rc c log = (close_rc, c1, log ++ [ConnClose]) ∧
    fd c1 = -1 ∧
    mutt_socket_close close_rc' c1 (log ++ [ConnClose])
      = (-1, c1, log ++ [ConnClose]) ∧
    ∃ c2, readchars inbuf_size (S (length (window_rest c))) c1
            = Some ((got <$> window_rest c) ++ [(-1, None)], c2) ∧
          peer c2 = peer c ∧ fd c2 = -1.
Proof.
  intros Hok Hfd. unfold mutt_socket_close at 1.
  replace (fd c <? 0) with false by (symmetry; apply Z.ltb_ge; lia).
  exists (Socket.mutt_socket_close c). split; [reflexivity|].
  split; [reflexivity|]. split; [reflexivity|].
  set (c1 := Socket.mutt_socket_close c).
  assert (Hok1 : ok c1) by exact Hok.
  assert (Hw1 : window_rest c1 = window_rest c) by reflexivity.
  destruct (readchars_window (length (window_rest c)) c1 Hok1)
    as (c2 & Hr & Hok2 & Hp & Hf & Hw); [rewrite Hw1; lia|].
  rewrite Hw1, firstn_all in Hr. rewrite Hw1, drop_all in Hw.
  pose proof (window_rest_length c2 Hok2) as Hlen. rewrite Hw in Hlen.
  exists c2.
  assert (Hsplit : ∀ n d l d', readchars inbuf_size n d = Some (l, d') ->
            ∀ r d'', mutt_socket_readchar inbuf_size d' = Some (r, d'') ->
            readchars inbuf_size (S n) d = Some (l ++ [r], d'')).
  { clear. induction n as [|n IH]; intros d l d' Hn r d'' Hr.
    - simpl in Hn. injection Hn as <- <-. simpl. rewrite Hr.
      destruct r. reflexivity.
    - change (readchars inbuf_size (S (S n)) d) with
        (mutt_socket_readchar inbuf_size d ≫= λ '(rc, och, c1),
           readchars inbuf_size (S n) c1 ≫= λ '(rest, c2),
             Some ((rc, och) :: rest, c2)).
      simpl in Hn.
      destruct (mutt_socket_readchar inbuf_size d) as [[[rc och] e]|];
        [|discriminate]. simpl in *.
      destruct (readchars inbuf_size n e) as [[l0 e']|] eqn:He;
        [|discriminate]. simpl in Hn. injection Hn as <- <-.
      rewrite (IH e l0 e' He r d'' Hr). reflexivity. }
  split_and!.
  - eapply Hsplit; [exact Hr|]. unfold mutt_socket_readchar.
    replace (bufpos c2 >=? available c2) with true
      by (symmetry; apply Z.geb_le; simpl in Hlen; lia).
    replace (fd c2 >=? 0) with false
      by (symmetry; rewrite Z.geb_leb; apply Z.leb_gt; rewrite Hf;
          simpl; lia).
    reflexivity.
  - rewrite Hp. reflexivity.
  - rewrite Hf. reflexivity.
Qed.

End ReadingFacts.

(** The theorem for a window of four bytes of which the second and third
    are unread. *)
Lemma poll_counts_buffered_bytes_witness :
  let c := mkConnection 3 ["a"; "b"; "c"; "d"]%char 1 3 [] in
  conn_ok 4 c ∧ bufpos c < available c ∧
  let n := mutt_socket_poll c None in
  0 < n ∧ n = Z.of_nat (length (window_rest c)) ∧
  ∃ c', readchars 4 (Z.to_nat n) c = Some (got <$> window_rest c, c') ∧
        peer c' = peer c ∧ fd c' = fd c ∧
        mutt_socket_poll c' None = -1.
Proof.
  intros c.
  assert (H1 : conn_ok 4 c) by (unfold conn_ok; simpl; lia).
  assert (H2 : bufpos c < available c) by (simpl; lia).
  split; [exact H1|]. split; [exact H2|].
  exact (poll_counts_buffered_bytes 4 c None H1 H2).
Defined.

Lemma close_keeps_buffered_bytes_witness :
  let c := mkConnection 3 ["a"; "b"; "c"; "d"]%char 1 3 [] in
  conn_ok 4 c ∧ 0 <= fd c ∧
  ∃ c1, mutt_socket_close 0 c [] = (0, c1, [] ++ [ConnClose]) ∧
    fd c1 = -1 ∧
    mutt_socket_close 0 c1 ([] ++ [ConnClose]) = (-1, c1, [] ++ [ConnClose]) ∧
    ∃ c2, readchars 4 (S (length (window_rest c))) c1
            = Some ((got <$> window_rest c) ++ [(-1, None)], c2) ∧
          peer c2 = peer c ∧ fd c2 = -1.
Proof.
  intros c.
  assert (H1 : conn_ok 4 c) by (unfold conn_ok; simpl; lia).
  assert (H2 : 0 <= fd c) by (simpl; lia).
  split; [exact H1|]. split; [exact H2|].
  exact (close_keeps_buffered_bytes 4 c 0 0 [] H1 H2).
Defined.

(** ** Opening a raw socket *)

Lemma socket_connect_log (T fd' : Z) (a : AddrInfo) (log : list IoEvent) :
  ∃ evs, socket_connect true T fd' a log
           = ((match ai_family a with
               | AF_OTHER => -1
               | _ => connect_errno a
               end), log ++ evs) ∧
         sockets_of evs = [] ∧ closes_of evs = [] ∧ socket_calls evs = [].
Proof.
  unfold socket_connect.
  destruct (ai_family a); simpl; try (exists []; rewrite app_nil_r; easy).
  all: destruct (T >? 0); eexists;
    (split; [rewrite <- ?app_assoc; reflexivity | easy]).
Qed.

Lemma usable_spec (a : AddrInfo) :
  usable a = (socket_fd a >=? 0) &&
             ((match ai_family a with
               | AF_OTHER => -1
               | _ => connect_errno a
               end) =? 0).
Proof. unfold usable. destruct (ai_family a); reflexivity. Qed.

Lemma sockets_of_app (l1 l2 : list IoEvent) :
  sockets_of (l1 ++ l2) = sockets_of l1 ++ sockets_of l2.
Proof. apply omap_app. Qed.

Lemma closes_of_app (l1 l2 : list IoEvent) :
  closes_of (l1 ++ l2) = closes_of l1 ++ closes_of l2.
Proof. apply omap_app. Qed.

Lemma socket_calls_app (l1 l2 : list IoEvent) :
  socket_calls (l1 ++ l2) = socket_calls l1 ++ socket_calls l2.
Proof. apply omap_app. Qed.

Lemma list_find_cons_bool {A : Type} (p : A -> bool) (a : A) (l : list A) :
  list_find (λ x, p x = true) (a :: l)
  = if p a then Some (0%nat, a)
    else prod_map S id <$> list_find (λ x, p x = true) l.
Proof.
  cbn [list_find]. destruct (decide (p a = true)) as [H|H];
    destruct (p a); congruence.
Qed.

(** The loop of [raw_socket_open]: it stops at the first usable address,
    and closes every descriptor it obtained and could not connect. *)
Lemma connect_loop_spec (T : Z) (addrs : list AddrInfo) :
  ∀ rc c log, rc <> 0 ->
  ∃ rc' c' evs,
    connect_loop true T addrs rc c log = (rc', c', log ++ evs) ∧
    sockets_of evs = closes_of evs ++ (if rc' =? 0 then [fd c'] else []) ∧
    match list_find (λ a, usable a = true) addrs with
    | Some (i, a) =>
        rc' = 0 ∧ c' = opened (socket_fd a) c ∧
        socket_calls evs = socket_fd <$> take (S i) addrs
    | None =>
        rc' <> 0 ∧ c' = c ∧ socket_calls evs = socket_fd <$> addrs
    end.
Proof.
  induction addrs as [|a addrs IH]; intros rc c log Hrc.
  - simpl. exists rc, c, []. rewrite app_nil_r.
    rewrite (proj2 (Z.eqb_neq rc 0) Hrc). auto.
  - rewrite list_find_cons_bool, usable_spec. cbn [connect_loop].
    destruct (socket_fd a >=? 0) eqn:Hfd.
    + assert (Hs1 : sockets_of [SysSocket (socket_fd a)] = [socket_fd a])
        by (unfold sockets_of; simpl; rewrite Hfd; reflexivity).
      destruct (socket_connect_log T (socket_fd a) a
                  (log ++ [SysSocket (socket_fd a)]))
        as (evs & -> & Hs & Hc & Hn).
      set (r := match ai_family a with
                | AF_OTHER => -1
                | _ => connect_errno a
                end) in *.
      destruct (r =? 0) eqn:Hr.
      * apply Z.eqb_eq in Hr. rewrite Hr. simpl.
        exists 0, (opened (socket_fd a) c),
          ([SysSocket (socket_fd a)] ++ evs ++ [SetCloexec (socket_fd a)]).
        split; [rewrite <- !app_assoc; reflexivity|].
        rewrite !sockets_of_app, !closes_of_app, !socket_calls_app.
        rewrite Hs1, Hs, Hc, Hn. auto.
      * simpl. apply Z.eqb_neq in Hr.
        destruct (IH r c ((log ++ [SysSocket (socket_fd a)]) ++ evs ++
                          [SysClose (socket_fd a)]) Hr)
          as (rc' & c' & evs' & Hl & Hsk & Hfind).
        rewrite <- !app_assoc in *. rewrite Hl.
        exists rc', c',
          ([SysSocket (socket_fd a)] ++ evs ++ [SysClose (socket_fd a)] ++
           evs').
        split; [reflexivity|].
        rewrite !sockets_of_app, !closes_of_app, !socket_calls_app.
        rewrite Hs1, Hs, Hc, Hn, Hsk. split; [reflexivity|].
        destruct (list_find (λ a0, usable a0 = true) addrs) as [[i b]|];
          simpl; destruct Hfind as (? & ? & ->); auto.
    + assert (Hs1 : sockets_of [SysSocket (socket_fd a)] = [])
        by (unfold sockets_of; simpl; rewrite Hfd; reflexivity).
      simpl.
      destruct (IH rc c (log ++ [SysSocket (socket_fd a)]) Hrc)
        as (rc' & c' & evs' & Hl & Hsk & Hfind).
      rewrite Hl. exists rc', c', ([SysSocket (socket_fd a)] ++ evs').
      split; [rewrite <- app_assoc; reflexivity|].
      rewrite !sockets_of_app, !closes_of_app, !socket_calls_app.
      rewrite Hs1, Hsk. split; [reflexivity|].
      destruct (list_find (λ a0, usable a0 = true) addrs) as [[i b]|];
        simpl; destruct Hfind as (? & ? & ->); auto.
Qed.

(** X5.  [raw_socket_open] succeeds exactly when some address of the
    lookup can be used (a descriptor is obtained, the family is known and
    [connect] succeeds); it then takes the first such address, puts its
    descriptor into the connection and tries no later address.  Without a
    usable address it returns -1 and leaves the connection untouched, after
    trying every address. *)
Theorem raw_socket_open_first_usable (T : Z) (addrs : list AddrInfo)
    (c : Connection) (log : list IoEvent) :
  ∃ ret c' evs,
    raw_socket_open T false (Some addrs) c log = (ret, c', log ++ evs) ∧
    match list_find (λ a, usable a = true) addrs with
    | Some (i, a) =>
        ret = 0 ∧ c' = opened (socket_fd a) c ∧
        socket_calls evs = socket_fd <$> take (S i) addrs
    | None =>
        ret = -1 ∧ c' = c ∧ socket_calls evs = socket_fd <$> addrs
    end.
Proof.
  unfold raw_socket_open.
  destruct (connect_loop_spec T addrs (-1) c log)
    as (rc & c' & evs & -> & _ & Hfind); [lia|].
  destruct (list_find (λ a, usable a = true) addrs) as [[i a]|].
  - destruct Hfind as (-> & -> & Hn). simpl. eexists _, _, _.
    split; [reflexivity|]. auto.
  - destruct Hfind as (Hrc & -> & Hn). apply Z.eqb_neq in Hrc.
    rewrite Hrc. simpl. eexists _, _, _.
    split; [rewrite <- app_assoc; reflexivity|].
    split_and!; auto. rewrite socket_calls_app, Hn. apply app_nil_r.
Qed.

(** X6.  [raw_socket_open] leaks no descriptor: every descriptor it got
    from [socket()] has been closed again when it returns, except, on
    success, the one it stored in the connection. *)
Theorem raw_socket_open_closes_failed_sockets (T : Z) (bad_idn : bool)
    (lookup : option (list AddrInfo)) (c : Connection) (log : list IoEvent) :
  ∃ ret c' evs,
    raw_socket_open T bad_idn lookup c log = (ret, c', log ++ evs) ∧
    (ret = 0 ∨ ret = -1) ∧
    sockets_of evs = closes_of evs ++ (if ret =? 0 then [fd c'] else []).
Proof.
  unfold raw_socket_open. destruct bad_idn.
  { eexists _, _, _. split; [reflexivity|]. split; [right|]; reflexivity. }
  destruct lookup as [addrs|].
  2: { eexists _, _, _. split; [reflexivity|]. split; [right|]; reflexivity. }
  destruct (connect_loop_spec T addrs (-1) c log)
    as (rc & c' & evs & -> & Hsk & _); [lia|].
  destruct (rc =? 0) eqn:Hrc; simpl.
  - eexists _, _, _. split; [reflexivity|]. split; [left; reflexivity|].
    exact Hsk.
  - eexists _, _, _. split; [rewrite <- app_assoc; reflexivity|].
    split; [right; reflexivity|].
    rewrite sockets_of_app, closes_of_app, Hsk.
    change (sockets_of [ConnectFailed rc]) with (@nil Z).
    change (closes_of [ConnectFailed rc]) with (@nil Z).
    rewrite !app_nil_r. reflexivity.
Qed.


End SocketOpsFacts.

(* ===================================================================== *)
(** * The POP driver: draining a mailbox and applying deletions *)
(* ===================================================================== *)

Module PopOpsFacts.
Import Pop PopOps.

(** ** pop_fetch_mail *)

Lemma pop_query_ret (r : Reply) (pd : PopData) :
  fst (pop_query r pd) = 0 ∨ fst (pop_query r pd) = -1 ∨
  fst (pop_query r pd) = -2.
Proof. destruct r; simpl; auto. Qed.

Lemma retr_to_spool_ret (e : Env) (reply : Reply) (pd : PopData) :
  let ret := fst (retr_to_spool e reply pd) in
  (ret = 0 ∨ ret = -1 ∨ ret = -2 ∨ ret = -3) ∧
  (∀ lines, reply = ReplyOk lines true -> ret = 0 ∨ ret = -3).
Proof.
  unfold retr_to_spool, pop_fetch_data.
  destruct reply as [line| |lines complete]; simpl.
  - split; [auto|]. intros ? [=].
  - split; [auto|]. intros ? [=].
  - match goal with
    | |- context [feed_lines ?cb lines 0 ?s] =>
        pose proof (PopFacts.feed_lines_ret cb lines 0 s) as Hr;
        destruct (feed_lines cb lines 0 s) as [ret [pd' f]]
    end.
    simpl in *. destruct complete; simpl.
    + split; [destruct Hr; auto|]. intros _ _. exact Hr.
    + split; [auto|]. intros ? [=].
Qed.

Lemma committed_of_app (l1 l2 : list MailEvent) :
  committed_of (l1 ++ l2) = committed_of l1 ++ committed_of l2.
Proof. apply omap_app. Qed.

Lemma deles_of_app (l1 l2 : list MailEvent) :
  deles_of (l1 ++ l2) = deles_of l1 ++ deles_of l2.
Proof. apply omap_app. Qed.

Lemma retrs_of_app (l1 l2 : list MailEvent) :
  retrs_of (l1 ++ l2) = retrs_of l1 ++ retrs_of l2.
Proof. apply omap_app. Qed.

Lemma count_app (p : MailEvent -> bool) (l1 l2 : list MailEvent) :
  count p (l1 ++ l2) = (count p l1 + count p l2)%nat.
Proof. unfold count. rewrite List.filter_app, length_app. reflexivity. Qed.

Ltac solve_tail i Hcomplete :=
  first
    [ exists []; split_and!; [reflexivity | simpl; lia |];
      let j := fresh in let l := fresh in let H := fresh in
      intros j l H; inversion H
    | exists [i]; split_and!; [reflexivity | simpl; lia |];
      let j := fresh in let l := fresh in let H := fresh in
      let Hr := fresh in
      intros j l H Hr; apply list_elem_of_singleton in H; subst;
      first [ reflexivity
            | destruct (Hcomplete _ Hr); discriminate
            | destruct (Hcomplete _ Hr); lia ] ].

Ltac not_rset :=
  let H := fresh in
  intros H;
  repeat (apply elem_of_cons in H as [H|H]; [discriminate H|]);
  inversion H.

Ltac loop_terminal i Hcomplete :=
  eexists; split; [rewrite <- ?app_assoc; reflexivity|];
  split; simpl;
  [ try match goal with
        | H : (delanswer _ =? _) = _ |- _ => rewrite H
        end; reflexivity
  | solve_tail i Hcomplete
  | let H := fresh in intros H; subst; auto
  | reflexivity | reflexivity | reflexivity
  | not_rset ].

Lemma mail_loop_adds (e : Env) (r : MailRun) (n : nat) :
  ∀ i rset pd tr,
  ∃ evs, snd (mail_loop e r n i rset pd tr) = tr ++ evs ∧
         loop_adds r rset (fst (fst (mail_loop e r n i rset pd tr))) evs.
Proof.
  induction n as [|n IH]; intros i rset pd tr.
  - simpl. exists []. rewrite app_nil_r. split; [reflexivity|].
    split; simpl; auto.
    + destruct (delanswer r =? MUTT_YES); reflexivity.
    + exists []. split_and!; auto. intros j lines Hj. inversion Hj.
    + intros ->. auto.
    + apply not_elem_of_nil.
  - cbn [mail_loop].
    pose proof (retr_to_spool_ret e (retr_reply r i) pd) as [Hret Hcomplete].
    destruct (retr_to_spool e (retr_reply r i) pd) as [ret pd'] eqn:Hretr.
    simpl in Hret, Hcomplete.
    pose proof (pop_query_ret (dele_reply r i) pd') as Hdele.
    destruct (pop_query (dele_reply r i) pd') as [rd pdd] eqn:Hq.
    simpl in Hdele.
    destruct (new_message_ok r i) eqn:Hnew; simpl.
    + destruct (delanswer r =? MUTT_YES) eqn:Hyes;
        destruct (commit_ok r i) eqn:Hcommit;
        destruct Hret as [->|[->|[->| ->]]]; simpl; rewrite ?Hq; simpl;
        try (destruct Hdele as [->|[->| ->]]; simpl);
        try (loop_terminal i Hcomplete; fail).
      all: match goal with
           | IH' : ∀ i, _ |- context [mail_loop ?e' ?r' ?n' ?i' ?rs ?p ?t] =>
               destruct (IH' i' rs p t) as (evs & Hevs & Hadds);
               destruct (mail_loop e' r' n' i' rs p t) as [[fin pd3] tr3]
           end; simpl in *; subst tr3.
      all: destruct Hadds as
             [Hd (tl & Hr & Hl & Hc) Hrs Hso Hop Hcl Hrw].
      all: eexists; (split; [rewrite <- !app_assoc; reflexivity|]).
      all: split; simpl;
        rewrite ?deles_of_app, ?committed_of_app, ?retrs_of_app, ?count_app;
        simpl; rewrite ?Hd, ?Hyes, ?Hr, ?Hso, ?Hop, ?Hcl; auto.
      all: try (exists tl; split_and!; auto; fail).
      all: intros Hin;
        repeat (apply elem_of_cons in Hin as [Hin|Hin]; [discriminate Hin|]);
        exact (Hrw Hin).
    + (* no message could be opened in the spool *)
      exists [MailError write_error]. split; [reflexivity|].
      split; simpl; auto.
      * destruct (delanswer r =? MUTT_YES); reflexivity.
      * exists []. split_and!; auto. intros j lines Hj. inversion Hj.
      * intros ->. auto.
      * intros Hin. apply list_elem_of_singleton in Hin. discriminate.
Qed.

Lemma mail_fail_adds (tr : list MailEvent) :
  ∃ evs, mail_fail tr = tr ++ evs ∧ ending evs.
Proof. eexists. split; [reflexivity|]. split; reflexivity. Qed.

Lemma mail_finish_adds (r : MailRun) (pd : PopData) (tr : list MailEvent) :
  ∃ evs, mail_finish r pd tr = tr ++ evs ∧ ending evs.
Proof.
  unfold mail_finish, mail_fail.
  destruct (fst (pop_query (quit_reply r) pd) =? -1);
    (eexists; split; [rewrite <- ?app_assoc; reflexivity|]);
    split; reflexivity.
Qed.


Ltac use_ending :=
  match goal with
  | |- context [mail_finish ?r ?p ?t] =>
      let fin := fresh "fin" in let Hfin := fresh "Hfin" in
      destruct (mail_finish_adds r p t) as (fin & -> & Hfin)
  | |- context [mail_fail ?t] =>
      let fin := fresh "fin" in let Hfin := fresh "Hfin" in
      destruct (mail_fail_adds t) as (fin & -> & Hfin)
  end.

(** The whole run, cut where the loop over the messages starts and ends:
    a run that reaches the loop consists of the events before it, those
    the loop adds, an optional RSET, and an ending. *)
Lemma pop_fetch_mail_shape (e : Env) (r : MailRun) (pd : PopData) :
  let tr := pop_fetch_mail e r pd in
  (count is_socket_close tr = 0%nat ∧ count is_wire tr = 0%nat ∧
   count is_open_spool tr = 0%nat ∧ count is_close_spool tr = 0%nat ∧
   (PopHost r = None ∨ path_ok r = false ∨ conn_found r = false ∨
    connection_ret r < 0)) ∨
  (∃ pre fin, tr = pre ++ fin ∧ ending fin ∧
     deles_of pre = [] ∧ retrs_of pre = [] ∧ committed_of pre = [] ∧
     count is_socket_close pre = 0%nat ∧
     count is_open_spool pre = 0%nat ∧ count is_close_spool pre = 0%nat ∧
     Wire RSET ∉ pre) ∨
  (∃ pre evs rset0 lend mid fin,
     tr = pre ++ evs ++ mid ++ fin ∧ loop_adds r rset0 lend evs ∧
     rset0 = false ∧ ending fin ∧
     deles_of pre = [] ∧ retrs_of pre = [] ∧ committed_of pre = [] ∧
     count is_socket_close pre = 0%nat ∧
     count is_open_spool pre = 1%nat ∧ count is_close_spool pre = 0%nat ∧
     mid = match lend with
           | LostConnection => []
           | LoopOver true => [CloseSpool; Wire RSET]
           | LoopOver false => [CloseSpool]
           end).
Proof.
  unfold pop_fetch_mail.
  destruct (PopHost r) as [host|]; [|left; simpl; auto 10].
  destruct (path_ok r); [|left; simpl; auto 10].
  destruct (conn_found r); [|left; simpl; auto 10].
  destruct (connection_ret r <? 0) eqn:Hconn;
    [left; apply Z.ltb_lt in Hconn; simpl; auto 10|].
  simpl. right.
  destruct (pop_query (stat_reply r) pd) as [ret pd1].
  destruct (ret =? -1).
  { left. use_ending. eexists _, fin. split; [reflexivity|].
    split; [exact Hfin|]. split_and!; try reflexivity. not_rset. }
  destruct (ret =? -2).
  { left. use_ending. eexists _, fin. split; [reflexivity|].
    split; [exact Hfin|]. split_and!; try reflexivity. not_rset. }
  set (asks := (stat_msgs r >? 0) && PopLast r).
  destruct (if asks then pop_query (last_reply r) pd1 else (ret, pd1))
    as [ret_last pd2].
  destruct (asks && (ret_last =? -1)).
  { left. use_ending. eexists _, fin. split; [reflexivity|].
    split; [exact Hfin|].
    destruct asks; split_and!; try reflexivity; not_rset. }
  set (last := if asks && (ret_last =? 0) then last_value r else 0).
  destruct (stat_msgs r <=? last).
  { left. use_ending. eexists _, fin. split; [reflexivity|].
    split; [exact Hfin|].
    destruct asks; split_and!; try reflexivity; not_rset. }
  destruct (spool_ok r); simpl.
  2: { left. use_ending. eexists _, fin. split; [reflexivity|].
       split; [exact Hfin|].
       destruct asks; split_and!; try reflexivity; not_rset. }
  right.
  match goal with
  | |- context [mail_loop e r ?n ?i false pd2 ?t] =>
      destruct (mail_loop_adds e r n i false pd2 t) as (evs & Hevs & Hadds);
      destruct (mail_loop e r n i false pd2 t) as [[lend pd3] tr3];
      set (pre := t) in *
  end.
  simpl in Hevs, Hadds. subst tr3.
  assert (Hpre : deles_of pre = [] ∧ retrs_of pre = [] ∧
                 committed_of pre = [] ∧ count is_socket_close pre = 0%nat ∧
                 count is_open_spool pre = 1%nat ∧
                 count is_close_spool pre = 0%nat)
    by (subst pre; destruct asks; repeat split; reflexivity).
  destruct lend as [|rset].
  - destruct (mail_fail_adds (pre ++ evs)) as (fin & -> & Hfin).
    exists pre, evs, false, LostConnection, [], fin.
    rewrite <- app_assoc. split_and!; auto; try tauto.
  - destruct rset.
    + destruct (pop_query (rset_reply r) pd3) as [rr pd4].
      destruct (rr =? -1).
      * destruct (mail_fail_adds (((pre ++ evs) ++ [CloseSpool]) ++
                                  [Wire RSET])) as (fin & -> & Hfin).
        exists pre, evs, false, (LoopOver true), [CloseSpool; Wire RSET], fin.
        rewrite <- !app_assoc. split_and!; auto; try tauto.
      * destruct (mail_finish_adds r pd4 (((pre ++ evs) ++ [CloseSpool]) ++
                                          [Wire RSET])) as (fin & -> & Hfin).
        exists pre, evs, false, (LoopOver true), [CloseSpool; Wire RSET], fin.
        rewrite <- !app_assoc. split_and!; auto; try tauto.
    + destruct (mail_finish_adds r pd3 ((pre ++ evs) ++ [CloseSpool]))
        as (fin & -> & Hfin).
      exists pre, evs, false, (LoopOver false), [CloseSpool], fin.
      rewrite <- !app_assoc. split_and!; auto; try tauto.
Qed.

Lemma fetch_mail_no_traffic (e : Env) (r : MailRun) (pd : PopData) :
  PopHost r = None ∨ path_ok r = false ∨ conn_found r = false ∨
  connection_ret r < 0 ->
  deles_of (pop_fetch_mail e r pd) = [] ∧
  retrs_of (pop_fetch_mail e r pd) = [] ∧
  committed_of (pop_fetch_mail e r pd) = [].
Proof.
  unfold pop_fetch_mail. intros [Hh|[Hp|[Hc|Hr]]].
  - rewrite Hh. auto.
  - destruct (PopHost r); rewrite ?Hp; auto.
  - destruct (PopHost r), (path_ok r); rewrite ?Hc; auto.
  - apply Z.ltb_lt in Hr.
    destruct (PopHost r), (path_ok r), (conn_found r); rewrite ?Hr; auto.
Qed.

Lemma fetch_mail_deletes_committed_aux (e : Env) (r : MailRun)
    (pd : PopData) :
  deles_of (pop_fetch_mail e r pd)
  = if delanswer r =? MUTT_YES then committed_of (pop_fetch_mail e r pd)
    else [].
Proof.
  destruct (pop_fetch_mail_shape e r pd) as [H|[H|H]]; cbv zeta in H.
  - destruct H as (_ & _ & _ & _ & H).
    destruct (fetch_mail_no_traffic e r pd H) as (-> & _ & ->).
    destruct (delanswer r =? MUTT_YES); reflexivity.
  - destruct H as (pre & fin & -> & [Hd Hr Hc _ _ _ _] & Hd' & Hr' & Hc' & _).
    rewrite !deles_of_app, !committed_of_app, Hd, Hc, Hd', Hc'.
    destruct (delanswer r =? MUTT_YES); reflexivity.
  - destruct H as (pre & evs & rset0 & lend & mid & fin & -> & Hadds & _ &
                   [Hd Hr Hc _ _ _ _] & Hd' & Hr' & Hc' & _ & _ & _ & ->).
    destruct Hadds as [Hld _ _ _ _ _ _].
    assert (Hm : ∀ l, deles_of (match l with
                | LostConnection => []
                | LoopOver true => [CloseSpool; Wire RSET]
                | LoopOver false => [CloseSpool]
                end) = [] ∧ committed_of (match l with
                | LostConnection => []
                | LoopOver true => [CloseSpool; Wire RSET]
                | LoopOver false => [CloseSpool]
                end) = []) by (intros [|[|]]; auto).
    destruct (Hm lend) as [Hm1 Hm3].
    rewrite !deles_of_app, !committed_of_app.
    rewrite Hd, Hc, Hd', Hc', Hm1, Hm3, Hld. simpl. rewrite !app_nil_r.
    reflexivity.
Qed.


(** X11.  When the server delivered a message completely and
    [pop_fetch_mail] could not store it (a write to the spool failed or
    the commit failed), the message itself gets no DELE, and RSET goes on
    the wire right after the spool is closed, with no DELE and no RETR
    after it. *)
Theorem fetch_mail_resets_after_store_failure (e : Env) (r : MailRun)
    (pd : PopData) (i : Z) (lines : list string) :
  let tr := pop_fetch_mail e r pd in
  i ∈ retrs_of tr -> i ∉ committed_of tr ->
  retr_reply r i = ReplyOk lines true ->
  (i ∉ deles_of tr) ∧
  ∃ before after,
    tr = before ++ [CloseSpool; Wire RSET] ++ after ∧
    deles_of after = [] ∧ retrs_of after = [].
Proof.
  cbv zeta. intros Hin Hnot Hreply.
  pose proof (fetch_mail_deletes_committed_aux e r pd) as Hdel.
  split.
  { rewrite Hdel. destruct (delanswer r =? MUTT_YES); [exact Hnot|].
    apply not_elem_of_nil. }
  destruct (pop_fetch_mail_shape e r pd) as [H|[H|H]]; cbv zeta in H.
  - exfalso. revert Hin. unfold pop_fetch_mail.
    destruct H as (_ & _ & _ & _ & [Hh|[Hp|[Hc|Hr]]]).
    + rewrite Hh. apply not_elem_of_nil.
    + destruct (PopHost r); rewrite ?Hp; apply not_elem_of_nil.
    + destruct (PopHost r), (path_ok r); rewrite ?Hc; apply not_elem_of_nil.
    + apply Z.ltb_lt in Hr.
      destruct (PopHost r), (path_ok r), (conn_found r); rewrite ?Hr;
        apply not_elem_of_nil.
  - exfalso.
    destruct H as (pre & fin & Heq & [_ Hr _ _ _ _ _] & _ & Hr' & _).
    rewrite Heq, retrs_of_app, Hr, Hr' in Hin. inversion Hin.
  - destruct H as (pre & evs & rset0 & lend & mid & fin & Heq & Hadds & _ &
                   [Hd Hr Hc _ _ _ _] & Hd' & Hr' & Hc' & _ & _ & _ & Hmid).
    destruct Hadds as [Hld (tl & Hlr & Hll & Htl) _ _ _ _ _].
    assert (Hm : retrs_of mid = [] ∧ committed_of mid = [])
      by (subst mid; destruct lend as [|[|]]; auto).
    destruct Hm as [Hm2 Hm3].
    rewrite Heq in Hin, Hnot.
    rewrite !retrs_of_app, Hr, Hr', Hm2, Hlr in Hin.
    rewrite !committed_of_app, Hc, Hc', Hm3 in Hnot.
    simpl in Hin, Hnot. rewrite !app_nil_r in *.
    apply elem_of_app in Hin as [Hin|Hin]; [contradiction|].
    rewrite (Htl i lines Hin Hreply) in Hmid. subst mid.
    exists (pre ++ evs), fin. rewrite Heq, <- !app_assoc.
    split; [reflexivity|]. auto.
Qed.


(** The theorem for a run in which the commit of the only message fails. *)
Lemma fetch_mail_resets_after_store_failure_witness :
  let tr := pop_fetch_mail Scenario.env0 run_commit_fails Scenario.pd0 in
  1 ∈ retrs_of tr ∧ (1 ∉ committed_of tr) ∧
  retr_reply run_commit_fails 1 = ReplyOk ["Subject: x"%string] true ∧
  (1 ∉ deles_of tr) ∧
  ∃ before after,
    tr = before ++ [CloseSpool; Wire RSET] ++ after ∧
    deles_of after = [] ∧ retrs_of after = [].
Proof.
  intros tr.
  assert (H1 : 1 ∈ retrs_of tr) by (vm_compute; apply list_elem_of_here).
  assert (H2 : 1 ∉ committed_of tr) by (vm_compute; apply not_elem_of_nil).
  assert (H3 : retr_reply run_commit_fails 1
               = ReplyOk ["Subject: x"%string] true) by reflexivity.
  split; [exact H1|]. split; [exact H2|]. split; [exact H3|].
  exact (fetch_mail_resets_after_store_failure Scenario.env0 run_commit_fails
           Scenario.pd0 1 _ H1 H2 H3).
Defined.


(** ** pop_sync_mailbox *)

Lemma commands_of_app (l1 l2 : list Event) :
  commands_of (l1 ++ l2) = commands_of l1 ++ commands_of l2.
Proof. apply omap_app. Qed.

Lemma bcache_deletions_app (l1 l2 : list CacheOp) :
  bcache_deletions (l1 ++ l2) = bcache_deletions l1 ++ bcache_deletions l2.
Proof. apply omap_app. Qed.

(** As long as the server accepts every DELE, the loop goes through the
    records in order: it sends one DELE per record to be deleted and
    removes that record's body from the cache. *)
Lemma dele_loop_prefix (e : Env) (dele : Z -> Reply) (n1 : nat) :
  ∀ n2 i ctx ops,
  (i + n1 <= length (hdrs ctx))%nat ->
  Forall (λ h, to_delete h = true -> is_ok (dele (refno h)) = true)
         (take n1 (drop i (hdrs ctx))) ->
  ∃ ctx' evs ops',
    dele_loop e dele (n1 + n2) i 0 ctx ops
      = dele_loop e dele n2 (i + n1) 0 ctx' (ops ++ ops') ∧
    hdrs ctx' = hdrs ctx ∧ msgcount ctx' = msgcount ctx ∧
    pop_data ctx' = pop_data ctx ∧ trace ctx' = trace ctx ++ evs ∧
    commands_of evs
      = (λ h, DELE (refno h)) <$> doomed (take n1 (drop i (hdrs ctx))) ∧
    bcache_deletions ops' = data <$> doomed (take n1 (drop i (hdrs ctx))).
Proof.
  induction n1 as [|n1 IH]; intros n2 i ctx ops Hlen Hok.
  - exists ctx, [], []. rewrite !app_nil_r, Nat.add_0_r. simpl. auto 10.
  - destruct (lookup_lt_is_Some_2 (hdrs ctx) i) as [h Hh]; [lia|].
    rewrite (drop_S _ _ _ Hh) in *. simpl in Hok.
    apply Forall_cons in Hok as [Hh_ok Hok].
    cbn [Nat.add dele_loop]. simpl. rewrite Hh. simpl.
    unfold doomed. simpl.
    set (step := if to_delete h then _ else _).
    assert (Hstep : ∃ ctx1 it ops1,
      step = (0, ctx1, ops ++ ops1) ∧ hdrs ctx1 = hdrs ctx ∧
      msgcount ctx1 = msgcount ctx ∧ pop_data ctx1 = pop_data ctx ∧
      trace ctx1 = trace ctx ++ it ∧
      commands_of it = (if to_delete h then [DELE (refno h)] else []) ∧
      bcache_deletions ops1 = (if to_delete h then [data h] else [])).
    { subst step. destruct (to_delete h) eqn:Hdel.
      - specialize (Hh_ok eq_refl).
        destruct (dele (refno h)) as [| |lines complete] eqn:Hreply;
          try discriminate. simpl.
        eexists _, [_], _. split; [reflexivity|]. simpl.
        split_and!; auto. destruct (USE_HCACHE e); reflexivity.
      - exists ctx, [], []. rewrite !app_nil_r. auto 10. }
    destruct Hstep as (ctx1 & it & ops1 & -> & Hhd1 & Hmc1 & Hpd1 & Htr1 &
                       Hcmd1 & Hb1).
    set (ctx2 := if USE_HCACHE e && changed h
                 then emit ctx1 (HcacheStore (data h)) else ctx1).
    assert (Hctx2 : ∃ it2, hdrs ctx2 = hdrs ctx ∧
      msgcount ctx2 = msgcount ctx ∧ pop_data ctx2 = pop_data ctx ∧
      trace ctx2 = trace ctx ++ it ++ it2 ∧ commands_of it2 = []).
    { subst ctx2. destruct (USE_HCACHE e && changed h); simpl.
      - exists [HcacheStore (data h)]. rewrite Htr1, <- app_assoc. auto.
      - exists []. rewrite app_nil_r. auto. }
    destruct Hctx2 as (it2 & Hhd2 & Hmc2 & Hpd2 & Htr2 & Hcmd2).
    destruct (IH n2 (S i) ctx2 (ops ++ ops1))
      as (ctx' & evs & ops' & -> & Hhd & Hmc & Hpd & Htr & Hcmd & Hb);
      [rewrite Hhd2; lia | rewrite Hhd2; exact Hok |].
    replace (S i + n1)%nat with (i + S n1)%nat by lia.
    exists ctx', (it ++ it2 ++ evs), (ops1 ++ ops').
    rewrite <- !app_assoc. split; [reflexivity|].
    rewrite Hhd, Hmc, Hpd, Htr, Htr2, Hhd2, Hmc2, Hpd2.
    rewrite !commands_of_app, !bcache_deletions_app.
    rewrite Hcmd, Hcmd1, Hcmd2, Hb, Hb1, Hhd2, <- !app_assoc.
    split_and!; auto; destruct (to_delete h); reflexivity.
Qed.

Lemma dele_loop_stopped (e : Env) (dele : Z -> Reply) (n i : nat) (ret : Z)
    (ctx : Context) (ops : list CacheOp) :
  ret <> 0 -> dele_loop e dele n i ret ctx ops = Some (ret, ctx, ops).
Proof.
  intros Hret. destruct n; [reflexivity|]. simpl.
  rewrite (proj2 (Z.eqb_neq ret 0) Hret). reflexivity.
Qed.

Lemma pop_clear_cache_empties (ctx : Context) :
  clear_cache (pop_data ctx) = true ->
  Forall (λ c, cache_path c = None) (cache (pop_data (pop_clear_cache ctx))) ∧
  hdrs (pop_clear_cache ctx) = hdrs ctx ∧
  msgcount (pop_clear_cache ctx) = msgcount ctx ∧
  check_time (pop_data (pop_clear_cache ctx)) = check_time (pop_data ctx) ∧
  status (pop_data (pop_clear_cache ctx)) = status (pop_data ctx) ∧
  ∃ evs, trace (pop_clear_cache ctx) = trace ctx ++ evs ∧
         commands_of evs = [].
Proof.
  intros Hc. unfold pop_clear_cache. rewrite Hc. simpl.
  split_and!; auto.
  - apply Forall_fmap, Forall_true. reflexivity.
  - eexists. split; [reflexivity|].
    induction (omap cache_path (cache (pop_data ctx))); auto.
Qed.

(** X13.  On a connected session whose server accepts every command,
    [pop_sync_mailbox] succeeds in its first round: it sends one DELE for
    each record of the view that is flagged deleted and has a server
    number, in the order of the view, then QUIT, and nothing else; it
    removes exactly those records' bodies from the body cache, empties the
    fallback ring, marks the session disconnected and zeroes
    [check_time]. *)
Theorem sync_commits_deletions (e : Env) (a : SyncAttempt)
    (rest : list SyncAttempt) (ctx : Context) :
  status (pop_data ctx) = POP_CONNECTED -> ctx_ok ctx ->
  Forall (λ h, to_delete h = true -> is_ok (sy_dele a (refno h)) = true)
         (view ctx) ->
  is_ok (sy_quit a) = true ->
  ∃ ctx' ops evs,
    pop_sync_mailbox e (a :: rest) ctx = Some (0, ctx', ops) ∧
    trace ctx' = trace ctx ++ evs ∧
    commands_of evs
      = ((λ h, DELE (refno h)) <$> doomed (view ctx)) ++ [QUIT] ∧
    bcache_deletions ops = data <$> doomed (view ctx) ∧
    status (pop_data ctx') = POP_DISCONNECTED ∧
    check_time (pop_data ctx') = 0 ∧
    hdrs ctx' = hdrs ctx ∧ msgcount ctx' = msgcount ctx ∧
    Forall (λ c, cache_path c = None) (cache (pop_data ctx')).
Proof.
  intros Hst Hok Hall Hquit.
  unfold pop_sync_mailbox. cbn [sync_rounds].
  set (ctx0 := with_pop_data ctx (set_check_time (pop_data ctx) 0)).
  assert (Hrc : pop_reconnect (sy_reconnect a) ctx0 = (0, ctx0))
    by (unfold pop_reconnect; subst ctx0; simpl; rewrite Hst; reflexivity).
  rewrite Hrc. simpl.
  destruct (dele_loop_prefix e (sy_dele a) (msgcount ctx0) 0 0 ctx0 [])
    as (ctx1 & evs & ops & Hloop & Hhd & Hmc & Hpd & Htr & Hcmd & Hb).
  { exact Hok. }
  { rewrite drop_0. exact Hall. }
  rewrite Nat.add_0_r in Hloop. change (msgcount ctx) with (msgcount ctx0).
  rewrite Hloop. simpl.
  destruct (sy_quit a) as [| |lines complete]; try discriminate. simpl.
  match goal with
  | |- context [pop_clear_cache ?c] =>
      destruct (pop_clear_cache_empties c eq_refl)
        as (Hempty & Hhd' & Hmc' & Hct & Hstat & evs' & Htr' & Hcmd');
      remember (pop_clear_cache c) as cc eqn:Hcc; clear Hcc
  end.
  eexists _, _, (evs ++ [Sent QUIT] ++ evs'). split; [reflexivity|].
  simpl in *. rewrite Htr'.
  change (Sent QUIT :: evs') with ([Sent QUIT] ++ evs').
  rewrite Htr, Hhd', Hmc', Hhd, Hmc, Hpd, <- !app_assoc.
  rewrite !commands_of_app, Hcmd, Hcmd', Hb, drop_0.
  split_and!; auto.
  apply Forall_fmap, Forall_true. reflexivity.
Qed.

(** X14.  When the server refuses a DELE, [pop_sync_mailbox] stops there:
    it has sent the DELEs for the records before, sends no further DELE
    and no QUIT, shows the server's answer and returns -1; the session
    stays connected, the body of the refused record and the fallback ring
    are kept, and [check_time] is zero. *)
Theorem sync_stops_at_refusal (e : Env) (a : SyncAttempt)
    (rest : list SyncAttempt) (ctx : Context) (pre post : list Header)
    (h : Header) (line : string) :
  status (pop_data ctx) = POP_CONNECTED -> ctx_ok ctx ->
  view ctx = pre ++ h :: post ->
  Forall (λ h, to_delete h = true -> is_ok (sy_dele a (refno h)) = true)
         pre ->
  to_delete h = true -> sy_dele a (refno h) = ReplyErr line ->
  ∃ ctx' ops evs,
    pop_sync_mailbox e (a :: rest) ctx = Some (-1, ctx', ops) ∧
    trace ctx' = trace ctx ++ evs ∧
    commands_of evs
      = ((λ h, DELE (refno h)) <$> doomed pre) ++ [DELE (refno h)] ∧
    last evs = Some (Error line) ∧
    bcache_deletions ops = data <$> doomed pre ∧
    status (pop_data ctx') = POP_CONNECTED ∧
    check_time (pop_data ctx') = 0 ∧
    cache (pop_data ctx') = cache (pop_data ctx) ∧
    hdrs ctx' = hdrs ctx.
Proof.
  intros Hst Hok Hview Hall Hdel Hreply.
  unfold pop_sync_mailbox. cbn [sync_rounds].
  set (ctx0 := with_pop_data ctx (set_check_time (pop_data ctx) 0)).
  assert (Hrc : pop_reconnect (sy_reconnect a) ctx0 = (0, ctx0))
    by (unfold pop_reconnect; subst ctx0; simpl; rewrite Hst; reflexivity).
  rewrite Hrc. simpl.
  assert (Hmc0 : msgcount ctx = (length pre + S (length post))%nat).
  { apply (f_equal length) in Hview. unfold view in Hview.
    rewrite length_take, length_app in Hview. simpl in Hview.
    unfold ctx_ok in Hok. lia. }
  assert (Hpre : take (length pre) (hdrs ctx) = pre).
  { replace (take (length pre) (hdrs ctx))
      with (take (length pre) (view ctx))
      by (unfold view; rewrite take_take; f_equal; lia).
    rewrite Hview, take_app_length. reflexivity. }
  assert (Hh : hdrs ctx !! length pre = Some h).
  { assert (Hv : view ctx !! length pre = Some h)
      by (rewrite Hview; apply list_lookup_middle; reflexivity).
    unfold view in Hv. apply lookup_take_Some in Hv. tauto. }
  rewrite Hmc0.
  destruct (dele_loop_prefix e (sy_dele a) (length pre) (S (length post))
              0 ctx0 [])
    as (ctx1 & evs & ops & Hloop & Hhd & Hmc & Hpd & Htr & Hcmd & Hb).
  { unfold ctx_ok in Hok. simpl. lia. }
  { rewrite drop_0. simpl. rewrite Hpre. exact Hall. }
  simpl in Hloop, Hcmd, Hb. rewrite drop_0, Hpre in Hcmd, Hb.
  rewrite Hloop. cbn [dele_loop]. simpl.
  rewrite Hhd. simpl. rewrite Hh. simpl. rewrite Hdel, Hreply. simpl.
  rewrite dele_loop_stopped by lia. simpl.
  destruct (USE_HCACHE e && changed h) eqn:Hch; simpl.
  - eexists _, _, (evs ++ [Sent (DELE (refno h)); HcacheStore (data h);
                           Error line]).
    split; [reflexivity|]. simpl. rewrite Htr, Hpd, Hhd. simpl.
    rewrite <- !app_assoc, !commands_of_app, Hcmd, Hb, last_app. simpl.
    split_and!; auto.
  - eexists _, _, (evs ++ [Sent (DELE (refno h)); Error line]).
    split; [reflexivity|]. simpl. rewrite Htr, Hpd, Hhd. simpl.
    rewrite <- !app_assoc, !commands_of_app, Hcmd, Hb, last_app. simpl.
    split_and!; auto.
Qed.

Lemma sync_commits_deletions_witness :
  status (pop_data mailbox_to_sync) = POP_CONNECTED ∧
  ctx_ok mailbox_to_sync ∧
  Forall (λ h, to_delete h = true ->
               is_ok (sy_dele accepting (refno h)) = true)
         (view mailbox_to_sync) ∧
  is_ok (sy_quit accepting) = true ∧
  ∃ ctx' ops evs,
    pop_sync_mailbox Scenario.env0 (accepting :: []) mailbox_to_sync
      = Some (0, ctx', ops) ∧
    trace ctx' = trace mailbox_to_sync ++ evs ∧
    commands_of evs
      = ((λ h, DELE (refno h)) <$> doomed (view mailbox_to_sync)) ++ [QUIT] ∧
    bcache_deletions ops = data <$> doomed (view mailbox_to_sync) ∧
    status (pop_data ctx') = POP_DISCONNECTED ∧
    check_time (pop_data ctx') = 0 ∧
    hdrs ctx' = hdrs mailbox_to_sync ∧
    msgcount ctx' = msgcount mailbox_to_sync ∧
    Forall (λ c, cache_path c = None) (cache (pop_data ctx')).
Proof.
  assert (H1 : status (pop_data mailbox_to_sync) = POP_CONNECTED)
    by reflexivity.
  assert (H2 : ctx_ok mailbox_to_sync) by (unfold ctx_ok; simpl; lia).
  assert (H3 : Forall (λ h, to_delete h = true ->
                            is_ok (sy_dele accepting (refno h)) = true)
                      (view mailbox_to_sync))
    by (repeat constructor).
  assert (H4 : is_ok (sy_quit accepting) = true) by reflexivity.
  split; [exact H1|]. split; [exact H2|]. split; [exact H3|].
  split; [exact H4|].
  exact (sync_commits_deletions Scenario.env0 accepting [] mailbox_to_sync
           H1 H2 H3 H4).
Defined.

Lemma sync_stops_at_refusal_witness :
  let h := set_deleted (Scenario.hdr "AAA" 1 0) true in
  status (pop_data mailbox_to_sync) = POP_CONNECTED ∧
  ctx_ok mailbox_to_sync ∧
  view mailbox_to_sync = [] ++ h :: [Scenario.hdr "BBB" 2 1] ∧
  Forall (λ h, to_delete h = true ->
               is_ok (sy_dele refusing (refno h)) = true) [] ∧
  to_delete h = true ∧
  sy_dele refusing (refno h) = ReplyErr "-ERR no such message" ∧
  ∃ ctx' ops evs,
    pop_sync_mailbox Scenario.env0 (refusing :: []) mailbox_to_sync
      = Some (-1, ctx', ops) ∧
    trace ctx' = trace mailbox_to_sync ++ evs ∧
    commands_of evs
      = ((λ h, DELE (refno h)) <$> doomed []) ++ [DELE (refno h)] ∧
    last evs = Some (Error "-ERR no such message") ∧
    bcache_deletions ops = data <$> doomed [] ∧
    status (pop_data ctx') = POP_CONNECTED ∧
    check_time (pop_data ctx') = 0 ∧
    cache (pop_data ctx') = cache (pop_data mailbox_to_sync) ∧
    hdrs ctx' = hdrs mailbox_to_sync.
Proof.
  intros h.
  assert (H1 : status (pop_data mailbox_to_sync) = POP_CONNECTED)
    by reflexivity.
  assert (H2 : ctx_ok mailbox_to_sync) by (unfold ctx_ok; simpl; lia).
  assert (H3 : view mailbox_to_sync = [] ++ h :: [Scenario.hdr "BBB" 2 1])
    by reflexivity.
  assert (H4 : Forall (λ h, to_delete h = true ->
                            is_ok (sy_dele refusing (refno h)) = true) [])
    by constructor.
  assert (H5 : to_delete h = true) by reflexivity.
  assert (H6 : sy_dele refusing (refno h) = ReplyErr "-ERR no such message")
    by reflexivity.
  split; [exact H1|]. split; [exact H2|]. split; [exact H3|].
  split; [exact H4|]. split; [exact H5|]. split; [exact H6|].
  exact (sync_stops_at_refusal Scenario.env0 refusing [] mailbox_to_sync
           [] [Scenario.hdr "BBB" 2 1] h _ H1 H2 H3 H4 H5 H6).
Defined.

End PopOpsFacts.

(* ===================================================================== *)
(** * The POP driver: the view and the fallback ring *)
(* ===================================================================== *)

Module PopViewFacts.
Import Pop PopOps.

(** ** fetch-headers keeps the UIDLs of the view distinct *)

Lemma find_uidl_fresh (uidl : string) (ctx : Context) :
  find_uidl uidl ctx = msgcount ctx -> ctx_ok ctx -> uidl ∉ uidls ctx.
Proof.
  unfold find_uidl, uidls, view. intros Hfind Hok.
  destruct (list_find _ _) as [[i h]|] eqn:Hlf.
  - apply list_find_Some in Hlf as (Hl & _).
    apply lookup_lt_Some in Hl. rewrite length_take in Hl. lia.
  - apply list_find_None in Hlf. intros Hin.
    apply list_elem_of_fmap in Hin as (h & Hu & Hh).
    eapply (proj1 (Forall_forall _ _) Hlf); [exact Hh|].
    unfold mutt_str_strcmp_eq. simpl. apply String.eqb_eq. exact Hu.
Qed.

Lemma uidls_insert_same (ctx : Context) (i : nat)
    (h h' : Header) :
  hdrs ctx !! i = Some h -> uidl_of h' = uidl_of h ->
  uidl_of <$> take (msgcount ctx) (<[i := h']> (hdrs ctx)) = uidls ctx.
Proof.
  intros Hi Hu. unfold uidls, view.
  rewrite !fmap_take, list_fmap_insert, Hu.
  rewrite list_insert_id; [reflexivity|].
  rewrite list_lookup_fmap, Hi. reflexivity.
Qed.

(** One line of the listing. *)
Lemma fetch_uidl_keeps (line : string) (ctx0 ctx : Context) :
  keeps_uidls ctx0 ctx -> keeps_uidls ctx0 (snd (fetch_uidl line ctx)).
Proof.
  intros (Hok & Hnd & Hpre). unfold fetch_uidl.
  destruct (parse_uidl_line line) as [[idx uidl]|]; [|repeat split; auto].
  destruct (PopFacts.find_uidl_bound uidl ctx) as [Hnew|(Hlt & h & Hh)].
  - (* a new record *)
    pose proof (find_uidl_fresh uidl ctx Hnew Hok) as Hfresh.
    rewrite Hnew, Nat.eqb_refl. simpl.
    set (x := set_data mutt_new_header (Some uidl)).
    destruct (PopFacts.put_hdr_lookup (hdrs ctx) (msgcount ctx) x
                (set_index (set_refno x idx) (to_int (idx - 1))) Hok)
      as (Hx & Hlen & _ & _).
    destruct (PopFacts.put_hdr_view (hdrs ctx) (msgcount ctx) x
                (set_index (set_refno x idx) (to_int (idx - 1))) Hok) as (_ & Hview).
    rewrite Hx.
    assert (Hu : uidls (with_hdrs
                 (with_msgcount (with_hdrs ctx (put_hdr (hdrs ctx) (msgcount ctx) x))
                                (S (msgcount ctx)))
                 (<[msgcount ctx := set_index (set_refno x idx) (to_int (idx - 1))]>
                    (put_hdr (hdrs ctx) (msgcount ctx) x)))
               = uidls ctx ++ [uidl]).
    { unfold uidls, view. simpl. rewrite Hview, fmap_app. reflexivity. }
    split_and!.
    + unfold ctx_ok. simpl. exact Hlen.
    + rewrite Hu. apply NoDup_app. split_and!; auto.
      * intros y Hy Hy'. apply list_elem_of_singleton in Hy'. subst. auto.
      * apply NoDup_singleton.
    + rewrite Hu. apply prefix_app_r. exact Hpre.
  - (* a record of the view *)
    assert (Hne : (find_uidl uidl ctx =? msgcount ctx)%nat = false)
      by (apply Nat.eqb_neq; lia).
    rewrite Hne, Hh.
    set (ctx1 := if negb (index h =? to_int (idx - 1))
                 then with_pop_data ctx (set_clear_cache (pop_data ctx) true)
                 else ctx).
    assert (H1 : hdrs ctx1 = hdrs ctx ∧ msgcount ctx1 = msgcount ctx)
      by (subst ctx1; destruct (negb (index h =? to_int (idx - 1))); auto).
    destruct H1 as [Hhd Hmc]. rewrite Hhd, Hh. simpl.
    assert (Hu : uidls (with_hdrs ctx1
                 (<[find_uidl uidl ctx := set_index (set_refno h idx) (to_int (idx - 1))]>
                    (hdrs ctx))) = uidls ctx).
    { unfold uidls at 1, view. simpl. rewrite Hmc.
      eapply uidls_insert_same; [exact Hh | reflexivity]. }
    split_and!.
    + unfold ctx_ok. simpl. rewrite length_insert, Hmc. exact Hok.
    + rewrite Hu. exact Hnd.
    + rewrite Hu. exact Hpre.
Qed.

Lemma feed_uidl_keeps (ctx0 : Context) (lines : list string) :
  ∀ ret ctx, keeps_uidls ctx0 ctx ->
  keeps_uidls ctx0 (snd (feed_lines fetch_uidl lines ret ctx)).
Proof.
  induction lines as [|l lines IH]; intros ret ctx Hk; [exact Hk|].
  simpl. pose proof (fetch_uidl_keeps (unstuff l) ctx0 ctx Hk) as Hk'.
  destruct (fetch_uidl (unstuff l) ctx) as [r ctx']. apply IH. exact Hk'.
Qed.

Lemma uidls_length (ctx : Context) :
  ctx_ok ctx -> length (uidls ctx) = msgcount ctx.
Proof.
  unfold uidls, view, ctx_ok. intros H.
  rewrite length_fmap, length_take. lia.
Qed.

Lemma uidls_forget (ctx c : Context) :
  ctx_ok ctx -> hdrs c = forget_refnos (msgcount ctx) (hdrs ctx) ->
  msgcount c = msgcount ctx -> uidls c = uidls ctx.
Proof.
  unfold ctx_ok, uidls, view. intros Hok -> ->. unfold forget_refnos.
  rewrite take_app_length' by (rewrite length_fmap, length_take; lia).
  rewrite <- list_fmap_compose. reflexivity.
Qed.

(** The first part of [pop_fetch_headers]. *)
Lemma uidl_listing_keeps (srv : Server) (now : Z) (ctx : Context) :
  ctx_ok ctx -> NoDup (uidls ctx) ->
  keeps_uidls ctx (snd (uidl_listing srv now ctx)).
Proof.
  intros Hok Hnd. unfold uidl_listing.
  set (ctx0 := emit _ (Sent UIDL)).
  assert (Hu0 : uidls ctx0 = uidls ctx)
    by (apply uidls_forget; auto).
  assert (Hk0 : keeps_uidls ctx ctx0).
  { split_and!.
    - unfold ctx_ok. subst ctx0. simpl.
      rewrite PopFacts.length_forget_refnos. exact Hok.
    - rewrite Hu0. exact Hnd.
    - rewrite Hu0. reflexivity. }
  unfold pop_fetch_data. destruct (srv_uidl srv) as [line| |lines complete].
  - simpl. exact Hk0.
  - simpl. exact Hk0.
  - pose proof (feed_uidl_keeps ctx lines 0 ctx0 Hk0) as Hk.
    destruct (feed_lines fetch_uidl lines 0 ctx0) as [ret ctx1].
    destruct complete; exact Hk.
Qed.

Lemma uidl_listing_keeps_ok (srv : Server) (now : Z) (ctx : Context) :
  ctx_ok ctx ->
  ctx_ok (snd (uidl_listing srv now ctx)) ∧
  (msgcount ctx <= msgcount (snd (uidl_listing srv now ctx)))%nat.
Proof.
  intros Hok. unfold uidl_listing.
  set (ctx0 := emit _ (Sent UIDL)).
  assert (H0 : ctx_ok ctx0 ∧ (msgcount ctx <= msgcount ctx0)%nat).
  { unfold ctx_ok. subst ctx0. simpl.
    rewrite PopFacts.length_forget_refnos. split; [exact Hok|lia]. }
  unfold pop_fetch_data. destruct (srv_uidl srv) as [line| |lines complete];
    try exact H0.
  assert (Hfeed : ∀ ls ret c, ctx_ok c -> (msgcount ctx <= msgcount c)%nat ->
            ctx_ok (snd (feed_lines fetch_uidl ls ret c)) ∧
            (msgcount ctx <= msgcount (snd (feed_lines fetch_uidl ls ret c)))%nat).
  { induction ls as [|l ls IH]; intros ret c Hc Hm; [auto|]. simpl.
    pose proof (PopFacts.fetch_uidl_effect (unstuff l) c Hc) as (Hb & _).
    destruct (fetch_uidl (unstuff l) c) as [r c']. simpl in Hb.
    apply IH; unfold ctx_ok; lia. }
  destruct H0 as [Hc0 Hm0].
  pose proof (Hfeed lines 0 ctx0 Hc0 Hm0) as Hf.
  destruct (feed_lines fetch_uidl lines 0 ctx0) as [ret ctx1].
  destruct complete; exact Hf.
Qed.

(** The loop over the new records leaves every UIDL where it is. *)
Lemma read_new_headers_keys (e : Env) (srv : Server) (n : nat) :
  ∀ i ret hc ctx,
  let ctx4 := snd (read_new_headers e srv n i ret hc ctx) in
  uidl_of <$> hdrs ctx4 = uidl_of <$> hdrs ctx ∧
  (msgcount ctx <= msgcount ctx4 <= msgcount ctx + n)%nat.
Proof.
  induction n as [|n IH]; intros i ret hc ctx; simpl; [split; [auto|lia]|].
  destruct (hdrs ctx !! i) as [h|] eqn:Hh; [|simpl; split; [auto|lia]].
  set (step := match (if USE_HCACHE e then hcache_fetch e (data h) else None)
               with Some restored => _ | None => _ end).
  assert (Hstep : let '(ret1, h1, ctx1, hc1) := step in
                  frame ctx ctx1 ∧ data h1 = data h).
  { subst step.
    destruct (if USE_HCACHE e then hcache_fetch e (data h) else None).
    - split; [apply PopFacts.frame_refl | reflexivity].
    - pose proof (PopFacts.pop_read_header_frame e srv h ctx) as Hf.
      destruct (pop_read_header e srv h ctx) as [[rc h'] ctx'].
      destruct Hf as (Hf & _ & _ & Hd & _).
      split; [|exact Hd].
      destruct ((0 <=? rc) && USE_HCACHE e); auto.
      eapply PopFacts.frame_trans; [exact Hf | apply PopFacts.frame_emit]. }
  destruct step as [[[ret1 h1] ctx1] hc1].
  destruct Hstep as [(Hhd & Hmc & _) Hd1].
  assert (Hins : ∀ h2, data h2 = data h1 ->
            uidl_of <$> <[i := h2]> (hdrs ctx1) = uidl_of <$> hdrs ctx).
  { intros h2 Hd2. rewrite list_fmap_insert, Hhd.
    apply list_insert_id. rewrite list_lookup_fmap, Hh. simpl.
    unfold uidl_of. rewrite Hd2, Hd1. reflexivity. }
  destruct (ret1 <? 0).
  - simpl. split; [apply Hins; reflexivity | lia].
  - match goal with
    | |- context [read_new_headers e srv n (S i) ret1 hc1 ?c] =>
        destruct (IH (S i) ret1 hc1 c) as [Hk Hm]
    end.
    simpl in Hk, Hm. cbv zeta. rewrite Hk. split; [|lia].
    apply Hins.
    destruct hc1, (bcache_exists e (data h1)), (MarkOld e); reflexivity.
Qed.

(** X15.  [pop_fetch_headers] keeps the UIDLs of the mailbox view pairwise
    distinct and never moves a record: whether it succeeds or fails, if no
    two records of the view had the same UIDL before the call then none
    have after it, the view still starts with the UIDLs it had, in their
    order, and the header array holds every record the count promises. *)
Theorem fetch_headers_keeps_uidls_distinct (e : Env) (srv : Server)
    (now : Z) (ctx : Context) :
  ctx_ok ctx -> NoDup (uidls ctx) ->
  let ctx' := snd (pop_fetch_headers e srv now ctx) in
  ctx_ok ctx' ∧ NoDup (uidls ctx') ∧ uidls ctx `prefix_of` uidls ctx'.
Proof.
  intros Hok Hnd.
  pose proof (uidl_listing_keeps srv now ctx Hok Hnd) as (Hok1 & Hnd1 & Hpre1).
  unfold pop_fetch_headers.
  destruct (uidl_listing srv now ctx) as [ret ctx1]. simpl in *.
  pose proof (uidls_length ctx Hok) as Hl0.
  pose proof (uidls_length ctx1 Hok1) as Hl1.
  pose proof (prefix_length _ _ Hpre1) as Hle.
  rewrite Hl0, Hl1 in Hle.
  set (ctx3 := with_pop_data (with_msgcount ctx1 (msgcount ctx)) _).
  (* the array afterwards holds the same UIDLs; the count lies between the
     old and the new one *)
  assert (Hfin : let ctx' := snd (finish_headers e srv (msgcount ctx)
                                    (msgcount ctx1) ret ctx3) in
    ∃ m, (msgcount ctx <= m <= msgcount ctx1)%nat ∧ msgcount ctx' = m ∧
         uidl_of <$> take m (hdrs ctx') = uidl_of <$> take m (hdrs ctx1) ∧
         (m <= length (hdrs ctx'))%nat).
  { unfold finish_headers.
    set (body := if ret =? 0 then _ else _).
    assert (Hbody : uidl_of <$> hdrs (snd body) = uidl_of <$> hdrs ctx1 ∧
                    (msgcount ctx <= msgcount (snd body) <= msgcount ctx1)%nat).
    { subst body. destruct (ret =? 0); [|simpl; split; [auto|lia]].
      rewrite PopFacts.mark_lost_eq. cbv beta iota zeta.
      match goal with
      | |- context [read_new_headers e srv ?n ?i ret false ?c] =>
          pose proof (read_new_headers_keys e srv n i ret false c) as [Hk Hm];
          destruct (read_new_headers e srv n i ret false c) as [r4 c4]
      end.
      simpl in Hk, Hm |- *. split; [|destruct (_ >? 0); simpl in Hm; lia].
      rewrite Hk.
      assert (Hmark : uidl_of <$> (mark <$> take (msgcount ctx) (hdrs ctx1)) ++
                        drop (msgcount ctx) (hdrs ctx1)
                      = uidl_of <$> hdrs ctx1).
      { rewrite fmap_app, <- list_fmap_compose.
        rewrite <- (take_drop (msgcount ctx) (hdrs ctx1)) at 3.
        rewrite fmap_app. f_equal. apply list_fmap_ext.
        intros j h _. unfold mark. simpl. destruct (refno h =? -1); reflexivity. }
      destruct (_ >? 0); simpl; exact Hmark. }
    destruct body as [ret' ctx4]. simpl in Hbody.
    destruct Hbody as [Hk Hm].
    assert (Hlen : length (hdrs ctx4) = length (hdrs ctx1)).
    { apply (f_equal length) in Hk. rewrite !length_fmap in Hk. exact Hk. }
    exists (msgcount ctx4). split; [exact Hm|].
    unfold ctx_ok in Hok1.
    destruct (ret' <? 0); simpl.
    - split; [reflexivity|]. rewrite take_take, Nat.min_id.
      rewrite !fmap_take, Hk. split; [reflexivity|].
      rewrite length_take. lia.
    - destruct (MessageCacheClean e); simpl;
        (split; [reflexivity|]); rewrite !fmap_take, Hk;
        (split; [reflexivity|lia]). }
  cbv zeta in Hfin. destruct Hfin as (m & Hm & Hmc & Hk & Hlen).
  destruct (finish_headers e srv (msgcount ctx) (msgcount ctx1) ret ctx3)
    as [ret' ctx']. simpl in *.
  assert (Hu : uidls ctx' = take m (uidls ctx1)).
  { unfold uidls, view. rewrite Hmc, Hk, !fmap_take, take_take.
    f_equal. lia. }
  split_and!.
  - unfold ctx_ok. lia.
  - rewrite Hu. rewrite <- (take_drop m (uidls ctx1)) in Hnd1.
    apply NoDup_app in Hnd1. tauto.
  - rewrite Hu. destruct Hpre1 as [k Hk1].
    exists (take (m - msgcount ctx) k). rewrite Hk1.
    rewrite take_app, Hl0.
    rewrite take_ge by lia. reflexivity.
Qed.

Lemma uidl_listing_code (srv : Server) (now : Z) (ctx : Context) :
  fst (uidl_listing srv now ctx) = 0 ∨ fst (uidl_listing srv now ctx) < 0.
Proof.
  unfold uidl_listing, pop_fetch_data.
  destruct (srv_uidl srv) as [line| |lines complete]; simpl; try (right; lia).
  match goal with
  | |- context [feed_lines ?cb lines 0 ?s] =>
      pose proof (PopFacts.feed_lines_ret cb lines 0 s) as Hr;
      destruct (feed_lines cb lines 0 s) as [ret ctx1]
  end.
  simpl in *. destruct complete; simpl; [|right; lia].
  destruct Hr as [-> | ->]; [left; reflexivity | right; lia].
Qed.

(** X16.  When [pop_fetch_headers] succeeds, the value it returns is the
    number of records it added to the view: the message count has grown by
    exactly that much, and the return value is never negative on this
    path. *)
Theorem fetch_headers_returns_new_count (e : Env) (srv : Server) (now : Z)
    (ctx : Context) :
  ctx_ok ctx ->
  0 <= fst (pop_fetch_headers e srv now ctx) ->
  Z.of_nat (msgcount (snd (pop_fetch_headers e srv now ctx)))
  = Z.of_nat (msgcount ctx) + fst (pop_fetch_headers e srv now ctx).
Proof.
  intros Hok.
  pose proof (uidl_listing_keeps_ok srv now ctx Hok) as (Hok1 & Hle).
  pose proof (uidl_listing_code srv now ctx) as Hcode.
  unfold pop_fetch_headers.
  destruct (uidl_listing srv now ctx) as [ret ctx1]. simpl in *.
  set (ctx3 := with_pop_data (with_msgcount ctx1 (msgcount ctx)) _).
  unfold finish_headers.
  destruct Hcode as [-> | Hneg].
  - rewrite Z.eqb_refl, PopFacts.mark_lost_eq. cbv beta iota zeta.
    match goal with
    | |- context [read_new_headers e srv ?n ?i 0 false ?c] =>
        pose proof (PopFacts.read_new_headers_effect e srv n i 0 false c) as He;
        destruct (read_new_headers e srv n i 0 false c) as [r4 c4]
    end.
    destruct (r4 <? 0) eqn:Hr4; simpl.
    + apply Z.ltb_lt in Hr4. lia.
    + apply Z.ltb_ge in Hr4. intros _.
      destruct (He r4 c4 eq_refl) as (Hm & _); try lia.
      { destruct (_ >? 0); simpl; rewrite length_app, length_fmap,
          length_take, length_drop; unfold ctx_ok in Hok1; lia. }
      { destruct (_ >? 0); reflexivity. }
      destruct (MessageCacheClean e); simpl; lia.
  - replace (ret =? 0) with false by (symmetry; apply Z.eqb_neq; lia).
    replace (ret <? 0) with true by (symmetry; apply Z.ltb_lt; lia).
    simpl. lia.
Qed.

(** The theorems for the mailbox of scenario S3. *)
Lemma fetch_headers_keeps_uidls_distinct_witness :
  ctx_ok Scenario.mailbox3 ∧ NoDup (uidls Scenario.mailbox3) ∧
  let ctx' := snd (pop_fetch_headers Scenario.env0 Scenario.server_s3 100
                                     Scenario.mailbox3) in
  ctx_ok ctx' ∧ NoDup (uidls ctx') ∧
  uidls Scenario.mailbox3 `prefix_of` uidls ctx'.
Proof.
  assert (H1 : ctx_ok Scenario.mailbox3) by (unfold ctx_ok; simpl; lia).
  assert (H2 : NoDup (uidls Scenario.mailbox3))
    by (apply (bool_decide_unpack _); vm_compute; exact I).
  split; [exact H1|]. split; [exact H2|].
  exact (fetch_headers_keeps_uidls_distinct Scenario.env0 Scenario.server_s3
           100 Scenario.mailbox3 H1 H2).
Defined.

Lemma fetch_headers_returns_new_count_witness :
  ctx_ok Scenario.mailbox3 ∧
  0 <= fst (pop_fetch_headers Scenario.env0 server_new 100
                              Scenario.mailbox3) ∧
  Z.of_nat (msgcount (snd (pop_fetch_headers Scenario.env0 server_new
                                             100 Scenario.mailbox3)))
  = Z.of_nat (msgcount Scenario.mailbox3)
    + fst (pop_fetch_headers Scenario.env0 server_new 100
                             Scenario.mailbox3).
Proof.
  assert (H1 : ctx_ok Scenario.mailbox3) by (unfold ctx_ok; simpl; lia).
  assert (H2 : 0 <= fst (pop_fetch_headers Scenario.env0 server_new
                                           100 Scenario.mailbox3))
    by (vm_compute; discriminate).
  split; [exact H1|]. split; [exact H2|].
  exact (fetch_headers_returns_new_count Scenario.env0 server_new 100
           Scenario.mailbox3 H1 H2).
Defined.

(** ** The fallback ring of pop_fetch_message *)

Lemma fetch_to_file_complete (e : Env) (lines : list string) (ctx : Context) :
  write_ok e = true ->
  fetch_to_file e (ReplyOk lines true) ctx = (0, (ctx, unstuff <$> lines)).
Proof.
  intros Hw. unfold fetch_to_file, pop_fetch_data.
  assert (Hfeed : ∀ ls f,
    feed_lines
      (λ (line : string) (s : Context * list string),
         let '(ret, f') := fetch_message e line (snd s) in (ret, (fst s, f')))
      ls 0 (ctx, f) = (0, (ctx, f ++ (unstuff <$> ls)))).
  { induction ls as [|l ls IH]; intros f; simpl.
    - rewrite app_nil_r. reflexivity.
    - unfold fetch_message at 1. rewrite Hw. simpl.
      rewrite IH, <- app_assoc. reflexivity. }
  rewrite Hfeed. reflexivity.
Qed.

(** X17.  A message that [pop_fetch_message] fetched into the fallback
    ring (the body cache took neither a read nor a write) is served from
    the ring the next time: the second call returns the file recorded in
    the slot [index mod POP_CACHE_LEN], sends nothing to the server and
    needs no connection, and leaves the context as it is. *)
Theorem fetched_message_is_served_from_ring (e : Env) (a : Attempt)
    (rest later : list Attempt) (msgno : nat) (ctx : Context) (h : Header)
    (lines : list string) :
  hdrs ctx !! msgno = Some h ->
  bcache_get e (data h) = false -> at_bcache_put a = false ->
  tempfile_ok e = true -> write_ok e = true -> ring_open_ok e = true ->
  0 < POP_CACHE_LEN e ->
  Z.of_nat (length (cache (pop_data ctx))) = POP_CACHE_LEN e ->
  0 <= index h -> 0 <= refno h ->
  status (pop_data ctx) = POP_CONNECTED ->
  (∀ c, cache (pop_data ctx) !! Z.to_nat (Z.rem (index h) (POP_CACHE_LEN e))
          = Some c -> cache_path c = None) ->
  srv_retr (at_server a) (refno h) = ReplyOk lines true ->
  ∃ ctx',
    pop_fetch_message e (a :: rest) msgno ctx
      = Some (0, ctx', Some (Fetched (unstuff <$> lines))) ∧
    commands_of (drop (length (trace ctx)) (trace ctx')) = [RETR (refno h)] ∧
    pop_fetch_message e later msgno ctx'
      = Some (0, ctx', Some (FromRing (at_tempfile a))).
Proof.
  intros Hh Hget Hput Htmp Hw Hopen Hlen Hcache Hidx Hrefno Hst Hfree Hretr.
  set (r := Z.rem (index h) (POP_CACHE_LEN e)).
  assert (Hr : 0 <= r < POP_CACHE_LEN e) by (apply Z.rem_bound_pos; lia).
  destruct (lookup_lt_is_Some_2 (cache (pop_data ctx)) (Z.to_nat r))
    as [c Hc]; [lia|].
  pose proof (Hfree c Hc) as Hnone.
  unfold pop_fetch_message at 1. rewrite Hh. simpl.
  unfold probe_caches. rewrite Hget. fold r.
  replace (r <? 0) with false by (symmetry; apply Z.ltb_ge; lia).
  rewrite Hc. simpl. rewrite Hnone.
  cbv beta iota delta [mbind option_bind]. cbn [fetch_loop].
  unfold pop_reconnect. rewrite Hst. simpl.
  rewrite Hh. simpl.
  replace (refno h <? 0) with false by (symmetry; apply Z.ltb_ge; lia).
  rewrite Hput, Htmp. simpl. rewrite Hretr.
  rewrite fetch_to_file_complete by exact Hw. simpl.
  eexists. split; [reflexivity|]. split.
  { simpl. rewrite <- app_assoc, drop_app_length. reflexivity. }
  unfold pop_fetch_message. simpl.
  rewrite list_lookup_insert_eq by (apply lookup_lt_Some in Hh; exact Hh).
  simpl. unfold probe_caches. simpl. rewrite Hget. fold r.
  replace (r <? 0) with false by (symmetry; apply Z.ltb_ge; lia).
  rewrite list_lookup_insert_eq by (apply lookup_lt_Some in Hc; exact Hc).
  simpl. rewrite Z.eqb_refl, Hopen. reflexivity.
Qed.

Lemma fetched_message_is_served_from_ring_witness :
  let e := Scenario.env0 in
  let a := round_without_bcache in
  let ctx := Scenario.mailbox3 in
  let h := Scenario.hdr "BBB" 2 1 in
  hdrs ctx !! 1%nat = Some h ∧
  bcache_get e (data h) = false ∧ at_bcache_put a = false ∧
  tempfile_ok e = true ∧ write_ok e = true ∧ ring_open_ok e = true ∧
  0 < POP_CACHE_LEN e ∧
  Z.of_nat (length (cache (pop_data ctx))) = POP_CACHE_LEN e ∧
  0 <= index h ∧ 0 <= refno h ∧
  status (pop_data ctx) = POP_CONNECTED ∧
  (∀ c, cache (pop_data ctx) !! Z.to_nat (Z.rem (index h) (POP_CACHE_LEN e))
          = Some c -> cache_path c = None) ∧
  srv_retr (at_server a) (refno h) = ReplyOk [] true ∧
  ∃ ctx',
    pop_fetch_message e (a :: []) 1 ctx
      = Some (0, ctx', Some (Fetched (unstuff <$> []))) ∧
    commands_of (drop (length (trace ctx)) (trace ctx')) = [RETR (refno h)] ∧
    pop_fetch_message e [] 1 ctx'
      = Some (0, ctx', Some (FromRing (at_tempfile a))).
Proof.
  intros e a ctx h.
  assert (H1 : hdrs ctx !! 1%nat = Some h) by reflexivity.
  assert (H2 : bcache_get e (data h) = false) by reflexivity.
  assert (H3 : at_bcache_put a = false) by reflexivity.
  assert (H4 : tempfile_ok e = true) by reflexivity.
  assert (H5 : write_ok e = true) by reflexivity.
  assert (H6 : ring_open_ok e = true) by reflexivity.
  assert (H7 : 0 < POP_CACHE_LEN e) by (simpl; lia).
  assert (H8 : Z.of_nat (length (cache (pop_data ctx))) = POP_CACHE_LEN e)
    by reflexivity.
  assert (H9 : 0 <= index h) by (simpl; lia).
  assert (H10 : 0 <= refno h) by (simpl; lia).
  assert (H11 : status (pop_data ctx) = POP_CONNECTED) by reflexivity.
  assert (H12 : ∀ c, cache (pop_data ctx)
                       !! Z.to_nat (Z.rem (index h) (POP_CACHE_LEN e))
                     = Some c -> cache_path c = None)
    by (intros c [= <-]; reflexivity).
  assert (H13 : srv_retr (at_server a) (refno h) = ReplyOk [] true)
    by reflexivity.
  repeat (split; [assumption|]).
  exact (fetched_message_is_served_from_ring e a [] [] 1 ctx h []
           H1 H2 H3 H4 H5 H6 H7 H8 H9 H10 H11 H12 H13).
Defined.

(** X18.  The variable [bcache] of [pop_fetch_message] is cleared for good
    once the body cache refuses a write.  Round one writes to a temporary
    file and its RETR loses the connection: the session is marked
    disconnected and the file is unlinked ([mid] is the context then).  If
    the reconnect of round two succeeds and leaves the record a refno that
    is not negative, the body cache gives a stream and RETR delivers the
    message, then the call returns 0 but commits nothing to the body cache,
    and the ring slot of the record names the temporary file of round one,
    which this call has already unlinked. *)
Theorem retry_after_refused_bcache_write (e : Env) (a1 a2 : Attempt)
    (rest : list Attempt) (msgno : nat) (ctx : Context) (h : Header)
    (rc : Z) (ctx1 : Context) (h1 : Header) (lines : list string) :
  let mid :=
    emit (with_pop_data (emit ctx (Sent (RETR (refno h))))
                        (set_status (pop_data ctx) POP_DISCONNECTED))
         (Unlink (at_tempfile a1)) in
  hdrs ctx !! msgno = Some h ->
  bcache_get e (data h) = false ->
  at_bcache_put a1 = false -> at_bcache_put a2 = true ->
  tempfile_ok e = true -> write_ok e = true ->
  0 < POP_CACHE_LEN e ->
  Z.of_nat (length (cache (pop_data ctx))) = POP_CACHE_LEN e ->
  0 <= index h -> 0 <= refno h ->
  status (pop_data ctx) = POP_CONNECTED ->
  (∀ c, cache (pop_data ctx) !! Z.to_nat (Z.rem (index h) (POP_CACHE_LEN e))
          = Some c -> cache_path c = None) ->
  srv_retr (at_server a1) (refno h) = ReplyLost ->
  pop_reconnect (at_reconnect a2) mid = (rc, ctx1) -> 0 <= rc ->
  hdrs ctx1 !! msgno = Some h1 -> 0 <= refno h1 ->
  srv_retr (at_server a2) (refno h1) = ReplyOk lines true ->
  ∃ ctx',
    pop_fetch_message e (a1 :: a2 :: rest) msgno ctx
      = Some (0, ctx', Some (Fetched (unstuff <$> lines))) ∧
    (∀ u, BcacheCommit u ∉ drop (length (trace ctx)) (trace ctx')) ∧
    Unlink (at_tempfile a1) ∈ drop (length (trace ctx)) (trace ctx') ∧
    cache (pop_data ctx') !! Z.to_nat (Z.rem (index h) (POP_CACHE_LEN e))
      = Some (mkPopCache (index h) (Some (at_tempfile a1))).
Proof.
  intros mid Hh Hget Hput1 Hput2 Htmp Hw Hlen Hcache Hidx Hrefno Hst Hfree
         Hretr1 Hrec Hrc Hh1 Hrefno1 Hretr2.
  set (r := Z.rem (index h) (POP_CACHE_LEN e)).
  assert (Hr : 0 <= r < POP_CACHE_LEN e) by (apply Z.rem_bound_pos; lia).
  destruct (lookup_lt_is_Some_2 (cache (pop_data ctx)) (Z.to_nat r))
    as [c Hc]; [lia|].
  pose proof (Hfree c Hc) as Hnone.
  pose proof (PopFacts.pop_reconnect_frame (at_reconnect a2) mid) as F.
  rewrite Hrec in F. destruct F as (Flen & Fhdrs & evs & Ftrace & Fevs).
  simpl in Flen, Fhdrs, Ftrace.
  destruct (Fhdrs msgno h1 Hh1) as (h0 & Hh0 & Hindex).
  assert (h0 = h) as -> by congruence.
  unfold pop_fetch_message. rewrite Hh. simpl.
  unfold probe_caches. rewrite Hget. fold r.
  replace (r <? 0) with false by (symmetry; apply Z.ltb_ge; lia).
  rewrite Hc. simpl. rewrite Hnone.
  cbv beta iota delta [mbind option_bind]. cbn [fetch_loop].
  unfold pop_reconnect at 1. rewrite Hst. simpl.
  rewrite Hh. simpl.
  replace (refno h <? 0) with false by (symmetry; apply Z.ltb_ge; lia).
  rewrite Hput1, Htmp. simpl. rewrite Hretr1. simpl.
  match goal with |- context [pop_reconnect (at_reconnect a2) ?c0] =>
    change c0 with mid
  end.
  rewrite Hrec.
  replace (rc <? 0) with false by (symmetry; apply Z.ltb_ge; lia).
  rewrite Hh1. simpl.
  replace (refno h1 <? 0) with false by (symmetry; apply Z.ltb_ge; lia).
  rewrite Hput2. simpl. rewrite Hretr2.
  rewrite fetch_to_file_complete by exact Hw. simpl.
  eexists. split; [reflexivity|]. simpl.
  rewrite Ftrace, <- !app_assoc, drop_app_length. split_and!.
  - intros u Hin.
    repeat (apply elem_of_cons in Hin as [Hin|Hin]; [discriminate Hin|]).
    apply elem_of_app in Hin as [Hin|Hin].
    + rewrite Forall_forall in Fevs. exact (Fevs _ Hin u eq_refl).
    + repeat (apply elem_of_cons in Hin as [Hin|Hin]; [discriminate Hin|]).
      inversion Hin.
  - apply list_elem_of_further, list_elem_of_here.
  - rewrite Hindex. apply list_lookup_insert_eq.
    rewrite Flen. apply lookup_lt_Some in Hc. exact Hc.
Qed.

Lemma retry_after_refused_bcache_write_witness :
  let e := Scenario.env0 in
  let ctx := Scenario.mailbox3 in
  let h := Scenario.hdr "BBB" 2 1 in
  let mid :=
    emit (with_pop_data (emit ctx (Sent (RETR (refno h))))
                        (set_status (pop_data ctx) POP_DISCONNECTED))
         (Unlink (at_tempfile round_dropped)) in
  let ctx1 := snd (pop_reconnect (at_reconnect round_retry) mid) in
  hdrs ctx !! 1%nat = Some h ∧
  bcache_get e (data h) = false ∧
  at_bcache_put round_dropped = false ∧ at_bcache_put round_retry = true ∧
  tempfile_ok e = true ∧ write_ok e = true ∧
  0 < POP_CACHE_LEN e ∧
  Z.of_nat (length (cache (pop_data ctx))) = POP_CACHE_LEN e ∧
  0 <= index h ∧ 0 <= refno h ∧
  status (pop_data ctx) = POP_CONNECTED ∧
  (∀ c, cache (pop_data ctx) !! Z.to_nat (Z.rem (index h) (POP_CACHE_LEN e))
          = Some c -> cache_path c = None) ∧
  srv_retr (at_server round_dropped) (refno h) = ReplyLost ∧
  pop_reconnect (at_reconnect round_retry) mid = (0, ctx1) ∧ 0 <= 0 ∧
  hdrs ctx1 !! 1%nat = Some h ∧ 0 <= refno h ∧
  srv_retr (at_server round_retry) (refno h) = ReplyOk [] true ∧
  ∃ ctx',
    pop_fetch_message e (round_dropped :: round_retry :: []) 1 ctx
      = Some (0, ctx', Some (Fetched (unstuff <$> []))) ∧
    (∀ u, BcacheCommit u ∉ drop (length (trace ctx)) (trace ctx')) ∧
    Unlink (at_tempfile round_dropped)
      ∈ drop (length (trace ctx)) (trace ctx') ∧
    cache (pop_data ctx') !! Z.to_nat (Z.rem (index h) (POP_CACHE_LEN e))
      = Some (mkPopCache (index h) (Some (at_tempfile round_dropped))).
Proof.
  intros e ctx h mid ctx1.
  assert (H1 : hdrs ctx !! 1%nat = Some h) by reflexivity.
  assert (H2 : bcache_get e (data h) = false) by reflexivity.
  assert (H3 : at_bcache_put round_dropped = false) by reflexivity.
  assert (H3' : at_bcache_put round_retry = true) by reflexivity.
  assert (H4 : tempfile_ok e = true) by reflexivity.
  assert (H5 : write_ok e = true) by reflexivity.
  assert (H7 : 0 < POP_CACHE_LEN e) by (simpl; lia).
  assert (H8 : Z.of_nat (length (cache (pop_data ctx))) = POP_CACHE_LEN e)
    by reflexivity.
  assert (H9 : 0 <= index h) by (simpl; lia).
  assert (H10 : 0 <= refno h) by (simpl; lia).
  assert (H11 : status (pop_data ctx) = POP_CONNECTED) by reflexivity.
  assert (H12 : ∀ c, cache (pop_data ctx)
                       !! Z.to_nat (Z.rem (index h) (POP_CACHE_LEN e))
                     = Some c -> cache_path c = None)
    by (intros c [= <-]; reflexivity).
  assert (H13 : srv_retr (at_server round_dropped) (refno h) = ReplyLost)
    by reflexivity.
  assert (H14 : pop_reconnect (at_reconnect round_retry) mid = (0, ctx1))
    by reflexivity.
  assert (H15 : 0 <= 0) by lia.
  assert (H16 : hdrs ctx1 !! 1%nat = Some h) by reflexivity.
  assert (H17 : srv_retr (at_server round_retry) (refno h) = ReplyOk [] true)
    by reflexivity.
  repeat (split; [assumption|]).
  exact (retry_after_refused_bcache_write e round_dropped round_retry [] 1 ctx
           h 0 ctx1 h [] H1 H2 H3 H3' H4 H5 H7 H8 H9 H10 H11 H12 H13 H14 H15
           H16 H10 H17).
Defined.

End PopViewFacts.

(* ===================================================================== *)
(** * TLS names, trust file and callback: properties *)
(* ===================================================================== *)

Module SslOpsFacts.
Import Ssl SslOps.

(** ** Host names *)

Lemma c_str_length (s : string) :
  (String.length (c_str s) <= String.length s)%nat.
Proof.
  induction s as [|x s IH]; simpl; [lia|].
  destruct (Ascii.eqb x NUL); simpl; lia.
Qed.

Lemma nul_free_iff (s : string) :
  mutt_str_strlen s = Z.of_nat (String.length s) ↔ nul_free s.
Proof.
  unfold mutt_str_strlen, nul_free. split.
  - intros H. apply Nat2Z.inj in H. induction s as [|x s IH]; [reflexivity|].
    simpl in *. destruct (Ascii.eqb x NUL); simpl in *; [lia|].
    f_equal. apply IH. lia.
  - intros ->. reflexivity.
Qed.

(** X19.  A certificate name that is no wildcard pattern matches a host
    name exactly when both are non-empty and equal up to ASCII case. *)
Theorem plain_name_matches_up_to_case (hostname certname : string) :
  is_wildcard certname = false ->
  hostname_match hostname certname = true ↔
  hostname <> EmptyString ∧ certname <> EmptyString ∧
  case_equal certname hostname.
Proof.
  unfold is_wildcard, hostname_match. intros ->.
  rewrite <- (SslFacts.strcasecmp_zero certname hostname).
  destruct (at_end certname) eqn:Hc; simpl.
  { destruct certname; [|discriminate]. split; [discriminate|tauto]. }
  destruct (at_end hostname) eqn:Hh; simpl.
  { destruct hostname; [|discriminate]. split; [discriminate|tauto]. }
  apply SslFacts.at_end_false in Hc, Hh.
  destruct (strcasecmp certname hostname =? 0) eqn:H; simpl.
  - apply Z.eqb_eq in H. tauto.
  - apply Z.eqb_neq in H. split; [discriminate|tauto].
Qed.

Lemma plain_name_matches_up_to_case_witness :
  is_wildcard "Mail.Example.COM" = false ∧
  (hostname_match "mail.example.com" "Mail.Example.COM" = true ↔
   "mail.example.com"%string <> EmptyString ∧
   "Mail.Example.COM"%string <> EmptyString ∧
   case_equal "Mail.Example.COM" "mail.example.com").
Proof.
  assert (H : is_wildcard "Mail.Example.COM" = false) by reflexivity.
  split; [exact H|].
  exact (plain_name_matches_up_to_case "mail.example.com" "Mail.Example.COM" H).
Defined.

(** X20.  [check_host] returns 1 exactly when a subjectAltName entry of
    type DNS, or else the common name of the subject, matches the host
    name (in its IDNA form when the conversion works) and holds no NUL
    byte: a name with an embedded NUL never vouches for a host.  The
    common name is consulted whenever no subjectAltName entry vouches,
    also when the certificate has such entries. *)
Theorem check_host_iff (cfg : Config) (c : X509) (hostname : string) :
  (fst (check_host cfg c hostname) = 1 ∨ fst (check_host cfg c hostname) = 0) ∧
  (fst (check_host cfg c hostname) = 1 ↔
   (∃ names n, subject_alt_names c = Some names ∧ n ∈ names ∧
               san_vouches cfg hostname n) ∨
   cn_vouches cfg hostname c).
Proof.
  unfold check_host. fold (ascii_host cfg hostname).
  set (ha := ascii_host cfg hostname).
  set (dns_matches := λ n : GENERAL_NAME, _).
  assert (Hdns : ∀ n, dns_matches n = true ↔ san_vouches cfg hostname n).
  { intros n. subst dns_matches. unfold san_vouches. cbv beta.
    rewrite !andb_true_iff, Z.eqb_eq, Z.leb_le, Z.eqb_eq, nul_free_iff.
    fold ha. split.
    - intros (((Ht & _) & Hn) & Hm). rewrite Hn in Hm. auto.
    - intros (Ht & Hn & Hm). rewrite Hn. split_and!; auto. lia. }
  set (san_found := match subject_alt_names c with
                    | None => false
                    | Some names => existsb dns_matches names
                    end).
  assert (Hsan : san_found = true ↔
            ∃ names n, subject_alt_names c = Some names ∧ n ∈ names ∧
                       san_vouches cfg hostname n).
  { subst san_found. destruct (subject_alt_names c) as [names|].
    - rewrite existsb_exists. split.
      + intros (n & Hin & Hn). exists names, n.
        rewrite list_elem_of_In. split_and!; auto. apply Hdns, Hn.
      + intros (names' & n & [= <-] & Hin & Hn). exists n.
        rewrite <- list_elem_of_In. split; [exact Hin | apply Hdns, Hn].
    - split; [discriminate|]. intros (? & ? & ? & _). discriminate. }
  destruct san_found eqn:Hfound.
  { simpl. split; [left; reflexivity|]. split; [intros _|reflexivity].
    left. apply Hsan. reflexivity. }
  assert (Hno : ¬ ∃ names n, subject_alt_names c = Some names ∧ n ∈ names ∧
                             san_vouches cfg hostname n)
    by (intros H; apply Hsan in H; discriminate).
  unfold cn_vouches.
  destruct (subject_name c) as [subject|].
  2: { simpl. split; [right; reflexivity|]. split; [discriminate|].
       intros [H|(? & ? & ? & _)]; [tauto|discriminate]. }
  destruct (get_text_by_NID subject NID_commonName) as [cn|] eqn:Hcn.
  2: { simpl. split; [right; reflexivity|]. split; [discriminate|].
       intros [H|(? & ? & [= <-] & ? & _)]; [tauto|congruence]. }
  replace (Z.of_nat (String.length cn) + 1 - 1)
    with (Z.of_nat (String.length cn)) by lia.
  destruct (mutt_str_strlen cn =? Z.of_nat (String.length cn)) eqn:Hlen.
  - apply Z.eqb_eq, nul_free_iff in Hlen. rewrite Hlen.
    destruct (hostname_match ha cn) eqn:Hm; simpl.
    + split; [left; reflexivity|]. split; [intros _|reflexivity].
      right. exists subject, cn. auto.
    + split; [right; reflexivity|]. split; [discriminate|].
      intros [H|(s' & cn' & [= <-] & Hcn' & _ & Hm')]; [tauto|].
      fold ha in Hm'. congruence.
  - apply Z.eqb_neq in Hlen. simpl.
    split; [right; reflexivity|]. split; [discriminate|].
    intros [H|(s' & cn' & [= <-] & Hcn' & Hn & _)]; [tauto|].
    apply nul_free_iff in Hn. congruence.
Qed.

(** ** The trust file *)

Lemma check_certificate_file_spec (cfg : Config) (now : Z)
    (peercert : X509) (st : State) :
  (check_certificate_file cfg now peercert st = 1 ∨
   check_certificate_file cfg now peercert st = 0) ∧
  (check_certificate_file cfg now peercert st = 1 ↔
   CertificateFile cfg <> None ∧
   ∃ certs c, trust_file st = Some certs ∧ c ∈ certs ∧
              byte_equal c peercert ∧ dates_accepted cfg c now).
Proof.
  unfold check_certificate_file.
  destruct (CertificateFile cfg) as [file|].
  2: { split; [auto|]. split; [discriminate|]. intros [H _]. congruence. }
  destruct (trust_file st) as [certs|].
  2: { split; [auto|]. split; [discriminate|].
       intros (_ & ? & ? & ? & _). discriminate. }
  destruct (sha256 peercert) as [peermd|] eqn:Hmd.
  2: { split; [auto|]. split; [discriminate|].
       intros (_ & ? & c & _ & _ & (_ & _ & md & _ & Hp) & _). congruence. }
  match goal with |- context [existsb ?p certs] => set (test := p) end.
  assert (Htest : ∀ c, test c = true ↔
                       byte_equal c peercert ∧ dates_accepted cfg c now).
  { intros c. subst test. cbv beta.
    rewrite andb_true_iff, TrustFacts.compare_certificates_spec,
      SslFacts.expiration_iff.
    unfold byte_equal, dates_accepted. split.
    - intros ((Hs & Hi & Hd) & Hv). split_and!; auto. exists peermd. auto.
    - intros ((Hs & Hi & md & Hc & Hp) & Hv). split_and!; auto. congruence. }
  destruct (existsb test certs) eqn:Hex.
  - split; [auto|]. split; [intros _|reflexivity]. split; [discriminate|].
    apply existsb_exists in Hex as (c & Hin & Hc).
    exists certs, c. rewrite list_elem_of_In.
    apply Htest in Hc as [Hb Hv]. auto.
  - split; [auto|]. split; [discriminate|].
    intros (_ & certs' & c & [= <-] & Hin & Hb & Hv).
    assert (existsb test certs = true); [|congruence].
    apply existsb_exists. exists c. rewrite <- list_elem_of_In.
    split; [exact Hin | apply Htest; auto].
Qed.

(** X21.  [check_certificate_file] vouches for a peer certificate exactly
    when a trust file is configured and readable and holds a certificate
    with the peer's subject name, issuer name and SHA-256 digest whose
    dates are acceptable: an entry of the trust file that has expired (or
    is not yet valid) vouches for nothing unless date verification is
    switched off. *)
Theorem trust_file_entry_must_be_valid (cfg : Config) (now : Z)
    (peercert : X509) (st : State) :
  (check_certificate_file cfg now peercert st = 1 ∨
   check_certificate_file cfg now peercert st = 0) ∧
  (check_certificate_file cfg now peercert st = 1 ↔
   CertificateFile cfg <> None ∧
   ∃ certs c, trust_file st = Some certs ∧ c ∈ certs ∧
              byte_equal c peercert ∧ dates_accepted cfg c now).
Proof. exact (check_certificate_file_spec cfg now peercert st). Qed.

(** ** The verification callback *)

Lemma trust_file_set_skip st b : trust_file (set_skip st b) = trust_file st.
Proof. unfold set_skip. destruct (ssl st); reflexivity. Qed.

Lemma trust_file_accept_once c st :
  trust_file (accept_once c st) = trust_file st.
Proof.
  unfold accept_once, ssl_cache_trusted_cert. simpl. apply trust_file_set_skip.
Qed.

Lemma ui_accept_once c st : ui (accept_once c st) = ui st.
Proof.
  unfold accept_once, ssl_cache_trusted_cert. simpl. apply SslFacts.ui_set_skip.
Qed.

Lemma expiration_frame cfg now c silent st :
  trust_file (snd (check_certificate_expiration cfg now c silent st))
  = trust_file st ∧
  (fst (check_certificate_expiration cfg now c silent st) = true ->
   snd (check_certificate_expiration cfg now c silent st) = st).
Proof.
  unfold check_certificate_expiration.
  repeat match goal with
         | |- context [if ?b then _ else _] => destruct b
         end; simpl; split; try reflexivity; discriminate.
Qed.

Lemma trust_file_by_digest cfg now c st :
  trust_file (snd (check_certificate_by_digest cfg now c st)) = trust_file st.
Proof.
  unfold check_certificate_by_digest.
  pose proof (proj1 (expiration_frame cfg now c false st)) as H.
  destruct (check_certificate_expiration cfg now c false st) as [v st1].
  simpl in H. destruct v; exact H.
Qed.

(** What the menu loop does to the trust file. *)
Lemma menu_loop_saves (keys : list MenuOp) :
  ∀ always skip c ok st d st',
  menu_loop keys always skip c ok st = Some (d, st') ->
  trust_file st' = trust_file st ∨
  (always = true ∧ ok = true ∧ OpAcceptAlways ∈ keys ∧ d = 2 ∧
   trust_file st' = Some (trusted st ++ [c]) ∧
   c ∈ session_certs st' ∧ EvMessage "Certificate saved" ∈ ui st').
Proof.
  induction keys as [|k keys IH]; intros always skip c ok st d st' H;
    [discriminate|].
  assert (Hrec : menu_loop keys always skip c ok st = Some (d, st') ->
    trust_file st' = trust_file st ∨
    (always = true ∧ ok = true ∧ OpAcceptAlways ∈ k :: keys ∧ d = 2 ∧
     trust_file st' = Some (trusted st ++ [c]) ∧
     c ∈ session_certs st' ∧ EvMessage "Certificate saved" ∈ ui st')).
  { intros H'. destruct (IH _ _ _ _ _ _ _ H') as [?|(?&?&?&?&?&?&?)]; [auto|].
    right. split_and!; auto. apply list_elem_of_further. assumption. }
  destruct k; simpl in H; try (injection H as <- <-; left; reflexivity);
    try (apply Hrec; exact H).
  - injection H as <- <-. left. apply trust_file_accept_once.
  - destruct always; simpl in H; [|apply Hrec; exact H].
    injection H as <- <-. destruct ok.
    + right. split_and!; auto.
      * apply list_elem_of_here.
      * rewrite trust_file_accept_once. reflexivity.
      * apply TrustFacts.accept_once_caches.
      * rewrite ui_accept_once. unfold save_certificate, with_ui. simpl.
        apply elem_of_app. right. apply list_elem_of_here.
    + left. rewrite trust_file_accept_once. reflexivity.
  - destruct skip; simpl in H; [|apply Hrec; exact H].
    injection H as <- <-. left. apply trust_file_set_skip.
Qed.

(** What the prompt does to the trust file. *)
Lemma prompt_saves cfg now keys ok c idx len aa s rc st' :
  interactive_check_cert cfg now keys ok c idx len aa s = Some (rc, st') ->
  trust_file st' = trust_file s ∨
  (aa <> 0 ∧ trust_file st' = Some (trusted s ++ [c]) ∧ rc = 1 ∧
   OpAcceptAlways ∈ keys ∧ ok = true ∧
   CertificateFile cfg <> None ∧ dates_accepted cfg c now ∧
   c ∈ session_certs st' ∧ EvMessage "Certificate saved" ∈ ui st').
Proof.
  intros Hi. unfold interactive_check_cert in Hi.
  destruct (menu_loop _ _ _ _ _ _) as [[done st2]|] eqn:Hm; [|discriminate].
  simpl in Hi. injection Hi as <- <-.
  destruct (menu_loop_saves _ _ _ _ _ _ _ _ Hm)
    as [H|(Hal & Hok & Hkey & -> & Hnew & Hin & Hmsg)].
  - left. exact H.
  - right. apply SslFacts.allow_always_iff in Hal as (Haa & Hfile & Hdates).
    split_and!; auto.
Qed.

(** X22.  When the host name check fails for the leaf certificate, the
    callback shows the failure and asks the user with "accept always" and
    "skip" withheld, whatever the configuration and the certificate's
    dates; no answer of the user makes this invocation write to the trust
    file. *)
Theorem host_mismatch_is_never_saved (cfg : Config) (inp : VerifyInput)
    (st st' : State) (d : ExData) (host : string) (rc : Z) :
  ssl st = Some d -> host_data d = Some host ->
  duplicate_skipped inp (skip_data d) st = false ->
  pos inp = 0 -> SslVerifyHost cfg <> MUTT_NO ->
  fst (check_host cfg (cert inp) host) = 0 ->
  check_certificate_cache (cert inp) st = false ->
  ssl_verify_callback cfg inp st = Some (rc, st') ->
  trust_file st' = trust_file st ∧
  ∃ prompt more,
    ui st' = ui st ++
      EvError (String.append "Certificate host check failed: "
                             (snd (check_host cfg (cert inp) host))) ::
      EvMenu (len inp) (len inp) prompt :: more ∧
    offers "(a)ccept always" prompt = false ∧
    offers "(s)kip" prompt = false.
Proof.
  intros Hssl Hhost Hdup Hpos Hverify Hcheck Hcache Hcall.
  unfold ssl_verify_callback in Hcall. rewrite Hssl, Hhost, Hdup in Hcall.
  assert (Hgo : ∀ s, trust_file s = trust_file st -> ui s = ui st ->
                     check_certificate_cache (cert inp) s = false ->
                     verify_tail cfg inp host (skip_data d) s = Some (rc, st') ->
    trust_file st' = trust_file st ∧
    ∃ prompt more,
      ui st' = ui st ++
        EvError (String.append "Certificate host check failed: "
                               (snd (check_host cfg (cert inp) host))) ::
        EvMenu (len inp) (len inp) prompt :: more ∧
      offers "(a)ccept always" prompt = false ∧
      offers "(s)kip" prompt = false).
  { intros s Htf Hui Hc Hv. unfold verify_tail in Hv.
    rewrite Hc, Hpos in Hv. simpl in Hv.
    rewrite (proj2 (Z.eqb_neq _ _) Hverify) in Hv. simpl in Hv.
    destruct (check_host cfg (cert inp) host) as [code err]. simpl in Hcheck.
    subst code. unfold interactive_check_cert in Hv.
    assert (Hal : allow_always_final cfg (now inp) (cert inp) 0
                    (with_ui s (EvError (String.append
                       "Certificate host check failed: " err))) = false)
      by reflexivity.
    assert (Hsk : allow_skip cfg 0 = false)
      by (unfold allow_skip; simpl; apply andb_false_r).
    rewrite Hal, Hsk in Hv.
    destruct (menu_loop _ _ _ _ _ _) as [[done st2]|] eqn:Hm; [|discriminate].
    simpl in Hv. injection Hv as <- <-.
    destruct (menu_loop_saves _ _ _ _ _ _ _ _ Hm) as [Htf2|(? & _)];
      [|discriminate].
    destruct (SslFacts.menu_loop_ui _ _ _ _ _ _ _ _ Hm) as [more Hmore].
    simpl in Htf2, Hmore. split; [congruence|].
    eexists _, more. rewrite Hmore, Hui, <- !app_assoc, Z.sub_0_r. simpl.
    split; [reflexivity|]. split; reflexivity. }
  destruct (HAVE_SSL_PARTIAL_CHAIN cfg && SslVerifyPartialChains cfg).
  - apply (Hgo (remember_last inp st)); auto.
  - apply (Hgo st); auto.
Qed.

Lemma host_mismatch_is_never_saved_witness :
  ssl wrong_host_state = Some (mkExData (Some "imap.example.org"%string) false) ∧
  host_data (mkExData (Some "imap.example.org"%string) false)
    = Some "imap.example.org"%string ∧
  duplicate_skipped wrong_host_visit false wrong_host_state = false ∧
  pos wrong_host_visit = 0 ∧ SslVerifyHost Scenario.cfg_default <> MUTT_NO ∧
  fst (check_host Scenario.cfg_default (cert wrong_host_visit)
                  "imap.example.org") = 0 ∧
  check_certificate_cache (cert wrong_host_visit) wrong_host_state = false ∧
  ssl_verify_callback Scenario.cfg_default wrong_host_visit wrong_host_state
    = Some (1, wrong_host_after) ∧
  trust_file wrong_host_after = trust_file wrong_host_state ∧
  ∃ prompt more,
    ui wrong_host_after = ui wrong_host_state ++
      EvError (String.append "Certificate host check failed: "
                 (snd (check_host Scenario.cfg_default (cert wrong_host_visit)
                                  "imap.example.org"))) ::
      EvMenu (len wrong_host_visit) (len wrong_host_visit) prompt :: more ∧
    offers "(a)ccept always" prompt = false ∧
    offers "(s)kip" prompt = false.
Proof.
  assert (H1 : ssl wrong_host_state
               = Some (mkExData (Some "imap.example.org"%string) false))
    by reflexivity.
  assert (H2 : host_data (mkExData (Some "imap.example.org"%string) false)
               = Some "imap.example.org"%string) by reflexivity.
  assert (H3 : duplicate_skipped wrong_host_visit false wrong_host_state
               = false) by reflexivity.
  assert (H4 : pos wrong_host_visit = 0) by reflexivity.
  assert (H5 : SslVerifyHost Scenario.cfg_default <> MUTT_NO)
    by (vm_compute; discriminate).
  assert (H6 : fst (check_host Scenario.cfg_default (cert wrong_host_visit)
                               "imap.example.org") = 0) by reflexivity.
  assert (H7 : check_certificate_cache (cert wrong_host_visit)
                 wrong_host_state = false) by reflexivity.
  assert (H8 : ssl_verify_callback Scenario.cfg_default wrong_host_visit
                 wrong_host_state = Some (1, wrong_host_after))
    by (vm_compute; reflexivity).
  repeat (split; [assumption|]).
  exact (host_mismatch_is_never_saved Scenario.cfg_default wrong_host_visit
           wrong_host_state wrong_host_after _ _ 1 H1 H2 H3 H4 H5 H6 H7 H8).
Defined.

(** X23.  The callback writes to the trust file in one way only: it
    appends the certificate it was called for.  That happens only when the
    user answered "accept always" to the prompt, a trust file is
    configured and could be written, the certificate's dates are
    acceptable and, for the leaf, the host name check did not fail; the
    invocation then accepts the certificate, has it in the session
    sequence and tells the user that the certificate was saved. *)
Theorem callback_saves_only_current_certificate (cfg : Config)
    (inp : VerifyInput) (st st' : State) (rc : Z) :
  ssl_verify_callback cfg inp st = Some (rc, st') ->
  trust_file st' = trust_file st ∨
  (trust_file st' = Some (trusted st ++ [cert inp]) ∧ rc = 1 ∧
   OpAcceptAlways ∈ keys inp ∧ save_ok inp = true ∧
   CertificateFile cfg <> None ∧ dates_accepted cfg (cert inp) (now inp) ∧
   (∃ d host, ssl st = Some d ∧ host_data d = Some host ∧
      (pos inp = 0 -> SslVerifyHost cfg <> MUTT_NO ->
       fst (check_host cfg (cert inp) host) <> 0)) ∧
   cert inp ∈ session_certs st' ∧ EvMessage "Certificate saved" ∈ ui st').
Proof.
  intros Hcall. unfold ssl_verify_callback in Hcall.
  destruct (ssl st) as [d|] eqn:Hssl;
    [|injection Hcall as <- <-; left; reflexivity].
  destruct (host_data d) as [host|] eqn:Hhost;
    [|injection Hcall as <- <-; left; reflexivity].
  assert (Hgo : ∀ s, trust_file s = trust_file st ->
    verify_tail cfg inp host (skip_data d) s = Some (rc, st') ->
    trust_file st' = trust_file st ∨
    (trust_file st' = Some (trusted st ++ [cert inp]) ∧ rc = 1 ∧
     OpAcceptAlways ∈ keys inp ∧ save_ok inp = true ∧
     CertificateFile cfg <> None ∧ dates_accepted cfg (cert inp) (now inp) ∧
     (∃ d' host', Some d = Some d' ∧ host_data d' = Some host' ∧
        (pos inp = 0 -> SslVerifyHost cfg <> MUTT_NO ->
         fst (check_host cfg (cert inp) host') <> 0)) ∧
     cert inp ∈ session_certs st' ∧ EvMessage "Certificate saved" ∈ ui st')).
  { intros s Htf Hv. unfold verify_tail in Hv.
    destruct (check_certificate_cache (cert inp) s).
    { injection Hv as <- <-. left. rewrite trust_file_set_skip. exact Htf. }
    set (by_digest := match CertificateFile cfg with
                      | None => (0, s)
                      | Some _ => check_certificate_by_digest cfg (now inp)
                                    (cert inp) s
                      end) in Hv.
    assert (Hbd : trust_file (snd by_digest) = trust_file st).
    { subst by_digest. destruct (CertificateFile cfg); [|exact Htf].
      rewrite trust_file_by_digest. exact Htf. }
    assert (Hrest :
      (pos inp = 0 -> SslVerifyHost cfg <> MUTT_NO ->
       fst (check_host cfg (cert inp) host) <> 0) ->
      (if (preverify_ok inp =? 0) || skip_data d
       then if negb (fst by_digest =? 0)
            then Some (1, set_skip (snd by_digest) false)
            else interactive_check_cert cfg (now inp) (keys inp) (save_ok inp)
                   (cert inp) (pos inp) (len inp) 1 (snd by_digest)
       else Some (1, s)) = Some (rc, st') ->
      trust_file st' = trust_file st ∨
      (trust_file st' = Some (trusted st ++ [cert inp]) ∧ rc = 1 ∧
       OpAcceptAlways ∈ keys inp ∧ save_ok inp = true ∧
       CertificateFile cfg <> None ∧ dates_accepted cfg (cert inp) (now inp) ∧
       (∃ d' host', Some d = Some d' ∧ host_data d' = Some host' ∧
          (pos inp = 0 -> SslVerifyHost cfg <> MUTT_NO ->
           fst (check_host cfg (cert inp) host') <> 0)) ∧
       cert inp ∈ session_certs st' ∧ EvMessage "Certificate saved" ∈ ui st')).
    { intros host_ok Hr.
      destruct ((preverify_ok inp =? 0) || skip_data d);
        [|injection Hr as <- <-; left; exact Htf].
      destruct (negb (fst by_digest =? 0)).
      { injection Hr as <- <-. left. rewrite trust_file_set_skip. exact Hbd. }
      destruct (prompt_saves _ _ _ _ _ _ _ _ _ _ _ Hr)
        as [H|(_ & Hnew & ? & ? & ? & ? & ? & ? & ?)].
      - left. congruence.
      - right. unfold trusted in *. rewrite Hbd in Hnew.
        split_and!; auto. exists d, host. auto. }
    destruct ((pos inp =? 0) && negb (SslVerifyHost cfg =? MUTT_NO)) eqn:Hh.
    - destruct (check_host cfg (cert inp) host) as [[|p|p] err] eqn:Hch.
      + destruct (prompt_saves _ _ _ _ _ _ _ _ _ _ _ Hv) as [H|(Haa & _)].
        * left. simpl in H. congruence.
        * contradiction.
      + apply Hrest; [|exact Hv]. intros _ _. simpl. discriminate.
      + apply Hrest; [|exact Hv]. intros _ _. simpl. discriminate.
    - apply Hrest; [|exact Hv]. intros Hp Hn.
      apply Z.eqb_eq in Hp. apply Z.eqb_neq in Hn.
      rewrite Hp, Hn in Hh. discriminate. }
  destruct (HAVE_SSL_PARTIAL_CHAIN cfg && SslVerifyPartialChains cfg).
  - destruct (duplicate_skipped inp (skip_data d) st).
    + injection Hcall as <- <-. left. reflexivity.
    + destruct (Hgo (remember_last inp st) eq_refl Hcall) as [?|?]; auto.
  - destruct (Hgo st eq_refl Hcall) as [?|?]; auto.
Qed.

Lemma callback_saves_only_current_certificate_witness :
  ssl_verify_callback Scenario.cfg_default save_visit save_state
    = Some (1, save_after) ∧
  (trust_file save_after = trust_file save_state ∨
   (trust_file save_after = Some (trusted save_state ++ [cert save_visit]) ∧
    1 = 1 ∧
    OpAcceptAlways ∈ keys save_visit ∧ save_ok save_visit = true ∧
    CertificateFile Scenario.cfg_default <> None ∧
    dates_accepted Scenario.cfg_default (cert save_visit) (now save_visit) ∧
    (∃ d host, ssl save_state = Some d ∧ host_data d = Some host ∧
       (pos save_visit = 0 -> SslVerifyHost Scenario.cfg_default <> MUTT_NO ->
        fst (check_host Scenario.cfg_default (cert save_visit) host) <> 0)) ∧
    cert save_visit ∈ session_certs save_after ∧
    EvMessage "Certificate saved" ∈ ui save_after)).
Proof.
  assert (H : ssl_verify_callback Scenario.cfg_default save_visit save_state
              = Some (1, save_after)) by (vm_compute; reflexivity).
  split; [exact H|].
  exact (callback_saves_only_current_certificate Scenario.cfg_default
           save_visit save_state save_after 1 H).
Defined.

(** X24.  A certificate of the trust file is accepted without a question.
    Let the trust file hold a certificate with the subject name, issuer
    name and SHA-256 digest of the one the callback is called for, let the
    dates of both be acceptable, and let the host name check, where it
    applies, not fail.  Then the callback returns 1, shows nothing to the
    user and leaves the trust file as it is, whatever the library's own
    verdict was. *)
Theorem trusted_certificate_accepted_silently (cfg : Config)
    (inp : VerifyInput) (st : State) (d : ExData) (host : string)
    (certs : list X509) (c : X509) :
  ssl st = Some d -> host_data d = Some host ->
  CertificateFile cfg <> None -> trust_file st = Some certs -> c ∈ certs ->
  byte_equal c (cert inp) ->
  dates_accepted cfg c (now inp) ->
  dates_accepted cfg (cert inp) (now inp) ->
  (pos inp = 0 -> SslVerifyHost cfg <> MUTT_NO ->
   fst (check_host cfg (cert inp) host) <> 0) ->
  ∃ st', ssl_verify_callback cfg inp st = Some (1, st') ∧
         ui st' = ui st ∧ trust_file st' = trust_file st.
Proof.
  intros Hssl Hhost Hfile Htf Hin Hbyte Hdc Hdp Hhostok.
  unfold ssl_verify_callback. rewrite Hssl, Hhost.
  assert (Hgo : ∀ s, trust_file s = trust_file st -> ui s = ui st ->
    ∃ st', verify_tail cfg inp host (skip_data d) s = Some (1, st') ∧
           ui st' = ui st ∧ trust_file st' = trust_file st).
  { intros s Hs Hui. unfold verify_tail.
    destruct (check_certificate_cache (cert inp) s).
    { eexists. split; [reflexivity|].
      rewrite SslFacts.ui_set_skip, trust_file_set_skip. auto. }
    assert (Hbd : check_certificate_by_digest cfg (now inp) (cert inp) s
                  = (1, s)).
    { unfold check_certificate_by_digest.
      pose proof (proj2 (SslFacts.expiration_iff cfg (now inp) (cert inp)
                           false s) Hdp) as Hv.
      pose proof (proj2 (expiration_frame cfg (now inp) (cert inp) false s) Hv)
        as Hsame.
      destruct (check_certificate_expiration cfg (now inp) (cert inp) false s)
        as [v s1]. simpl in Hv, Hsame. subst v s1.
      assert (Hf : check_certificate_file cfg (now inp) (cert inp) s = 1).
      { apply (proj2 (check_certificate_file_spec _ _ _ _)). split; [exact Hfile|].
        exists certs, c. rewrite Hs. auto. }
      rewrite Hf. reflexivity. }
    assert (Hrest : ∃ st',
      (if (preverify_ok inp =? 0) || skip_data d
       then
         let by_digest := match CertificateFile cfg with
                          | None => (0, s)
                          | Some _ => check_certificate_by_digest cfg (now inp)
                                        (cert inp) s
                          end in
         if negb (fst by_digest =? 0)
         then Some (1, set_skip (snd by_digest) false)
         else interactive_check_cert cfg (now inp) (keys inp) (save_ok inp)
                (cert inp) (pos inp) (len inp) 1 (snd by_digest)
       else Some (1, s)) = Some (1, st') ∧
      ui st' = ui st ∧ trust_file st' = trust_file st).
    { destruct ((preverify_ok inp =? 0) || skip_data d);
        [|exists s; auto].
      cbv zeta. destruct (CertificateFile cfg); [|congruence].
      rewrite Hbd. simpl. eexists. split; [reflexivity|].
      rewrite SslFacts.ui_set_skip, trust_file_set_skip. auto. }
    destruct ((pos inp =? 0) && negb (SslVerifyHost cfg =? MUTT_NO)) eqn:Hh.
    - apply andb_true_iff in Hh as [Hp Hn].
      apply Z.eqb_eq in Hp. apply negb_true_iff, Z.eqb_neq in Hn.
      specialize (Hhostok Hp Hn).
      destruct (check_host cfg (cert inp) host) as [[|p|p] err];
        [contradiction Hhostok; reflexivity | exact Hrest | exact Hrest].
    - exact Hrest. }
  destruct (HAVE_SSL_PARTIAL_CHAIN cfg && SslVerifyPartialChains cfg).
  - destruct (duplicate_skipped inp (skip_data d) st).
    + exists st. auto.
    + apply (Hgo (remember_last inp st)); reflexivity.
  - apply (Hgo st); reflexivity.
Qed.

Lemma trusted_certificate_accepted_silently_witness :
  ssl later_state = Some (mkExData (Some "mail.example.com"%string) false) ∧
  host_data (mkExData (Some "mail.example.com"%string) false)
    = Some "mail.example.com"%string ∧
  CertificateFile Scenario.cfg_default <> None ∧
  trust_file later_state = Some [Scenario.leaf] ∧
  Scenario.leaf ∈ [Scenario.leaf] ∧
  byte_equal Scenario.leaf (cert Scenario.second_visit) ∧
  dates_accepted Scenario.cfg_default Scenario.leaf
    (now Scenario.second_visit) ∧
  dates_accepted Scenario.cfg_default (cert Scenario.second_visit)
    (now Scenario.second_visit) ∧
  (pos Scenario.second_visit = 0 ->
   SslVerifyHost Scenario.cfg_default <> MUTT_NO ->
   fst (check_host Scenario.cfg_default (cert Scenario.second_visit)
                   "mail.example.com") <> 0) ∧
  ∃ st', ssl_verify_callback Scenario.cfg_default Scenario.second_visit
           later_state = Some (1, st') ∧
         ui st' = ui later_state ∧ trust_file st' = trust_file later_state.
Proof.
  assert (H1 : ssl later_state
               = Some (mkExData (Some "mail.example.com"%string) false))
    by reflexivity.
  assert (H2 : host_data (mkExData (Some "mail.example.com"%string) false)
               = Some "mail.example.com"%string) by reflexivity.
  assert (H3 : CertificateFile Scenario.cfg_default <> None)
    by (vm_compute; discriminate).
  assert (H4 : trust_file later_state = Some [Scenario.leaf]) by reflexivity.
  assert (H5 : Scenario.leaf ∈ [Scenario.leaf]) by apply list_elem_of_here.
  assert (H6 : byte_equal Scenario.leaf (cert Scenario.second_visit)).
  { split; [reflexivity|]. split; [reflexivity|].
    exists ["d"; "i"; "g"]%char. split; reflexivity. }
  assert (H7 : dates_accepted Scenario.cfg_default Scenario.leaf
                 (now Scenario.second_visit)).
  { right. exists 0, 1000. split; [reflexivity|]. split; [reflexivity|].
    vm_compute. split; [discriminate | reflexivity]. }
  assert (H8 : pos Scenario.second_visit = 0 ->
               SslVerifyHost Scenario.cfg_default <> MUTT_NO ->
               fst (check_host Scenario.cfg_default
                      (cert Scenario.second_visit) "mail.example.com") <> 0)
    by (intros _ _; vm_compute; discriminate).
  split; [exact H1|]. split; [exact H2|]. split; [exact H3|].
  split; [exact H4|]. split; [exact H5|]. split; [exact H6|].
  split; [exact H7|]. split; [exact H7|]. split; [exact H8|].
  exact (trusted_certificate_accepted_silently Scenario.cfg_default
           Scenario.second_visit later_state _ _ _ _ H1 H2 H3 H4 H5 H6 H7 H7 H8).
Defined.

End SslOpsFacts.

(* ===================================================================== *)
(** * TLS set-up and tear-down: properties *)
(* ===================================================================== *)

Module TlsOpsFacts.
Import Ssl SslOps TlsOps.

(** ** The trust store *)

Lemma date_test_iff (c : X509) (now : Z) :
  (X509_cmp_current_time (notBefore c) now >=? 0) ||
  (X509_cmp_current_time (notAfter c) now <=? 0) = false ↔
  within_validity c now.
Proof.
  unfold within_validity, X509_cmp_current_time.
  destruct (notBefore c) as [nb|], (notAfter c) as [na|]; simpl.
  - destruct (Z.leb_spec nb now), (Z.leb_spec na now); simpl; split;
      try discriminate; try (intros (? & ? & [= <-] & [= <-] & ?); lia).
    intros _. exists nb, na. split_and!; auto; lia.
  - destruct (nb <=? now); simpl; split; try discriminate;
      intros (? & ? & _ & ? & _); discriminate.
  - split; [discriminate|]. intros (? & ? & ? & _); discriminate.
  - split; [discriminate|]. intros (? & ? & ? & _); discriminate.
Qed.

Lemma expired_iff (c : X509) (now : Z) :
  expired now c = false ↔ within_validity c now.
Proof. apply date_test_iff. Qed.

(** Once [cert] points to an object inside the table, the loop keeps it
    there: the table changes at that address only, where it ends holding
    the last certificate read, and every reference handed over is that
    address. *)
Lemma load_loop_reuses (now : Z) (certs : list X509) :
  ∀ (a : nat) (lib : Library), (a < length (objects lib))%nat ->
  ∃ k x,
    load_loop now certs (Some a) lib
      = (Some a, mkLibrary (<[a := x]> (objects lib))
                           (handed lib ++ replicate k a)) ∧
    objects lib !! a ≫= (fun x0 => Some (default x0 (last certs))) = Some x ∧
    (0 < k ↔ ∃ c, c ∈ certs ∧ within_validity c now)%nat.
Proof.
  induction certs as [|c rest IH]; intros a lib Ha.
  - destruct (lookup_lt_is_Some_2 (objects lib) a Ha) as [x0 Hx0].
    exists 0%nat, x0. simpl. rewrite app_nil_r, list_insert_id by exact Hx0.
    destruct lib; simpl in *. rewrite Hx0. split_and!; auto.
    split; [lia|]. intros (c & Hc & _). inversion Hc.
  - destruct (lookup_lt_is_Some_2 (objects lib) a Ha) as [x0 Hx0].
    cbn [load_loop PEM_read_X509].
    destruct (expired now c) eqn:Hexp.
    + destruct (IH a (mkLibrary (<[a := c]> (objects lib)) (handed lib)))
        as (k & x & Heq & Hx & Hk); [simpl; rewrite length_insert; exact Ha|].
      exists k, x. rewrite Heq. simpl. rewrite list_insert_insert_eq.
      split; [reflexivity|]. split.
      * simpl in Hx. rewrite list_lookup_insert_eq in Hx by exact Ha.
        rewrite Hx0. simpl in *. rewrite <- Hx. f_equal.
        destruct rest as [|c' rest']; [reflexivity|].
        rewrite !last_cons. destruct (last rest'); reflexivity.
      * rewrite Hk. split.
        -- intros (c' & Hc' & Hv). exists c'. split; [|exact Hv].
           apply list_elem_of_further. exact Hc'.
        -- intros (c' & Hc' & Hv).
           apply elem_of_cons in Hc' as [->|Hc'].
           ++ apply expired_iff in Hv. congruence.
           ++ exists c'. auto.
    + destruct (IH a (mkLibrary (<[a := c]> (objects lib))
                                (handed lib ++ [a])))
        as (k & x & Heq & Hx & Hk); [simpl; rewrite length_insert; exact Ha|].
      exists (S k), x. rewrite Heq. simpl. rewrite list_insert_insert_eq.
      rewrite <- app_assoc. split; [reflexivity|]. split.
      * simpl in Hx. rewrite list_lookup_insert_eq in Hx by exact Ha.
        rewrite Hx0. simpl in *. rewrite <- Hx. f_equal.
        destruct rest as [|c' rest']; [reflexivity|].
        rewrite !last_cons. destruct (last rest'); reflexivity.
      * split; [|lia]. intros _. exists c. split; [apply list_elem_of_here|].
        apply expired_iff. exact Hexp.
Qed.

(** X25.  [ssl_load_certificates] tests the dates of each certificate of
    the trust file and calls [X509_STORE_add_cert] only for those within
    their validity, but every read decodes into the one object that [cert]
    points to, and the store is handed references to that object.  So the
    call makes at most one object, at the address [a] after the objects
    that were there, and leaves the earlier ones as they were; the
    references it hands over all are [a], and there is one exactly when
    some certificate of the file is within its dates; and the object holds
    the last certificate read (or what a failed decoding left), whatever
    its dates.  The return value is 1 only when the file was read to its
    end, and 0 with the library as it was when the file cannot be
    opened. *)
Theorem load_certificates_share_one_object (now : Z) (f : PemFile)
    (lib : Library) :
  let rc := fst (ssl_load_certificates now (Some f) lib) in
  let lib' := snd (ssl_load_certificates now (Some f) lib) in
  let a := length (objects lib) in
  (rc = 1 ↔ pem_eof f = true) ∧ (rc = 0 ↔ pem_eof f = false) ∧
  ssl_load_certificates now None lib = (0, lib) ∧
  objects lib' = objects lib ++ option_list (last_read f) ∧
  objects lib' !! a = last_read f ∧
  ∃ k, handed lib' = handed lib ++ replicate k a ∧
       (0 < k ↔ ∃ c, c ∈ pem_certs f ∧ within_validity c now)%nat.
Proof.
  cbv zeta. unfold ssl_load_certificates, last_read, pem_eof.
  destruct f as [certs e]. simpl.
  destruct certs as [|c rest].
  - simpl. rewrite app_nil_r.
    assert (Hnone : objects lib !! length (objects lib) = None)
      by (apply lookup_ge_None; lia).
    assert (Hk : ∃ k : nat, handed lib = handed lib ++ replicate k (length (objects lib)) ∧
              ((0 < k)%nat ↔ ∃ c : X509, c ∈ [] ∧ within_validity c now)).
    { exists 0%nat. simpl. rewrite app_nil_r. split; [reflexivity|].
      split; [lia|]. intros (c & Hc & _). inversion Hc. }
    destruct e as [|[x|]]; simpl; split_and!; auto;
      split; auto; discriminate.
  - cbn [load_loop PEM_read_X509].
    set (a := length (objects lib)).
    assert (Ha : ∀ h, (a < length (objects (mkLibrary (objects lib ++ [c]) h)))%nat)
      by (intros h; simpl; rewrite length_app; simpl; lia).
    assert (Hins : ∀ x0 x,
              <[a := x]> (objects lib ++ [x0]) = objects lib ++ [x]).
    { intros x0 x. subst a. rewrite insert_app_r_alt by lia.
      rewrite Nat.sub_diag. reflexivity. }
    assert (Hlook : ∀ x, (objects lib ++ [x]) !! a = Some x).
    { intros x. subst a. rewrite lookup_app_r by lia.
      rewrite Nat.sub_diag. reflexivity. }
    assert (Hlast : ∀ x, (objects lib ++ [c]) !! a
                ≫= (λ x0, Some (default x0 (last rest))) = Some x ->
              last (c :: rest) = Some x).
    { intros x. rewrite Hlook. simpl. intros [= <-].
      destruct rest as [|c' rest']; [reflexivity|].
      rewrite !last_cons. destruct (last rest'); reflexivity. }
    destruct (expired now c) eqn:Hexp.
    + destruct (load_loop_reuses now rest a _ (Ha (handed lib)))
        as (k & x & Heq & Hx & Hk).
      rewrite Heq. simpl in *. rewrite Hins. apply Hlast in Hx.
      assert (Hk' : ∃ k0, handed lib ++ replicate k a
                          = handed lib ++ replicate k0 a ∧
                ((0 < k0)%nat ↔ ∃ c0, c0 ∈ c :: rest ∧ within_validity c0 now)).
      { exists k. split; [reflexivity|]. rewrite Hk. split.
        - intros (c' & Hc' & Hv). exists c'. split; [|exact Hv].
          apply list_elem_of_further. exact Hc'.
        - intros (c' & Hc' & Hv).
          apply elem_of_cons in Hc' as [->|Hc'].
          + apply expired_iff in Hv. congruence.
          + exists c'. auto. }
      destruct e as [|[y|]]; simpl; rewrite ?Hins, ?Hlook, ?Hx;
        split_and!; auto; try (split; auto; discriminate).
    + destruct (load_loop_reuses now rest a _ (Ha (handed lib ++ [a])))
        as (k & x & Heq & Hx & Hk).
      rewrite Heq. simpl in *. rewrite Hins. apply Hlast in Hx.
      assert (Hk' : ∃ k0, (handed lib ++ [a]) ++ replicate k a
                          = handed lib ++ replicate k0 a ∧
                ((0 < k0)%nat ↔ ∃ c0, c0 ∈ c :: rest ∧ within_validity c0 now)).
      { exists (S k). rewrite <- app_assoc. split; [reflexivity|].
        split; [|lia]. intros _. exists c. split; [apply list_elem_of_here|].
        apply expired_iff. exact Hexp. }
      destruct e as [|[y|]]; simpl; rewrite ?Hins, ?Hlook, ?Hx;
        split_and!; auto; try (split; auto; discriminate).
Qed.

(** The consequence for two trust files at time 100: after a certificate
    in its dates and then an expired one, the store reaches the expired
    certificate only; in the other order it reaches the one in its
    dates. *)
Example load_certificates_last_one_wins :
  within_validity Scenario.leaf 100 ∧
  ¬ within_validity Scenario.expired_leaf 100 ∧
  store_certs (snd (ssl_load_certificates 100 (Some file_valid_then_expired)
                      empty_library)) = [Scenario.expired_leaf] ∧
  store_certs (snd (ssl_load_certificates 100 (Some file_expired_then_valid)
                      empty_library)) = [Scenario.leaf].
Proof.
  split_and!; try reflexivity.
  - exists 0, 1000. split_and!; auto; lia.
  - intros (nb & na & _ & [= <-] & ?). lia.
Qed.

(** ** Entropy files *)

Lemma land_group_bits (m : Z) :
  Z.land m (Z.lor S_IWGRP S_IRGRP) = 0 ↔
  Z.testbit m 5 = false ∧ Z.testbit m 4 = false.
Proof.
  change (Z.lor S_IWGRP S_IRGRP) with 48. split.
  - intros H. split.
    + assert (H5 : Z.testbit (Z.land m 48) 5 = false)
        by (rewrite H; apply Z.bits_0).
      rewrite Z.land_spec in H5. change (Z.testbit 48 5) with true in H5.
      rewrite andb_true_r in H5. exact H5.
    + assert (H4 : Z.testbit (Z.land m 48) 4 = false)
        by (rewrite H; apply Z.bits_0).
      rewrite Z.land_spec in H4. change (Z.testbit 48 4) with true in H4.
      rewrite andb_true_r in H4. exact H4.
  - intros [H5 H4]. apply Z.bits_inj'. intros n Hn.
    rewrite Z.land_spec, Z.bits_0.
    assert (Hcases : n = 0 ∨ n = 1 ∨ n = 2 ∨ n = 3 ∨ n = 4 ∨ n = 5 ∨ 6 <= n)
      by lia.
    destruct Hcases as [->|[->|[->|[->|[->|[->|Hbig]]]]]];
      try (rewrite andb_false_r; reflexivity).
    + rewrite H4. reflexivity.
    + rewrite H5. reflexivity.
    + rewrite (Z.bits_above_log2 48 n) by (change (Z.log2 48) with 5; lia).
      apply andb_false_r.
Qed.

Lemma land_other_bits (m : Z) :
  Z.land m (Z.lor S_IWOTH S_IROTH) = 0 ↔
  Z.testbit m 2 = false ∧ Z.testbit m 1 = false.
Proof.
  change (Z.lor S_IWOTH S_IROTH) with 6. split.
  - intros H. split.
    + assert (H2 : Z.testbit (Z.land m 6) 2 = false)
        by (rewrite H; apply Z.bits_0).
      rewrite Z.land_spec in H2. change (Z.testbit 6 2) with true in H2.
      rewrite andb_true_r in H2. exact H2.
    + assert (H1 : Z.testbit (Z.land m 6) 1 = false)
        by (rewrite H; apply Z.bits_0).
      rewrite Z.land_spec in H1. change (Z.testbit 6 1) with true in H1.
      rewrite andb_true_r in H1. exact H1.
  - intros [H2 H1]. apply Z.bits_inj'. intros n Hn.
    rewrite Z.land_spec, Z.bits_0.
    assert (Hcases : n = 0 ∨ n = 1 ∨ n = 2 ∨ 3 <= n) by lia.
    destruct Hcases as [->|[->|[->|Hbig]]];
      try (rewrite andb_false_r; reflexivity).
    + rewrite H1. reflexivity.
    + rewrite H2. reflexivity.
    + rewrite (Z.bits_above_log2 6 n) by (change (Z.log2 6) with 2; lia).
      apply andb_false_r.
Qed.

Lemma permission_test_iff (uid : Z) (s : Stat) :
  negb (st_uid s =? uid) ||
  negb (Z.land (st_mode s) (Z.lor S_IWGRP S_IRGRP) =? 0) ||
  negb (Z.land (st_mode s) (Z.lor S_IWOTH S_IROTH) =? 0) = false ↔
  private_to uid s.
Proof.
  unfold private_to, mode_bit.
  pose proof (land_group_bits (st_mode s)) as Hg.
  pose proof (land_other_bits (st_mode s)) as Ho.
  rewrite !orb_false_iff, !negb_false_iff, !Z.eqb_eq. tauto.
Qed.

(** X26.  [add_entropy] hands a file to the random number generator
    exactly when [stat] finds it, it belongs to the user and neither the
    group nor the others may read or write it.  A file that exists and
    fails that test is refused with -1 and the complaint about insecure
    permissions; a missing file gives 0 and no complaint. *)
Theorem entropy_file_must_be_private (HAVE_RAND_EGD : bool) (uid : Z)
    (f : string) (st : StatResult) (egd_rc load_rc : Z) :
  let r := add_entropy HAVE_RAND_EGD uid (Some f) st egd_rc load_rc [] in
  (existsb is_rand_read (snd r) = true ↔
   ∃ s, st = StatOk s ∧ private_to uid s) ∧
  (∀ s, st = StatOk s -> ¬ private_to uid s ->
        r = (-1, [Filling f; Insecure f])) ∧
  (st = StatFails true -> r = (0, [])).
Proof.
  cbv zeta. unfold add_entropy. destruct st as [s|enoent].
  - pose proof (permission_test_iff uid s) as Hp.
    destruct (_ || _ || _) eqn:Htest.
    + split_and!.
      * split; [discriminate|]. intros (s' & [= <-] & Hpriv).
        apply Hp in Hpriv. discriminate.
      * reflexivity.
      * discriminate.
    + assert (Hpriv : private_to uid s) by (apply Hp; reflexivity).
      split_and!.
      * split; [intros _; exists s; auto|]. intros _.
        destruct HAVE_RAND_EGD; simpl; [|reflexivity].
        destruct (egd_rc <=? 0); reflexivity.
      * intros s' [= <-] Hn. contradiction.
      * discriminate.
  - split_and!.
    + split; [destruct enoent; discriminate|].
      intros (s & ? & _). discriminate.
    + discriminate.
    + intros [= ->]. reflexivity.
Qed.

(** ** Logs *)

Lemma closed_fds_app (l1 l2 : list TlsEvent) :
  closed_fds (l1 ++ l2) = closed_fds l1 ++ closed_fds l2.
Proof. unfold closed_fds. apply omap_app. Qed.

Lemma calm_spec (l : list TlsEvent) :
  forallb calm l = true -> closed_fds l = [] ∧ SslShutdown ∉ l.
Proof.
  induction l as [|ev l IH]; simpl.
  - intros _. split; [reflexivity | apply not_elem_of_nil].
  - intros [Hev Hl]%andb_true_iff. destruct (IH Hl) as [Hc Hs].
    split.
    + destruct ev; try discriminate; exact Hc.
    + intros [<-|Hin]%elem_of_cons; [discriminate | contradiction].
Qed.

Lemma closed_fds_calm (l seg : list TlsEvent) :
  forallb calm seg = true -> closed_fds (l ++ seg) = closed_fds l.
Proof.
  intros H. rewrite closed_fds_app, (proj1 (calm_spec _ H)). apply app_nil_r.
Qed.

Lemma handshake_options_plain (l1 l2 : list TlsEvent) :
  forallb plain l1 = true ->
  handshake_options (l1 ++ l2) = handshake_options l2.
Proof.
  induction l1 as [|ev l1 IH]; simpl; [reflexivity|].
  intros [Hev Hl]%andb_true_iff.
  destruct ev; try discriminate; apply IH; exact Hl.
Qed.

Lemma setting_up_nil : setting_up [] [].
Proof.
  split; [reflexivity|]. intros l2. simpl.
  destruct (handshake_options l2); reflexivity.
Qed.

Lemma setting_up_more ops l seg :
  setting_up ops l -> forallb plain seg = true -> forallb calm seg = true ->
  setting_up ops (l ++ seg).
Proof.
  intros [Hc H] Hseg Hcalm. split.
  - rewrite forallb_app, Hc, Hcalm. reflexivity.
  - intros l2. rewrite <- app_assoc, H, handshake_options_plain; auto.
Qed.

Lemma setting_up_options ops ops2 l :
  setting_up ops l -> setting_up (ops ++ ops2) (l ++ [SetOptions ops2]).
Proof.
  intros [Hc H]. split.
  - rewrite forallb_app, Hc. reflexivity.
  - intros l2. rewrite <- app_assoc, H. simpl.
    destruct (handshake_options l2); simpl; [|reflexivity].
    rewrite app_assoc. reflexivity.
Qed.

Lemma setting_up_none ops l sfx :
  setting_up ops l -> forallb plain sfx = true ->
  handshake_options (l ++ sfx) = None.
Proof.
  intros [_ H] Hs. rewrite H.
  rewrite <- (app_nil_r sfx), handshake_options_plain by exact Hs.
  reflexivity.
Qed.

Lemma setting_up_connect ops l post :
  setting_up ops l -> handshake_options (l ++ SslConnect :: post) = Some ops.
Proof. intros [_ H]. rewrite H. simpl. rewrite app_nil_r. reflexivity. Qed.

(** Every piece of the set-up appends to the log. *)
Lemma disable_unless_app use op log :
  disable_unless use op log = log ++ disable_unless use op [].
Proof. unfold disable_unless. destruct use; [rewrite app_nil_r|]; reflexivity. Qed.

Lemma load_trust_app cfg tc log :
  load_trust cfg tc log = log ++ load_trust cfg tc [].
Proof.
  unfold load_trust. destruct (CertificateFile cfg), (SslClientCert tc);
    simpl; rewrite <- ?app_assoc, ?app_nil_r; reflexivity.
Qed.

Lemma warn_partial_app cfg e log :
  warn_partial cfg e log = log ++ warn_partial cfg e [].
Proof.
  unfold warn_partial. destruct (negb _); [|rewrite app_nil_r]; reflexivity.
Qed.

Lemma ssl_negotiate_app h log :
  ssl_negotiate h log
  = (fst (ssl_negotiate h []), log ++ snd (ssl_negotiate h [])).
Proof.
  unfold ssl_negotiate.
  repeat match goal with
         | |- context [if ?b then _ else _] => destruct b
         end; simpl; rewrite <- ?app_assoc, ?app_nil_r; reflexivity.
Qed.

Lemma load_trust_quiet cfg tc :
  forallb plain (load_trust cfg tc []) = true ∧
  forallb calm (load_trust cfg tc []) = true.
Proof.
  unfold load_trust. destruct (CertificateFile cfg), (SslClientCert tc);
    split; reflexivity.
Qed.

Lemma warn_partial_quiet cfg e :
  forallb plain (warn_partial cfg e []) = true ∧
  forallb calm (warn_partial cfg e []) = true.
Proof. unfold warn_partial. destruct (negb _); split; reflexivity. Qed.

(** The events of [ssl_negotiate]: nothing but messages around at most one
    [SSL_connect], which a successful negotiation has made. *)
Lemma ssl_negotiate_shape h :
  forallb calm (snd (ssl_negotiate h [])) = true ∧
  ∃ pre tl, snd (ssl_negotiate h []) = pre ++ tl ∧
    forallb plain pre = true ∧
    (tl = [] ∧ fst (ssl_negotiate h []) = -1 ∨
     ∃ post, tl = SslConnect :: post ∧
             (fst (ssl_negotiate h []) = 0 ∨ fst (ssl_negotiate h []) = -1)).
Proof.
  unfold ssl_negotiate.
  destruct (host_index h =? -1); [split; [reflexivity|]; exists [], []; auto|].
  destruct (negb (set_host_ok h));
    [split; [reflexivity|]; exists [], []; auto|].
  destruct (skip_index h =? -1); [split; [reflexivity|]; exists [], []; auto|].
  destruct (negb (set_skip_ok h));
    [split; [reflexivity|]; exists [], []; auto|].
  destruct (sni_ok h), (negb (connect_rc h =? 1)); simpl;
    (split; [reflexivity|]).
  - exists []. eexists. split; [reflexivity|]. split; [reflexivity|].
    right. eexists. eauto.
  - exists []. eexists. split; [reflexivity|]. split; [reflexivity|].
    right. eexists. eauto.
  - exists [MuttError "Warning: unable to set TLS SNI host name"]. eexists.
    split; [reflexivity|]. split; [reflexivity|]. right. eexists. eauto.
  - exists [MuttError "Warning: unable to set TLS SNI host name"]. eexists.
    split; [reflexivity|]. split; [reflexivity|]. right. eexists. eauto.
Qed.

Lemma ssl_negotiate_rc h :
  fst (ssl_negotiate h []) = 0 ∨ fst (ssl_negotiate h []) = -1.
Proof.
  destruct (ssl_negotiate_shape h)
    as (_ & _ & _ & _ & _ & [[_ ?]|(_ & _ & ?)]); auto.
Qed.

(** The options in force when the negotiation, entered with [ops] switched
    off, starts its handshake. *)
Lemma negotiate_handshake_options h ops l sfx :
  setting_up ops l -> forallb plain sfx = true ->
  (handshake_options (l ++ snd (ssl_negotiate h []) ++ sfx) = Some ops ∨
   handshake_options (l ++ snd (ssl_negotiate h []) ++ sfx) = None) ∧
  (fst (ssl_negotiate h []) = 0 ->
   handshake_options (l ++ snd (ssl_negotiate h []) ++ sfx) = Some ops).
Proof.
  intros Hl Hsfx.
  destruct (ssl_negotiate_shape h) as (Hcalm & pre & tl & Heq & Hpre & Htl).
  rewrite Heq in *.
  assert (Hcp : forallb calm pre = true).
  { rewrite forallb_app in Hcalm. apply andb_true_iff in Hcalm as [? _].
    assumption. }
  pose proof (setting_up_more _ _ _ Hl Hpre Hcp) as Hl'.
  rewrite <- (app_assoc pre), app_assoc.
  destruct Htl as [[-> Hrc]|(post & -> & _)].
  - simpl. rewrite (setting_up_none _ _ _ Hl' Hsfx). split; [auto|].
    rewrite Hrc. intros [=].
  - simpl. rewrite (setting_up_connect _ _ _ Hl'). auto.
Qed.

(** ** Closing *)

Lemma call_close_shape rc c l r :
  call_close rc c l = Some r ->
  ∃ seg, snd r = l ++ seg ∧ forallb plain seg = true.
Proof.
  unfold call_close, tls_close, ssl_socket_close, raw_socket_close.
  destruct (conn_close c); try discriminate; intros [= <-];
    destruct (sockdata c) as [d|]; try destruct (isopen d); simpl;
    rewrite <- ?app_assoc; eexists; split; reflexivity.
Qed.

Lemma mutt_socket_close_shape rc c l r :
  mutt_socket_close rc c l = Some r ->
  ∃ seg, snd r = l ++ seg ∧ forallb plain seg = true.
Proof.
  unfold mutt_socket_close. destruct (fd c <? 0).
  - simpl. intros [= <-]. exists []. rewrite app_nil_r. auto.
  - destruct (call_close rc c l) as [[[rc' c'] l']|] eqn:Hc; [|discriminate].
    simpl. intros [= <-]. apply (call_close_shape _ _ _ _ Hc).
Qed.


(** ** STARTTLS *)

Lemma starttls_result cfg tc e c log :
  let r := mutt_ssl_starttls cfg tc e c log in
  (fst (fst r) = -1 ∧ snd (fst r) = c) ∨
  (fst (fst r) = 0 ∧ snd (fst r) = secured e c).
Proof.
  cbv zeta. unfold mutt_ssl_starttls.
  destruct (negb (init_rc e =? 0)); [auto|].
  destruct (negb (ctx_new_ok e)); [auto|].
  destruct (negb (set_options_ok e)); [auto|].
  destruct (SslUsesystemcerts tc && negb (verify_paths_ok e)); [auto|].
  destruct (match SslCiphers tc with
            | Some _ => negb (cipher_list_ok e)
            | None => false
            end); [auto|].
  destruct (negb (ssl_new_ok e)); [auto|].
  destruct (negb (set_fd_ok e)); [auto|].
  destruct (ssl_negotiate _ _) as [rc log8].
  destruct (negb (rc =? 0)); [auto|].
  right. auto.
Qed.

Lemma starttls_closes_nothing cfg tc e c log :
  closed_fds (snd (mutt_ssl_starttls cfg tc e c log)) = closed_fds log.
Proof.
  unfold mutt_ssl_starttls.
  assert (Hsys : ∀ l : list TlsEvent,
    closed_fds (if SslUsesystemcerts tc then l ++ [SetDefaultVerifyPaths]
                else l) = closed_fds l).
  { intros l. destruct (SslUsesystemcerts tc); [|reflexivity].
    apply closed_fds_calm. reflexivity. }
  assert (Hci : ∀ l : list TlsEvent,
    closed_fds (match SslCiphers tc with
                | Some _ => l ++ [SetCipherList]
                | None => l
                end) = closed_fds l).
  { intros l. destruct (SslCiphers tc); [|reflexivity].
    apply closed_fds_calm. reflexivity. }
  assert (Hlt : ∀ l, closed_fds (load_trust cfg tc l) = closed_fds l).
  { intros l. rewrite load_trust_app. apply closed_fds_calm.
    apply load_trust_quiet. }
  assert (Hwp : ∀ l, closed_fds (warn_partial cfg e l) = closed_fds l).
  { intros l. rewrite warn_partial_app. apply closed_fds_calm.
    apply warn_partial_quiet. }
  assert (Hng : ∀ l, closed_fds (snd (ssl_negotiate (handshake e) l))
                     = closed_fds l).
  { intros l. rewrite ssl_negotiate_app. simpl. apply closed_fds_calm.
    apply ssl_negotiate_shape. }
  destruct (negb (init_rc e =? 0)); [reflexivity|].
  destruct (negb (ctx_new_ok e));
    [simpl; rewrite closed_fds_app; apply app_nil_r|].
  destruct (negb (set_options_ok e));
    [simpl; rewrite !closed_fds_app; simpl; rewrite !app_nil_r; reflexivity|].
  destruct (SslUsesystemcerts tc && negb (verify_paths_ok e)).
  { simpl. rewrite Hsys, !closed_fds_app. simpl. rewrite !app_nil_r.
    reflexivity. }
  destruct (match SslCiphers tc with
            | Some _ => negb (cipher_list_ok e)
            | None => false
            end).
  { simpl. rewrite Hci, Hlt, Hsys, !closed_fds_app. simpl.
    rewrite !app_nil_r. reflexivity. }
  destruct (negb (ssl_new_ok e)).
  { simpl. rewrite closed_fds_app, Hwp, Hci, Hlt, Hsys, !closed_fds_app.
    simpl. rewrite !app_nil_r. reflexivity. }
  destruct (negb (set_fd_ok e)).
  { simpl. rewrite !closed_fds_app, Hwp, Hci, Hlt, Hsys, !closed_fds_app.
    simpl. rewrite !app_nil_r. reflexivity. }
  destruct (ssl_negotiate _ _) as [rc log8] eqn:Hn.
  assert (Hlog8 : closed_fds log8 = closed_fds log).
  { change log8 with (snd (rc, log8)). rewrite <- Hn, Hng.
    rewrite !closed_fds_app, Hwp, Hci, Hlt, Hsys, !closed_fds_app.
    simpl. rewrite !app_nil_r. reflexivity. }
  destruct (negb (rc =? 0)); exact Hlog8.
Qed.

(** X27.  A STARTTLS that fails leaves the connection as it was: the
    descriptor, the methods and the socket data are those of the plain
    connection, which can go on in the clear.  Whether it fails or
    succeeds, [mutt_ssl_starttls] closes no descriptor. *)
Theorem starttls_failure_leaves_connection (cfg : Config) (tc : TlsConfig)
    (e : TlsEnv) (c c' : Conn) (log log' : list TlsEvent) (rc : Z) :
  mutt_ssl_starttls cfg tc e c log = (rc, c', log') -> rc <> 0 ->
  rc = -1 ∧ c' = c ∧ closed_fds log' = closed_fds log.
Proof.
  intros Hcall Hrc.
  pose proof (starttls_result cfg tc e c log) as Hres.
  pose proof (starttls_closes_nothing cfg tc e c log) as Hcl.
  cbv zeta in Hres. rewrite Hcall in Hres, Hcl. simpl in Hres, Hcl.
  destruct Hres as [[-> ->]|[-> _]]; [auto | contradiction].
Qed.

Lemma starttls_failure_leaves_connection_witness :
  mutt_ssl_starttls Scenario.cfg_default tls_defaults refused_env plain_conn []
    = (-1, plain_conn,
       [CtxNew; SetOptions [SSL_OP_NO_SSLv3; SSL_OP_NO_SSLv2];
        SetDefaultVerifyPaths; LoadCertificates; SslNew; SetFd 5; SslConnect;
        MuttError "SSL failed: alert"]) ∧
  -1 <> 0 ∧
  -1 = -1 ∧ plain_conn = plain_conn ∧
  closed_fds [CtxNew; SetOptions [SSL_OP_NO_SSLv3; SSL_OP_NO_SSLv2];
              SetDefaultVerifyPaths; LoadCertificates; SslNew; SetFd 5;
              SslConnect; MuttError "SSL failed: alert"] = closed_fds [].
Proof.
  assert (H1 : mutt_ssl_starttls Scenario.cfg_default tls_defaults refused_env
                 plain_conn []
               = (-1, plain_conn,
                  [CtxNew; SetOptions [SSL_OP_NO_SSLv3; SSL_OP_NO_SSLv2];
                   SetDefaultVerifyPaths; LoadCertificates; SslNew; SetFd 5;
                   SslConnect; MuttError "SSL failed: alert"]))
    by reflexivity.
  assert (H2 : -1 <> 0) by lia.
  split; [exact H1|]. split; [exact H2|].
  exact (starttls_failure_leaves_connection _ _ _ _ _ _ _ _ H1 H2).
Defined.

(** The logs of the set-ups, with nothing in them before. *)
Lemma setting_up_systemcerts ops (b : bool) l :
  setting_up ops l ->
  setting_up ops (if b then l ++ [SetDefaultVerifyPaths] else l).
Proof.
  intros H. destruct b; [|exact H]. apply setting_up_more; auto.
Qed.

Lemma setting_up_load_trust ops cfg tc l :
  setting_up ops l -> setting_up ops (load_trust cfg tc l).
Proof.
  intros H. rewrite load_trust_app.
  apply setting_up_more; [exact H | apply load_trust_quiet..].
Qed.

Lemma setting_up_ciphers ops (o : option string) l :
  setting_up ops l ->
  setting_up ops (match o with Some _ => l ++ [SetCipherList] | None => l end).
Proof.
  intros H. destruct o; [|exact H]. apply setting_up_more; auto.
Qed.

Lemma setting_up_warn_partial ops cfg e l :
  setting_up ops l -> setting_up ops (warn_partial cfg e l).
Proof.
  intros H. rewrite warn_partial_app.
  apply setting_up_more; [exact H | apply warn_partial_quiet..].
Qed.

Lemma setting_up_disable ops (use : bool) op l :
  setting_up ops l ->
  setting_up (ops ++ if use then [] else [op]) (disable_unless use op l).
Proof.
  intros H. unfold disable_unless. destruct use.
  - rewrite app_nil_r. exact H.
  - apply setting_up_options. exact H.
Qed.

Lemma starttls_handshake cfg tc e c :
  let r := mutt_ssl_starttls cfg tc e c [] in
  (handshake_options (snd r) = Some (starttls_options tc) ∨
   handshake_options (snd r) = None) ∧
  (fst (fst r) = 0 -> handshake_options (snd r) = Some (starttls_options tc)).
Proof.
  cbv zeta. unfold mutt_ssl_starttls.
  set (ops := starttls_options tc).
  set (log2 := ([] ++ [CtxNew]) ++ [SetOptions ops]).
  set (log3 := if SslUsesystemcerts tc then log2 ++ [SetDefaultVerifyPaths]
               else log2).
  set (log4 := load_trust cfg tc log3).
  set (log5 := match SslCiphers tc with
               | Some _ => log4 ++ [SetCipherList]
               | None => log4
               end).
  set (log6 := warn_partial cfg e log5 ++ [SslNew]).
  set (log7 := log6 ++ [SetFd (fd c)]).
  assert (H2 : setting_up ops log2).
  { apply (setting_up_options [] ops ([] ++ [CtxNew])).
    apply setting_up_more; [apply setting_up_nil | reflexivity..]. }
  assert (H3 : setting_up ops log3) by (apply setting_up_systemcerts, H2).
  assert (H4 : setting_up ops log4) by (apply setting_up_load_trust, H3).
  assert (H5 : setting_up ops log5) by (apply setting_up_ciphers, H4).
  assert (H6 : setting_up ops log6).
  { apply setting_up_more; [|reflexivity..].
    apply setting_up_warn_partial, H5. }
  assert (H7 : setting_up ops log7)
    by (apply setting_up_more; [exact H6 | reflexivity..]).
  assert (Hnone : ∀ l, setting_up ops l -> handshake_options l = None).
  { intros l Hl. rewrite <- (app_nil_r l).
    apply (setting_up_none _ _ [] Hl). reflexivity. }
  destruct (negb (init_rc e =? 0)); [simpl; split; [auto|intros [=]]|].
  destruct (negb (ctx_new_ok e)); [simpl; split; [auto|intros [=]]|].
  destruct (negb (set_options_ok e));
    [simpl snd; simpl fst; rewrite (Hnone _ H2); split; [auto|intros [=]]|].
  destruct (SslUsesystemcerts tc && negb (verify_paths_ok e));
    [simpl snd; simpl fst; rewrite (Hnone _ H3); split; [auto|intros [=]]|].
  destruct (match SslCiphers tc with
            | Some _ => negb (cipher_list_ok e)
            | None => false
            end);
    [simpl snd; simpl fst; rewrite (Hnone _ H5); split; [auto|intros [=]]|].
  destruct (negb (ssl_new_ok e));
    [simpl snd; simpl fst; rewrite (Hnone _ H6); split; [auto|intros [=]]|].
  destruct (negb (set_fd_ok e));
    [simpl snd; simpl fst; rewrite (Hnone _ H7); split; [auto|intros [=]]|].
  rewrite ssl_negotiate_app.
  destruct (negotiate_handshake_options (handshake e) ops log7 [] H7 eq_refl)
    as [Hor Hok].
  rewrite app_nil_r in Hor, Hok.
  destruct (ssl_negotiate_rc (handshake e)) as [Hrc|Hrc]; rewrite Hrc in *;
    simpl; split; auto.
Qed.

(** The same for [ssl_socket_open]. *)
Lemma ssl_open_handshake cfg tc e c r :
  ssl_socket_open cfg tc e c [] = Some r ->
  (handshake_options (snd r) = Some (open_options tc) ∨
   handshake_options (snd r) = None) ∧
  (fst (fst r) = 0 -> handshake_options (snd r) = Some (open_options tc)).
Proof.
  unfold ssl_socket_open.
  destruct (raw_fd e) as [fd'|];
    [|intros [= <-]; simpl; split; [auto|intros [=]]].
  set (ops := open_options tc).
  set (log1 := [] ++ [RawOpen; CtxNew]).
  set (log2 := disable_unless (SslUseSslv3 tc) SSL_OP_NO_SSLv3
            (disable_unless (SslUseSslv2 tc) SSL_OP_NO_SSLv2
               (disable_unless (SslUseTlsv12 tc) SSL_OP_NO_TLSv1_2
                  (disable_unless (SslUseTlsv11 tc) SSL_OP_NO_TLSv1_1
                     (disable_unless (SslUseTlsv1 tc) SSL_OP_NO_TLSv1 log1))))).
  set (log3 := if SslUsesystemcerts tc then log2 ++ [SetDefaultVerifyPaths]
               else log2).
  set (log4 := load_trust cfg tc log3).
  set (log5 := match SslCiphers tc with
               | Some _ => log4 ++ [SetCipherList]
               | None => log4
               end).
  set (log6 := warn_partial cfg e log5 ++ [SslNew; SetFd fd']).
  assert (H1 : setting_up [] log1) by (split; [reflexivity|]; apply setting_up_nil).
  assert (H2 : setting_up ops log2).
  { assert (Hops : ops = ((((([] ++ (if SslUseTlsv1 tc then [] else [SSL_OP_NO_TLSv1]))
                    ++ (if SslUseTlsv11 tc then [] else [SSL_OP_NO_TLSv1_1]))
                    ++ (if SslUseTlsv12 tc then [] else [SSL_OP_NO_TLSv1_2]))
                    ++ (if SslUseSslv2 tc then [] else [SSL_OP_NO_SSLv2]))
                    ++ (if SslUseSslv3 tc then [] else [SSL_OP_NO_SSLv3]))).
    { subst ops. unfold open_options. rewrite <- !app_assoc. reflexivity. }
    rewrite Hops. subst log2. do 5 apply setting_up_disable. exact H1. }
  assert (H3 : setting_up ops log3) by (apply setting_up_systemcerts, H2).
  assert (H4 : setting_up ops log4) by (apply setting_up_load_trust, H3).
  assert (H5 : setting_up ops log5) by (apply setting_up_ciphers, H4).
  assert (H6 : setting_up ops log6).
  { apply setting_up_more; [|reflexivity..].
    apply setting_up_warn_partial, H5. }
  assert (Hfail : ∀ ops' cc l r',
    setting_up ops' l ->
    ('(_, c', log') ← mutt_socket_close (close_rc e) cc l; Some (-1, c', log'))
      = Some r' ->
    (handshake_options (snd r') = Some ops ∨ handshake_options (snd r') = None)
    ∧ (fst (fst r') = 0 -> handshake_options (snd r') = Some ops)).
  { intros ops' cc l r' Hl Hr.
    destruct (mutt_socket_close (close_rc e) cc l) as [[[rc0 c0] l0]|] eqn:Hc;
      [|discriminate].
    simpl in Hr. injection Hr as <-.
    destruct (mutt_socket_close_shape _ _ _ _ Hc) as (seg & Hseg & Hplain).
    simpl in Hseg. subst l0. simpl.
    rewrite (setting_up_none _ _ _ Hl Hplain). split; [auto|intros [=]]. }
  destruct (negb (ctx_new_ok e)).
  { apply (Hfail []). apply setting_up_more; [exact H1|reflexivity..]. }
  destruct (SslUsesystemcerts tc && negb (verify_paths_ok e));
    [apply (Hfail ops), H3|].
  rewrite ssl_negotiate_app.
  destruct (ssl_negotiate_rc (handshake e)) as [Hrc|Hrc]; rewrite Hrc; simpl.
  - intros [= <-]. simpl.
    destruct (negotiate_handshake_options (handshake e) ops log6 [] H6 eq_refl)
      as [_ Hok].
    rewrite app_nil_r in Hok. auto.
  - intros Hr.
    destruct (mutt_socket_close _ _ _) as [[[rc0 c0] l0]|] eqn:Hc;
      [|discriminate].
    simpl in Hr. injection Hr as <-.
    destruct (mutt_socket_close_shape _ _ _ _ Hc) as (seg & Hseg & Hplain).
    simpl in Hseg. subst l0. simpl.
    destruct (negotiate_handshake_options (handshake e) ops log6 seg H6 Hplain)
      as [Hor _].
    rewrite <- app_assoc. split; [exact Hor | intros [=]].
Qed.

Ltac in_list :=
  solve [repeat first [apply list_elem_of_here | apply list_elem_of_further]].

Ltac not_in_list :=
  let H := fresh in
  intros H; repeat (apply elem_of_cons in H as [H|H]; [discriminate|]);
  apply elem_of_nil in H; exact H.

Ltac switch_iff :=
  split;
  [ first [ intros _; reflexivity
          | let H := fresh in intros H; exfalso; revert H; not_in_list ]
  | first [ discriminate | intros _; in_list ] ].

(** X28.  The protocols open to a handshake.  By the time [ssl_socket_open]
    calls [SSL_connect] it has switched off exactly the protocol versions
    whose [ssl_use_*] variable is unset.  [mutt_ssl_starttls] does so for
    the TLS versions only: it switches SSLv2 and SSLv3 off whatever
    [ssl_use_sslv2] and [ssl_use_sslv3] say.  A set-up that succeeds has
    made its handshake. *)
Theorem handshake_protocols (cfg : Config) (tc : TlsConfig) (e : TlsEnv)
    (c : Conn) :
  (∀ ops,
     handshake_options (snd (mutt_ssl_starttls cfg tc e c [])) = Some ops ->
     SSL_OP_NO_SSLv2 ∈ ops ∧ SSL_OP_NO_SSLv3 ∈ ops ∧
     (SSL_OP_NO_TLSv1 ∈ ops ↔ SslUseTlsv1 tc = false) ∧
     (SSL_OP_NO_TLSv1_1 ∈ ops ↔ SslUseTlsv11 tc = false) ∧
     (SSL_OP_NO_TLSv1_2 ∈ ops ↔ SslUseTlsv12 tc = false)) ∧
  (∀ r ops,
     ssl_socket_open cfg tc e c [] = Some r ->
     handshake_options (snd r) = Some ops ->
     (SSL_OP_NO_SSLv2 ∈ ops ↔ SslUseSslv2 tc = false) ∧
     (SSL_OP_NO_SSLv3 ∈ ops ↔ SslUseSslv3 tc = false) ∧
     (SSL_OP_NO_TLSv1 ∈ ops ↔ SslUseTlsv1 tc = false) ∧
     (SSL_OP_NO_TLSv1_1 ∈ ops ↔ SslUseTlsv11 tc = false) ∧
     (SSL_OP_NO_TLSv1_2 ∈ ops ↔ SslUseTlsv12 tc = false)) ∧
  (fst (fst (mutt_ssl_starttls cfg tc e c [])) = 0 ->
   handshake_options (snd (mutt_ssl_starttls cfg tc e c [])) ≠ None) ∧
  (∀ r, ssl_socket_open cfg tc e c [] = Some r -> fst (fst r) = 0 ->
        handshake_options (snd r) ≠ None).
Proof.
  pose proof (starttls_handshake cfg tc e c) as Hs. cbv zeta in Hs.
  split_and!.
  - intros ops Hops. destruct Hs as [[Hs|Hs] _]; [|congruence].
    assert (ops = starttls_options tc) by congruence. subst ops.
    unfold starttls_options.
    destruct (SslUseTlsv1 tc), (SslUseTlsv11 tc), (SslUseTlsv12 tc);
      simpl; split_and!; first [in_list | switch_iff].
  - intros r ops Hr Hops.
    destruct (ssl_open_handshake cfg tc e c r Hr) as [[Ho|Ho] _];
      [|congruence].
    assert (ops = open_options tc) by congruence. subst ops.
    unfold open_options.
    destruct (SslUseSslv2 tc), (SslUseSslv3 tc), (SslUseTlsv1 tc),
      (SslUseTlsv11 tc), (SslUseTlsv12 tc);
      simpl; split_and!; switch_iff.
  - intros Hrc. rewrite (proj2 Hs Hrc). discriminate.
  - intros r Hr Hrc.
    rewrite (proj2 (ssl_open_handshake cfg tc e c r Hr) Hrc). discriminate.
Qed.

(** ** A session from set-up to tear-down *)

Lemma with_sockdata_same c d : sockdata c = Some d -> with_sockdata c (Some d) = c.
Proof. destruct c; simpl; intros ->; reflexivity. Qed.

Lemma io_failed_iff (rc : Z) (eintr : bool) :
  (rc <=? 0) || eintr = negb ((0 <? rc) && negb eintr).
Proof.
  destruct eintr; simpl; [rewrite orb_true_r, andb_false_r; reflexivity|].
  rewrite orb_false_r, andb_true_r.
  destruct (Z.leb_spec rc 0), (Z.ltb_spec 0 rc); simpl; auto; lia.
Qed.

Lemma run_io_spec (ops : list IoOp) :
  ∀ c d, sockdata c = Some d ->
  ∃ d', run_io ops c = Some (with_sockdata c (Some d')) ∧
        (isopen d' = true ->
         isopen d = true ∧
         ∀ op, op ∈ ops -> is_read op = true -> succeeded op = true) ∧
        (isopen d = true -> (∀ op, op ∈ ops -> succeeded op = true) ->
         isopen d' = true).
Proof.
  induction ops as [|op ops IH]; intros c d Hd.
  - exists d. simpl. rewrite (with_sockdata_same _ _ Hd).
    split; [reflexivity|]. split; [|auto].
    intros H. split; [exact H|]. intros op Hin. inversion Hin.
  - assert (Hstep : ∃ d1,
      run_io (op :: ops) c = run_io ops (with_sockdata c (Some d1)) ∧
      (isopen d1 = true ->
       isopen d = true ∧ (is_read op = true -> succeeded op = true)) ∧
      (isopen d = true -> succeeded op = true -> isopen d1 = true)).
    { destruct op as [rc eintr er|rc eintr er]; simpl;
        unfold ssl_socket_read, ssl_socket_write; rewrite Hd; simpl;
        rewrite io_failed_iff;
        destruct ((0 <? rc) && negb eintr) eqn:Hs; simpl.
      - exists d. rewrite (with_sockdata_same _ _ Hd). auto.
      - eexists. split; [reflexivity|]. split.
        + destruct er; simpl; discriminate.
        + intros _ [=].
      - exists d. rewrite (with_sockdata_same _ _ Hd). auto.
      - eexists. split; [reflexivity|]. split.
        + intros H. split; [|discriminate].
          destruct er; simpl in H; try discriminate; exact H.
        + intros _ [=]. }
    destruct Hstep as (d1 & Hrun & Hback & Hfwd).
    destruct (IH (with_sockdata c (Some d1)) d1 eq_refl)
      as (d' & Hrest & Hback' & Hfwd').
    exists d'. split; [rewrite Hrun, Hrest; destruct c; reflexivity|]. split.
    + intros H. destruct (Hback' H) as [H1 Hall].
      destruct (Hback H1) as [H0 Hop]. split; [exact H0|].
      intros op' [->|Hin]%elem_of_cons; auto.
    + intros H0 Hall. apply Hfwd'.
      * apply Hfwd; [exact H0|]. apply Hall, list_elem_of_here.
      * intros op' Hin. apply Hall, list_elem_of_further, Hin.
Qed.

(** X29.  A TLS session started with STARTTLS, used for any reads and
    writes and then closed with [mutt_socket_close]: the library's session
    and context are freed, the descriptor is closed once, and the
    connection is left with descriptor -1, no socket data and the raw
    read, write and close methods it had before TLS.  [SSL_shutdown] goes
    out before that only if no read has failed, and always when every read
    and write moved data. *)
Theorem tls_session_torn_down (cfg : Config) (tc : TlsConfig) (e : TlsEnv)
    (c c1 : Conn) (log log1 : list TlsEvent) (ops : list IoOp) (rc : Z) :
  mutt_ssl_starttls cfg tc e c log = (0, c1, log1) -> 0 <= fd c ->
  ∃ c2 shut,
    run_io ops c1 = Some c2 ∧
    mutt_socket_close rc c2 log1
      = Some (rc, torn_down c,
              log1 ++ shut ++ [SslFree; CtxFree; SysClose (fd c)]) ∧
    (shut = [] ∨ shut = [SslShutdown]) ∧
    (shut = [SslShutdown] ->
     ∀ op, op ∈ ops -> is_read op = true -> succeeded op = true) ∧
    ((∀ op, op ∈ ops -> succeeded op = true) -> shut = [SslShutdown]).
Proof.
  intros Hcall Hfd.
  pose proof (starttls_result cfg tc e c log) as Hres. cbv zeta in Hres.
  rewrite Hcall in Hres. simpl in Hres.
  destruct Hres as [[[=] _]|[_ ->]].
  destruct (run_io_spec ops (secured e c) (mkSslSockData true true true)
              eq_refl) as (d' & Hrun & Hback & Hfwd).
  exists (with_sockdata (secured e c) (Some d')),
         (if isopen d' then [SslShutdown] else []).
  split; [exact Hrun|]. split.
  { unfold mutt_socket_close, call_close. simpl.
    rewrite (proj2 (Z.ltb_ge _ _) Hfd).
    unfold tls_close, ssl_socket_close, raw_socket_close. simpl.
    destruct (isopen d'); simpl; rewrite <- ?app_assoc; reflexivity. }
  destruct (isopen d'); split_and!; auto.
  - intros _. apply Hback. reflexivity.
  - intros [=].
  - intros Hall. specialize (Hfwd eq_refl Hall). discriminate.
Qed.

Lemma tls_session_torn_down_witness :
  mutt_ssl_starttls Scenario.cfg_default tls_defaults good_env plain_conn []
    = (0, secured good_env plain_conn,
       [CtxNew; SetOptions [SSL_OP_NO_SSLv3; SSL_OP_NO_SSLv2];
        SetDefaultVerifyPaths; LoadCertificates; SslNew; SetFd 5; SslConnect])
  ∧ 0 <= fd plain_conn ∧
  ∃ c2 shut,
    run_io [Write 12 false SSL_ERROR_NONE; Read 0 false SSL_ERROR_ZERO_RETURN]
           (secured good_env plain_conn) = Some c2 ∧
    mutt_socket_close 0 c2
      [CtxNew; SetOptions [SSL_OP_NO_SSLv3; SSL_OP_NO_SSLv2];
       SetDefaultVerifyPaths; LoadCertificates; SslNew; SetFd 5; SslConnect]
      = Some (0, torn_down plain_conn,
              [CtxNew; SetOptions [SSL_OP_NO_SSLv3; SSL_OP_NO_SSLv2];
               SetDefaultVerifyPaths; LoadCertificates; SslNew; SetFd 5;
               SslConnect] ++ shut ++
              [SslFree; CtxFree; SysClose (fd plain_conn)]) ∧
    (shut = [] ∨ shut = [SslShutdown]) ∧
    (shut = [SslShutdown] ->
     ∀ op, op ∈ [Write 12 false SSL_ERROR_NONE;
                 Read 0 false SSL_ERROR_ZERO_RETURN] ->
           is_read op = true -> succeeded op = true) ∧
    ((∀ op, op ∈ [Write 12 false SSL_ERROR_NONE;
                  Read 0 false SSL_ERROR_ZERO_RETURN] ->
            succeeded op = true) -> shut = [SslShutdown]).
Proof.
  assert (H1 : mutt_ssl_starttls Scenario.cfg_default tls_defaults good_env
                 plain_conn []
               = (0, secured good_env plain_conn,
                  [CtxNew; SetOptions [SSL_OP_NO_SSLv3; SSL_OP_NO_SSLv2];
                   SetDefaultVerifyPaths; LoadCertificates; SslNew; SetFd 5;
                   SslConnect])) by reflexivity.
  assert (H2 : 0 <= fd plain_conn) by (simpl; lia).
  split; [exact H1|]. split; [exact H2|].
  exact (tls_session_torn_down _ _ _ _ _ _ _
           [Write 12 false SSL_ERROR_NONE; Read 0 false SSL_ERROR_ZERO_RETURN]
           0 H1 H2).
Defined.

(** ** Opening a TLS socket *)



End TlsOpsFacts.
